(** * uHash: the open-addressing hash table of uLib (include/uhash.h)

    A shallow embedding of the macro-generated table functions
    ([uhash_get], [uhash_put], [uhash_resize], [uhash_delete], [uhmap_set],
    ...) for the default configuration, in which [ulib_uint] is a 32-bit
    unsigned integer, followed by the properties proved about them.

    Conventions of the embedding:
    - a [ulib_uint] is a [Z] in [0, 2^32); every C operation that can
      wrap is written with [wrap];
    - a pointer to an array is an [option (list A)], [None] being [NULL];
    - a function that reads or writes memory returns an [option]: [None]
      stands for "no defined result" (an access outside the allocated
      array, a [NULL] dereference, or a loop that exhausts the iteration
      budget given to it);
    - the outcome of every allocation call is an input ([Alloc]). *)

From Stdlib Require Import ZArith Lia Bool List.
From stdpp Require Import base tactics option list list_numbers.

Local Open Scope Z_scope.

(** ** Machine integers *)

Definition ULIB_UINT_BITS : Z := 32.
Definition ULIB_UINT_MAX : Z := 2 ^ ULIB_UINT_BITS - 1.

(** Reduction of a mathematical integer to a [ulib_uint]. *)
Definition wrap (x : Z) : Z := x mod 2 ^ ULIB_UINT_BITS.

(** Modelled from the spec: [ulib_uint_next_power_2] is defined in ustd.h,
    which is not part of the sources at hand.  The spec says that resize
    "rounds [new_capacity] up to the next power of two"; the result is
    stored in a [ulib_uint], hence the reduction. *)
Definition ulib_uint_next_power_2 (x : Z) : Z := wrap (2 ^ Z.log2_up x).

(** ** Return codes and constants *)

Definition UHASH_ERR : Z := -1.
Definition UHASH_OK : Z := 0.
Definition UHASH_PRESENT : Z := 0.
Definition UHASH_INSERTED : Z := 1.
Definition UHASH_INDEX_MISSING : Z := ULIB_UINT_MAX.

(** [UHASH_MAX_LOAD] is the double nearest to 0.77, which is exactly
    [MAX_LOAD_NUM / 2^53]. *)
Definition MAX_LOAD_NUM : Z := 6935543426150564.
Definition MAX_LOAD_DEN : Z := 2 ^ 53.

(** [p_uhash_upper_bound(buckets) = (ulib_uint)(buckets * 0.77 + 0.5)].
    For every power of two up to [2^31], and for 0, the double product and
    sum are exact, so the truncation is the floor of the rational below. *)
Definition p_uhash_upper_bound (buckets : Z) : Z :=
  (buckets * MAX_LOAD_NUM * 2 + MAX_LOAD_DEN) / (2 * MAX_LOAD_DEN).

(** ** Flag words: two bits per bucket, sixteen buckets per [uint32_t] *)

Definition p_uhf_size (m : Z) : Z := if m <? 16 then 1 else Z.shiftr m 4.

Definition flag_index (i : Z) : nat := Z.to_nat (Z.shiftr i 4).
Definition flag_shift (i : Z) : Z := Z.shiftl (Z.land i 15) 1.

Definition p_uhf_isempty (flag : list Z) (i : Z) : option Z :=
  w ← flag !! flag_index i; Some (Z.land (Z.shiftr w (flag_shift i)) 2).
Definition p_uhf_isdel (flag : list Z) (i : Z) : option Z :=
  w ← flag !! flag_index i; Some (Z.land (Z.shiftr w (flag_shift i)) 1).
Definition p_uhf_iseither (flag : list Z) (i : Z) : option Z :=
  w ← flag !! flag_index i; Some (Z.land (Z.shiftr w (flag_shift i)) 3).

Definition p_uhf_set_isempty_false (flag : list Z) (i : Z) : option (list Z) :=
  w ← flag !! flag_index i;
  Some (<[flag_index i := Z.land w (Z.lnot (Z.shiftl 2 (flag_shift i)))]> flag).
Definition p_uhf_set_isboth_false (flag : list Z) (i : Z) : option (list Z) :=
  w ← flag !! flag_index i;
  Some (<[flag_index i := Z.land w (Z.lnot (Z.shiftl 3 (flag_shift i)))]> flag).
Definition p_uhf_set_isdel_true (flag : list Z) (i : Z) : option (list Z) :=
  w ← flag !! flag_index i;
  Some (<[flag_index i := Z.lor w (Z.shiftl 1 (flag_shift i))]> flag).

(** [memset(flags, 0xaa, p_uhf_size(m) * sizeof(uint32_t))]. *)
Definition flags_all_empty (m : Z) : list Z :=
  replicate (Z.to_nat (p_uhf_size m)) 2863311530.

(** ** Memory *)

(** Outcome of the allocation calls of one [uhash_resize], in program
    order: the [ulib_malloc] of the new flags, the [ulib_realloc] of the
    keys, the [ulib_realloc] of the values. *)
Record Alloc := { flags_ok : bool; keys_ok : bool; vals_ok : bool }.

Definition alloc_all_ok : Alloc :=
  {| flags_ok := true; keys_ok := true; vals_ok := true |}.

(** [ulib_realloc(p, n * sizeof(A))] when it succeeds: the first [n]
    cells are kept, new cells hold [undef]. *)
Definition ulib_realloc {A} (undef : A) (p : option (list A)) (n : Z) : list A :=
  resize (Z.to_nat n) undef (default [] p).

Definition load {A} (p : option (list A)) (i : Z) : option A :=
  l ← p; l !! Z.to_nat i.

Definition store {A} (p : option (list A)) (i : Z) (x : A) : option (list A) :=
  l ← p;
  if decide (Z.to_nat i < length l)%nat then Some (<[Z.to_nat i := x]> l) else None.

(** The triangular probe step [i = (i + (++step)) & mask]. *)
Definition probe_next (mask i step : Z) : Z * Z :=
  let step' := wrap (step + 1) in (Z.land (wrap (i + step')) mask, step').

(** ** The table *)

Record UHash (K V : Type) := mkUHash {
  _size : Z;
  _occupied : Z;
  _count : Z;
  _flags : option (list Z);
  _keys : option (list K);
  _vals : option (list V)
}.
Arguments mkUHash {K V}.
Arguments _size {K V}.
Arguments _occupied {K V}.
Arguments _count {K V}.
Arguments _flags {K V}.
Arguments _keys {K V}.
Arguments _vals {K V}.

(** Working storage of the rehash loop of [uhash_resize]: the old flags
    (used as scratch space), the new flags, and the key and value arrays
    shared by the old and the new layout. *)
Record Rehash (K V : Type) := mkRehash {
  r_flags : list Z;
  r_new_flags : list Z;
  r_keys : option (list K);
  r_vals : option (list V)
}.
Arguments mkRehash {K V}.
Arguments r_flags {K V}.
Arguments r_new_flags {K V}.
Arguments r_keys {K V}.
Arguments r_vals {K V}.

(** The capability pair a table type is instantiated with ([hash_func],
    [equal_func]), together with the content of freshly allocated cells
    and the value [{ 0 }] of the value type. *)
Class UHashOps (K V : Type) := {
  hash_func : K → Z;
  equal_func : K → K → bool;
  undef_key : K;
  undef_val : V;
  zero_val : V
}.

Section UHash.
Context {K V : Type} `{ops : UHashOps K V}.

Local Abbreviation UHash := (UHash K V).
Local Abbreviation Rehash := (Rehash K V).

Definition uhset : UHash := mkUHash 0 0 0 None None None.

Definition uhmap : UHash :=
  let h := uhset in
  mkUHash (_size h) 1 (_count h) (_flags h) (_keys h) (_vals h).

Definition uhash_is_map (h : UHash) : bool :=
  bool_decide (is_Some (_vals h)) || (_occupied h >? _size h).

Definition p_uhash_occupied (h : UHash) : Z :=
  if _occupied h >? _size h then 0 else _occupied h.

(** [(ulib_uint)(hash_func(key)) & mask] *)
Definition hash_index (key : K) (mask : Z) : Z :=
  Z.land (wrap (hash_func key)) mask.

(** The loop condition shared by [uhash_get] and [uhash_put]:
    [!isempty(i) && (isdel(i) || !equal_func(keys[i], key))]. *)
Definition probe_continue (fl : list Z) (ks : option (list K))
    (key : K) (i : Z) : option bool :=
  e ← p_uhf_isempty fl i;
  if e =? 0 then
    d ← p_uhf_isdel fl i;
    if d =? 0 then k ← load ks i; Some (negb (equal_func k key))
    else Some true
  else Some false.

Fixpoint uhash_get_loop (fuel : nat) (fl : list Z) (ks : option (list K))
    (key : K) (mask last i step : Z) : option Z :=
  c ← probe_continue fl ks key i;
  if c : bool then
    match fuel with
    | O => None
    | S fuel' =>
      let '(i', step') := probe_next mask i step in
      if i' =? last then Some UHASH_INDEX_MISSING
      else uhash_get_loop fuel' fl ks key mask last i' step'
    end
  else
    e ← p_uhf_iseither fl i;
    Some (if e =? 0 then i else UHASH_INDEX_MISSING).

Definition uhash_get (h : UHash) (key : K) : option Z :=
  if _size h =? 0 then Some UHASH_INDEX_MISSING
  else
    fl ← _flags h;
    let mask := wrap (_size h - 1) in
    let i := hash_index key mask in
    uhash_get_loop (Z.to_nat (2 * _size h)) fl (_keys h) key mask i i 0.

(** [while (!p_uhf_isempty(new_flags, i)) i = (i + (++step)) & new_mask;] *)
Fixpoint find_empty (fuel : nat) (nfl : list Z) (mask i step : Z) : option Z :=
  e ← p_uhf_isempty nfl i;
  if e =? 0 then
    match fuel with
    | O => None
    | S fuel' =>
      let '(i', step') := probe_next mask i step in
      find_empty fuel' nfl mask i' step'
    end
  else Some i.

(** The kick-out process: the [while (true)] loop of [uhash_resize],
    entered with the element in hand. *)
Fixpoint kick_out (fuel : nat) (size new_mask : Z) (st : Rehash)
    (key : K) (val : V) : option Rehash :=
  match fuel with
  | O => None
  | S fuel' =>
    i ← find_empty (Z.to_nat (new_mask + 1)) (r_new_flags st) new_mask
          (hash_index key new_mask) 0;
    nfl ← p_uhf_set_isempty_false (r_new_flags st) i;
    live ← (if i <? size
            then e ← p_uhf_iseither (r_flags st) i; Some (e =? 0)
            else Some false);
    if live : bool then
      tmpk ← load (r_keys st) i;
      ks ← store (r_keys st) i key;
      '(vs, val') ← match r_vals st with
                    | Some _ =>
                      tmpv ← load (r_vals st) i;
                      vs ← store (r_vals st) i val;
                      Some (Some vs, tmpv)
                    | None => Some (None, val)
                    end;
      fl ← p_uhf_set_isdel_true (r_flags st) i;
      kick_out fuel' size new_mask (mkRehash fl nfl (Some ks) vs) tmpk val'
    else
      ks ← store (r_keys st) i key;
      vs ← match r_vals st with
           | Some _ => vs ← store (r_vals st) i val; Some (Some vs)
           | None => Some None
           end;
      Some (mkRehash (r_flags st) nfl (Some ks) vs)
  end.

(** The [for (j = 0; j != h->_size; ++j)] loop of [uhash_resize], with
    [n] iterations left. *)
Fixpoint rehash (n : nat) (j size new_mask : Z) (st : Rehash) : option Rehash :=
  match n with
  | O => Some st
  | S n' =>
    e ← p_uhf_iseither (r_flags st) j;
    st' ← (if e =? 0 then
             key ← load (r_keys st) j;
             val ← match r_vals st with
                   | Some _ => load (r_vals st) j
                   | None => Some zero_val
                   end;
             fl ← p_uhf_set_isdel_true (r_flags st) j;
             kick_out (Z.to_nat (size + 1)) size new_mask
               (mkRehash fl (r_new_flags st) (r_keys st) (r_vals st)) key val
           else Some st);
    rehash n' (wrap (j + 1)) size new_mask st'
  end.

(** Allocation part of the "Expand" branch: [inl] is the table left
    behind when an allocation fails. *)
Definition resize_expand (a : Alloc) (h : UHash) (new_size : Z) : UHash + UHash :=
  if _size h <? new_size then
    if keys_ok a then
      let h1 := mkUHash (_size h) (_occupied h) (_count h) (_flags h)
                  (Some (ulib_realloc undef_key (_keys h) new_size)) (_vals h) in
      if uhash_is_map h1 then
        if vals_ok a then
          inr (mkUHash (_size h1) (_occupied h1) (_count h1) (_flags h1) (_keys h1)
                 (Some (ulib_realloc undef_val (_vals h1) new_size)))
        else inl h1
      else inr h1
    else inl h
  else inr h.

Definition uhash_resize (a : Alloc) (h : UHash) (new_size : Z) : option (Z * UHash) :=
  let new_size := ulib_uint_next_power_2 new_size in
  let new_size := if new_size <? 4 then 4 else new_size in
  if _count h >=? p_uhash_upper_bound new_size then Some (UHASH_OK, h)
  else if negb (flags_ok a) then Some (UHASH_ERR, h)
  else
    let new_flags := flags_all_empty new_size in
    match resize_expand a h new_size with
    | inl h1 => Some (UHASH_ERR, h1)
    | inr h1 =>
      st ← rehash (Z.to_nat (_size h1)) 0 (_size h1) (wrap (new_size - 1))
             (mkRehash (default [] (_flags h1)) new_flags (_keys h1) (_vals h1));
      let shrink := _size h1 >? new_size in
      let ks := if shrink
                then (if keys_ok a
                      then Some (ulib_realloc undef_key (r_keys st) new_size)
                      else None)
                else r_keys st in
      let vs := if shrink
                then match r_vals st with
                     | Some _ => if vals_ok a
                                 then Some (ulib_realloc undef_val (r_vals st) new_size)
                                 else None
                     | None => None
                     end
                else r_vals st in
      Some (UHASH_OK,
            mkUHash new_size (_count h1) (_count h1) (Some (r_new_flags st)) ks vs)
    end.

(** The probe loop of [uhash_put]; the result is the final [i], the
    reuse [site], and whether the loop was left through [break]. *)
Fixpoint uhash_put_loop (fuel : nat) (fl : list Z) (ks : option (list K))
    (key : K) (mask last i step site : Z) : option (Z * Z * bool) :=
  c ← probe_continue fl ks key i;
  if c : bool then
    match fuel with
    | O => None
    | S fuel' =>
      d ← p_uhf_isdel fl i;
      let site := if d =? 0 then site else i in
      let '(i', step') := probe_next mask i step in
      if i' =? last then Some (i', site, true)
      else uhash_put_loop fuel' fl ks key mask last i' step' site
    end
  else Some (i, site, false).

(** The bucket [x] chosen by [uhash_put] for [key]. *)
Definition uhash_put_site (h : UHash) (key : K) : option Z :=
  fl ← _flags h;
  let mask := wrap (_size h - 1) in
  let i := hash_index key mask in
  let site := _size h in
  e ← p_uhf_isempty fl i;
  if e =? 0 then
    '(i', site', broke) ← uhash_put_loop (Z.to_nat (2 * _size h)) fl (_keys h)
                            key mask i i 0 site;
    let x := if broke : bool then site' else _size h in
    if x =? _size h then
      e' ← p_uhf_isempty fl i';
      Some (if negb (e' =? 0) && negb (site' =? _size h) then site' else i')
    else Some x
  else Some i.

(** First part of [uhash_put]: the table is resized when the occupied
    buckets have reached the load bound. *)
Definition uhash_put_resize (a : Alloc) (h : UHash) : option (Z * UHash) :=
  if p_uhash_occupied h >=? p_uhash_upper_bound (_size h) then
    if _size h >? wrap (Z.shiftl (_count h) 1)
    then uhash_resize a h (wrap (_size h - 1))
    else uhash_resize a h (wrap (_size h + 1))
  else Some (UHASH_OK, h).

(** Second part of [uhash_put]: probe for the bucket and fill it. *)
Definition uhash_put_insert (h : UHash) (key : K) : option (Z * Z * UHash) :=
  x ← uhash_put_site h key;
  fl ← _flags h;
  e ← p_uhf_isempty fl x;
  d ← p_uhf_isdel fl x;
  '(ret, h') ←
    (if negb (e =? 0) then
       ks ← store (_keys h) x key;
       fl' ← p_uhf_set_isboth_false fl x;
       Some (UHASH_INSERTED,
             mkUHash (_size h) (wrap (_occupied h + 1)) (wrap (_count h + 1))
               (Some fl') (Some ks) (_vals h))
     else if negb (d =? 0) then
       ks ← store (_keys h) x key;
       fl' ← p_uhf_set_isboth_false fl x;
       Some (UHASH_INSERTED,
             mkUHash (_size h) (_occupied h) (wrap (_count h + 1))
               (Some fl') (Some ks) (_vals h))
     else Some (UHASH_PRESENT, h));
  Some (ret, if x =? _size h then UHASH_INDEX_MISSING else x, h').

(** [uhash_put(h, key, &idx)]: the return code, the index stored in
    [idx], and the table afterwards. *)
Definition uhash_put (a : Alloc) (h : UHash) (key : K) : option (Z * Z * UHash) :=
  '(r, h) ← uhash_put_resize a h;
  if negb (r =? 0) then Some (UHASH_ERR, UHASH_INDEX_MISSING, h)
  else uhash_put_insert h key.

Definition uhash_delete (h : UHash) (x : Z) : option UHash :=
  fl ← _flags h;
  e ← p_uhf_iseither fl x;
  if e =? 0 then
    fl' ← p_uhf_set_isdel_true fl x;
    Some (mkUHash (_size h) (_occupied h) (wrap (_count h - 1))
            (Some fl') (_keys h) (_vals h))
  else Some h.

Definition uhash_clear (h : UHash) : option UHash :=
  if p_uhash_occupied h =? 0 then Some h
  else
    fl ← _flags h;
    let n := Z.to_nat (p_uhf_size (_size h)) in
    if decide (n ≤ length fl)%nat then
      Some (mkUHash (_size h) 0 0 (Some (flags_all_empty (_size h) ++ drop n fl))
              (_keys h) (_vals h))
    else None.

(** [uhash_exists(T, h, x)] and [uhash_contains(T, h, k)]. *)
Definition uhash_exists (h : UHash) (x : Z) : option bool :=
  fl ← _flags h; e ← p_uhf_iseither fl x; Some (e =? 0).

Definition uhash_contains (h : UHash) (key : K) : option bool :=
  k ← uhash_get h key; Some (negb (k =? UHASH_INDEX_MISSING)).

Definition uhmap_get (h : UHash) (key : K) (if_missing : V) : option V :=
  k ← uhash_get h key;
  if k =? UHASH_INDEX_MISSING then Some if_missing else load (_vals h) k.

(** [uhmap_set(h, key, value, &existing)]: the return code, the value
    stored in [existing] (if any) and the table afterwards. *)
Definition uhmap_set (a : Alloc) (h : UHash) (key : K) (value : V)
    : option (Z * option V * UHash) :=
  '(ret, k, h) ← uhash_put a h key;
  if negb (ret =? UHASH_ERR) then
    existing ← (if ret =? UHASH_PRESENT
                then v ← load (_vals h) k; Some (Some v)
                else Some None);
    vs ← store (_vals h) k value;
    Some (ret, existing,
          mkUHash (_size h) (_occupied h) (_count h) (_flags h) (_keys h) (Some vs))
  else Some (ret, None, h).

Definition uhset_insert (a : Alloc) (h : UHash) (key : K)
    : option (Z * option K * UHash) :=
  '(ret, k, h) ← uhash_put a h key;
  if ret =? UHASH_PRESENT then
    e ← load (_keys h) k; Some (ret, Some e, h)
  else Some (ret, None, h).

(** ** Specification vocabulary *)

(** The two status bits of slot [a] of a flag word. *)
Definition pair_get (w a : Z) : Z := Z.land (Z.shiftr w (2 * a)) 3.

(** A bucket is live when neither flag is set, used when it is not empty
    (live or tombstoned), and a tombstone when it is used but not live. *)
Definition is_live (fl : list Z) (i : Z) : bool :=
  match p_uhf_iseither fl i with Some 0 => true | _ => false end.
Definition is_used (fl : list Z) (i : Z) : bool :=
  match p_uhf_isempty fl i with Some 0 => true | _ => false end.
Definition is_tomb (fl : list Z) (i : Z) : bool :=
  is_used fl i && negb (is_live fl i).

(** Number of indices below [n] that satisfy [f]. *)
Fixpoint countZ (f : Z → bool) (n : nat) : Z :=
  match n with
  | O => 0
  | S n' => countZ f n' + (if f (Z.of_nat n') then 1 else 0)
  end.

(** The [k]-th bucket visited by the probe sequence that starts at
    [start]: the steps add 1, 2, 3, ... modulo the table size. *)
Definition tri (k : Z) : Z := k * (k + 1) / 2.
Definition probe_pos (size start k : Z) : Z := (start + tri k) mod size.

Definition flags_of (h : UHash) : list Z := default [] (_flags h).

Definition pow2_size (n : Z) : Prop := ∃ e, 2 ≤ e ≤ 31 ∧ n = 2 ^ e.

(** The storage a lookup reads is allocated: the capacity is a power of
    two and the flag and key arrays cover it. *)
Definition allocated (h : UHash) : Prop :=
  pow2_size (_size h) ∧
  p_uhf_size (_size h) ≤ Z.of_nat (length (flags_of h)) ∧
  _size h ≤ Z.of_nat (length (default [] (_keys h))).

(** [chain h key i]: bucket [i] is met by the probe sequence of [key]
    during its first lap, after buckets that all make the lookup loop
    continue. *)
Definition chain (h : UHash) (key : K) (i : Z) : Prop :=
  ∃ m, 0 ≤ m < _size h ∧
       probe_pos (_size h) (hash_index key (_size h - 1)) m = i ∧
       ∀ j, 0 ≤ j < m →
            probe_continue (flags_of h) (_keys h) key
              (probe_pos (_size h) (hash_index key (_size h - 1)) j) = Some true.

(** [first_stop h key m]: the [m]-th bucket of the probe sequence of
    [key] is the first one at which the probe loop stops. *)
Definition first_stop (h : UHash) (key : K) (m : Z) : Prop :=
  0 ≤ m < _size h ∧
  (∀ j, 0 ≤ j < m →
        probe_continue (flags_of h) (_keys h) key
          (probe_pos (_size h) (hash_index key (_size h - 1)) j) = Some true) ∧
  probe_continue (flags_of h) (_keys h) key
    (probe_pos (_size h) (hash_index key (_size h - 1)) m) = Some false.

(** The part of the table invariant that involves the flags and the
    counters only. *)
Record counts_ok (h : UHash) : Prop := {
  co_size : _size h = 0 ∨ pow2_size (_size h);
  co_flags : _size h ≠ 0 → length (flags_of h) = Z.to_nat (p_uhf_size (_size h));
  co_count : _count h = countZ (is_live (flags_of h)) (Z.to_nat (_size h));
  co_occupied : p_uhash_occupied h = countZ (is_used (flags_of h)) (Z.to_nat (_size h));
  co_raw : _size h ≠ 0 → _occupied h ≤ _size h
}.

(** The table invariant: counters, allocated arrays, and every live key
    is where a lookup finds it. *)
Record WF (h : UHash) : Prop := {
  wf_counts : counts_ok h;
  wf_keys : _size h ≠ 0 → ∃ ks, _keys h = Some ks ∧ _size h ≤ Z.of_nat (length ks);
  wf_vals : ∀ vs, _vals h = Some vs → _size h ≤ Z.of_nat (length vs);
  wf_chain : ∀ i, 0 ≤ i < _size h → is_live (flags_of h) i = true →
                  ∃ k, load (_keys h) i = Some k ∧ chain h k i
}.

(** Executable check of the invariant, for concrete tables. *)
Definition wfb (h : UHash) : bool :=
  let n := _size h in
  let fl := flags_of h in
  ((n =? 0) || ((4 <=? n) && (n <=? 2 ^ 31) && (n =? 2 ^ Z.log2 n)))
  && ((n =? 0) || (Z.of_nat (length fl) =? p_uhf_size n))
  && (_count h =? countZ (is_live fl) (Z.to_nat n))
  && (p_uhash_occupied h =? countZ (is_used fl) (Z.to_nat n))
  && ((n =? 0) || (_occupied h <=? n))
  && ((n =? 0) || (n <=? Z.of_nat (length (default [] (_keys h)))))
  && match _vals h with Some vs => n <=? Z.of_nat (length vs) | None => true end
  && forallb (λ i, negb (is_live fl i) ||
                   match load (_keys h) i with
                   | Some k => bool_decide (uhash_get h k = Some i)
                   | None => false
                   end) (seqZ 0 n).

(** *** The invariant of the rehash loop

    During the rehash, the key array holds at index [i] an element of the
    new layout when the new flags mark [i] as used, and an element of the
    old layout that has not been moved yet when the old flags mark [i] as
    live.  [hand] is the element carried by the kick-out process. *)
Definition new_used (N : Z) (st : Rehash) (i : Z) : bool :=
  (i <? N) && is_used (r_new_flags st) i.
Definition old_live (S : Z) (st : Rehash) (i : Z) : bool :=
  (i <? S) && is_live (r_flags st) i.
Definition occupant (S N : Z) (st : Rehash) (i : Z) : bool :=
  new_used N st i || old_live S st i.
Definition hand_val (st : Rehash) (v : V) : option V :=
  match r_vals st with Some _ => Some v | None => None end.

Record rehash_inv (E : K → option V → Prop) (C S N : Z) (st : Rehash)
    (hand : option (K * V)) : Prop := {
  ri_flags : ∀ i, 0 ≤ i < S → is_Some (p_uhf_iseither (r_flags st) i);
  ri_new_flags : ∀ i, 0 ≤ i < N →
    p_uhf_iseither (r_new_flags st) i = Some 0 ∨
    p_uhf_iseither (r_new_flags st) i = Some 2;
  ri_new_len : length (r_new_flags st) = Z.to_nat (p_uhf_size N);
  ri_keys : ∃ kl, r_keys st = Some kl ∧ Z.max S N ≤ Z.of_nat (length kl);
  ri_vals : ∀ vl, r_vals st = Some vl → Z.max S N ≤ Z.of_nat (length vl);
  ri_disjoint : ∀ i, 0 ≤ i → new_used N st i = true → old_live S st i = false;
  ri_count :
    countZ (is_used (r_new_flags st)) (Z.to_nat N) +
    countZ (is_live (r_flags st)) (Z.to_nat S) +
    match hand with Some _ => 1 | None => 0 end = C;
  ri_content : ∀ k ov,
    E k ov ↔
    ((∃ i, 0 ≤ i ∧ occupant S N st i = true ∧
           load (r_keys st) i = Some k ∧ load (r_vals st) i = ov) ∨
     (∃ v, hand = Some (k, v) ∧ ov = hand_val st v));
  ri_inj : ∀ i i' k,
    0 ≤ i → 0 ≤ i' → occupant S N st i = true → occupant S N st i' = true →
    load (r_keys st) i = Some k → load (r_keys st) i' = Some k → i = i';
  ri_hand : ∀ k v i,
    hand = Some (k, v) → 0 ≤ i → occupant S N st i = true →
    load (r_keys st) i ≠ Some k;
  ri_chain : ∀ i, 0 ≤ i < N → is_used (r_new_flags st) i = true →
    ∃ k, load (r_keys st) i = Some k ∧
         ∃ m, 0 ≤ m < N ∧ probe_pos N (hash_index k (N - 1)) m = i ∧
              ∀ j, 0 ≤ j < m →
                   is_used (r_new_flags st) (probe_pos N (hash_index k (N - 1)) j) = true
}.

(** The counting part of the invariant of the rehash loop; [b] is 1 while
    the kick-out process holds an element and 0 otherwise. *)
Record rehash_counts (C S N : Z) (st : Rehash) (b : Z) : Prop := {
  rc_flags : ∀ i, 0 ≤ i < S → is_Some (p_uhf_iseither (r_flags st) i);
  rc_new_flags : ∀ i, 0 ≤ i < N →
    p_uhf_iseither (r_new_flags st) i = Some 0 ∨
    p_uhf_iseither (r_new_flags st) i = Some 2;
  rc_new_len : length (r_new_flags st) = Z.to_nat (p_uhf_size N);
  rc_count :
    countZ (is_used (r_new_flags st)) (Z.to_nat N) +
    countZ (is_live (r_flags st)) (Z.to_nat S) + b = C
}.

(** [cell h i k ov]: bucket [i] is live and holds key [k], with value
    [ov] ([None] when the table has no value array). *)
Definition cell (h : UHash) (i : Z) (k : K) (ov : option V) : Prop :=
  0 ≤ i < _size h ∧ is_live (flags_of h) i = true ∧
  load (_keys h) i = Some k ∧ load (_vals h) i = ov.

Definition has (h : UHash) (k : K) (ov : option V) : Prop := ∃ i, cell h i k ov.

Definition member (h : UHash) (k : K) : Prop := ∃ i ov, cell h i k ov.

(** Two tables with the same live entries. *)
Definition same_content (h h' : UHash) : Prop := ∀ k ov, has h' k ov ↔ has h k ov.

(** The shrink branch of [uhash_resize] assigns the result of
    [ulib_realloc] without testing it: [shrink_fails a h n] holds when that
    branch is taken and one of its calls fails. *)
Definition resize_target (new_size : Z) : Z :=
  let n := ulib_uint_next_power_2 new_size in if n <? 4 then 4 else n.

Definition shrink_fails (a : Alloc) (h : UHash) (new_size : Z) : bool :=
  (_size h >? resize_target new_size) &&
  (negb (keys_ok a) || (bool_decide (is_Some (_vals h)) && negb (vals_ok a))).

(** [alloc_fails a h n]: one of the allocation calls that [uhash_resize]
    checks fails, namely that of the new flags or, when the table grows,
    that of the keys or of the values. *)
Definition alloc_fails (a : Alloc) (h : UHash) (new_size : Z) : bool :=
  negb (flags_ok a) ||
  ((_size h <? resize_target new_size) &&
   (negb (keys_ok a) || (uhash_is_map h && negb (vals_ok a)))).

(** No allocation call fails. *)
Definition all_ok (a : Alloc) : bool := flags_ok a && keys_ok a && vals_ok a.

(** The counters agree with the flags, and below the maximal capacity
    the occupied buckets do not exceed the load bound. *)
Record load_ok (h : UHash) : Prop := {
  lo_counts : counts_ok h;
  lo_bound : _size h < 2 ^ 31 → p_uhash_occupied h ≤ p_uhash_upper_bound (_size h)
}.

(** Tables reachable from a fresh set or map through the operations of
    the interface, whatever the allocator does. *)
Inductive reachable : UHash → Prop :=
| reach_uhset : reachable uhset
| reach_uhmap : reachable uhmap
| reach_put a h key r idx h' :
    reachable h → uhash_put a h key = Some (r, idx, h') → reachable h'
| reach_delete h x h' :
    reachable h → 0 ≤ x < _size h → uhash_delete h x = Some h' → reachable h'
| reach_resize a h n r h' :
    reachable h → 0 ≤ n ≤ ULIB_UINT_MAX → uhash_resize a h n = Some (r, h') →
    reachable h'
| reach_clear h h' :
    reachable h → uhash_clear h = Some h' → reachable h'
| reach_uhmap_set a h key v r e h' :
    reachable h → uhmap_set a h key v = Some (r, e, h') → reachable h'.

(** Tables built through the interface on valid arguments: bucket indices
    within the capacity, values stored in maps only, fewer than [2 ^ 31]
    occupied buckets at an insertion, and no failure of a reallocation
    whose result the shrink branch of [uhash_resize] does not test. *)
Inductive built : UHash → Prop :=
| built_uhset : built uhset
| built_uhmap : built uhmap
| built_put a h key r idx h' :
    built h → p_uhash_occupied h < 2 ^ 31 →
    uhash_put a h key = Some (r, idx, h') → built h'
| built_delete h x h' :
    built h → 0 ≤ x < _size h → uhash_delete h x = Some h' → built h'
| built_resize a h n r h' :
    built h → shrink_fails a h n = false →
    uhash_resize a h n = Some (r, h') → built h'
| built_clear h h' :
    built h → uhash_clear h = Some h' → built h'
| built_uhmap_set a h key v r e h' :
    built h → uhash_is_map h = true → p_uhash_occupied h < 2 ^ 31 →
    uhmap_set a h key v = Some (r, e, h') → built h'.

(** Insertion of a list of keys with an allocator that never fails, and
    of a list of bindings, each with the behaviour of the allocator during
    the call; [None] if a step has no result or returns [UHASH_ERR]. *)
Fixpoint put_all (h : UHash) (l : list K) : option UHash :=
  match l with
  | [] => Some h
  | k :: l' =>
    '(r, _, h') ← uhash_put alloc_all_ok h k;
    if r =? UHASH_ERR then None else put_all h' l'
  end.

Fixpoint set_all (h : UHash) (l : list (Alloc * K * V)) : option UHash :=
  match l with
  | [] => Some h
  | (a, k, v) :: l' =>
    '(r, _, h') ← uhmap_set a h k v;
    if r =? UHASH_ERR then None else set_all h' l'
  end.

(** The value last associated with [k] in a list of bindings. *)
Fixpoint last_binding (l : list (Alloc * K * V)) (k : K) : option V :=
  match l with
  | [] => None
  | (_, k', v) :: l' =>
    match last_binding l' k with
    | Some v' => Some v'
    | None => if equal_func k' k then Some v else None
    end
  end.

(** ** The rest of the interface

    An out-parameter that may be [NULL] is a boolean: the value is read,
    and reported as [Some], only when it is [true]. *)

(** [uhash_next]:
    [for (; i < h->_size && !uhash_exists(T, h, i); ++i) {}  return i;] *)
Fixpoint uhash_next_loop (fuel : nat) (h : UHash) (i : Z) : option Z :=
  if i <? _size h then
    e ← uhash_exists h i;
    if e : bool then Some i
    else match fuel with
         | O => None
         | S fuel' => uhash_next_loop fuel' h (wrap (i + 1))
         end
  else Some i.

Definition uhash_next (h : UHash) (i : Z) : option Z :=
  uhash_next_loop (Z.to_nat (_size h)) h i.

Definition uhset_get_any (h : UHash) (if_empty : K) : option K :=
  i ← uhash_next h 0;
  if i =? _size h then Some if_empty else load (_keys h) i.

(** [uhmap_add(h, key, value, existing)]: the return code, the value
    stored in [existing] (if any) and the table afterwards. *)
Definition uhmap_add (a : Alloc) (h : UHash) (key : K) (value : V) (existing : bool)
    : option (Z * option V * UHash) :=
  '(ret, k, h) ← uhash_put a h key;
  if ret =? UHASH_INSERTED then
    vs ← store (_vals h) k value;
    Some (ret, None,
          mkUHash (_size h) (_occupied h) (_count h) (_flags h) (_keys h) (Some vs))
  else if (ret =? UHASH_PRESENT) && existing then
    v ← load (_vals h) k; Some (ret, Some v, h)
  else Some (ret, None, h).

Definition uhmap_replace (h : UHash) (key : K) (value : V) (replaced : bool)
    : option (bool * option V * UHash) :=
  k ← uhash_get h key;
  if k =? UHASH_INDEX_MISSING then Some (false, None, h)
  else
    old ← (if replaced then v ← load (_vals h) k; Some (Some v) else Some None);
    vs ← store (_vals h) k value;
    Some (true, old,
          mkUHash (_size h) (_occupied h) (_count h) (_flags h) (_keys h) (Some vs)).

(** [uhmap_remove(h, key, r_key, r_val)]; [uhmap_pop] passes both
    pointers, [uhmap_remove(T, h, k)] passes none. *)
Definition uhmap_remove (h : UHash) (key : K) (r_key r_val : bool)
    : option (bool * option K * option V * UHash) :=
  k ← uhash_get h key;
  if k =? UHASH_INDEX_MISSING then Some (false, None, None, h)
  else
    rk ← (if r_key then x ← load (_keys h) k; Some (Some x) else Some None);
    rv ← (if r_val then x ← load (_vals h) k; Some (Some x) else Some None);
    h' ← uhash_delete h k;
    Some (true, rk, rv, h').

Definition uhset_replace (h : UHash) (key : K) (replaced : bool)
    : option (bool * option K * UHash) :=
  k ← uhash_get h key;
  if k =? UHASH_INDEX_MISSING then Some (false, None, h)
  else
    old ← (if replaced then x ← load (_keys h) k; Some (Some x) else Some None);
    ks ← store (_keys h) k key;
    Some (true, old,
          mkUHash (_size h) (_occupied h) (_count h) (_flags h) (Some ks) (_vals h)).

Definition uhset_remove (h : UHash) (key : K) (removed : bool)
    : option (bool * option K * UHash) :=
  k ← uhash_get h key;
  if k =? UHASH_INDEX_MISSING then Some (false, None, h)
  else
    old ← (if removed then x ← load (_keys h) k; Some (Some x) else Some None);
    h' ← uhash_delete h k;
    Some (true, old, h').

(** [uhset_insert_all(h, items, n)]: [items] are the [n] elements of the
    array; [a0] is the allocator during the call of [uhash_resize] and
    [a i] during the insertion of the [i]-th element.  Each element is
    inserted by [uhset_insert_##T(h, items[i], NULL)], which is
    [uhash_put_##T] with the index dropped. *)
Fixpoint uhset_insert_all_loop (a : nat → Alloc) (h : UHash) (items : list K)
    (i : nat) (ret : Z) : option (Z * UHash) :=
  match items with
  | [] => Some (ret, h)
  | key :: items' =>
    '(l_ret, _, h') ← uhash_put (a i) h key;
    if l_ret =? UHASH_ERR then Some (UHASH_ERR, h')
    else uhset_insert_all_loop a h' items' (S i)
           (if l_ret =? UHASH_INSERTED then UHASH_INSERTED else ret)
  end.

Definition uhset_insert_all (a0 : Alloc) (a : nat → Alloc) (h : UHash)
    (items : list K) : option (Z * UHash) :=
  '(r, h1) ← uhash_resize a0 h (Z.of_nat (length items));
  if negb (r =? 0) then Some (UHASH_ERR, h1)
  else uhset_insert_all_loop a h1 items 0 UHASH_PRESENT.

(** [uhset_is_superset(h1, h2)]: the loop over the buckets of [h2], with
    [n] iterations left. *)
Fixpoint uhset_is_superset_loop (n : nat) (i : Z) (h1 h2 : UHash) : option bool :=
  match n with
  | O => Some true
  | S n' =>
    e ← uhash_exists h2 i;
    miss ← (if e : bool
            then k ← load (_keys h2) i; r ← uhash_get h1 k;
                 Some (r =? UHASH_INDEX_MISSING)
            else Some false);
    if miss : bool then Some false
    else uhset_is_superset_loop n' (wrap (i + 1)) h1 h2
  end.

Definition uhset_is_superset (h1 h2 : UHash) : option bool :=
  uhset_is_superset_loop (Z.to_nat (_size h2)) 0 h1 h2.

Definition uhset_equals (h1 h2 : UHash) : option bool :=
  if _count h1 =? _count h2 then uhset_is_superset h1 h2 else Some false.

(** [uhset_union(h1, h2)], for two distinct tables; [a i] is the
    allocator during the insertion of the key of bucket [i] of [h2]. *)
Fixpoint uhset_union_loop (a : Z → Alloc) (n : nat) (i : Z) (h1 h2 : UHash)
    : option (Z * UHash) :=
  match n with
  | O => Some (UHASH_OK, h1)
  | S n' =>
    e ← uhash_exists h2 i;
    if e : bool then
      k ← load (_keys h2) i;
      '(r, _, h1') ← uhash_put (a i) h1 k;
      if r =? UHASH_ERR then Some (UHASH_ERR, h1')
      else uhset_union_loop a n' (wrap (i + 1)) h1' h2
    else uhset_union_loop a n' (wrap (i + 1)) h1 h2
  end.

Definition uhset_union (a : Z → Alloc) (h1 h2 : UHash) : option (Z * UHash) :=
  uhset_union_loop a (Z.to_nat (_size h2)) 0 h1 h2.

(** [uhset_intersect(h1, h2)], for two distinct tables. *)
Fixpoint uhset_intersect_loop (n : nat) (i : Z) (h1 h2 : UHash) : option UHash :=
  match n with
  | O => Some h1
  | S n' =>
    e ← uhash_exists h1 i;
    h1' ← (if e : bool
           then k ← load (_keys h1) i; r ← uhash_get h2 k;
                if r =? UHASH_INDEX_MISSING then uhash_delete h1 i else Some h1
           else Some h1);
    uhset_intersect_loop n' (wrap (i + 1)) h1' h2
  end.

Definition uhset_intersect (h1 h2 : UHash) : option UHash :=
  uhset_intersect_loop (Z.to_nat (_size h1)) 0 h1 h2.

(** [uhset_hash(h)]: the exclusive or of the hashes of the keys. *)
Fixpoint uhset_hash_loop (n : nat) (i : Z) (h : UHash) (hash : Z) : option Z :=
  match n with
  | O => Some hash
  | S n' =>
    e ← uhash_exists h i;
    hash' ← (if e : bool
             then k ← load (_keys h) i; Some (Z.lxor hash (wrap (hash_func k)))
             else Some hash);
    uhset_hash_loop n' (wrap (i + 1)) h hash'
  end.

Definition uhset_hash (h : UHash) : option Z :=
  uhset_hash_loop (Z.to_nat (_size h)) 0 h 0.

(** The keys of the live buckets, in bucket order. *)
Definition live_keys (h : UHash) : list K :=
  omap (λ i, if is_live (flags_of h) i then load (_keys h) i else None)
       (seqZ 0 (_size h)).

(** [memcpy(dst, src, n * sizeof(A))] into a block of [n] cells: the
    first [n] cells of the source, which must hold as many. *)
Definition copy_cells {A} (p : option (list A)) (n : Z) : option (list A) :=
  l ← p;
  if decide (Z.to_nat n ≤ length l)%nat then Some (take (Z.to_nat n) l) else None.

(** [uhash_copy_as_set(src, dest)], for two distinct tables.  The fields
    of the allocator give the outcome of the [ulib_realloc] of the flags,
    of the keys and (in [uhash_copy]) of the values of [dest].  When the
    reallocation of the keys fails, the block just obtained for the flags
    is freed while [dest->_flags] still holds the pointer that was passed
    to [ulib_realloc]: unless that pointer was [NULL], [dest] is left
    with a pointer into freed memory, a state that has no counterpart
    here, and the result is [None]. *)
Definition uhash_copy_as_set (a : Alloc) (src dest : UHash) : option (Z * UHash) :=
  if _size src =? 0 then Some (UHASH_OK, uhset)
  else if negb (flags_ok a) then Some (UHASH_ERR, dest)
  else if negb (keys_ok a) then
    match _flags dest with
    | None => Some (UHASH_ERR, dest)
    | Some _ => None
    end
  else
    fl ← copy_cells (_flags src) (p_uhf_size (_size src));
    ks ← copy_cells (_keys src) (_size src);
    Some (UHASH_OK,
          mkUHash (_size src) (_occupied src) (_count src) (Some fl) (Some ks)
            (_vals dest)).

Definition uhash_copy (a : Alloc) (src dest : UHash) : option (Z * UHash) :=
  '(ret, d) ← uhash_copy_as_set a src dest;
  if (ret =? UHASH_OK) && uhash_is_map src then
    if _size src =? 0 then Some (UHASH_OK, uhmap)
    else if vals_ok a then
      vs ← copy_cells (_vals src) (_size src);
      Some (ret, mkUHash (_size d) (_occupied d) (_count d) (_flags d) (_keys d)
                   (Some vs))
    else Some (UHASH_ERR, d)
  else Some (ret, d).

(** [uhash_foreach(T, h, e)]: the buckets at which the body of the loop
    runs, in order.  The loop goes on while [e.i != h->_size], the
    pointer [h->_keys + e.i] is not [NULL] and, in a map, neither is
    [h->_vals + e.i]; adding a positive index to [NULL] has no defined
    result. *)
Definition ptr_at {A} (p : option (list A)) (i : Z) : option bool :=
  match p with
  | Some _ => Some true
  | None => if i =? 0 then Some false else None
  end.

Fixpoint uhash_foreach_loop (fuel : nat) (h : UHash) (i : Z) : option (list Z) :=
  if i =? _size h then Some []
  else
    k ← ptr_at (_keys h) i;
    v ← (if k && uhash_is_map h then ptr_at (_vals h) i else Some true);
    if k && v then
      match fuel with
      | O => None
      | S fuel' =>
        i' ← uhash_next h (wrap (i + 1));
        rest ← uhash_foreach_loop fuel' h i';
        Some (i :: rest)
      end
    else Some [].

Definition uhash_foreach (h : UHash) : option (list Z) :=
  i ← uhash_next h 0; uhash_foreach_loop (Z.to_nat (_size h)) h i.

(** The live buckets, in increasing order. *)
Definition live_buckets (h : UHash) : list Z :=
  filter (λ i, is_live (flags_of h) i = true) (seqZ 0 (_size h)).

End UHash.

(** ** The instantiation of the test suite

    [UHASH_INIT(IntHash, uint32_t, uint32_t, uhash_int32_hash,
    uhash_identical)]: in the default configuration [uhash_int32_hash] is
    the cast to [ulib_uint]. *)
#[export] Instance IntHash : UHashOps Z Z := {
  hash_func k := k;
  equal_func := Z.eqb;
  undef_key := 0;
  undef_val := 0;
  zero_val := 0
}.

(** The table built by a sequence of calls that all have a result. *)
Definition table (o : option (UHash Z Z)) : UHash Z Z := default uhset o.

(** The set holding the keys [0 .. 99] and the map [{0:0, ..., 99:99}]
    of the test suite. *)
Definition set_0_99 : UHash Z Z := table (put_all uhset (seqZ 0 100)).
Definition bindings_0_99 : list (Alloc * Z * Z) :=
  (λ i, (alloc_all_ok, i, i)) <$> seqZ 0 100.
Definition map_0_99 : UHash Z Z := table (set_all uhmap bindings_0_99).

(** Smaller sets: the keys [0 .. 24], the keys [0, 1, 2], and the key [0]
    alone, in the four buckets of the first allocation and in eight. *)
Definition set_0_24 : UHash Z Z := table (put_all uhset (seqZ 0 25)).
Definition set_0_2 : UHash Z Z := table (put_all uhset [0; 1; 2]).
Definition set_0 : UHash Z Z := table (put_all uhset [0]).
Definition set_0_cap8 : UHash Z Z := table (snd <$> uhash_resize alloc_all_ok set_0 8).

(** The set [{0, ..., 99}] after the deletion of the bucket of 0, which
    leaves a tombstone. *)
Definition set_1_99 : UHash Z Z := table (uhash_delete set_0_99 0).

(** An allocator whose reallocation of the key array fails. *)
Definition keys_alloc_fails : Alloc :=
  {| flags_ok := true; keys_ok := false; vals_ok := true |}.

(** ** String hashing

    [p_uhash_x31_str_hash(key)]: [key] is the memory at the pointer, a
    list of [char] values that must hold the terminating zero.

    After [h = (ulib_uint) key[0]], which ends the call with 0 if it is
    zero: [for (++key; key[0]; ++key) h = (h << 5U) - h + (ulib_uint) key[0];] *)
Fixpoint x31_loop (key : list Z) (h : Z) : option Z :=
  match key with
  | [] => None
  | c :: key' =>
    if c =? 0 then Some h
    else x31_loop key' (wrap (wrap (wrap (Z.shiftl h 5) - h) + wrap c))
  end.

Definition p_uhash_x31_str_hash (key : list Z) : option Z :=
  match key with
  | [] => None
  | c :: key' =>
    let h := wrap c in
    if h =? 0 then Some 0 else x31_loop key' h
  end.

(** The value of a string as a number in base 31. *)
Definition base31 (cs : list Z) : Z := fold_left (λ h c, 31 * h + c) cs 0.

(** * Properties *)

Section Properties.
Context {K V : Type} `{ops : UHashOps K V}.

Local Abbreviation UHash := (UHash K V).
Local Abbreviation Rehash := (Rehash K V).
Implicit Types (h : UHash) (st : Rehash) (key : K) (fl nfl : list Z).
Implicit Types (ks : option (list K)) (vs : option (list V)).

Arguments probe_next : simpl never.
Arguments wrap : simpl never.
Arguments hash_index : simpl never.
Arguments probe_continue : simpl never.
Arguments p_uhf_isempty : simpl never.
Arguments p_uhf_isdel : simpl never.
Arguments p_uhf_iseither : simpl never.
Arguments p_uhf_set_isempty_false : simpl never.
Arguments p_uhf_set_isboth_false : simpl never.
Arguments p_uhf_set_isdel_true : simpl never.
Arguments p_uhf_size : simpl never.
Arguments flags_all_empty : simpl never.
Arguments load : simpl never.
Arguments store : simpl never.
Arguments probe_pos : simpl never.
Arguments p_uhash_upper_bound : simpl never.
Arguments ulib_realloc : simpl never.

(** The equality supplied with the key type decides equality of keys. *)
Hypothesis equal_spec : ∀ a b : K, equal_func a b = true ↔ a = b.

(** ** Flag words *)

Lemma flag_shift_eq i : 0 ≤ i → flag_shift i = 2 * (i mod 16).
Proof.
  intros Hi. unfold flag_shift.
  change 15 with (Z.ones 4). rewrite Z.land_ones by lia.
  rewrite Z.shiftl_mul_pow2 by lia. change (2 ^ 4) with 16. lia.
Qed.

Lemma flag_index_eq i : 0 ≤ i → flag_index i = Z.to_nat (i / 16).
Proof.
  intros Hi. unfold flag_index. rewrite Z.shiftr_div_pow2 by lia. reflexivity.
Qed.

Lemma testbit_3 n : 0 ≤ n → Z.testbit 3 n = (n <? 2).
Proof.
  intros Hn. change 3 with (Z.ones 2).
  destruct (Z.ltb_spec n 2).
  - apply Z.ones_spec_low. lia.
  - apply Z.ones_spec_high. lia.
Qed.

Lemma pair_get_bits w a n :
  0 ≤ a → 0 ≤ n → Z.testbit (pair_get w a) n = Z.testbit w (n + 2 * a) && (n <? 2).
Proof.
  intros Ha Hn. unfold pair_get.
  rewrite Z.land_spec, Z.shiftr_spec, testbit_3 by lia. reflexivity.
Qed.

Lemma pair_get_range w a : 0 ≤ a → 0 ≤ pair_get w a ≤ 3.
Proof.
  intros Ha. unfold pair_get. split.
  - apply Z.land_nonneg. right. lia.
  - assert (H : 0 ≤ Z.land (Z.shiftr w (2 * a)) 3 < 2 ^ 2).
    { rewrite Z.land_comm. change 3 with (Z.ones 2).
      rewrite Z.land_comm, Z.land_ones by lia. apply Z.mod_pos_bound. lia. }
    change (2 ^ 2) with 4 in H. lia.
Qed.

Lemma small_bits c n : 0 ≤ c ≤ 3 → 2 ≤ n → Z.testbit c n = false.
Proof.
  intros Hc Hn.
  assert (c = 0 ∨ c = 1 ∨ c = 2 ∨ c = 3) as [->|[->|[->| ->]]] by lia.
  - apply Z.bits_0.
  - change 1 with (Z.ones 1). apply Z.ones_spec_high. lia.
  - change 2 with (Z.shiftl 1 1). rewrite Z.shiftl_spec by lia.
    change 1 with (Z.ones 1) at 1. apply Z.ones_spec_high. lia.
  - rewrite testbit_3 by lia. apply Z.ltb_ge. lia.
Qed.

(** Clearing bits [c] of slot [a] leaves the other slots alone. *)
Lemma pair_get_clear w a b c :
  0 ≤ a → 0 ≤ b → 0 ≤ c ≤ 3 →
  pair_get (Z.land w (Z.lnot (Z.shiftl c (2 * a)))) b =
  if decide (a = b) then Z.land (pair_get w a) (Z.lnot c) else pair_get w b.
Proof.
  intros Ha Hb Hc. apply Z.bits_inj'. intros n Hn.
  rewrite pair_get_bits, Z.land_spec, Z.lnot_spec, Z.shiftl_spec by lia.
  destruct (decide (a = b)) as [->|Hab].
  - rewrite Z.land_spec, Z.lnot_spec, pair_get_bits by lia.
    replace (n + 2 * b - 2 * b) with n by lia.
    destruct (Z.testbit w (n + 2 * b)), (Z.testbit c n), (n <? 2); reflexivity.
  - rewrite pair_get_bits by lia.
    destruct (Z.ltb_spec n 2); [|rewrite !andb_false_r; reflexivity].
    destruct (Z.le_gt_cases 0 (n + 2 * b - 2 * a)).
    + rewrite (small_bits c) by lia. rewrite andb_true_r. reflexivity.
    + rewrite (Z.testbit_neg_r c) by lia. rewrite andb_true_r. reflexivity.
Qed.

Lemma pair_get_lor w a b c :
  0 ≤ a → 0 ≤ b → 0 ≤ c ≤ 3 →
  pair_get (Z.lor w (Z.shiftl c (2 * a))) b =
  if decide (a = b) then Z.lor (pair_get w a) c else pair_get w b.
Proof.
  intros Ha Hb Hc. apply Z.bits_inj'. intros n Hn.
  rewrite pair_get_bits, Z.lor_spec, Z.shiftl_spec by lia.
  destruct (decide (a = b)) as [->|Hab].
  - rewrite Z.lor_spec, pair_get_bits by lia.
    replace (n + 2 * b - 2 * b) with n by lia.
    destruct (Z.ltb_spec n 2).
    + rewrite !andb_true_r. reflexivity.
    + rewrite (small_bits c) by lia. rewrite !andb_false_r. reflexivity.
  - rewrite pair_get_bits by lia.
    destruct (Z.ltb_spec n 2); [|rewrite !andb_false_r; reflexivity].
    destruct (Z.le_gt_cases 0 (n + 2 * b - 2 * a)).
    + rewrite (small_bits c) by lia. rewrite orb_false_r. reflexivity.
    + rewrite (Z.testbit_neg_r c) by lia. rewrite orb_false_r. reflexivity.
Qed.

Lemma iseither_word fl i :
  0 ≤ i →
  p_uhf_iseither fl i = w ← fl !! Z.to_nat (i / 16); Some (pair_get w (i mod 16)).
Proof.
  intros Hi. unfold p_uhf_iseither, pair_get.
  rewrite flag_index_eq, flag_shift_eq by lia. reflexivity.
Qed.

Lemma isempty_iseither fl i :
  p_uhf_isempty fl i = s ← p_uhf_iseither fl i; Some (Z.land s 2).
Proof.
  unfold p_uhf_isempty, p_uhf_iseither.
  destruct (fl !! flag_index i) as [w|]; simpl; [|reflexivity].
  rewrite <- Z.land_assoc. reflexivity.
Qed.

Lemma isdel_iseither fl i :
  p_uhf_isdel fl i = s ← p_uhf_iseither fl i; Some (Z.land s 1).
Proof.
  unfold p_uhf_isdel, p_uhf_iseither.
  destruct (fl !! flag_index i) as [w|]; simpl; [|reflexivity].
  rewrite <- Z.land_assoc. reflexivity.
Qed.

Lemma iseither_range fl i s : 0 ≤ i → p_uhf_iseither fl i = Some s → 0 ≤ s ≤ 3.
Proof.
  intros Hi. rewrite iseither_word by lia.
  destruct (fl !! Z.to_nat (i / 16)) as [w|]; simpl; [|discriminate].
  intros [= <-]. apply pair_get_range. apply Z.mod_pos_bound. lia.
Qed.

Lemma iseither_is_Some fl i :
  0 ≤ i → is_Some (p_uhf_iseither fl i) ↔ i < 16 * Z.of_nat (length fl).
Proof.
  intros Hi. rewrite iseither_word by lia.
  pose proof (Z.div_mod i 16 ltac:(lia)). pose proof (Z.mod_pos_bound i 16 ltac:(lia)).
  split.
  - intros [s Hs]. destruct (fl !! Z.to_nat (i / 16)) as [w|] eqn:Hw; [|discriminate].
    apply lookup_lt_Some in Hw. lia.
  - intros Hlt. destruct (lookup_lt_is_Some_2 fl (Z.to_nat (i / 16))) as [w Hw]; [lia|].
    rewrite Hw. simpl. eauto.
Qed.

(** Effect of rewriting the word of bucket [i] with a function that
    acts on the status pair of [i] alone. *)
Lemma iseither_update fl i j (f g : Z → Z) w :
  0 ≤ i → 0 ≤ j →
  (∀ b, 0 ≤ b → pair_get (f w) b =
        if decide (i mod 16 = b) then g (pair_get w (i mod 16)) else pair_get w b) →
  fl !! flag_index i = Some w →
  p_uhf_iseither (<[flag_index i := f w]> fl) j =
  if decide (i = j) then Some (g (pair_get w (i mod 16))) else p_uhf_iseither fl j.
Proof.
  intros Hi Hj Hf Hw. rewrite !iseither_word by lia.
  rewrite flag_index_eq in * by lia.
  pose proof (Z.div_mod i 16 ltac:(lia)). pose proof (Z.mod_pos_bound i 16 ltac:(lia)).
  pose proof (Z.div_mod j 16 ltac:(lia)). pose proof (Z.mod_pos_bound j 16 ltac:(lia)).
  pose proof (lookup_lt_Some _ _ _ Hw) as Hlen.
  destruct (decide (Z.to_nat (i / 16) = Z.to_nat (j / 16))) as [Heq|Hne].
  - rewrite <- Heq, list_lookup_insert_eq by lia. simpl.
    rewrite Hw. simpl. rewrite Hf by lia.
    destruct (decide (i mod 16 = j mod 16)), (decide (i = j)); try reflexivity; exfalso.
    + apply n. assert (i / 16 = j / 16) by lia. lia.
    + subst. lia.
  - rewrite list_lookup_insert_ne by lia.
    destruct (decide (i = j)); [subst; lia|reflexivity].
Qed.

Lemma set_isboth_false_spec fl i fl' :
  0 ≤ i → p_uhf_set_isboth_false fl i = Some fl' →
  length fl' = length fl ∧
  ∀ j, 0 ≤ j → p_uhf_iseither fl' j =
                if decide (i = j) then Some 0 else p_uhf_iseither fl j.
Proof.
  intros Hi. unfold p_uhf_set_isboth_false.
  destruct (fl !! flag_index i) as [w|] eqn:Hw; simpl; [|discriminate].
  intros [= <-]. split; [apply length_insert|]. intros j Hj.
  rewrite flag_shift_eq by lia.
  rewrite (iseither_update fl i j (λ w, Z.land w (Z.lnot (Z.shiftl 3 (2 * (i mod 16)))))
             (λ s, Z.land s (Z.lnot 3)) w); try lia; try assumption.
  - destruct (decide (i = j)); [|reflexivity]. f_equal.
    pose proof (pair_get_range w (i mod 16) ltac:(apply Z.mod_pos_bound; lia)).
    set (s := pair_get w (i mod 16)) in *.
    assert (s = 0 ∨ s = 1 ∨ s = 2 ∨ s = 3) as [->|[->|[->| ->]]] by lia; reflexivity.
  - intros b Hb. apply pair_get_clear; try lia. apply Z.mod_pos_bound. lia.
Qed.

Lemma set_isempty_false_spec fl i fl' :
  0 ≤ i → p_uhf_set_isempty_false fl i = Some fl' →
  length fl' = length fl ∧
  ∀ j, 0 ≤ j → p_uhf_iseither fl' j =
                if decide (i = j) then s ← p_uhf_iseither fl i; Some (Z.land s 1)
                else p_uhf_iseither fl j.
Proof.
  intros Hi. unfold p_uhf_set_isempty_false.
  destruct (fl !! flag_index i) as [w|] eqn:Hw; simpl; [|discriminate].
  intros [= <-]. split; [apply length_insert|]. intros j Hj.
  rewrite flag_shift_eq by lia.
  rewrite (iseither_update fl i j (λ w, Z.land w (Z.lnot (Z.shiftl 2 (2 * (i mod 16)))))
             (λ s, Z.land s (Z.lnot 2)) w); try lia; try assumption.
  - destruct (decide (i = j)); [|reflexivity].
    rewrite (iseither_word fl i) by lia. rewrite flag_index_eq in Hw by lia.
    rewrite Hw. simpl. f_equal.
    pose proof (pair_get_range w (i mod 16) ltac:(apply Z.mod_pos_bound; lia)).
    set (s := pair_get w (i mod 16)) in *.
    assert (s = 0 ∨ s = 1 ∨ s = 2 ∨ s = 3) as [->|[->|[->| ->]]] by lia; reflexivity.
  - intros b Hb. apply pair_get_clear; try lia. apply Z.mod_pos_bound. lia.
Qed.

Lemma set_isdel_true_spec fl i fl' :
  0 ≤ i → p_uhf_set_isdel_true fl i = Some fl' →
  length fl' = length fl ∧
  ∀ j, 0 ≤ j → p_uhf_iseither fl' j =
                if decide (i = j) then s ← p_uhf_iseither fl i; Some (Z.lor s 1)
                else p_uhf_iseither fl j.
Proof.
  intros Hi. unfold p_uhf_set_isdel_true.
  destruct (fl !! flag_index i) as [w|] eqn:Hw; simpl; [|discriminate].
  intros [= <-]. split; [apply length_insert|]. intros j Hj.
  rewrite flag_shift_eq by lia.
  rewrite (iseither_update fl i j (λ w, Z.lor w (Z.shiftl 1 (2 * (i mod 16))))
             (λ s, Z.lor s 1) w); try lia; try assumption.
  - destruct (decide (i = j)); [|reflexivity].
    rewrite (iseither_word fl i) by lia. rewrite flag_index_eq in Hw by lia.
    rewrite Hw. reflexivity.
  - intros b Hb. apply pair_get_lor; try lia. apply Z.mod_pos_bound. lia.
Qed.

(** The setters are defined exactly where the status can be read. *)
Lemma set_is_Some fl i s :
  p_uhf_iseither fl i = Some s →
  is_Some (p_uhf_set_isboth_false fl i) ∧ is_Some (p_uhf_set_isempty_false fl i) ∧
  is_Some (p_uhf_set_isdel_true fl i).
Proof.
  unfold p_uhf_iseither, p_uhf_set_isboth_false, p_uhf_set_isempty_false,
    p_uhf_set_isdel_true.
  destruct (fl !! flag_index i); simpl; [eauto|discriminate].
Qed.

Lemma iseither_all_empty m i :
  0 ≤ i < 16 * p_uhf_size m → p_uhf_iseither (flags_all_empty m) i = Some 2.
Proof.
  intros Hi. rewrite iseither_word by lia. unfold flags_all_empty.
  pose proof (Z.div_mod i 16 ltac:(lia)). pose proof (Z.mod_pos_bound i 16 ltac:(lia)).
  rewrite lookup_replicate_2 by lia. simpl. f_equal.
  set (a := i mod 16) in *. clearbody a.
  assert (a = 0 ∨ a = 1 ∨ a = 2 ∨ a = 3 ∨ a = 4 ∨ a = 5 ∨ a = 6 ∨ a = 7 ∨
          a = 8 ∨ a = 9 ∨ a = 10 ∨ a = 11 ∨ a = 12 ∨ a = 13 ∨ a = 14 ∨ a = 15)
    as Ha by lia.
  repeat (destruct Ha as [-> | Ha]; [reflexivity|]). subst. reflexivity.
Qed.

(** ** Bucket statuses *)

Lemma is_live_iff fl i : is_live fl i = true ↔ p_uhf_iseither fl i = Some 0.
Proof.
  unfold is_live. destruct (p_uhf_iseither fl i) as [[|[]|]|]; split; congruence.
Qed.

Lemma is_used_iff fl i :
  0 ≤ i → is_used fl i = true ↔ (p_uhf_iseither fl i = Some 0 ∨ p_uhf_iseither fl i = Some 1).
Proof.
  intros Hi. unfold is_used. rewrite isempty_iseither.
  destruct (p_uhf_iseither fl i) as [s|] eqn:Hs; simpl.
  - pose proof (iseither_range _ _ _ Hi Hs).
    assert (s = 0 ∨ s = 1 ∨ s = 2 ∨ s = 3) as [->|[->|[->| ->]]] by lia;
      simpl; (split; [intros ?; (by left) || (by right) || discriminate
                     |intros [?|?]; congruence]).
  - split; [congruence|]. intros [?|?]; congruence.
Qed.

Lemma is_live_used fl i : 0 ≤ i → is_live fl i = true → is_used fl i = true.
Proof. intros Hi H. apply is_used_iff; [lia|]. left. by apply is_live_iff. Qed.

(** The loop condition in terms of the status of the bucket. *)
Lemma probe_continue_status fl ks key i s :
  0 ≤ i → p_uhf_iseither fl i = Some s →
  probe_continue fl ks key i =
  if decide (s = 0) then k ← load ks i; Some (negb (equal_func k key))
  else if decide (s = 1) then Some true else Some false.
Proof.
  intros Hi Hs. unfold probe_continue.
  rewrite isempty_iseither, isdel_iseither, Hs. simpl.
  pose proof (iseither_range _ _ _ Hi Hs).
  assert (s = 0 ∨ s = 1 ∨ s = 2 ∨ s = 3) as [->|[->|[->| ->]]] by lia; reflexivity.
Qed.

Lemma probe_continue_true_used fl ks key i :
  0 ≤ i → probe_continue fl ks key i = Some true → is_used fl i = true.
Proof.
  intros Hi. destruct (p_uhf_iseither fl i) as [s|] eqn:Hs.
  - rewrite (probe_continue_status _ _ _ _ s) by assumption.
    intros H. apply is_used_iff; [lia|].
    destruct (decide (s = 0)) as [->|]; [by left|].
    destruct (decide (s = 1)) as [->|]; [by right|discriminate].
  - unfold probe_continue. rewrite isempty_iseither, Hs. discriminate.
Qed.

(** ** Counting buckets *)

Lemma countZ_bounds f n : 0 ≤ countZ f n ≤ Z.of_nat n.
Proof. induction n as [|n IH]; simpl; [lia|]. destruct (f (Z.of_nat n)); lia. Qed.

Lemma countZ_ext f g n :
  (∀ i, 0 ≤ i < Z.of_nat n → f i = g i) → countZ f n = countZ g n.
Proof.
  induction n as [|n IH]; intros H; simpl; [reflexivity|].
  rewrite IH, (H (Z.of_nat n)) by (intros; try apply H; lia). reflexivity.
Qed.

Lemma countZ_update f g n x :
  0 ≤ x < Z.of_nat n →
  (∀ i, 0 ≤ i < Z.of_nat n → i ≠ x → g i = f i) →
  countZ g n = countZ f n - (if f x then 1 else 0) + (if g x then 1 else 0).
Proof.
  induction n as [|n IH]; intros Hx H; simpl; [lia|].
  destruct (decide (x = Z.of_nat n)) as [->|Hne].
  - rewrite (countZ_ext g f n) by (intros; apply H; lia). lia.
  - rewrite IH by (intros; try apply H; lia).
    rewrite (H (Z.of_nat n)) by lia. lia.
Qed.

Lemma countZ_le f g n :
  (∀ i, 0 ≤ i < Z.of_nat n → f i = true → g i = true) → countZ f n ≤ countZ g n.
Proof.
  induction n as [|n IH]; intros H; simpl; [lia|].
  specialize (IH ltac:(intros; apply H; [lia|assumption])).
  specialize (H (Z.of_nat n) ltac:(lia)).
  destruct (f (Z.of_nat n)); [rewrite H by reflexivity|destruct (g (Z.of_nat n))]; lia.
Qed.

Lemma countZ_lt_ex f n :
  countZ f n < Z.of_nat n → ∃ i, 0 ≤ i < Z.of_nat n ∧ f i = false.
Proof.
  induction n as [|n IH]; simpl; [lia|]. intros H.
  destruct (f (Z.of_nat n)) eqn:Hf.
  - destruct IH as (i & Hi & Hfi); [lia|]. exists i. split; [lia|assumption].
  - exists (Z.of_nat n). split; [lia|assumption].
Qed.

Lemma countZ_zero f n :
  countZ f n = 0 ↔ ∀ i, 0 ≤ i < Z.of_nat n → f i = false.
Proof.
  induction n as [|n IH]; simpl.
  - split; [intros; lia|reflexivity].
  - pose proof (countZ_bounds f n). split.
    + intros H0 i Hi. destruct (decide (i = Z.of_nat n)) as [->|].
      * destruct (f (Z.of_nat n)); [lia|reflexivity].
      * apply IH; [|lia]. destruct (f (Z.of_nat n)); lia.
    + intros Hall. rewrite (Hall (Z.of_nat n)) by lia.
      rewrite (proj2 IH); [lia|]. intros. apply Hall. lia.
Qed.

(** Counting up to a larger bound adds nothing when [f] is false there. *)
Lemma countZ_more f n m :
  (n ≤ m)%nat → (∀ i, Z.of_nat n ≤ i < Z.of_nat m → f i = false) →
  countZ f m = countZ f n.
Proof.
  intros Hle. induction Hle as [|m Hle IH]; intros H; [reflexivity|]. simpl.
  rewrite (H (Z.of_nat m)) by lia. rewrite IH by (intros; apply H; lia). lia.
Qed.

(** ** The probe sequence *)

Lemma tri_succ k : 0 ≤ k → tri (k + 1) = tri k + (k + 1).
Proof.
  intros Hk. unfold tri.
  replace ((k + 1) * (k + 1 + 1)) with (k * (k + 1) + (k + 1) * 2) by lia.
  apply Z.div_add. lia.
Qed.

Lemma tri_double k : 0 ≤ k → 2 * tri k = k * (k + 1).
Proof.
  intros Hk. pattern k. apply natlike_ind; [reflexivity| |assumption].
  intros x Hx IH. unfold Z.succ. rewrite tri_succ by lia. lia.
Qed.

Lemma tri_nonneg k : 0 ≤ k → 0 ≤ tri k.
Proof. intros Hk. pose proof (tri_double k Hk). nia. Qed.

Lemma pow2_size_bounds n : pow2_size n → 4 ≤ n ≤ 2 ^ 31.
Proof.
  intros (e & He & ->). split.
  - change 4 with (2 ^ 2). apply Z.pow_le_mono_r; lia.
  - apply Z.pow_le_mono_r; lia.
Qed.

Lemma pow2_size_divide n : pow2_size n → (n | 2 ^ ULIB_UINT_BITS).
Proof.
  intros (e & He & ->). unfold ULIB_UINT_BITS. exists (2 ^ (32 - e)).
  rewrite <- Z.pow_add_r by lia. f_equal. lia.
Qed.

Lemma wrap_small x : 0 ≤ x ≤ ULIB_UINT_MAX → wrap x = x.
Proof.
  unfold wrap, ULIB_UINT_MAX. intros Hx. apply Z.mod_small. lia.
Qed.

Lemma wrap_range x : 0 ≤ wrap x ≤ ULIB_UINT_MAX.
Proof.
  unfold wrap, ULIB_UINT_MAX.
  pose proof (Z.mod_pos_bound x (2 ^ ULIB_UINT_BITS) ltac:(reflexivity)). lia.
Qed.

(** [x & (n - 1)] is [x mod n] for a table size [n]. *)
Lemma land_mask x n : pow2_size n → Z.land x (n - 1) = x mod n.
Proof.
  intros (e & He & ->).
  replace (2 ^ e - 1) with (Z.ones e) by (rewrite Z.ones_equiv; lia).
  apply Z.land_ones. lia.
Qed.

Lemma hash_index_range (key : K) n :
  pow2_size n → 0 ≤ hash_index key (n - 1) < n.
Proof.
  intros Hn. unfold hash_index. rewrite land_mask by assumption.
  apply Z.mod_pos_bound. pose proof (pow2_size_bounds n Hn). lia.
Qed.

Lemma probe_pos_range n s k : pow2_size n → 0 ≤ probe_pos n s k < n.
Proof.
  intros Hn. apply Z.mod_pos_bound. pose proof (pow2_size_bounds n Hn). lia.
Qed.

Lemma probe_pos_0 n s : 0 ≤ s < n → probe_pos n s 0 = s.
Proof. intros Hs. unfold probe_pos, tri. simpl. rewrite Z.add_0_r. by apply Z.mod_small. Qed.

(** One iteration of [i = (i + (++step)) & mask] moves from the [k]-th
    to the [k+1]-th bucket of the sequence. *)
Lemma probe_next_pos n s k :
  pow2_size n → 0 ≤ k < ULIB_UINT_MAX →
  probe_next (n - 1) (probe_pos n s k) k = (probe_pos n s (k + 1), k + 1).
Proof.
  intros Hn Hk. unfold probe_next.
  rewrite (wrap_small (k + 1)) by lia. f_equal.
  rewrite land_mask by assumption. unfold wrap.
  pose proof (pow2_size_bounds n Hn).
  rewrite Z.mod_mod_divide by (by apply pow2_size_divide).
  unfold probe_pos. rewrite tri_succ by lia.
  rewrite Zplus_mod_idemp_l. f_equal. lia.
Qed.

Lemma pow2_divide_odd e x y :
  0 ≤ e → Z.odd x = true → (2 ^ e | x * y) → (2 ^ e | y).
Proof.
  intros He Hx. revert y. pattern e. apply natlike_ind; [| |assumption].
  - intros y _. apply Z.divide_1_l.
  - clear e He. intros e He IH y Hdiv.
    rewrite Z.pow_succ_r in * by assumption.
    assert (Hy : Z.even y = true).
    { destruct Hdiv as [q Hq].
      assert (Hev : Z.even (x * y) = true).
      { rewrite Hq. rewrite Z.even_mul, Z.even_mul. simpl. apply orb_true_r. }
      rewrite Z.even_mul in Hev. rewrite <- Z.negb_odd, Hx in Hev. exact Hev. }
    apply Z.even_spec in Hy. destruct Hy as [y' ->].
    apply Z.mul_divide_mono_l. apply IH.
    destruct Hdiv as [q Hq]. exists q. nia.
Qed.

Lemma probe_pos_inj n s a b :
  pow2_size n → 0 ≤ a < n → 0 ≤ b < n →
  probe_pos n s a = probe_pos n s b → a = b.
Proof.
  assert (Hlt : ∀ a b, pow2_size n → 0 ≤ a → a < b → b < n →
                       probe_pos n s a = probe_pos n s b → False).
  { clear a b. intros a b (e & He & ->) Ha Hab Hb Heq. unfold probe_pos in Heq.
    assert (Hpos : 0 < 2 ^ e) by (apply Z.pow_pos_nonneg; lia).
    assert (Hdiv : (2 ^ e | tri b - tri a)).
    { apply Z.mod_divide; [lia|].
      replace (tri b - tri a) with ((s + tri b) - (s + tri a)) by lia.
      rewrite Zminus_mod, Heq, Z.sub_diag. reflexivity. }
    assert (Hdiv2 : (2 ^ (e + 1) | (b - a) * (a + b + 1))).
    { destruct Hdiv as [q Hq]. exists q.
      pose proof (tri_double a ltac:(lia)). pose proof (tri_double b ltac:(lia)).
      rewrite Z.pow_add_r by lia. nia. }
    destruct (Z.odd (b - a)) eqn:Hodd.
    - apply pow2_divide_odd in Hdiv2; [|lia|assumption].
      apply Z.divide_pos_le in Hdiv2; [|lia].
      rewrite Z.pow_add_r in Hdiv2 by lia. lia.
    - rewrite Z.mul_comm in Hdiv2.
      apply pow2_divide_odd in Hdiv2; [|lia|].
      + apply Z.divide_pos_le in Hdiv2; [|lia].
        rewrite Z.pow_add_r in Hdiv2 by lia. lia.
      + replace (a + b + 1) with ((b - a) + (1 + 2 * a)) by lia.
        rewrite Z.odd_add, Hodd, Z.odd_add_mul_2. reflexivity. }
  intros Hn Ha Hb Heq.
  destruct (Z.lt_trichotomy a b) as [Hab|[Hab|Hab]]; [|assumption|].
  - exfalso. apply (Hlt a b); auto; lia.
  - exfalso. apply (Hlt b a); auto; lia.
Qed.

(** During its first lap the sequence visits every bucket. *)
Lemma probe_pos_surj n s x :
  pow2_size n → 0 ≤ x < n → ∃ m, 0 ≤ m < n ∧ probe_pos n s m = x.
Proof.
  intros Hn Hx. pose proof (pow2_size_bounds n Hn) as Hb.
  assert (Hnd : List.NoDup (probe_pos n s <$> seqZ 0 n)).
  { apply NoDup_ListNoDup. apply NoDup_fmap_2_strong; [|apply NoDup_seqZ].
    intros a b Ha%elem_of_seqZ Hb'%elem_of_seqZ Heq.
    apply (probe_pos_inj n s); auto; lia. }
  assert (Hin : In x (probe_pos n s <$> seqZ 0 n)).
  { apply (List.NoDup_length_incl Hnd (l' := seqZ 0 n)).
    - rewrite length_fmap. lia.
    - intros y Hy%list_elem_of_In%list_elem_of_fmap. destruct Hy as (m & -> & Hm).
      apply list_elem_of_In, elem_of_seqZ. pose proof (probe_pos_range n s m Hn). lia.
    - apply list_elem_of_In, elem_of_seqZ. lia. }
  apply list_elem_of_In, list_elem_of_fmap in Hin. destruct Hin as (m & -> & Hm).
  apply elem_of_seqZ in Hm. exists m. split; [lia|reflexivity].
Qed.

(** After [2n - 1] steps the sequence is back at its start. *)
Lemma probe_pos_return n s :
  pow2_size n → 0 ≤ s < n → probe_pos n s (2 * n - 1) = s.
Proof.
  intros Hn Hs. pose proof (pow2_size_bounds n Hn) as Hb. unfold probe_pos.
  assert (Ht : tri (2 * n - 1) = (2 * n - 1) * n).
  { pose proof (tri_double (2 * n - 1) ltac:(lia)). nia. }
  rewrite Ht, Z.mod_add by lia. by apply Z.mod_small.
Qed.

(** ** The lookup loop *)

Lemma least_index (P : Z → bool) b :
  0 ≤ b → P b = true →
  ∃ m, 0 ≤ m ≤ b ∧ P m = true ∧ ∀ j, 0 ≤ j < m → P j = false.
Proof.
  intros Hb HP.
  assert (Hsearch : ∀ c, 0 ≤ c →
            (∃ m, 0 ≤ m < c ∧ P m = true ∧ ∀ j, 0 ≤ j < m → P j = false) ∨
            (∀ j, 0 ≤ j < c → P j = false)).
  { intros c Hc. pattern c. apply natlike_ind; [| |assumption].
    - right. intros j Hj. lia.
    - clear c Hc. intros c Hc [(m & Hm & HPm & Hleast)|Hnone].
      + left. exists m. split; [lia|]. split; assumption.
      + destruct (P c) eqn:HPc.
        * left. exists c. split; [lia|]. split; assumption.
        * right. intros j Hj. destruct (decide (j = c)) as [->|]; [assumption|].
          apply Hnone. lia. }
  destruct (Hsearch b Hb) as [(m & Hm & HPm & Hleast)|Hnone].
  - exists m. split; [lia|]. split; assumption.
  - exists b. split; [lia|]. split; assumption.
Qed.

Lemma probe_step_pos n s k :
  pow2_size n → 0 ≤ k < ULIB_UINT_MAX →
  Z.land (wrap (probe_pos n s k + wrap (k + 1))) (n - 1) = probe_pos n s (k + 1) ∧
  wrap (k + 1) = k + 1.
Proof.
  intros Hn Hk. pose proof (probe_next_pos n s k Hn Hk) as H.
  unfold probe_next in H. by injection H.
Qed.

Lemma get_loop_S fuel fl ks key mask last i step :
  uhash_get_loop (S fuel) fl ks key mask last i step =
  c ← probe_continue fl ks key i;
  if c : bool then
    if (probe_next mask i step).1 =? last then Some UHASH_INDEX_MISSING
    else uhash_get_loop fuel fl ks key mask last
           (probe_next mask i step).1 (probe_next mask i step).2
  else e ← p_uhf_iseither fl i; Some (if e =? 0 then i else UHASH_INDEX_MISSING).
Proof. reflexivity. Qed.

Lemma get_loop_stop fuel fl ks key mask last i step :
  probe_continue fl ks key i = Some false →
  uhash_get_loop fuel fl ks key mask last i step =
  e ← p_uhf_iseither fl i; Some (if e =? 0 then i else UHASH_INDEX_MISSING).
Proof. intros Hc. destruct fuel; simpl; rewrite Hc; reflexivity. Qed.

(** The loop walks through buckets that make it continue. *)
Lemma get_loop_skip fl ks key n s m fuel k :
  pow2_size n → 0 ≤ s < n → 0 ≤ k ≤ m → m < n →
  (∀ j, k ≤ j < m → probe_continue fl ks key (probe_pos n s j) = Some true) →
  (Z.to_nat (m - k) ≤ fuel)%nat →
  uhash_get_loop fuel fl ks key (n - 1) s (probe_pos n s k) k =
  uhash_get_loop (fuel - Z.to_nat (m - k)) fl ks key (n - 1) s (probe_pos n s m) m.
Proof.
  intros Hn Hs Hk Hm. pose proof (pow2_size_bounds n Hn) as Hb.
  remember (Z.to_nat (m - k)) as d eqn:Hd. revert fuel k Hk Hd.
  induction d as [|d IH]; intros fuel k Hk Hd Hskip Hfuel.
  - assert (k = m) as -> by lia. by rewrite Nat.sub_0_r.
  - destruct fuel as [|fuel]; [lia|]. rewrite get_loop_S.
    rewrite Hskip by lia. simpl.
    destruct (probe_step_pos n s k Hn) as [-> ->];
      [unfold ULIB_UINT_MAX, ULIB_UINT_BITS; lia|].
    destruct (Z.eqb_spec (probe_pos n s (k + 1)) s) as [Heq|Hne].
    + exfalso. rewrite <- (probe_pos_0 n s) in Heq at 2 by lia.
      apply probe_pos_inj in Heq; [lia|assumption|lia|lia].
    + apply IH; [lia|lia| |lia]. intros j Hj. apply Hskip. lia.
Qed.

(** A result other than [UHASH_INDEX_MISSING] is a live bucket that holds
    the key. *)
Lemma get_loop_sound fuel fl ks key n last i step r :
  pow2_size n → 0 ≤ i < n →
  uhash_get_loop fuel fl ks key (n - 1) last i step = Some r →
  r = UHASH_INDEX_MISSING ∨
  (0 ≤ r < n ∧ is_live fl r = true ∧ load ks r = Some key).
Proof.
  intros Hn. pose proof (pow2_size_bounds n Hn) as Hb.
  assert (Hstop : ∀ i, 0 ≤ i < n → probe_continue fl ks key i = Some false →
            (e ← p_uhf_iseither fl i; Some (if e =? 0 then i else UHASH_INDEX_MISSING))
              = Some r →
            r = UHASH_INDEX_MISSING ∨
            (0 ≤ r < n ∧ is_live fl r = true ∧ load ks r = Some key)).
  { clear i. intros i Hi Hc.
    destruct (p_uhf_iseither fl i) as [e|] eqn:He; simpl; [|discriminate].
    intros [= <-]. destruct (Z.eqb_spec e 0) as [->|]; [right|by left].
    split; [assumption|]. split; [by apply is_live_iff|].
    rewrite (probe_continue_status _ _ _ _ 0) in Hc by (try assumption; lia).
    simpl in Hc. destruct (load ks i) as [k|]; simpl in Hc; [|discriminate].
    injection Hc as Hc. apply negb_false_iff, equal_spec in Hc. by subst. }
  revert i step. induction fuel as [|fuel IH]; intros i step Hi.
  - simpl. destruct (probe_continue fl ks key i) as [[|]|] eqn:Hc; simpl;
      try discriminate. by apply Hstop.
  - rewrite get_loop_S.
    destruct (probe_continue fl ks key i) as [[|]|] eqn:Hc; simpl; try discriminate.
    + destruct (Z.eqb_spec (Z.land (wrap (i + wrap (step + 1))) (n - 1)) last).
      * intros [= <-]. by left.
      * apply IH. rewrite land_mask by assumption. apply Z.mod_pos_bound. lia.
    + by apply Hstop.
Qed.

Lemma probe_continue_is_Some fl ks key i :
  is_Some (probe_continue fl ks key i) → is_Some (p_uhf_iseither fl i).
Proof.
  unfold probe_continue. rewrite isempty_iseither.
  destruct (p_uhf_iseither fl i); [eauto|]. simpl. intros [? [=]].
Qed.

Lemma continue_false_cases fl ks key i :
  0 ≤ i → probe_continue fl ks key i = Some false →
  (p_uhf_iseither fl i = Some 0 ∧ load ks i = Some key) ∨
  (∃ e, p_uhf_iseither fl i = Some e ∧ e ≠ 0 ∧ is_used fl i = false).
Proof.
  intros Hi Hc.
  destruct (probe_continue_is_Some fl ks key i) as [e He]; [rewrite Hc; eauto|].
  rewrite (probe_continue_status _ _ _ _ e) in Hc by assumption.
  destruct (decide (e = 0)) as [->|Hne].
  - left. split; [assumption|].
    destruct (load ks i) as [k|]; simpl in Hc; [|discriminate].
    injection Hc as Hc. apply negb_false_iff, equal_spec in Hc. by subst.
  - right. exists e. split; [assumption|]. split; [assumption|].
    destruct (decide (e = 1)); [discriminate|].
    destruct (is_used fl i) eqn:Hu; [|reflexivity].
    apply is_used_iff in Hu; [|assumption]. destruct Hu; congruence.
Qed.

Lemma continue_true_cases fl ks key i :
  0 ≤ i → probe_continue fl ks key i = Some true →
  p_uhf_iseither fl i = Some 1 ∨
  (p_uhf_iseither fl i = Some 0 ∧ ∃ k, load ks i = Some k ∧ k ≠ key).
Proof.
  intros Hi Hc.
  destruct (probe_continue_is_Some fl ks key i) as [e He]; [rewrite Hc; eauto|].
  rewrite (probe_continue_status _ _ _ _ e) in Hc by assumption.
  destruct (decide (e = 0)) as [->|Hne].
  - right. split; [assumption|].
    destruct (load ks i) as [k|]; simpl in Hc; [|discriminate].
    exists k. split; [reflexivity|]. injection Hc as Hc.
    apply negb_true_iff in Hc. intros ->.
    assert (equal_func key key = true) by (by apply equal_spec). congruence.
  - destruct (decide (e = 1)) as [->|]; [by left|discriminate].
Qed.

(** The loop returns after at most [2n - 1] iterations: it stops at an
    empty bucket, at a live bucket holding the key, or back at its start. *)
Lemma get_loop_trace fl ks key n s fuel k :
  pow2_size n → 0 ≤ s < n →
  (∀ i, 0 ≤ i < n → is_Some (probe_continue fl ks key i)) →
  0 ≤ k ≤ 2 * n - 2 → 2 * n - 1 - k ≤ Z.of_nat fuel →
  ∃ m r, k ≤ m ≤ 2 * n - 1 ∧
    uhash_get_loop fuel fl ks key (n - 1) s (probe_pos n s k) k = Some r ∧
    (∀ j, k ≤ j < m → probe_continue fl ks key (probe_pos n s j) = Some true) ∧
    (∀ j, k < j < m → probe_pos n s j ≠ s) ∧
    ((m ≤ 2 * n - 2 ∧ probe_continue fl ks key (probe_pos n s m) = Some false ∧
      ((is_live fl (probe_pos n s m) = true ∧ load ks (probe_pos n s m) = Some key ∧
        r = probe_pos n s m) ∨
       (is_used fl (probe_pos n s m) = false ∧ r = UHASH_INDEX_MISSING))) ∨
     (k < m ∧ probe_pos n s m = s ∧ r = UHASH_INDEX_MISSING)).
Proof.
  intros Hn Hs Hdef. pose proof (pow2_size_bounds n Hn) as Hb.
  revert k. induction fuel as [|fuel IH]; intros k Hk Hfuel; [lia|].
  rewrite get_loop_S.
  pose proof (probe_pos_range n s k Hn) as Hpk.
  destruct (Hdef _ Hpk) as [c Hc]. rewrite Hc. simpl. destruct c.
  - destruct (probe_step_pos n s k Hn) as [-> ->];
      [unfold ULIB_UINT_MAX, ULIB_UINT_BITS; lia|].
    destruct (Z.eqb_spec (probe_pos n s (k + 1)) s) as [Heq|Hne].
    + exists (k + 1), UHASH_INDEX_MISSING. split; [lia|]. split; [reflexivity|].
      split; [intros j Hj; by replace j with k by lia|]. split; [intros; lia|].
      right. split; [lia|]. split; [assumption|reflexivity].
    + assert (k + 1 ≤ 2 * n - 2).
      { destruct (decide (k + 1 = 2 * n - 1)) as [Heq|]; [|lia].
        exfalso. apply Hne. rewrite Heq. by apply probe_pos_return. }
      destruct (IH (k + 1)) as (m & r & Hm & Hr & Hpre & Hnr & Hend); [lia|lia|].
      exists m, r. split; [lia|]. split; [assumption|]. split; [|split].
      * intros j Hj. destruct (decide (j = k)) as [->|]; [assumption|]. apply Hpre. lia.
      * intros j Hj. destruct (decide (j = k + 1)) as [->|]; [assumption|]. apply Hnr. lia.
      * destruct Hend as [Hend|(? & ? & ?)]; [by left|right]. split; [lia|by split].
  - exists k. destruct (continue_false_cases _ _ _ _ (proj1 Hpk) Hc)
      as [[He Hkey]|(e & He & Hne & Hu)]; rewrite He; simpl.
    + exists (probe_pos n s k). split; [lia|]. split; [reflexivity|].
      split; [intros; lia|]. split; [intros; lia|]. left.
      split; [lia|]. split; [assumption|]. left.
      split; [by apply is_live_iff|]. by split.
    + exists UHASH_INDEX_MISSING. split; [lia|].
      split; [by destruct (Z.eqb_spec e 0)|].
      split; [intros; lia|]. split; [intros; lia|]. left.
      split; [lia|]. split; [assumption|]. right. by split.
Qed.

(** ** Lookup on a table *)

Lemma uhf_size_cover n : pow2_size n → 1 ≤ p_uhf_size n ∧ n ≤ 16 * p_uhf_size n.
Proof.
  intros (e & He & ->). unfold p_uhf_size.
  destruct (Z.ltb_spec (2 ^ e) 16) as [Hlt|Hge]; [lia|].
  rewrite Z.shiftr_div_pow2 by lia.
  assert (4 ≤ e).
  { destruct (Z.le_gt_cases 4 e); [assumption|]. exfalso.
    assert (2 ^ e ≤ 2 ^ 3) by (apply Z.pow_le_mono_r; lia).
    change (2 ^ 3) with 8 in *. lia. }
  replace e with (4 + (e - 4)) by lia. rewrite Z.pow_add_r by lia.
  rewrite Z.mul_comm, Z.div_mul by lia.
  assert (0 < 2 ^ (e - 4)) by (apply Z.pow_pos_nonneg; lia).
  change (2 ^ 4) with 16. lia.
Qed.

Lemma load_is_Some {A} (p : option (list A)) i :
  0 ≤ i < Z.of_nat (length (default [] p)) → is_Some (load p i).
Proof.
  intros Hi. unfold load. destruct p as [l|]; simpl in *; [|lia].
  apply lookup_lt_is_Some_2. lia.
Qed.

Lemma allocated_continue h key i :
  allocated h → 0 ≤ i < _size h →
  is_Some (probe_continue (flags_of h) (_keys h) key i).
Proof.
  intros (Hn & Hfl & Hks) Hi. pose proof (uhf_size_cover _ Hn).
  destruct (proj2 (iseither_is_Some (flags_of h) i ltac:(lia))) as [e He]; [lia|].
  rewrite (probe_continue_status _ _ _ _ e) by (try assumption; lia).
  destruct (decide (e = 0)); [|destruct (decide (e = 1)); eauto].
  destruct (load_is_Some (_keys h) i) as [k ->]; [lia|]. simpl. eauto.
Qed.

Lemma allocated_flags h :
  allocated h → _flags h = Some (flags_of h).
Proof.
  intros (Hn & Hfl & _). pose proof (uhf_size_cover _ Hn). unfold flags_of in *.
  destruct (_flags h); [reflexivity|]. simpl in Hfl. lia.
Qed.

Lemma wrap_size_pred n : pow2_size n → wrap (n - 1) = n - 1.
Proof.
  intros Hn. pose proof (pow2_size_bounds n Hn). apply wrap_small.
  unfold ULIB_UINT_MAX, ULIB_UINT_BITS. lia.
Qed.

Lemma uhash_get_eq h key :
  allocated h →
  uhash_get h key =
  uhash_get_loop (Z.to_nat (2 * _size h)) (flags_of h) (_keys h) key (_size h - 1)
    (hash_index key (_size h - 1)) (hash_index key (_size h - 1)) 0.
Proof.
  intros Ha. pose proof Ha as (Hn & _). pose proof (pow2_size_bounds _ Hn).
  unfold uhash_get. destruct (Z.eqb_spec (_size h) 0); [lia|].
  rewrite (allocated_flags h Ha). simpl. by rewrite wrap_size_pred.
Qed.

(** A lookup always returns, either the missing sentinel or a live bucket
    that holds the key. *)
Lemma uhash_get_total h key :
  allocated h →
  ∃ r, uhash_get h key = Some r ∧
       (r = UHASH_INDEX_MISSING ∨
        (0 ≤ r < _size h ∧ is_live (flags_of h) r = true ∧ load (_keys h) r = Some key)).
Proof.
  intros Ha. pose proof Ha as (Hn & _). pose proof (pow2_size_bounds _ Hn).
  rewrite uhash_get_eq by assumption.
  pose proof (hash_index_range key _ Hn) as Hs.
  destruct (get_loop_trace (flags_of h) (_keys h) key (_size h)
              (hash_index key (_size h - 1)) (Z.to_nat (2 * _size h)) 0)
    as (m & r & Hm & Hr & _); try assumption; try lia.
  { intros i Hi. by apply allocated_continue. }
  rewrite probe_pos_0 in Hr by assumption.
  exists r. split; [assumption|]. eapply get_loop_sound; eauto.
Qed.

Lemma WF_allocated h : WF h → _size h ≠ 0 → allocated h.
Proof.
  intros [[Hsz Hfl _ _ _] Hks _ _] Hne.
  destruct Hsz as [?|Hn]; [lia|]. split; [assumption|].
  rewrite (Hfl Hne). pose proof (uhf_size_cover _ Hn).
  split; [lia|]. destruct (Hks Hne) as (ks & -> & Hlen). exact Hlen.
Qed.

(** A live key is found where it is stored. *)
Lemma uhash_get_chain h key i :
  allocated h → 0 ≤ i < _size h → is_live (flags_of h) i = true →
  load (_keys h) i = Some key → chain h key i → uhash_get h key = Some i.
Proof.
  intros Ha Hi Hlive Hkey (m & Hm & Hpos & Hpre).
  pose proof Ha as (Hn & _). pose proof (pow2_size_bounds _ Hn).
  pose proof (hash_index_range key _ Hn) as Hs.
  rewrite uhash_get_eq by assumption.
  rewrite <- (probe_pos_0 (_size h) (hash_index key (_size h - 1))) at 2 by assumption.
  rewrite (get_loop_skip _ _ _ _ _ m) by (try assumption; try lia; intros; apply Hpre; lia).
  rewrite Hpos. apply is_live_iff in Hlive.
  rewrite get_loop_stop, Hlive; [reflexivity|].
  rewrite (probe_continue_status _ _ _ _ 0) by (try assumption; lia).
  simpl. rewrite Hkey. simpl. f_equal. apply negb_false_iff. by apply equal_spec.
Qed.

Lemma uhash_get_cell h key i ov :
  WF h → cell h i key ov → uhash_get h key = Some i.
Proof.
  intros Hwf (Hi & Hlive & Hkey & _).
  destruct (wf_chain h Hwf i Hi Hlive) as (k & Hk & Hch).
  assert (k = key) as -> by congruence.
  apply uhash_get_chain; try assumption. apply WF_allocated; [assumption|lia].
Qed.

Lemma uhash_get_size0 h key : _size h = 0 → uhash_get h key = Some UHASH_INDEX_MISSING.
Proof. intros H. unfold uhash_get. by rewrite H. Qed.

Lemma MISSING_not_index n : pow2_size n → ¬ (0 ≤ UHASH_INDEX_MISSING < n).
Proof.
  intros Hn. pose proof (pow2_size_bounds n Hn).
  unfold UHASH_INDEX_MISSING, ULIB_UINT_MAX, ULIB_UINT_BITS. lia.
Qed.

(** Lookup decides membership. *)
Lemma uhash_get_spec h key :
  WF h →
  ∃ r, uhash_get h key = Some r ∧
       ((r = UHASH_INDEX_MISSING ∧ ¬ member h key) ∨
        (cell h r key (load (_vals h) r))).
Proof.
  intros Hwf. destruct (decide (_size h = 0)) as [H0|Hne].
  - exists UHASH_INDEX_MISSING. split; [by apply uhash_get_size0|]. left.
    split; [reflexivity|]. intros (i & ov & Hi & _). lia.
  - pose proof (WF_allocated h Hwf Hne) as Ha.
    destruct (uhash_get_total h key Ha) as (r & Hr & [->|(Hi & Hlive & Hkey)]).
    + exists UHASH_INDEX_MISSING. split; [assumption|]. left. split; [reflexivity|].
      intros (i & ov & Hcell). rewrite (uhash_get_cell h key i ov Hwf Hcell) in Hr.
      injection Hr as ->. destruct Hcell as (Hi & _).
      by apply (MISSING_not_index (_size h) (proj1 Ha)).
    + exists r. split; [assumption|]. right. unfold cell. repeat split; (assumption || lia).
Qed.

(** A successful lookup exhibits the probe chain of the bucket found. *)
Lemma uhash_get_chain_inv h key i :
  allocated h → 0 ≤ i < _size h → uhash_get h key = Some i → chain h key i.
Proof.
  intros Ha Hi Hget. pose proof Ha as (Hn & _). pose proof (pow2_size_bounds _ Hn).
  pose proof (hash_index_range key _ Hn) as Hs.
  rewrite uhash_get_eq in Hget by assumption.
  destruct (get_loop_trace (flags_of h) (_keys h) key (_size h)
              (hash_index key (_size h - 1)) (Z.to_nat (2 * _size h)) 0)
    as (m & r & Hm & Hr & Hpre & _ & Hend); try assumption; try lia.
  { intros j Hj. by apply allocated_continue. }
  rewrite probe_pos_0 in Hr by assumption. rewrite Hget in Hr. injection Hr as <-.
  assert (Hnm : i ≠ UHASH_INDEX_MISSING).
  { intros ->. by apply (MISSING_not_index _ Hn). }
  destruct Hend as [(Hm2 & Hc & [(_ & _ & Hi')|(_ & ?)])|(_ & _ & ?)]; try done.
  destruct (probe_pos_surj (_size h) (hash_index key (_size h - 1)) i Hn Hi)
    as (m' & Hm' & Hpos').
  assert (m ≤ m').
  { destruct (Z.le_gt_cases m m'); [assumption|]. exfalso.
    pose proof (Hpre m' ltac:(lia)) as Ht. rewrite Hpos' in Ht.
    rewrite <- Hi' in Hc. congruence. }
  exists m. split; [lia|]. split; [by symmetry|]. intros j Hj. apply Hpre. lia.
Qed.

(** The executable check implies the invariant. *)
Lemma wfb_sound h : wfb h = true → WF h.
Proof.
  unfold wfb. rewrite !andb_true_iff.
  intros (((((((Hsz & Hfl) & Hcnt) & Hocc) & Hraw) & Hks) & Hvs) & Hall).
  assert (Hn : _size h = 0 ∨ pow2_size (_size h)).
  { apply orb_true_iff in Hsz. destruct Hsz as [H0|Hp]; [left; lia|right].
    rewrite !andb_true_iff in Hp. destruct Hp as ((H4 & H31) & Hp).
    exists (Z.log2 (_size h)). split; [|lia].
    split.
    - change 2 with (Z.log2 4) at 1. apply Z.log2_le_mono. lia.
    - change 31 with (Z.log2 (2 ^ 31)). apply Z.log2_le_mono. lia. }
  assert (Hcounts : counts_ok h).
  { split; [assumption| |lia|lia|].
    - intros Hne. apply orb_true_iff in Hfl. destruct Hfl; lia.
    - intros Hne. apply orb_true_iff in Hraw. destruct Hraw; lia. }
  assert (Hkeys : _size h ≠ 0 → ∃ l, _keys h = Some l ∧ _size h ≤ Z.of_nat (length l)).
  { intros Hne. apply orb_true_iff in Hks. destruct Hks as [?|Hks]; [lia|].
    destruct Hn as [?|Hn%pow2_size_bounds]; [lia|].
    apply Z.leb_le in Hks.
    destruct (_keys h) as [l|]; simpl in Hks; [|lia]. exists l. split; [reflexivity|lia]. }
  split; try assumption.
  - intros l Hl. rewrite Hl in Hvs. lia.
  - intros i Hi Hlive.
    assert (Hne : _size h ≠ 0) by lia.
    assert (Ha : allocated h).
    { destruct Hn as [?|Hn]; [lia|]. split; [assumption|].
      rewrite (co_flags h Hcounts Hne). pose proof (uhf_size_cover _ Hn).
      split; [lia|]. destruct (Hkeys Hne) as (l & -> & Hlen). exact Hlen. }
    rewrite forallb_forall in Hall.
    assert (Hin : In i (seqZ 0 (_size h))) by (apply list_elem_of_In, elem_of_seqZ; lia).
    apply Hall in Hin. rewrite Hlive in Hin. simpl in Hin.
    destruct (load (_keys h) i) as [k|] eqn:Hk; [|discriminate].
    exists k. split; [reflexivity|]. apply uhash_get_chain_inv; try assumption.
    by apply bool_decide_eq_true in Hin.
Qed.

(** ** Changing one bucket *)

Lemma probe_continue_ext fl fl' ks ks' key i :
  p_uhf_iseither fl' i = p_uhf_iseither fl i → load ks' i = load ks i →
  probe_continue fl' ks' key i = probe_continue fl ks key i.
Proof.
  intros Hf Hk. unfold probe_continue.
  by rewrite !isempty_iseither, !isdel_iseither, Hf, Hk.
Qed.

Lemma is_live_ext fl fl' i :
  p_uhf_iseither fl' i = p_uhf_iseither fl i → is_live fl' i = is_live fl i.
Proof. intros H. unfold is_live. by rewrite H. Qed.

Lemma is_used_ext fl fl' i :
  p_uhf_iseither fl' i = p_uhf_iseither fl i → is_used fl' i = is_used fl i.
Proof. intros H. unfold is_used. by rewrite !isempty_iseither, H. Qed.

(** A probe chain survives a change of bucket [x] that keeps the lookup
    loop going through [x]. *)
Lemma chain_update h h' key i x :
  pow2_size (_size h) → _size h' = _size h →
  (∀ j, 0 ≤ j < _size h → j ≠ x →
        p_uhf_iseither (flags_of h') j = p_uhf_iseither (flags_of h) j ∧
        load (_keys h') j = load (_keys h) j) →
  (probe_continue (flags_of h) (_keys h) key x = Some true →
   probe_continue (flags_of h') (_keys h') key x = Some true) →
  chain h key i → chain h' key i.
Proof.
  intros Hn Hsz Hframe Hx (m & Hm & Hpos & Hpre).
  exists m. rewrite Hsz. split; [assumption|]. split; [assumption|].
  intros j Hj. specialize (Hpre j Hj).
  set (p := probe_pos (_size h) (hash_index key (_size h - 1)) j) in *.
  destruct (decide (p = x)) as [->|Hne]; [by apply Hx|].
  destruct (Hframe p) as [Hf Hk]; [apply probe_pos_range; assumption|assumption|].
  by rewrite (probe_continue_ext (flags_of h)  _ (_keys h)).
Qed.

Lemma WF_status h i :
  WF h → 0 ≤ i < _size h → ∃ e, p_uhf_iseither (flags_of h) i = Some e ∧ 0 ≤ e ≤ 3.
Proof.
  intros Hwf Hi. destruct (WF_allocated h Hwf ltac:(lia)) as (Hn & Hfl & _).
  pose proof (uhf_size_cover _ Hn).
  destruct (proj2 (iseither_is_Some (flags_of h) i ltac:(lia))) as [e He]; [lia|].
  exists e. split; [assumption|]. eapply iseither_range; [|eassumption]. lia.
Qed.

Lemma WF_pow2 h : WF h → _size h ≠ 0 → pow2_size (_size h).
Proof. intros Hwf Hne. by destruct (WF_allocated h Hwf Hne). Qed.

Lemma WF_flags h : WF h → _size h ≠ 0 → _flags h = Some (flags_of h).
Proof. intros Hwf Hne. apply allocated_flags. by apply WF_allocated. Qed.

Lemma countZ_pos f n x : 0 ≤ x < Z.of_nat n → f x = true → 1 ≤ countZ f n.
Proof.
  induction n as [|n IH]; intros Hx Hf; simpl; [lia|].
  pose proof (countZ_bounds f n).
  destruct (decide (x = Z.of_nat n)) as [->|]; [rewrite Hf; lia|].
  specialize (IH ltac:(lia) Hf). destruct (f (Z.of_nat n)); lia.
Qed.

(** ** Deletion *)

Lemma uhash_delete_dead h x :
  _size h ≠ 0 → _flags h = Some (flags_of h) →
  is_Some (p_uhf_iseither (flags_of h) x) → is_live (flags_of h) x = false →
  uhash_delete h x = Some h.
Proof.
  intros Hne Hfl [e He] Hlive. unfold uhash_delete. rewrite Hfl. simpl. rewrite He. simpl.
  destruct (Z.eqb_spec e 0) as [->|]; [|reflexivity].
  apply is_live_iff in He. congruence.
Qed.

Lemma uhash_delete_live h x :
  WF h → 0 ≤ x < _size h → is_live (flags_of h) x = true →
  ∃ h', uhash_delete h x = Some h' ∧ WF h' ∧
        _size h' = _size h ∧ _count h' = _count h - 1 ∧ _occupied h' = _occupied h ∧
        _keys h' = _keys h ∧ _vals h' = _vals h ∧
        p_uhf_iseither (flags_of h') x = Some 1 ∧
        ∀ j, 0 ≤ j → j ≠ x →
             p_uhf_iseither (flags_of h') j = p_uhf_iseither (flags_of h) j.
Proof.
  intros Hwf Hx Hlive. assert (Hne : _size h ≠ 0) by lia.
  pose proof (WF_pow2 h Hwf Hne) as Hn. pose proof (pow2_size_bounds _ Hn) as Hb.
  pose proof (WF_flags h Hwf Hne) as Hfl.
  pose proof Hlive as He. apply is_live_iff in He.
  destruct (set_is_Some _ _ _ He) as (_ & _ & [fl' Hfl']).
  destruct (set_isdel_true_spec _ _ _ (proj1 Hx) Hfl') as [Hlen Hst].
  assert (Hx' : p_uhf_iseither fl' x = Some 1).
  { rewrite Hst by lia. rewrite decide_True by reflexivity. by rewrite He. }
  assert (Hoth : ∀ j, 0 ≤ j → j ≠ x → p_uhf_iseither fl' j = p_uhf_iseither (flags_of h) j).
  { intros j Hj Hjx. rewrite Hst by lia. by rewrite decide_False by congruence. }
  destruct Hwf as [[Hsz Hflen Hcnt Hocc Hraw] Hks Hvs Hch].
  assert (Hlive1 : 1 ≤ countZ (is_live (flags_of h)) (Z.to_nat (_size h))).
  { apply (countZ_pos _ _ x); [lia|assumption]. }
  eexists. split.
  { unfold uhash_delete. rewrite Hfl. simpl. rewrite He. simpl. rewrite Hfl'. simpl.
    reflexivity. }
  assert (Hw : wrap (_count h - 1) = _count h - 1).
  { pose proof (countZ_bounds (is_live (flags_of h)) (Z.to_nat (_size h))).
    apply wrap_small. unfold ULIB_UINT_MAX, ULIB_UINT_BITS. lia. }
  simpl. rewrite Hw. repeat split; try done; simpl; try done.
  - unfold flags_of. simpl. rewrite Hlen. by apply Hflen.
  - unfold flags_of at 1. simpl.
    rewrite (countZ_update (is_live (flags_of h)) (is_live fl') _ x); [| lia |].
    + rewrite Hlive. unfold is_live at 2. rewrite Hx'. lia.
    + intros i Hi Hix. apply is_live_ext. apply Hoth; lia.
  - unfold p_uhash_occupied in *. simpl. rewrite Hocc. unfold flags_of at 2. simpl.
    apply countZ_ext. intros i Hi. destruct (decide (i = x)) as [->|Hix].
    + rewrite (is_live_used _ _ (proj1 Hx) Hlive). symmetry.
      apply is_used_iff; [lia|]. by right.
    + symmetry. apply is_used_ext. apply Hoth; lia.
  - intros i Hi Hli. unfold flags_of in Hli. simpl in Hli.
    assert (Hix : i ≠ x).
    { intros ->. apply is_live_iff in Hli. congruence. }
    rewrite (is_live_ext (flags_of h)) in Hli by (apply Hoth; lia).
    destruct (Hch i Hi Hli) as (k & Hk & Hchain). exists k. split; [assumption|].
    apply (chain_update h _ k i x); try done.
    + intros j Hj Hjx. simpl. split; [|reflexivity]. apply Hoth; lia.
    + intros _. unfold flags_of. simpl.
      by rewrite (probe_continue_status _ _ _ _ 1) by (done || lia).
Qed.

(** ** The probe loop of insertion *)

Lemma put_loop_S fuel fl ks key mask last i step site :
  uhash_put_loop (S fuel) fl ks key mask last i step site =
  c ← probe_continue fl ks key i;
  if c : bool then
    d ← p_uhf_isdel fl i;
    if Z.land (wrap (i + wrap (step + 1))) mask =? last
    then Some (Z.land (wrap (i + wrap (step + 1))) mask, if d =? 0 then site else i, true)
    else uhash_put_loop fuel fl ks key mask last
           (Z.land (wrap (i + wrap (step + 1))) mask) (wrap (step + 1))
           (if d =? 0 then site else i)
  else Some (i, site, false).
Proof. reflexivity. Qed.

Lemma put_loop_stop fuel fl ks key mask last i step site :
  probe_continue fl ks key i = Some false →
  uhash_put_loop fuel fl ks key mask last i step site = Some (i, site, false).
Proof. intros Hc. destruct fuel; simpl; rewrite Hc; reflexivity. Qed.

(** Walking through buckets that make the loop continue, [site] ends up
    as the last tombstone met, if any. *)
Lemma put_loop_skip fl ks key n s m fuel k site :
  pow2_size n → 0 ≤ s < n → 0 ≤ k ≤ m → m < n →
  (∀ j, k ≤ j < m → probe_continue fl ks key (probe_pos n s j) = Some true) →
  (Z.to_nat (m - k) ≤ fuel)%nat →
  ∃ site',
    uhash_put_loop fuel fl ks key (n - 1) s (probe_pos n s k) k site =
    uhash_put_loop (fuel - Z.to_nat (m - k)) fl ks key (n - 1) s (probe_pos n s m) m site' ∧
    ((site' = site ∧ ∀ j, k ≤ j < m → p_uhf_iseither fl (probe_pos n s j) = Some 0) ∨
     (∃ j, k ≤ j < m ∧ site' = probe_pos n s j ∧
           p_uhf_iseither fl (probe_pos n s j) = Some 1)).
Proof.
  intros Hn Hs Hk Hm. pose proof (pow2_size_bounds n Hn) as Hb.
  remember (Z.to_nat (m - k)) as d eqn:Hd. revert fuel k site Hk Hd.
  induction d as [|d IH]; intros fuel k site Hk Hd Hskip Hfuel.
  - assert (k = m) as -> by lia. exists site. rewrite Nat.sub_0_r.
    split; [reflexivity|]. left. split; [reflexivity|]. intros; lia.
  - destruct fuel as [|fuel]; [lia|]. rewrite put_loop_S.
    pose proof (Hskip k ltac:(lia)) as Hck. rewrite Hck. simpl.
    pose proof (probe_pos_range n s k Hn) as Hpk.
    destruct (probe_step_pos n s k Hn) as [-> ->];
      [unfold ULIB_UINT_MAX, ULIB_UINT_BITS; lia|].
    destruct (Z.eqb_spec (probe_pos n s (k + 1)) s) as [Heq|Hne].
    { exfalso. rewrite <- (probe_pos_0 n s) in Heq at 2 by lia.
      apply probe_pos_inj in Heq; [lia|assumption|lia|lia]. }
    rewrite isdel_iseither.
    destruct (continue_true_cases _ _ _ _ (proj1 Hpk) Hck) as [He|[He _]];
      rewrite He; simpl.
    + destruct (IH fuel (k + 1) (probe_pos n s k)) as (site' & Heq & Hsite);
        [lia|lia|intros; apply Hskip; lia|lia|].
      exists site'. split; [exact Heq|]. right.
      destruct Hsite as [[-> _]|(j & Hj & -> & Hj1)].
      * exists k. split; [lia|]. by split.
      * exists j. split; [lia|]. by split.
    + destruct (IH fuel (k + 1) site) as (site' & Heq & Hsite);
        [lia|lia|intros; apply Hskip; lia|lia|].
      exists site'. split; [exact Heq|].
      destruct Hsite as [[-> Hall]|(j & Hj & -> & Hj1)].
      * left. split; [reflexivity|]. intros j Hj.
        destruct (decide (j = k)) as [->|]; [assumption|]. apply Hall. lia.
      * right. exists j. split; [lia|]. by split.
Qed.

Lemma is_used_isempty fl i : is_used fl i = true ↔ p_uhf_isempty fl i = Some 0.
Proof.
  unfold is_used. destruct (p_uhf_isempty fl i) as [[|[]|]|]; split; congruence.
Qed.

Lemma continue_false_unused fl ks key i :
  0 ≤ i → is_Some (p_uhf_iseither fl i) → is_used fl i = false →
  probe_continue fl ks key i = Some false.
Proof.
  intros Hi [e He] Hu. rewrite (probe_continue_status _ _ _ _ e) by assumption.
  destruct (decide (e = 0)) as [->|].
  { rewrite (proj2 (is_used_iff fl i Hi)) in Hu by (by left). discriminate. }
  destruct (decide (e = 1)) as [->|]; [|reflexivity].
  rewrite (proj2 (is_used_iff fl i Hi)) in Hu by (by right). discriminate.
Qed.

(** With an empty bucket in the table, the probe loop stops during the
    first lap. *)
Lemma first_stop_ex h key :
  allocated h → (∃ e, 0 ≤ e < _size h ∧ is_used (flags_of h) e = false) →
  ∃ m, first_stop h key m.
Proof.
  intros Ha (e & He & Hu). pose proof Ha as (Hn & _).
  set (s := hash_index key (_size h - 1)).
  destruct (probe_pos_surj (_size h) s e Hn He) as (me & Hme & Hpos).
  set (P := λ j, match probe_continue (flags_of h) (_keys h) key (probe_pos (_size h) s j)
                 with Some false => true | _ => false end).
  destruct (least_index P me) as (m & Hm & HPm & Hleast); [lia| |].
  { unfold P. rewrite Hpos, continue_false_unused; try done; try lia.
    apply (probe_continue_is_Some _ (_keys h) key). by apply allocated_continue. }
  exists m. split; [lia|]. fold s. split.
  - intros j Hj. specialize (Hleast j Hj). unfold P in Hleast.
    destruct (allocated_continue h key (probe_pos (_size h) s j) Ha) as [c Hc].
    { by apply probe_pos_range. }
    rewrite Hc in *. by destruct c.
  - unfold P in HPm.
    destruct (probe_continue (flags_of h) (_keys h) key (probe_pos (_size h) s m))
      as [[|]|]; done.
Qed.

Lemma first_stop_unique h key m m' :
  first_stop h key m → first_stop h key m' → m = m'.
Proof.
  intros (Hm & Hpre & Hstop) (Hm' & Hpre' & Hstop').
  destruct (Z.lt_trichotomy m m') as [Hlt|[Heq|Hgt]]; [|assumption|].
  - rewrite Hpre' in Hstop by lia. discriminate.
  - rewrite Hpre in Hstop' by lia. discriminate.
Qed.

Lemma isempty_cases fl i :
  is_Some (p_uhf_iseither fl i) →
  (is_used fl i = true ∧ p_uhf_isempty fl i = Some 0) ∨
  (is_used fl i = false ∧ ∃ e, p_uhf_isempty fl i = Some e ∧ (e =? 0) = false).
Proof.
  intros [s Hs]. unfold is_used. rewrite isempty_iseither, Hs. simpl.
  destruct (Z.eqb_spec (Z.land s 2) 0) as [->|Hne]; [by left|right].
  split; [by destruct (Z.land s 2) as [|[]|]|].
  exists (Z.land s 2). split; [reflexivity|]. by apply Z.eqb_neq.
Qed.

Lemma allocated_status h i :
  allocated h → 0 ≤ i < _size h → is_Some (p_uhf_iseither (flags_of h) i).
Proof.
  intros Ha Hi. apply (probe_continue_is_Some _ (_keys h) undef_key).
  by apply allocated_continue.
Qed.

(** The bucket chosen by [uhash_put]: the bucket at which the probe loop
    stops when that bucket is in use (it then holds the key); otherwise
    the last tombstone met on the way, or, without one, the empty bucket
    at which the loop stops. *)
Lemma put_site_spec h key m :
  allocated h → first_stop h key m →
  ∃ x, uhash_put_site h key = Some x ∧
    let pos := probe_pos (_size h) (hash_index key (_size h - 1)) in
    ((is_used (flags_of h) (pos m) = true ∧ x = pos m) ∨
     (is_used (flags_of h) (pos m) = false ∧
      ((x = pos m ∧ ∀ j, 0 ≤ j < m → p_uhf_iseither (flags_of h) (pos j) = Some 0) ∨
       (∃ j, 0 ≤ j < m ∧ x = pos j ∧ p_uhf_iseither (flags_of h) (pos j) = Some 1)))).
Proof.
  intros Ha Hfs. pose proof Hfs as (Hm & Hpre & Hstop).
  pose proof Ha as (Hn & _). pose proof (pow2_size_bounds _ Hn) as Hb.
  unfold uhash_put_site. rewrite (allocated_flags h Ha). simpl.
  rewrite wrap_size_pred by assumption.
  set (s := hash_index key (_size h - 1)) in *.
  pose proof (hash_index_range key _ Hn) as Hs. fold s in Hs.
  set (pos := probe_pos (_size h) s) in *.
  assert (Hpm : 0 ≤ pos m < _size h) by (by apply probe_pos_range).
  destruct (isempty_cases (flags_of h) s) as [[Hu He]|[Hu (e & He & Hne)]];
    [by apply allocated_status| |]; rewrite He; simpl.
  - destruct (put_loop_skip (flags_of h) (_keys h) key (_size h) s m
                (Z.to_nat (2 * _size h)) 0 (_size h))
      as (site' & Hloop & Hsite); try done; try lia.
    rewrite probe_pos_0 in Hloop by assumption. rewrite Hloop.
    rewrite put_loop_stop by assumption. simpl. rewrite Z.eqb_refl.
    destruct (isempty_cases (flags_of h) (pos m)) as [[Hum Hem]|[Hum (e & Hem & Hne)]];
      [by apply allocated_status| |]; fold pos; rewrite Hem; simpl.
    + exists (pos m). split; [reflexivity|]. left. by split.
    + rewrite Hne. simpl. destruct Hsite as [[-> Hall]|(j & Hj & -> & Hj1)].
      * rewrite Z.eqb_refl. simpl. exists (pos m). split; [reflexivity|].
        right. split; [assumption|]. left. by split.
      * pose proof (probe_pos_range (_size h) s j Hn) as Hpj.
        destruct (Z.eqb_spec (probe_pos (_size h) s j) (_size h)) as [?|_]; [lia|].
        simpl. exists (pos j). split; [reflexivity|].
        right. split; [assumption|]. right. exists j. split; [lia|]. by split.
  - rewrite Hne. simpl. exists s. split; [reflexivity|].
    assert (m = 0) as ->.
    { apply (first_stop_unique h key); [assumption|]. split; [lia|]. split; [intros; lia|].
      fold s. rewrite probe_pos_0 by assumption.
      apply continue_false_unused; [lia|by apply allocated_status|assumption]. }
    unfold pos. rewrite probe_pos_0 by assumption.
    right. split; [assumption|]. left. split; [reflexivity|]. intros; lia.
Qed.

(** ** Filling a bucket *)

Lemma load_store_eq {A} (p : option (list A)) i x l :
  store p i x = Some l → load (Some l) i = Some x.
Proof.
  unfold store, load. destruct p as [l0|]; simpl; [|discriminate].
  destruct (decide (Z.to_nat i < length l0)%nat); [|discriminate].
  intros [= <-]. simpl. by apply list_lookup_insert_eq.
Qed.

Lemma load_store_ne {A} (p : option (list A)) i j x l :
  0 ≤ i → 0 ≤ j → i ≠ j → store p i x = Some l → load (Some l) j = load p j.
Proof.
  unfold store, load. intros Hi Hj Hij. destruct p as [l0|]; simpl; [|discriminate].
  destruct (decide (Z.to_nat i < length l0)%nat); [|discriminate].
  intros [= <-]. simpl. apply list_lookup_insert_ne. lia.
Qed.

Lemma store_length {A} (p : option (list A)) i x l :
  store p i x = Some l → length l = length (default [] p).
Proof.
  unfold store. destruct p as [l0|]; simpl; [|discriminate].
  destruct (decide (Z.to_nat i < length l0)%nat); [|discriminate].
  intros [= <-]. apply length_insert.
Qed.

Lemma store_is_Some {A} (p : option (list A)) i x :
  0 ≤ i < Z.of_nat (length (default [] p)) → is_Some (store p i x).
Proof.
  unfold store. intros Hi. destruct p as [l0|]; simpl in *; [|lia].
  rewrite decide_True by lia. eauto.
Qed.

(** Writing [key] into a bucket that is not live, at the end of a prefix
    of its probe sequence that makes the probe loop continue, keeps the
    invariant. *)
Lemma fill_bucket_WF h key x mx occ' :
  WF h → 0 ≤ mx < _size h →
  probe_pos (_size h) (hash_index key (_size h - 1)) mx = x →
  (∀ j, 0 ≤ j < mx →
        probe_continue (flags_of h) (_keys h) key
          (probe_pos (_size h) (hash_index key (_size h - 1)) j) = Some true) →
  is_live (flags_of h) x = false → ¬ member h key →
  occ' = (if is_used (flags_of h) x then _occupied h else _occupied h + 1) →
  ∃ fl' kl, p_uhf_set_isboth_false (flags_of h) x = Some fl' ∧
    store (_keys h) x key = Some kl ∧
    WF (mkUHash (_size h) occ' (_count h + 1) (Some fl') (Some kl) (_vals h)) ∧
    is_live fl' x = true ∧ load (Some kl) x = Some key ∧
    (∀ i, 0 ≤ i → i ≠ x →
          p_uhf_iseither fl' i = p_uhf_iseither (flags_of h) i ∧
          load (Some kl) i = load (_keys h) i).
Proof.
  intros Hwf Hmx Hpos Hpre Hdead Hnm Hocc'.
  assert (Hne : _size h ≠ 0) by lia.
  pose proof (WF_allocated h Hwf Hne) as Ha.
  pose proof (WF_pow2 h Hwf Hne) as Hn. pose proof (pow2_size_bounds _ Hn) as Hb.
  assert (Hx : 0 ≤ x < _size h) by (subst x; by apply probe_pos_range).
  destruct (allocated_status h x Ha Hx) as [e He].
  destruct (set_is_Some _ _ _ He) as ([fl' Hfl'] & _).
  destruct (set_isboth_false_spec _ _ _ (proj1 Hx) Hfl') as [Hlen Hst].
  destruct (store_is_Some (_keys h) x key) as [kl Hkl].
  { destruct Ha as (_ & _ & ?). lia. }
  assert (Hx' : p_uhf_iseither fl' x = Some 0).
  { rewrite Hst by lia. by rewrite decide_True. }
  assert (Hoth : ∀ i, 0 ≤ i → i ≠ x →
            p_uhf_iseither fl' i = p_uhf_iseither (flags_of h) i ∧
            load (Some kl) i = load (_keys h) i).
  { intros i Hi Hix. split.
    - rewrite Hst by lia. by rewrite decide_False by congruence.
    - eapply load_store_ne; [| |exact (not_eq_sym Hix)|exact Hkl]; lia. }
  exists fl', kl. split; [assumption|]. split; [assumption|].
  split; [|split; [by apply is_live_iff|split; [by eapply load_store_eq|assumption]]].
  destruct Hwf as [[Hsz Hflen Hcnt Hocc Hraw] Hks Hvs Hch].
  assert (Hused : countZ (is_used fl') (Z.to_nat (_size h)) =
                  countZ (is_used (flags_of h)) (Z.to_nat (_size h)) +
                  (if is_used (flags_of h) x then 0 else 1)).
  { rewrite (countZ_update (is_used (flags_of h)) (is_used fl') _ x); [|lia|].
    - rewrite (proj2 (is_used_iff fl' x (proj1 Hx))) by (by left).
      destruct (is_used (flags_of h) x); lia.
    - intros i Hi Hix. apply is_used_ext. apply Hoth; lia. }
  assert (Hpocc : p_uhash_occupied h = _occupied h).
  { unfold p_uhash_occupied. specialize (Hraw Hne).
    destruct (Z.gtb_spec (_occupied h) (_size h)); [lia|reflexivity]. }
  pose proof (countZ_bounds (is_used fl') (Z.to_nat (_size h))) as Hub.
  assert (Hocc'' : occ' = countZ (is_used fl') (Z.to_nat (_size h))).
  { rewrite Hused, <- Hocc, Hpocc, Hocc'. destruct (is_used (flags_of h) x); lia. }
  split; [split| | |]; simpl.
  - assumption.
  - intros _. unfold flags_of. simpl. rewrite Hlen. by apply Hflen.
  - unfold flags_of. simpl.
    rewrite (countZ_update (is_live (flags_of h)) (is_live fl') _ x); [|lia|].
    + rewrite Hdead, (proj2 (is_live_iff fl' x) Hx'). lia.
    + intros i Hi Hix. apply is_live_ext. apply Hoth; lia.
  - unfold p_uhash_occupied, flags_of. simpl.
    destruct (Z.gtb_spec occ' (_size h)); [lia|]. exact Hocc''.
  - intros _. lia.
  - intros _. exists kl. split; [reflexivity|].
    rewrite (store_length _ _ _ _ Hkl). by destruct Ha as (_ & _ & ?).
  - assumption.
  - intros i Hi Hli. unfold flags_of in Hli. simpl in Hli.
    destruct (decide (i = x)) as [->|Hix].
    + exists key. split; [by eapply load_store_eq|].
      exists mx. simpl. split; [assumption|]. split; [assumption|].
      intros j Hj. specialize (Hpre j Hj).
      set (p := probe_pos (_size h) (hash_index key (_size h - 1)) j) in *.
      assert (Hp : 0 ≤ p < _size h) by (by apply probe_pos_range).
      assert (Hpx : p ≠ x).
      { intros Heq. rewrite <- Hpos in Heq.
        apply probe_pos_inj in Heq; [lia|assumption|lia|lia]. }
      destruct (Hoth p (proj1 Hp) Hpx) as [Hf Hk].
      unfold flags_of at 1. simpl.
      by rewrite (probe_continue_ext (flags_of h) _ (_keys h)).
    + destruct (Hoth i (proj1 Hi) Hix) as [Hf Hk].
      rewrite (is_live_ext (flags_of h)) in Hli by assumption.
      destruct (Hch i Hi Hli) as (k & Hk' & Hchain). exists k.
      split; [simpl; congruence|].
      apply (chain_update h _ k i x); try done.
      * intros j Hj Hjx. destruct (Hoth j (proj1 Hj) Hjx). by split.
      * intros _. unfold flags_of. simpl.
        rewrite (probe_continue_status _ _ _ _ 0) by (done || lia). simpl.
        rewrite (load_store_eq _ _ _ _ Hkl). simpl. f_equal.
        apply negb_true_iff. destruct (equal_func key k) eqn:Heq; [|reflexivity].
        apply equal_spec in Heq. subst k. exfalso. apply Hnm.
        exists i, (load (_vals h) i). unfold cell. repeat split; (assumption || lia).
Qed.

Lemma WF_occupied h : WF h → _size h ≠ 0 → p_uhash_occupied h = _occupied h.
Proof.
  intros Hwf Hne. pose proof (co_raw h (wf_counts h Hwf) Hne).
  unfold p_uhash_occupied. destruct (Z.gtb_spec (_occupied h) (_size h)); [lia|reflexivity].
Qed.

Lemma WF_count_bounds h :
  WF h → 0 ≤ _count h ≤ p_uhash_occupied h ∧ p_uhash_occupied h ≤ _size h.
Proof.
  intros [[Hsz Hflen Hcnt Hocc Hraw] _ _ _]. rewrite Hcnt, Hocc.
  pose proof (countZ_bounds (is_live (flags_of h)) (Z.to_nat (_size h))).
  pose proof (countZ_bounds (is_used (flags_of h)) (Z.to_nat (_size h))).
  assert (0 ≤ _size h) by (destruct Hsz as [->|?%pow2_size_bounds]; lia).
  split; [split; [lia|]|lia].
  apply countZ_le. intros i Hi. apply is_live_used. lia.
Qed.

Lemma WF_empty_bucket h :
  WF h → p_uhash_occupied h < _size h →
  ∃ e, 0 ≤ e < _size h ∧ is_used (flags_of h) e = false.
Proof.
  intros Hwf Hlt. rewrite (co_occupied h (wf_counts h Hwf)) in Hlt.
  destruct (countZ_lt_ex (is_used (flags_of h)) (Z.to_nat (_size h))) as (e & He & Hu);
    [lia|]. exists e. split; [lia|assumption].
Qed.

(** A live bucket holding [key] is where the probe loop of [key] stops. *)
Lemma cell_first_stop h key i ov :
  WF h → cell h i key ov →
  ∃ m, first_stop h key m ∧ probe_pos (_size h) (hash_index key (_size h - 1)) m = i.
Proof.
  intros Hwf (Hi & Hlive & Hkey & _).
  destruct (wf_chain h Hwf i Hi Hlive) as (k & Hk & (m & Hm & Hpos & Hpre)).
  assert (k = key) as -> by congruence.
  exists m. split; [|assumption]. split; [assumption|]. split; [assumption|].
  rewrite Hpos. apply is_live_iff in Hlive.
  rewrite (probe_continue_status _ _ _ _ 0) by (done || lia). simpl.
  rewrite Hkey. simpl. f_equal. apply negb_false_iff. by apply equal_spec.
Qed.

(** The insertion part of [uhash_put] on a table with an empty bucket. *)
Lemma put_insert_spec h key :
  WF h → p_uhash_occupied h < _size h →
  ∃ r x h', uhash_put_insert h key = Some (r, x, h') ∧ WF h' ∧ _size h' = _size h ∧
    0 ≤ x < _size h ∧ is_live (flags_of h') x = true ∧ load (_keys h') x = Some key ∧
    _vals h' = _vals h ∧
    (∀ i, 0 ≤ i < _size h → i ≠ x →
          is_live (flags_of h') i = is_live (flags_of h) i ∧
          load (_keys h') i = load (_keys h) i) ∧
    ((r = UHASH_PRESENT ∧ h' = h ∧ is_live (flags_of h) x = true) ∨
     (r = UHASH_INSERTED ∧ ¬ member h key ∧ is_live (flags_of h) x = false ∧
      _count h' = _count h + 1 ∧
      p_uhash_occupied h ≤ p_uhash_occupied h' ≤ p_uhash_occupied h + 1)).
Proof.
  intros Hwf Hroom. pose proof (WF_count_bounds h Hwf) as Hcb.
  assert (Hne : _size h ≠ 0) by lia.
  pose proof (WF_allocated h Hwf Hne) as Ha.
  pose proof (WF_pow2 h Hwf Hne) as Hn. pose proof (pow2_size_bounds _ Hn) as Hb.
  pose proof (WF_occupied h Hwf Hne) as Hpo.
  destruct (first_stop_ex h key Ha (WF_empty_bucket h Hwf Hroom)) as (m & Hfs).
  destruct (put_site_spec h key m Ha Hfs) as (x & Hsite & Hx).
  pose proof Hfs as (Hm & Hpre & Hstop). simpl in Hx.
  set (pos := probe_pos (_size h) (hash_index key (_size h - 1))) in *.
  assert (Hpm : 0 ≤ pos m < _size h) by (by apply probe_pos_range).
  assert (Hnm : is_used (flags_of h) (pos m) = false → ¬ member h key).
  { intros Hu (i & ov & Hcell).
    destruct (cell_first_stop h key i ov Hwf Hcell) as (m' & Hfs' & Hpos').
    rewrite (first_stop_unique h key m m' Hfs Hfs') in Hu. fold pos in Hpos'.
    rewrite Hpos' in Hu. destruct Hcell as (Hi & Hl & _).
    rewrite (is_live_used _ _ (proj1 Hi) Hl) in Hu. discriminate. }
  assert (Hxr : 0 ≤ x < _size h).
  { destruct Hx as [[_ ->]|[_ [[-> _]|(j & _ & -> & _)]]]; try assumption.
    by apply probe_pos_range. }
  assert (Hxne : (x =? _size h) = false) by (apply Z.eqb_neq; lia).
  unfold uhash_put_insert. rewrite Hsite. simpl. rewrite (allocated_flags h Ha). simpl.
  rewrite isempty_iseither, isdel_iseither.
  destruct Hx as [[Hu ->]|[Hu [[-> Hall]|(j & Hj & -> & Hj1)]]].
  - (* the key is present *)
    destruct (continue_false_cases _ _ _ _ (proj1 Hpm) Hstop)
      as [[He Hkey]|(e & _ & _ & Hu')]; [|congruence].
    fold pos in He. rewrite He. simpl. rewrite Hxne.
    exists UHASH_PRESENT, (pos m), h.
    split; [reflexivity|]. split; [assumption|]. split; [reflexivity|].
    split; [assumption|]. split; [by apply is_live_iff|]. split; [assumption|].
    split; [reflexivity|]. split; [by intros|].
    left. split; [reflexivity|]. split; [reflexivity|]. by apply is_live_iff.
  - (* the empty bucket at the end of the probe sequence *)
    destruct (continue_false_cases _ _ _ _ (proj1 Hpm) Hstop)
      as [[He Hkey]|(e & He & Hene & _)].
    { rewrite (proj2 (is_used_iff _ _ (proj1 Hpm))) in Hu by (by left). discriminate. }
    assert (Hdead : is_live (flags_of h) (pos m) = false).
    { unfold is_live. fold pos in He. rewrite He. by destruct e as [|[]|]. }
    destruct (fill_bucket_WF h key (pos m) m (_occupied h + 1) Hwf Hm eq_refl Hpre Hdead
                (Hnm Hu)) as (fl' & kl & Hfl' & Hkl & Hwf' & Hlive' & Hkey' & Hoth).
    { fold pos. by rewrite Hu. }
    fold pos in He. rewrite He. simpl.
    destruct (isempty_cases (flags_of h) (pos m)) as [[Hu' _]|[_ (e' & He' & Hne')]];
      [eauto|congruence|].
    rewrite isempty_iseither, He in He'. simpl in He'. injection He' as He'.
    rewrite He', Hne'. simpl. rewrite Hkl. simpl. rewrite Hfl'. simpl. rewrite Hxne.
    rewrite !wrap_small by (unfold ULIB_UINT_MAX, ULIB_UINT_BITS; lia).
    eexists _, _, _. split; [reflexivity|]. split; [exact Hwf'|].
    split; [reflexivity|]. split; [assumption|]. split; [exact Hlive'|].
    split; [exact Hkey'|]. split; [reflexivity|]. split.
    + intros i Hi Hix. destruct (Hoth i (proj1 Hi) Hix) as [Hf Hk].
      split; [by apply is_live_ext|assumption].
    + right. pose proof (WF_occupied _ Hwf' Hne) as Hpo'. simpl in Hpo'.
      rewrite Hpo'. split; [reflexivity|]. split; [by apply Hnm|].
      split; [assumption|]. simpl. lia.
  - (* a tombstone met on the way *)
    assert (Hdead : is_live (flags_of h) (pos j) = false).
    { unfold is_live. fold pos in Hj1. by rewrite Hj1. }
    assert (Hused : is_used (flags_of h) (pos j) = true).
    { apply is_used_iff; [lia|]. by right. }
    destruct (fill_bucket_WF h key (pos j) j (_occupied h) Hwf ltac:(lia) eq_refl
                ltac:(intros; apply Hpre; lia) Hdead (Hnm Hu))
      as (fl' & kl & Hfl' & Hkl & Hwf' & Hlive' & Hkey' & Hoth).
    { fold pos. by rewrite Hused. }
    fold pos in Hj1. rewrite Hj1. simpl. rewrite Hkl. simpl. rewrite Hfl'. simpl.
    rewrite Hxne. rewrite !wrap_small by (unfold ULIB_UINT_MAX, ULIB_UINT_BITS; lia).
    eexists _, _, _. split; [reflexivity|]. split; [exact Hwf'|].
    split; [reflexivity|]. split; [assumption|]. split; [exact Hlive'|].
    split; [exact Hkey'|]. split; [reflexivity|]. split.
    + intros i Hi Hix. destruct (Hoth i (proj1 Hi) Hix) as [Hf Hk].
      split; [by apply is_live_ext|assumption].
    + right. pose proof (WF_occupied _ Hwf' Hne) as Hpo'. simpl in Hpo'.
      rewrite Hpo'. split; [reflexivity|]. split; [by apply Hnm|].
      split; [assumption|]. simpl. lia.
Qed.

(** ** The rehash of [uhash_resize] *)

Lemma find_empty_S fuel nfl mask i step :
  find_empty (S fuel) nfl mask i step =
  e ← p_uhf_isempty nfl i;
  if e =? 0 then
    find_empty fuel nfl mask (Z.land (wrap (i + wrap (step + 1))) mask) (wrap (step + 1))
  else Some i.
Proof. reflexivity. Qed.

Lemma find_empty_stop fuel nfl mask i step :
  is_Some (p_uhf_iseither nfl i) → is_used nfl i = false →
  find_empty fuel nfl mask i step = Some i.
Proof.
  intros Hd Hu. destruct (isempty_cases nfl i Hd) as [[? _]|[_ (e & He & Hne)]];
    [congruence|].
  destruct fuel; simpl; rewrite He; simpl; by rewrite Hne.
Qed.

Lemma find_empty_skip nfl n s m fuel k :
  pow2_size n → 0 ≤ k ≤ m → m < n →
  (∀ j, k ≤ j < m → is_used nfl (probe_pos n s j) = true) →
  (Z.to_nat (m - k) ≤ fuel)%nat →
  find_empty fuel nfl (n - 1) (probe_pos n s k) k =
  find_empty (fuel - Z.to_nat (m - k)) nfl (n - 1) (probe_pos n s m) m.
Proof.
  intros Hn Hk Hm. pose proof (pow2_size_bounds n Hn) as Hb.
  remember (Z.to_nat (m - k)) as d eqn:Hd. revert fuel k Hk Hd.
  induction d as [|d IH]; intros fuel k Hk Hd Hskip Hfuel.
  - assert (k = m) as -> by lia. by rewrite Nat.sub_0_r.
  - destruct fuel as [|fuel]; [lia|]. rewrite find_empty_S.
    rewrite (proj1 (is_used_isempty _ _) (Hskip k ltac:(lia))). simpl.
    destruct (probe_step_pos n s k Hn) as [-> ->];
      [unfold ULIB_UINT_MAX, ULIB_UINT_BITS; lia|].
    apply IH; [lia|lia| |lia]. intros j Hj. apply Hskip. lia.
Qed.

(** The inner loop of the kick-out process finds the first empty bucket
    of the probe sequence in the new flags. *)
Lemma find_empty_spec nfl n s :
  pow2_size n → 0 ≤ s < n →
  (∀ i, 0 ≤ i < n → is_Some (p_uhf_iseither nfl i)) →
  countZ (is_used nfl) (Z.to_nat n) < n →
  ∃ m, 0 ≤ m < n ∧
       find_empty (Z.to_nat n) nfl (n - 1) s 0 = Some (probe_pos n s m) ∧
       is_used nfl (probe_pos n s m) = false ∧
       ∀ j, 0 ≤ j < m → is_used nfl (probe_pos n s j) = true.
Proof.
  intros Hn Hs Hdef Hcnt. pose proof (pow2_size_bounds n Hn) as Hb.
  destruct (countZ_lt_ex (is_used nfl) (Z.to_nat n)) as (e & He & Hu); [lia|].
  destruct (probe_pos_surj n s e Hn) as (me & Hme & Hpos); [lia|].
  destruct (least_index (λ j, negb (is_used nfl (probe_pos n s j))) me)
    as (m & Hm & HPm & Hleast); [lia|by rewrite Hpos, Hu|].
  apply negb_true_iff in HPm.
  assert (Hpre : ∀ j, 0 ≤ j < m → is_used nfl (probe_pos n s j) = true).
  { intros j Hj. specialize (Hleast j Hj). by apply negb_false_iff in Hleast. }
  exists m. split; [lia|]. split; [|by split].
  pose proof (find_empty_skip nfl n s m (Z.to_nat n) 0 Hn) as Hskip.
  rewrite probe_pos_0 in Hskip by assumption.
  rewrite Hskip by (try lia; intros; apply Hpre; lia).
  apply find_empty_stop; [|assumption]. apply Hdef. by apply probe_pos_range.
Qed.

Lemma occupant_ext S N st st' i :
  p_uhf_iseither (r_new_flags st') i = p_uhf_iseither (r_new_flags st) i →
  p_uhf_iseither (r_flags st') i = p_uhf_iseither (r_flags st) i →
  occupant S N st' i = occupant S N st i.
Proof.
  intros Hn Ho. unfold occupant, new_used, old_live.
  by rewrite (is_used_ext _ _ _ Hn), (is_live_ext _ _ _ Ho).
Qed.

Lemma hand_val_load st i v d :
  0 ≤ i → (∀ vl, r_vals st = Some vl → i < Z.of_nat (length vl)) →
  match r_vals st with Some _ => load (r_vals st) i | None => Some d end = Some v →
  load (r_vals st) i = hand_val st v.
Proof.
  unfold hand_val. intros Hi Hlen. destruct (r_vals st) as [vl|]; [done|].
  intros _. reflexivity.
Qed.

(** Taking the element of a live bucket of the old layout in hand. *)
Lemma rehash_take E C S N st j :
  rehash_inv E C S N st None → 0 ≤ j < S → is_live (r_flags st) j = true →
  ∃ key val fl',
    load (r_keys st) j = Some key ∧
    match r_vals st with Some _ => load (r_vals st) j | None => Some zero_val end
      = Some val ∧
    p_uhf_set_isdel_true (r_flags st) j = Some fl' ∧
    rehash_inv E C S N (mkRehash fl' (r_new_flags st) (r_keys st) (r_vals st))
      (Some (key, val)) ∧
    is_live fl' j = false ∧
    (∀ i, 0 ≤ i → is_live (r_flags st) i = false → is_live fl' i = false).
Proof.
  destruct st as [F NF ks vs]. cbn [r_flags r_new_flags r_keys r_vals].
  intros [Hfl Hnfl Hnlen Hks Hvs Hdis Hcnt Hcont Hinj Hhand Hch] Hj Hlive.
  unfold occupant, new_used, old_live, hand_val in *.
  cbn [r_flags r_new_flags r_keys r_vals] in *.
  destruct Hks as (kl & Hkl & Hklen).
  destruct (load_is_Some ks j) as [key Hkey]; [rewrite Hkl; simpl; lia|].
  assert (Hval : ∃ val, match vs with Some _ => load vs j | None => Some zero_val end
                        = Some val).
  { destruct vs as [vl|] eqn:Hvl; [|eauto].
    apply load_is_Some. simpl. specialize (Hvs vl eq_refl). lia. }
  destruct Hval as [val Hval].
  pose proof Hlive as He. apply is_live_iff in He.
  destruct (set_is_Some _ _ _ He) as (_ & _ & [fl' Hfl']).
  destruct (set_isdel_true_spec _ _ _ (proj1 Hj) Hfl') as [Hlen Hst].
  assert (Hj' : is_live fl' j = false).
  { unfold is_live. rewrite Hst by lia. rewrite decide_True by reflexivity. by rewrite He. }
  assert (Hoth : ∀ i, 0 ≤ i → i ≠ j → p_uhf_iseither fl' i = p_uhf_iseither F i).
  { intros i Hi Hij. rewrite Hst by lia. by rewrite decide_False by congruence. }
  assert (HjS : (j <? S) = true) by (apply Z.ltb_lt; lia).
  assert (Hnuj : (j <? N) && is_used NF j = false).
  { destruct ((j <? N) && is_used NF j) eqn:Hnu; [|reflexivity].
    apply Hdis in Hnu; [|lia]. rewrite Hlive, HjS in Hnu. discriminate. }
  assert (Hhv : load vs j = match vs with Some _ => Some val | None => None end).
  { destruct vs; [assumption|reflexivity]. }
  exists key, val, fl'. split; [assumption|]. split; [assumption|]. split; [assumption|].
  split; [split; unfold occupant, new_used, old_live, hand_val;
            cbn [r_flags r_new_flags r_keys r_vals]|].
  - intros i Hi. destruct (decide (i = j)) as [->|Hij].
    + rewrite Hst by lia. rewrite decide_True by reflexivity. rewrite He. simpl. eauto.
    + rewrite Hoth by (lia || assumption). by apply Hfl.
  - assumption.
  - assumption.
  - by exists kl.
  - assumption.
  - intros i Hi Hnu. destruct (decide (i = j)) as [->|Hij]; [congruence|].
    rewrite (is_live_ext F) by (by apply Hoth). by apply Hdis.
  - rewrite <- Hcnt.
    rewrite (countZ_update (is_live F) (is_live fl') _ j); [|lia|].
    + rewrite Hlive, Hj'. lia.
    + intros i Hi Hij. apply is_live_ext. apply Hoth; lia.
  - intros k ov. rewrite Hcont. split.
    + intros [(i & Hi & Hoi & Hki & Hvi)|(v & [=] & _)].
      destruct (decide (i = j)) as [->|Hij].
      * right. exists val. split; [congruence|]. by rewrite <- Hvi.
      * left. exists i. rewrite (is_live_ext F) by (by apply Hoth). by repeat split.
    + intros [(i & Hi & Hoi & Hki & Hvi)|(v & [= -> ->] & ->)].
      * left. exists i. destruct (decide (i = j)) as [->|Hij].
        { rewrite Hnuj, Hj', andb_false_r in Hoi. discriminate. }
        rewrite (is_live_ext F) in Hoi by (by apply Hoth). by repeat split.
      * left. exists j. split; [lia|]. rewrite Hlive, HjS, orb_true_r. by repeat split.
  - intros i i' k Hi Hi' Hoi Hoi' Hki Hki'.
    destruct (decide (i = j)) as [->|Hij].
    { rewrite Hnuj, Hj', andb_false_r in Hoi. discriminate. }
    destruct (decide (i' = j)) as [->|Hij'].
    { rewrite Hnuj, Hj', andb_false_r in Hoi'. discriminate. }
    rewrite (is_live_ext F) in Hoi, Hoi' by (by apply Hoth). by apply (Hinj i i' k).
  - intros k v i [= -> ->] Hi Hoi Hki.
    destruct (decide (i = j)) as [->|Hij].
    { rewrite Hnuj, Hj', andb_false_r in Hoi. discriminate. }
    rewrite (is_live_ext F) in Hoi by (by apply Hoth). apply Hij.
    apply (Hinj i j k); try done; try lia. by rewrite Hlive, HjS, orb_true_r.
  - assumption.
  - split; [assumption|].
    intros i Hi Hdead. destruct (decide (i = j)) as [->|Hij]; [congruence|].
    by rewrite (is_live_ext F) by (by apply Hoth).
Qed.

(** What claiming bucket [i] of the new layout for the element in hand
    does to the new flags and to the key and value arrays. *)
Lemma rehash_claim E C S N st hand key val i :
  rehash_inv E C S N st hand → 0 ≤ i < N → is_used (r_new_flags st) i = false →
  ∃ nfl kl vs',
    p_uhf_set_isempty_false (r_new_flags st) i = Some nfl ∧
    store (r_keys st) i key = Some kl ∧
    match r_vals st with
    | Some _ => vl ← store (r_vals st) i val; Some (Some vl)
    | None => Some None
    end = Some vs' ∧
    length nfl = length (r_new_flags st) ∧
    (∀ j, 0 ≤ j → p_uhf_iseither nfl j =
                  if decide (i = j) then Some 0 else p_uhf_iseither (r_new_flags st) j) ∧
    Z.max S N ≤ Z.of_nat (length kl) ∧
    (∀ j, 0 ≤ j → load (Some kl) j = if decide (i = j) then Some key else load (r_keys st) j) ∧
    (∀ vl, vs' = Some vl → Z.max S N ≤ Z.of_nat (length vl)) ∧
    (∀ j, 0 ≤ j → load vs' j = if decide (i = j) then hand_val st val
                               else load (r_vals st) j) ∧
    (∀ v, match vs' with Some _ => Some v | None => None end = hand_val st v).
Proof.
  destruct st as [F NF ks vs]. unfold hand_val. cbn [r_flags r_new_flags r_keys r_vals].
  intros [_ Hnfl _ Hks Hvs _ _ _ _ _ _] Hi Hfree.
  cbn [r_flags r_new_flags r_keys r_vals] in *.
  assert (He : p_uhf_iseither NF i = Some 2).
  { destruct (Hnfl i Hi) as [H0|H2]; [|assumption].
    rewrite (proj2 (is_used_iff NF i (proj1 Hi))) in Hfree by (by left). discriminate. }
  destruct (set_is_Some _ _ _ He) as (_ & [nfl Hset] & _).
  destruct (set_isempty_false_spec _ _ _ (proj1 Hi) Hset) as [Hlen Hst].
  destruct Hks as (kl0 & -> & Hklen).
  destruct (store_is_Some (Some kl0) i key) as [kl Hkl]; [simpl; lia|].
  assert (Hvs' : ∃ vs', match vs with
                        | Some _ => vl ← store vs i val; Some (Some vl)
                        | None => Some None end = Some vs' ∧
            (∀ vl, vs' = Some vl → Z.max S N ≤ Z.of_nat (length vl)) ∧
            (∀ j, 0 ≤ j → load vs' j =
               if decide (i = j) then match vs with Some _ => Some val | None => None end
               else load vs j) ∧
            (∀ v : V, match vs' with Some _ => Some v | None => None end =
                      match vs with Some _ => Some v | None => None end)).
  { destruct vs as [vl0|].
    - specialize (Hvs vl0 eq_refl).
      destruct (store_is_Some (Some vl0) i val) as [vl Hvl]; [simpl; lia|].
      exists (Some vl). rewrite Hvl. simpl. split; [reflexivity|]. split; [|split].
      + intros ? [= <-]. by rewrite (store_length _ _ _ _ Hvl).
      + intros j Hj. destruct (decide (i = j)) as [<-|Hij].
        * by eapply load_store_eq.
        * eapply load_store_ne; [| |exact Hij|exact Hvl]; lia.
      + reflexivity.
    - exists None. split; [reflexivity|]. split; [done|]. split; [|reflexivity].
      intros j Hj. by destruct (decide (i = j)). }
  destruct Hvs' as (vs' & Hvs' & Hvlen & Hvload & Hhv).
  exists nfl, kl, vs'. split; [assumption|]. split; [assumption|]. split; [assumption|].
  split; [assumption|]. split.
  { intros j Hj. rewrite Hst by assumption. destruct (decide (i = j)); [|reflexivity].
    by rewrite He. }
  split; [by rewrite (store_length _ _ _ _ Hkl)|]. split.
  { intros j Hj. destruct (decide (i = j)) as [<-|Hij].
    - by eapply load_store_eq.
    - eapply load_store_ne; [| |exact Hij|exact Hkl]; lia. }
  by repeat split.
Qed.

Lemma is_used_claim NF nfl i :
  0 ≤ i →
  (∀ j, 0 ≤ j → p_uhf_iseither nfl j =
                if decide (i = j) then Some 0 else p_uhf_iseither NF j) →
  is_used nfl i = true ∧
  (∀ j, 0 ≤ j → j ≠ i → is_used nfl j = is_used NF j) ∧
  (∀ j, 0 ≤ j → is_used NF j = true → is_used nfl j = true).
Proof.
  intros Hi Hst.
  assert (H1 : is_used nfl i = true).
  { apply is_used_iff; [lia|]. left. rewrite Hst by lia. by rewrite decide_True. }
  assert (H2 : ∀ j, 0 ≤ j → j ≠ i → is_used nfl j = is_used NF j).
  { intros j Hj Hji. apply is_used_ext. rewrite Hst by lia.
    by rewrite decide_False by congruence. }
  split; [assumption|]. split; [assumption|].
  intros j Hj Hu. destruct (decide (j = i)) as [->|Hji]; [assumption|].
  by rewrite H2.
Qed.

(** The chains of the new layout after bucket [i] has been claimed for
    [key]. *)
Lemma rehash_chain_claim N NF nfl ks kl key i m :
  0 ≤ i < N → 0 ≤ m < N →
  probe_pos N (hash_index key (N - 1)) m = i →
  (∀ j, 0 ≤ j < m → is_used NF (probe_pos N (hash_index key (N - 1)) j) = true) →
  pow2_size N →
  (∀ j, 0 ≤ j → p_uhf_iseither nfl j =
                if decide (i = j) then Some 0 else p_uhf_iseither NF j) →
  (∀ j, 0 ≤ j → load (Some kl) j = if decide (i = j) then Some key else load ks j) →
  (∀ j, 0 ≤ j < N → is_used NF j = true →
     ∃ k, load ks j = Some k ∧
          ∃ m, 0 ≤ m < N ∧ probe_pos N (hash_index k (N - 1)) m = j ∧
               ∀ j', 0 ≤ j' < m →
                     is_used NF (probe_pos N (hash_index k (N - 1)) j') = true) →
  ∀ j, 0 ≤ j < N → is_used nfl j = true →
     ∃ k, load (Some kl) j = Some k ∧
          ∃ m, 0 ≤ m < N ∧ probe_pos N (hash_index k (N - 1)) m = j ∧
               ∀ j', 0 ≤ j' < m →
                     is_used nfl (probe_pos N (hash_index k (N - 1)) j') = true.
Proof.
  intros Hi Hm Hpos Hpre Hn Hst Hkl Hch j Hj Hu.
  destruct (is_used_claim NF nfl i (proj1 Hi) Hst) as (Hui & Huo & Hmono).
  destruct (decide (j = i)) as [->|Hji].
  - exists key. split; [rewrite Hkl by lia; by rewrite decide_True|].
    exists m. split; [assumption|]. split; [assumption|].
    intros j' Hj'. apply Hmono; [|by apply Hpre].
    by apply probe_pos_range.
  - rewrite Huo in Hu by (lia || assumption).
    destruct (Hch j Hj Hu) as (k & Hk & m' & Hm' & Hpos' & Hpre').
    exists k. split; [rewrite Hkl by lia; by rewrite decide_False by congruence|].
    exists m'. split; [assumption|]. split; [assumption|].
    intros j' Hj'. apply Hmono; [|by apply Hpre'].
    by apply probe_pos_range.
Qed.

(** Claiming a bucket that holds no unmoved element ends the kick-out
    process. *)
Lemma rehash_place_final E C S N st key val i m nfl kl vs' :
  pow2_size N → rehash_inv E C S N st (Some (key, val)) →
  0 ≤ i < N → 0 ≤ m < N → probe_pos N (hash_index key (N - 1)) m = i →
  is_used (r_new_flags st) i = false →
  (∀ j, 0 ≤ j < m →
        is_used (r_new_flags st) (probe_pos N (hash_index key (N - 1)) j) = true) →
  length nfl = length (r_new_flags st) →
  (∀ j, 0 ≤ j → p_uhf_iseither nfl j =
                if decide (i = j) then Some 0 else p_uhf_iseither (r_new_flags st) j) →
  Z.max S N ≤ Z.of_nat (length kl) →
  (∀ j, 0 ≤ j → load (Some kl) j = if decide (i = j) then Some key else load (r_keys st) j) →
  (∀ vl, vs' = Some vl → Z.max S N ≤ Z.of_nat (length vl)) →
  (∀ j, 0 ≤ j → load vs' j = if decide (i = j) then hand_val st val
                             else load (r_vals st) j) →
  old_live S st i = false →
  rehash_inv E C S N (mkRehash (r_flags st) nfl (Some kl) vs') None.
Proof.
  destruct st as [F NF ks vs].
  intros Hn [Hfl Hnfl Hnlen Hks Hvs Hdis Hcnt Hcont Hinj Hhand Hch] Hi Hm Hpos Hfree Hpre
    Hlen Hst Hklen Hkl Hvlen Hvl Hold.
  unfold occupant, new_used, old_live, hand_val in *.
  cbn [r_flags r_new_flags r_keys r_vals] in *.
  destruct (is_used_claim NF nfl i (proj1 Hi) Hst) as (Hui & Huo & Hmono).
  assert (HiN : (i <? N) = true) by (apply Z.ltb_lt; lia).
  split; unfold occupant, new_used, old_live, hand_val;
    cbn [r_flags r_new_flags r_keys r_vals].
  - assumption.
  - intros j Hj. rewrite Hst by lia. destruct (decide (i = j)); [by left|by apply Hnfl].
  - congruence.
  - by exists kl.
  - assumption.
  - intros j Hj Hnu. destruct (decide (j = i)) as [->|Hji]; [assumption|].
    rewrite Huo in Hnu by assumption. by apply Hdis.
  - rewrite <- Hcnt.
    rewrite (countZ_update (is_used NF) (is_used nfl) _ i); [|lia|].
    + rewrite Hfree, Hui. lia.
    + intros j Hj Hji. apply Huo; lia.
  - intros k ov. rewrite Hcont. split.
    + intros [(j & Hj & Hoj & Hkj & Hvj)|(v & [= -> ->] & ->)].
      * assert (Hji : j ≠ i).
        { intros ->. rewrite Hfree, Hold, andb_false_r in Hoj. discriminate. }
        left. exists j. rewrite Huo, Hkl, Hvl by assumption.
        rewrite !decide_False by congruence. by repeat split.
      * left. exists i. rewrite Hui, HiN, Hkl, Hvl by lia.
        rewrite !decide_True by reflexivity. by repeat split; try lia.
    + intros [(j & Hj & Hoj & Hkj & Hvj)|(v & [=] & _)].
      rewrite Hkl in Hkj by assumption. rewrite Hvl in Hvj by assumption.
      destruct (decide (i = j)) as [<-|Hij].
      * right. exists val. injection Hkj as <-. by split.
      * left. exists j. rewrite Huo in Hoj by (lia || congruence). by repeat split.
  - intros j j' k Hj Hj' Hoj Hoj' Hkj Hkj'.
    rewrite Hkl in Hkj, Hkj' by assumption.
    destruct (decide (i = j)) as [<-|Hij], (decide (i = j')) as [<-|Hij'];
      try reflexivity.
    + injection Hkj as <-. rewrite Huo in Hoj' by (lia || congruence).
      exfalso. by apply (Hhand key val j').
    + injection Hkj' as <-. rewrite Huo in Hoj by (lia || congruence).
      exfalso. by apply (Hhand key val j).
    + rewrite Huo in Hoj, Hoj' by (lia || congruence). by apply (Hinj j j' k).
  - intros k v j [=].
  - by apply (rehash_chain_claim N NF nfl ks kl key i m).
Qed.

(** Claiming a bucket that holds an unmoved element of the old layout
    kicks that element out: it becomes the element in hand. *)
Lemma rehash_place_swap E C S N st key val i m nfl kl vs' tmpk val' fl' :
  pow2_size N → rehash_inv E C S N st (Some (key, val)) →
  0 ≤ i < N → 0 ≤ m < N → probe_pos N (hash_index key (N - 1)) m = i →
  is_used (r_new_flags st) i = false →
  (∀ j, 0 ≤ j < m →
        is_used (r_new_flags st) (probe_pos N (hash_index key (N - 1)) j) = true) →
  length nfl = length (r_new_flags st) →
  (∀ j, 0 ≤ j → p_uhf_iseither nfl j =
                if decide (i = j) then Some 0 else p_uhf_iseither (r_new_flags st) j) →
  Z.max S N ≤ Z.of_nat (length kl) →
  (∀ j, 0 ≤ j → load (Some kl) j = if decide (i = j) then Some key else load (r_keys st) j) →
  (∀ vl, vs' = Some vl → Z.max S N ≤ Z.of_nat (length vl)) →
  (∀ j, 0 ≤ j → load vs' j = if decide (i = j) then hand_val st val
                             else load (r_vals st) j) →
  (∀ v, match vs' with Some _ => Some v | None => None end = hand_val st v) →
  old_live S st i = true →
  load (r_keys st) i = Some tmpk → load (r_vals st) i = hand_val st val' →
  p_uhf_set_isdel_true (r_flags st) i = Some fl' →
  rehash_inv E C S N (mkRehash fl' nfl (Some kl) vs') (Some (tmpk, val')) ∧
  countZ (is_live fl') (Z.to_nat S) = countZ (is_live (r_flags st)) (Z.to_nat S) - 1 ∧
  (∀ j, 0 ≤ j → is_live (r_flags st) j = false → is_live fl' j = false).
Proof.
  destruct st as [F NF ks vs].
  intros Hn [Hfl Hnfl Hnlen Hks Hvs Hdis Hcnt Hcont Hinj Hhand Hch] Hi Hm Hpos Hfree Hpre
    Hlen Hst Hklen Hkl Hvlen Hvl Hhv Hold Htk Htv Hfl'.
  unfold occupant, new_used, old_live, hand_val in *.
  cbn [r_flags r_new_flags r_keys r_vals] in *.
  destruct (is_used_claim NF nfl i (proj1 Hi) Hst) as (Hui & Huo & Hmono).
  assert (HiN : (i <? N) = true) by (apply Z.ltb_lt; lia).
  apply andb_true_iff in Hold. destruct Hold as [HiS Hlive].
  pose proof Hlive as He. apply is_live_iff in He.
  destruct (set_isdel_true_spec _ _ _ (proj1 Hi) Hfl') as [Hflen Hfst].
  assert (Hdead' : is_live fl' i = false).
  { unfold is_live. rewrite Hfst by lia. rewrite decide_True by reflexivity. by rewrite He. }
  assert (Hfo : ∀ j, 0 ≤ j → j ≠ i → is_live fl' j = is_live F j).
  { intros j Hj Hji. apply is_live_ext. rewrite Hfst by lia.
    by rewrite decide_False by congruence. }
  assert (Hcount : countZ (is_live fl') (Z.to_nat S) = countZ (is_live F) (Z.to_nat S) - 1).
  { apply Z.ltb_lt in HiS.
    rewrite (countZ_update (is_live F) (is_live fl') _ i); [|lia|].
    - rewrite Hlive, Hdead'. lia.
    - intros j Hj Hji. apply Hfo; lia. }
  assert (Hkey : tmpk ≠ key).
  { intros ->. apply (Hhand key val i eq_refl (proj1 Hi)); [|assumption].
    by rewrite Hlive, HiS, orb_true_r. }
  split; [|split; [assumption|]].
  2:{ intros j Hj Hd. destruct (decide (j = i)) as [->|Hji]; [assumption|]. by rewrite Hfo. }
  split; unfold occupant, new_used, old_live, hand_val;
    cbn [r_flags r_new_flags r_keys r_vals].
  - intros j Hj. rewrite Hfst by lia. destruct (decide (i = j)) as [<-|].
    + rewrite He. simpl. eauto.
    + by apply Hfl.
  - intros j Hj. rewrite Hst by lia. destruct (decide (i = j)); [by left|by apply Hnfl].
  - congruence.
  - by exists kl.
  - assumption.
  - intros j Hj Hnu. destruct (decide (j = i)) as [->|Hji].
    + rewrite Hdead'. apply andb_false_r.
    + rewrite Huo in Hnu by assumption. rewrite Hfo by assumption. by apply Hdis.
  - rewrite <- Hcnt, Hcount.
    rewrite (countZ_update (is_used NF) (is_used nfl) _ i); [|lia|].
    + rewrite Hfree, Hui. lia.
    + intros j Hj Hji. apply Huo; lia.
  - intros k ov. rewrite Hcont. split.
    + intros [(j & Hj & Hoj & Hkj & Hvj)|(v & [= -> ->] & ->)].
      * destruct (decide (j = i)) as [->|Hji].
        -- right. exists val'. split; [congruence|]. rewrite Hhv. congruence.
        -- left. exists j. rewrite Huo, Hfo, Hkl, Hvl by assumption.
           rewrite !decide_False by congruence. by repeat split.
      * left. exists i. rewrite Hui, HiN, Hkl, Hvl by lia.
        rewrite !decide_True by reflexivity. by repeat split; try lia.
    + intros [(j & Hj & Hoj & Hkj & Hvj)|(v & [= -> ->] & ->)].
      * rewrite Hkl in Hkj by assumption. rewrite Hvl in Hvj by assumption.
        destruct (decide (i = j)) as [<-|Hij].
        -- right. exists val. injection Hkj as <-. by split.
        -- left. exists j. rewrite Huo, Hfo in Hoj by (lia || congruence).
           by repeat split.
      * left. exists i. rewrite Hlive, HiS, orb_true_r. rewrite Hhv.
        by repeat split; try lia.
  - intros j j' k Hj Hj' Hoj Hoj' Hkj Hkj'.
    rewrite Hkl in Hkj, Hkj' by assumption.
    destruct (decide (i = j)) as [<-|Hij], (decide (i = j')) as [<-|Hij'];
      try reflexivity.
    + injection Hkj as <-. rewrite Huo, Hfo in Hoj' by (lia || congruence).
      exfalso. by apply (Hhand key val j').
    + injection Hkj' as <-. rewrite Huo, Hfo in Hoj by (lia || congruence).
      exfalso. by apply (Hhand key val j).
    + rewrite Huo, Hfo in Hoj, Hoj' by (lia || congruence). by apply (Hinj j j' k).
  - intros k v j [= -> ->] Hj Hoj Hkj. rewrite Hkl in Hkj by assumption.
    destruct (decide (i = j)) as [<-|Hij]; [congruence|].
    rewrite Huo, Hfo in Hoj by (lia || congruence). apply Hij.
    apply (Hinj i j k); try done; try lia. by rewrite Hlive, HiS, orb_true_r.
  - by apply (rehash_chain_claim N NF nfl ks kl key i m).
Qed.

Lemma kick_out_S fuel S N st key (val : V) :
  kick_out (Datatypes.S fuel) S (N - 1) st key val =
  i ← find_empty (Z.to_nat (N - 1 + 1)) (r_new_flags st) (N - 1) (hash_index key (N - 1)) 0;
  nfl ← p_uhf_set_isempty_false (r_new_flags st) i;
  live ← (if i <? S then e ← p_uhf_iseither (r_flags st) i; Some (e =? 0) else Some false);
  if live : bool then
    tmpk ← load (r_keys st) i;
    kl ← store (r_keys st) i key;
    '(vs, val') ← match r_vals st with
                  | Some _ =>
                    tmpv ← load (r_vals st) i;
                    vl ← store (r_vals st) i val;
                    Some (Some vl, tmpv)
                  | None => Some (None, val)
                  end;
    fl ← p_uhf_set_isdel_true (r_flags st) i;
    kick_out fuel S (N - 1) (mkRehash fl nfl (Some kl) vs) tmpk val'
  else
    kl ← store (r_keys st) i key;
    vs ← match r_vals st with
         | Some _ => vl ← store (r_vals st) i val; Some (Some vl)
         | None => Some None
         end;
    Some (mkRehash (r_flags st) nfl (Some kl) vs).
Proof. reflexivity. Qed.

Lemma old_live_test S st i :
  0 ≤ i → (∀ j, 0 ≤ j < S → is_Some (p_uhf_iseither (r_flags st) j)) →
  (if i <? S then e ← p_uhf_iseither (r_flags st) i; Some (e =? 0) else Some false)
  = Some (old_live S st i).
Proof.
  intros Hi Hdef. unfold old_live. destruct (Z.ltb_spec i S); [|reflexivity].
  destruct (Hdef i) as [e He]; [lia|]. unfold is_live. rewrite He. simpl.
  by destruct e as [|[]|].
Qed.

(** The kick-out process terminates and re-establishes the invariant
    with nothing in hand. *)
Lemma kick_out_spec E C S N fuel st key val :
  pow2_size N → C ≤ N →
  rehash_inv E C S N st (Some (key, val)) →
  countZ (is_live (r_flags st)) (Z.to_nat S) < Z.of_nat fuel →
  ∃ st', kick_out fuel S (N - 1) st key val = Some st' ∧
         rehash_inv E C S N st' None ∧
         (∀ j, 0 ≤ j → is_live (r_flags st) j = false → is_live (r_flags st') j = false) ∧
         (∀ v, hand_val st' v = hand_val st v).
Proof.
  intros Hn HC. pose proof (pow2_size_bounds N Hn) as Hb.
  revert st key val. induction fuel as [|fuel IH]; intros st key val Hinv Hfuel.
  { pose proof (countZ_bounds (is_live (r_flags st)) (Z.to_nat S)). lia. }
  rewrite kick_out_S. replace (N - 1 + 1) with N by lia.
  pose proof (countZ_bounds (is_live (r_flags st)) (Z.to_nat S)) as Hlb.
  destruct (find_empty_spec (r_new_flags st) N (hash_index key (N - 1)) Hn)
    as (m & Hm & -> & Hfree & Hpre).
  { by apply hash_index_range. }
  { intros i Hi. destruct (ri_new_flags _ _ _ _ _ _ Hinv i Hi) as [->| ->]; eauto. }
  { pose proof (ri_count _ _ _ _ _ _ Hinv) as Hc. simpl in Hc. lia. }
  set (i := probe_pos N (hash_index key (N - 1)) m) in *.
  assert (Hi : 0 ≤ i < N) by (by apply probe_pos_range).
  destruct (rehash_claim E C S N st _ key val i Hinv Hi Hfree)
    as (nfl & kl & vs' & Hset & Hstore & Hvstore & Hlen & Hst & Hklen & Hkl & Hvlen &
        Hvl & Hhv).
  simpl. rewrite Hset. simpl.
  rewrite (old_live_test S st i (proj1 Hi) (ri_flags _ _ _ _ _ _ Hinv)). simpl.
  destruct (old_live S st i) eqn:Hold.
  - pose proof Hold as Hold'. unfold old_live in Hold'.
    apply andb_true_iff in Hold'. destruct Hold' as [HiS%Z.ltb_lt Hlive].
    destruct (ri_keys _ _ _ _ _ _ Hinv) as (kl0 & Hkl0 & Hkl0len).
    destruct (load_is_Some (r_keys st) i) as [tmpk Htk]; [rewrite Hkl0; simpl; lia|].
    rewrite Htk. simpl. rewrite Hstore. simpl.
    assert (Hvals : ∃ val',
              match r_vals st with
              | Some _ => tmpv ← load (r_vals st) i; vl ← store (r_vals st) i val;
                          Some (Some vl, tmpv)
              | None => Some (None, val)
              end = Some (vs', val') ∧ load (r_vals st) i = hand_val st val').
    { unfold hand_val. destruct (r_vals st) as [vl0|] eqn:Hvl0.
      - destruct (load_is_Some (Some vl0) i) as [tmpv Htv].
        { pose proof (ri_vals _ _ _ _ _ _ Hinv vl0 Hvl0). simpl. lia. }
        exists tmpv. rewrite Htv. simpl.
        destruct (store (Some vl0) i val) as [vl|]; simpl in *; [|discriminate].
        injection Hvstore as <-. by split.
      - exists val. injection Hvstore as <-. by split. }
    destruct Hvals as (val' & -> & Htv). simpl.
    apply is_live_iff in Hlive.
    destruct (set_is_Some _ _ _ Hlive) as (_ & _ & [fl' Hfl']). rewrite Hfl'. simpl.
    destruct (rehash_place_swap E C S N st key val i m nfl kl vs' tmpk val' fl')
      as (Hinv' & Hcount & Hmono); try assumption; try reflexivity.
    destruct (IH _ tmpk val' Hinv') as (st' & Hk & Hinv'' & Hmono' & Hhv').
    { cbn [r_flags]. lia. }
    exists st'. split; [assumption|]. split; [assumption|]. split.
    + intros j Hj Hd. apply Hmono'; [assumption|]. cbn [r_flags]. by apply Hmono.
    + intros v. rewrite Hhv'. apply Hhv.
  - rewrite Hstore. simpl. rewrite Hvstore. simpl.
    eexists. split; [reflexivity|]. split; [|split].
    + by apply (rehash_place_final E C S N st key val i m).
    + intros j Hj Hd. exact Hd.
    + intros v. apply Hhv.
Qed.

Lemma rehash_S n j S N st :
  rehash (Datatypes.S n) j S (N - 1) st =
  e ← p_uhf_iseither (r_flags st) j;
  st' ← (if e =? 0 then
           key ← load (r_keys st) j;
           val ← match r_vals st with
                 | Some _ => load (r_vals st) j
                 | None => Some zero_val
                 end;
           fl ← p_uhf_set_isdel_true (r_flags st) j;
           kick_out (Z.to_nat (S + 1)) S (N - 1)
             (mkRehash fl (r_new_flags st) (r_keys st) (r_vals st)) key val
         else Some st);
  rehash n (wrap (j + 1)) S (N - 1) st'.
Proof. reflexivity. Qed.

(** The rehash loop moves every live element of the old layout. *)
Lemma rehash_spec E C S N n j st :
  pow2_size N → C ≤ N → 0 ≤ S ≤ 2 ^ 31 →
  rehash_inv E C S N st None → 0 ≤ j → j + Z.of_nat n = S →
  (∀ i, 0 ≤ i < j → is_live (r_flags st) i = false) →
  ∃ st', rehash n j S (N - 1) st = Some st' ∧ rehash_inv E C S N st' None ∧
         (∀ i, 0 ≤ i < S → is_live (r_flags st') i = false) ∧
         (∀ v, hand_val st' v = hand_val st v).
Proof.
  intros Hn HC HS. revert j st.
  induction n as [|n IH]; intros j st Hinv Hj Hjn Hdone.
  { exists st. split; [reflexivity|]. split; [assumption|]. split; [|done].
    intros i Hi. apply Hdone. lia. }
  rewrite rehash_S.
  destruct (ri_flags _ _ _ _ _ _ Hinv j ltac:(lia)) as [e He]. rewrite He. simpl.
  rewrite (wrap_small (j + 1)) by (unfold ULIB_UINT_MAX, ULIB_UINT_BITS; lia).
  destruct (Z.eqb_spec e 0) as [->|Hne].
  - apply is_live_iff in He.
    destruct (rehash_take E C S N st j Hinv ltac:(lia) He)
      as (key & val & fl' & -> & -> & -> & Hinv' & Hdj & Hmono).
    simpl.
    destruct (kick_out_spec E C S N (Z.to_nat (S + 1)) _ key val Hn HC Hinv')
      as (st' & -> & Hinv'' & Hmono' & Hhv').
    { cbn [r_flags]. pose proof (countZ_bounds (is_live fl') (Z.to_nat S)). lia. }
    simpl. destruct (IH (j + 1) st') as (st'' & Hr & Hinv3 & Hdead & Hhv'');
      [assumption|lia|lia| |].
    { intros i Hi. apply Hmono'; [lia|]. cbn [r_flags].
      destruct (decide (i = j)) as [->|Hij]; [assumption|].
      apply Hmono; [lia|]. apply Hdone. lia. }
    exists st''. split; [assumption|]. split; [assumption|]. split; [assumption|].
    intros v. rewrite Hhv'', Hhv'. reflexivity.
  - simpl. apply IH; [assumption|lia|lia|].
    intros i Hi. destruct (decide (i = j)) as [->|Hij]; [|apply Hdone; lia].
    unfold is_live. rewrite He. by destruct e as [|[]|].
Qed.

(** ** Capacity arithmetic *)

Lemma upper_bound_bounds n :
  4 ≤ n → n / 2 < p_uhash_upper_bound n < n.
Proof.
  intros Hn. unfold p_uhash_upper_bound, MAX_LOAD_NUM, MAX_LOAD_DEN.
  change (2 ^ 53) with 9007199254740992. Z.div_mod_to_equations. lia.
Qed.

Lemma upper_bound_0 : p_uhash_upper_bound 0 = 0.
Proof. reflexivity. Qed.

Lemma upper_bound_double n : 4 ≤ n → n < p_uhash_upper_bound (2 * n).
Proof.
  intros Hn. unfold p_uhash_upper_bound, MAX_LOAD_NUM, MAX_LOAD_DEN.
  change (2 ^ 53) with 9007199254740992. Z.div_mod_to_equations. lia.
Qed.

Lemma upper_bound_mono n m : n ≤ m → p_uhash_upper_bound n ≤ p_uhash_upper_bound m.
Proof.
  intros Hn. unfold p_uhash_upper_bound, MAX_LOAD_NUM, MAX_LOAD_DEN.
  change (2 ^ 53) with 9007199254740992. Z.div_mod_to_equations. lia.
Qed.

Lemma resize_target_pow2 x : pow2_size (resize_target x).
Proof.
  unfold resize_target, ulib_uint_next_power_2, wrap, ULIB_UINT_BITS.
  pose proof (Z.log2_up_nonneg x) as Hl.
  destruct (Z.le_gt_cases 32 (Z.log2_up x)) as [Hbig|Hsmall].
  - replace (Z.log2_up x) with (32 + (Z.log2_up x - 32)) by lia.
    rewrite Z.pow_add_r, Z.mul_comm, Z.mod_mul by lia. simpl.
    exists 2. split; [lia|reflexivity].
  - assert (Hlt : 2 ^ Z.log2_up x < 2 ^ 32) by (apply Z.pow_lt_mono_r; lia).
    assert (0 < 2 ^ Z.log2_up x) by (apply Z.pow_pos_nonneg; lia).
    rewrite Z.mod_small by lia.
    destruct (Z.ltb_spec (2 ^ Z.log2_up x) 4) as [H4|H4].
    + exists 2. split; [lia|reflexivity].
    + exists (Z.log2_up x). split; [|reflexivity]. split; [|lia].
      destruct (Z.le_gt_cases 2 (Z.log2_up x)); [assumption|]. exfalso.
      assert (2 ^ Z.log2_up x ≤ 2 ^ 1) by (apply Z.pow_le_mono_r; lia).
      change (2 ^ 1) with 2 in *. lia.
Qed.

(** For a request that a [ulib_uint] power of two can cover, the target
    is the smallest power of two, at least 4, that covers it. *)
Lemma resize_target_least x :
  0 ≤ x ≤ 2 ^ 31 →
  x ≤ resize_target x ∧ ∀ n, pow2_size n → x ≤ n → resize_target x ≤ n.
Proof.
  intros Hx. unfold resize_target, ulib_uint_next_power_2, wrap, ULIB_UINT_BITS.
  pose proof (Z.log2_up_nonneg x) as Hl.
  assert (Hl31 : Z.log2_up x ≤ 31).
  { change 31 with (Z.log2_up (2 ^ 31)). apply Z.log2_up_le_mono. lia. }
  assert (Hlt : 2 ^ Z.log2_up x < 2 ^ 32) by (apply Z.pow_lt_mono_r; lia).
  assert (0 < 2 ^ Z.log2_up x) by (apply Z.pow_pos_nonneg; lia).
  rewrite Z.mod_small by lia.
  assert (Hge : x ≤ 2 ^ Z.log2_up x).
  { destruct (Z.le_gt_cases x 1); [lia|]. apply Z.log2_up_spec. lia. }
  destruct (Z.ltb_spec (2 ^ Z.log2_up x) 4) as [H4|H4].
  - split; [lia|]. intros n Hn%pow2_size_bounds _. lia.
  - split; [assumption|]. intros n (e & He & ->) Hxn.
    apply Z.pow_le_mono_r; [lia|].
    destruct (Z.le_gt_cases x 1) as [H1|H1].
    + rewrite Z.log2_up_eqn0 by assumption. lia.
    + apply Z.log2_up_le_pow2; lia.
Qed.

(** ** Resizing a table *)

Lemma is_used_all_empty m i :
  0 ≤ i < 16 * p_uhf_size m → is_used (flags_all_empty m) i = false.
Proof.
  intros Hi. destruct (is_used (flags_all_empty m) i) eqn:Hu; [|reflexivity].
  apply is_used_iff in Hu; [|lia]. rewrite iseither_all_empty in Hu by assumption.
  destruct Hu; discriminate.
Qed.

(** Distinct live buckets hold distinct keys. *)
Lemma WF_cell_inj h i i' key ov ov' :
  WF h → cell h i key ov → cell h i' key ov' → i = i'.
Proof.
  intros Hwf Hc Hc'. pose proof (uhash_get_cell h key i ov Hwf Hc).
  pose proof (uhash_get_cell h key i' ov' Hwf Hc'). congruence.
Qed.

(** The invariant holds when the rehash loop is entered. *)
Lemma rehash_init h N ks1 vs1 :
  WF h → pow2_size N →
  (∃ kl, ks1 = Some kl ∧ Z.max (_size h) N ≤ Z.of_nat (length kl)) →
  (∀ vl, vs1 = Some vl → Z.max (_size h) N ≤ Z.of_nat (length vl)) →
  (∀ i, 0 ≤ i < _size h →
        load ks1 i = load (_keys h) i ∧ load vs1 i = load (_vals h) i) →
  rehash_inv (has h) (_count h) (_size h) N
    (mkRehash (flags_of h) (flags_all_empty N) ks1 vs1) None.
Proof.
  intros Hwf Hn Hks Hvs Hload. pose proof (pow2_size_bounds N Hn) as Hb.
  pose proof (uhf_size_cover N Hn) as Hcov.
  assert (Hnu : ∀ i, 0 ≤ i → (i <? N) && is_used (flags_all_empty N) i = false).
  { intros i Hi. destruct (Z.ltb_spec i N); [|reflexivity].
    rewrite is_used_all_empty by lia. reflexivity. }
  split; unfold occupant, new_used, old_live, hand_val;
    cbn [r_flags r_new_flags r_keys r_vals].
  - intros i Hi. destruct (WF_status h i Hwf Hi) as (e & -> & _). eauto.
  - intros i Hi. right. apply iseither_all_empty. lia.
  - unfold flags_all_empty. apply length_replicate.
  - assumption.
  - assumption.
  - intros i Hi Hu. rewrite Hnu in Hu by assumption. discriminate.
  - rewrite (proj2 (countZ_zero _ _)).
    + rewrite (co_count h (wf_counts h Hwf)). lia.
    + intros i Hi. apply is_used_all_empty. lia.
  - intros k ov. split.
    + intros (i & Hi & Hlive & Hk & Hv). left. exists i.
      destruct (Hload i Hi) as [Hl1 Hl2]. rewrite Hl1, Hl2, Hlive.
      destruct (Z.ltb_spec i (_size h)); [|lia]. rewrite orb_true_r.
      by repeat split; try lia.
    + intros [(i & Hi & Hoi & Hk & Hv)|(v & [=] & _)].
      rewrite Hnu in Hoi by assumption. simpl in Hoi.
      apply andb_true_iff in Hoi. destruct Hoi as [HiS%Z.ltb_lt Hlive].
      exists i. unfold cell.
      destruct (Hload i ltac:(lia)) as [Hl1 Hl2]. rewrite <- Hl1, <- Hl2.
      by repeat split; try lia.
  - intros i i' k Hi Hi' Hoi Hoi' Hk Hk'.
    rewrite Hnu in Hoi, Hoi' by assumption. simpl in Hoi, Hoi'.
    apply andb_true_iff in Hoi, Hoi'.
    destruct Hoi as [HiS%Z.ltb_lt Hlive], Hoi' as [HiS'%Z.ltb_lt Hlive'].
    destruct (Hload i ltac:(lia)) as [Hki _], (Hload i' ltac:(lia)) as [Hki' _].
    apply (WF_cell_inj h i i' k (load (_vals h) i) (load (_vals h) i') Hwf).
    + repeat split; try lia; try assumption. congruence.
    + repeat split; try lia; try assumption. congruence.
  - intros k v i [=].
  - intros i Hi Hu. rewrite is_used_all_empty in Hu by lia. discriminate.
Qed.

Lemma rehash_new_live E C S N st hand i :
  rehash_inv E C S N st hand → 0 ≤ i < N →
  is_live (r_new_flags st) i = is_used (r_new_flags st) i.
Proof.
  intros Hinv Hi. destruct (ri_new_flags _ _ _ _ _ _ Hinv i Hi) as [H0|H2].
  - rewrite (proj2 (is_live_iff _ _) H0). symmetry. apply is_used_iff; [lia|by left].
  - unfold is_live. rewrite H2.
    destruct (is_used (r_new_flags st) i) eqn:Hu; [|reflexivity].
    apply is_used_iff in Hu; [|lia]. destruct Hu; congruence.
Qed.

(** Counters and flags of the table built from the result of the rehash
    loop, whatever happens to the key and value arrays afterwards. *)
Lemma rehash_final_counts E C S N st ks2 vs2 :
  pow2_size N → rehash_inv E C S N st None → 0 ≤ S →
  (∀ i, 0 ≤ i < S → is_live (r_flags st) i = false) →
  counts_ok (mkUHash N C C (Some (r_new_flags st)) ks2 vs2) ∧
  (∀ i, 0 ≤ i < N → is_tomb (r_new_flags st) i = false) ∧
  0 ≤ C ≤ N.
Proof.
  intros Hn Hinv HS Hdead. pose proof (pow2_size_bounds N Hn) as Hb.
  assert (HC : C = countZ (is_used (r_new_flags st)) (Z.to_nat N)).
  { rewrite <- (ri_count _ _ _ _ _ _ Hinv).
    rewrite (proj2 (countZ_zero (is_live (r_flags st)) _)); [lia|].
    intros i Hi. apply Hdead. lia. }
  pose proof (countZ_bounds (is_used (r_new_flags st)) (Z.to_nat N)) as Hcb.
  split; [split; simpl|split; [|lia]].
  - by right.
  - intros _. unfold flags_of. simpl. apply (ri_new_len _ _ _ _ _ _ Hinv).
  - unfold flags_of. simpl. rewrite HC. apply countZ_ext.
    intros i Hi. symmetry. eapply rehash_new_live; [eassumption|lia].
  - unfold p_uhash_occupied, flags_of. simpl.
    destruct (Z.gtb_spec C N); [lia|assumption].
  - intros _. lia.
  - intros i Hi. unfold is_tomb. rewrite (rehash_new_live _ _ _ _ _ _ i Hinv Hi).
    by destruct (is_used (r_new_flags st) i).
Qed.

(** The table built from the result of the rehash loop satisfies the
    invariant and holds the entries the loop started from. *)
Lemma rehash_final E C S N st ks2 vs2 :
  pow2_size N → rehash_inv E C S N st None → 0 ≤ S →
  (∀ i, 0 ≤ i < S → is_live (r_flags st) i = false) →
  (∃ kl, ks2 = Some kl ∧ N ≤ Z.of_nat (length kl)) →
  (∀ vl, vs2 = Some vl → N ≤ Z.of_nat (length vl)) →
  (∀ i, 0 ≤ i < N → load ks2 i = load (r_keys st) i ∧ load vs2 i = load (r_vals st) i) →
  WF (mkUHash N C C (Some (r_new_flags st)) ks2 vs2) ∧
  ∀ k ov, has (mkUHash N C C (Some (r_new_flags st)) ks2 vs2) k ov ↔ E k ov.
Proof.
  intros Hn Hinv HS Hdead Hks Hvs Hload. pose proof (pow2_size_bounds N Hn) as Hb.
  destruct (rehash_final_counts E C S N st ks2 vs2 Hn Hinv HS Hdead) as (Hco & _ & HC).
  assert (Hocc : ∀ i, 0 ≤ i → occupant S N st i = (i <? N) && is_used (r_new_flags st) i).
  { intros i Hi. unfold occupant, new_used, old_live.
    destruct (Z.ltb_spec i S); [|apply orb_false_r].
    rewrite Hdead by lia. apply orb_false_r. }
  split; [split|].
  - assumption.
  - intros _. exact Hks.
  - exact Hvs.
  - intros i Hi Hlive. simpl in Hi. unfold flags_of in Hlive. simpl in Hlive.
    rewrite (rehash_new_live _ _ _ _ _ _ i Hinv Hi) in Hlive.
    destruct (ri_chain _ _ _ _ _ _ Hinv i Hi Hlive) as (k & Hk & m & Hm & Hpos & Hpre).
    exists k. simpl. split; [destruct (Hload i Hi); congruence|].
    exists m. simpl. split; [assumption|]. split; [assumption|].
    intros j Hj. specialize (Hpre j Hj).
    set (p := probe_pos N (hash_index k (N - 1)) j) in *.
    assert (Hp : 0 ≤ p < N) by (by apply probe_pos_range).
    unfold flags_of. simpl.
    destruct (ri_new_flags _ _ _ _ _ _ Hinv p Hp) as [H0|H2].
    2:{ apply is_used_iff in Hpre; [|lia]. destruct Hpre; congruence. }
    rewrite (probe_continue_status _ _ _ _ 0) by (done || lia). simpl.
    destruct (ri_chain _ _ _ _ _ _ Hinv p Hp Hpre) as (k' & Hk' & _).
    destruct (Hload p Hp) as [-> _]. rewrite Hk'. simpl. f_equal.
    apply negb_true_iff. destruct (equal_func k' k) eqn:Heq; [|reflexivity].
    apply equal_spec in Heq. subst k'. exfalso.
    assert (p = i).
    { apply (ri_inj _ _ _ _ _ _ Hinv p i k); try lia; try assumption.
      - rewrite Hocc by lia. rewrite Hpre. destruct (Z.ltb_spec p N); [done|lia].
      - rewrite Hocc by lia. rewrite Hlive. destruct (Z.ltb_spec i N); [done|lia]. }
    subst p. rewrite <- Hpos in H.
    apply probe_pos_inj in H; [lia|assumption|lia|lia].
  - intros k ov. rewrite (ri_content _ _ _ _ _ _ Hinv). split.
    + intros (i & Hi & Hlive & Hk & Hv). simpl in *. left. exists i.
      unfold flags_of in Hlive. simpl in Hlive.
      rewrite (rehash_new_live _ _ _ _ _ _ i Hinv Hi) in Hlive.
      destruct (Hload i Hi) as [Hl1 Hl2]. rewrite <- Hl1, <- Hl2.
      rewrite Hocc, Hlive by lia. destruct (Z.ltb_spec i N); [|lia].
      by repeat split; try lia.
    + intros [(i & Hi & Hoi & Hk & Hv)|(v & [=] & _)].
      rewrite Hocc in Hoi by assumption. apply andb_true_iff in Hoi.
      destruct Hoi as [HiN%Z.ltb_lt Hu]. exists i. unfold cell, flags_of. simpl.
      rewrite (rehash_new_live _ _ _ _ _ _ i Hinv) by lia.
      destruct (Hload i ltac:(lia)) as [Hl1 Hl2]. rewrite Hl1, Hl2.
      by repeat split; try lia.
Qed.

Lemma realloc_length {A} (u : A) p n : length (ulib_realloc u p n) = Z.to_nat n.
Proof. unfold ulib_realloc. apply length_resize. Qed.

Lemma realloc_load {A} (u : A) p n i :
  0 ≤ i < n → i < Z.of_nat (length (default [] p)) →
  load (Some (ulib_realloc u p n)) i = load p i.
Proof.
  intros Hi Hlen. unfold load, ulib_realloc. simpl.
  destruct p as [l|]; simpl in *; [|lia].
  apply lookup_resize; lia.
Qed.

Lemma chain_ext h h' key i :
  pow2_size (_size h) → _size h' = _size h →
  (∀ j, 0 ≤ j < _size h →
        p_uhf_iseither (flags_of h') j = p_uhf_iseither (flags_of h) j ∧
        load (_keys h') j = load (_keys h) j) →
  chain h key i → chain h' key i.
Proof.
  intros Hn Hsz Hframe (m & Hm & Hpos & Hpre).
  exists m. rewrite Hsz. split; [assumption|]. split; [assumption|].
  intros j Hj. rewrite <- (Hpre j Hj).
  set (p := probe_pos (_size h) (hash_index key (_size h - 1)) j) in *.
  destruct (Hframe p) as [Hf Hk]; [by apply probe_pos_range|].
  by apply probe_continue_ext.
Qed.

(** Replacing the key and value arrays by arrays that agree with them on
    the buckets of the table changes nothing. *)
Lemma WF_realloc h ks1 vs1 :
  WF h →
  (_size h ≠ 0 → ∃ kl, ks1 = Some kl ∧ _size h ≤ Z.of_nat (length kl)) →
  (∀ vl, vs1 = Some vl → _size h ≤ Z.of_nat (length vl)) →
  (∀ i, 0 ≤ i < _size h →
        load ks1 i = load (_keys h) i ∧ load vs1 i = load (_vals h) i) →
  WF (mkUHash (_size h) (_occupied h) (_count h) (_flags h) ks1 vs1) ∧
  same_content h (mkUHash (_size h) (_occupied h) (_count h) (_flags h) ks1 vs1).
Proof.
  intros Hwf Hks Hvs Hload. split.
  - destruct Hwf as [[Hsz Hflen Hcnt Hocc Hraw] Hks0 Hvs0 Hch].
    split; [split| | |]; try assumption.
    intros i Hi Hlive. simpl in Hi. change (is_live (flags_of h) i = true) in Hlive.
    destruct (Hch i Hi Hlive) as (k & Hk & Hchain). exists k. simpl.
    split; [destruct (Hload i Hi); congruence|].
    assert (Hn : pow2_size (_size h)) by (destruct Hsz; [lia|assumption]).
    apply (chain_ext h _ k i); try done.
    intros j Hj. simpl. split; [reflexivity|]. by destruct (Hload j Hj).
  - intros k ov. split.
    + intros (i & Hi & Hlive & Hk & Hv). exists i. simpl in *. unfold cell.
      destruct (Hload i Hi) as [Hl1 Hl2]. rewrite <- Hl1, <- Hl2.
      repeat split; (assumption || lia).
    + intros (i & Hi & Hlive & Hk & Hv). exists i. unfold cell. simpl.
      destruct (Hload i Hi) as [Hl1 Hl2]. rewrite Hl1, Hl2.
      repeat split; (assumption || lia).
Qed.

Lemma WF_is_map h :
  WF h → _size h ≠ 0 → uhash_is_map h = bool_decide (is_Some (_vals h)).
Proof.
  intros Hwf Hne. unfold uhash_is_map.
  pose proof (co_raw h (wf_counts h Hwf) Hne).
  destruct (Z.gtb_spec (_occupied h) (_size h)); [lia|apply orb_false_r].
Qed.

Lemma same_content_refl h : same_content h h.
Proof. by intros k ov. Qed.

Lemma same_content_trans h1 h2 h3 :
  same_content h1 h2 → same_content h2 h3 → same_content h1 h3.
Proof. intros H12 H23 k ov. rewrite (H23 k ov). apply H12. Qed.

(** The allocation part of the "Expand" branch. *)
Lemma resize_expand_spec a h N :
  WF h → pow2_size N →
  match resize_expand a h N with
  | inl h1 =>
    (_size h <? N) && (negb (keys_ok a) || (uhash_is_map h && negb (vals_ok a))) = true ∧
    WF h1 ∧ same_content h h1 ∧ _size h1 = _size h ∧ _count h1 = _count h ∧
    _occupied h1 = _occupied h ∧ _flags h1 = _flags h ∧ _vals h1 = _vals h
  | inr h1 =>
    (_size h <? N) && (negb (keys_ok a) || (uhash_is_map h && negb (vals_ok a))) = false ∧
    _size h1 = _size h ∧ _count h1 = _count h ∧ flags_of h1 = flags_of h ∧
    (∃ kl, _keys h1 = Some kl ∧ Z.max (_size h) N ≤ Z.of_nat (length kl)) ∧
    (∀ vl, _vals h1 = Some vl → Z.max (_size h) N ≤ Z.of_nat (length vl)) ∧
    (∀ i, 0 ≤ i < _size h →
          load (_keys h1) i = load (_keys h) i ∧ load (_vals h1) i = load (_vals h) i) ∧
    (N ≤ _size h → h1 = h) ∧
    (is_Some (_vals h1) ↔ uhash_is_map h = true)
  end.
Proof.
  intros Hwf Hn. pose proof (pow2_size_bounds N Hn) as Hb.
  pose proof (WF_count_bounds h Hwf) as Hcb.
  unfold resize_expand. destruct (Z.ltb_spec (_size h) N) as [Hlt|Hge]; simpl.
  2:{ split; [reflexivity|]. split; [reflexivity|]. split; [reflexivity|].
      split; [reflexivity|]. assert (Hne : _size h ≠ 0) by lia.
      destruct (wf_keys h Hwf Hne) as (kl & Hkl & Hlen).
      split; [exists kl; split; [assumption|lia]|].
      split; [intros vl Hvl; pose proof (wf_vals h Hwf vl Hvl); lia|].
      split; [done|]. split; [done|].
      rewrite WF_is_map by assumption. symmetry. apply bool_decide_eq_true. }
  assert (Hkload : ∀ i, 0 ≤ i < _size h →
            load (Some (ulib_realloc undef_key (_keys h) N)) i = load (_keys h) i).
  { intros i Hi. apply realloc_load; [lia|].
    destruct (wf_keys h Hwf ltac:(lia)) as (kl & -> & Hlen). simpl. lia. }
  destruct (keys_ok a); simpl.
  2:{ split; [reflexivity|]. split; [assumption|]. split; [apply same_content_refl|].
      by repeat split. }
  change (uhash_is_map (mkUHash (_size h) (_occupied h) (_count h) (_flags h)
            (Some (ulib_realloc undef_key (_keys h) N)) (_vals h)))
    with (uhash_is_map h).
  destruct (uhash_is_map h) eqn:Hmap; simpl.
  - destruct (vals_ok a); simpl.
    + split; [reflexivity|]. split; [reflexivity|]. split; [reflexivity|].
      split; [reflexivity|].
      split; [eexists; split; [reflexivity|]; rewrite realloc_length; lia|].
      split; [intros vl [= <-]; rewrite realloc_length; lia|].
      split; [|split; [lia|by split; eauto]]. intros i Hi. split; [by apply Hkload|].
      apply realloc_load; [lia|].
      rewrite WF_is_map in Hmap by (assumption || lia).
      apply bool_decide_eq_true in Hmap. destruct Hmap as [vl Hvl].
      rewrite Hvl. simpl. pose proof (wf_vals h Hwf vl Hvl). lia.
    + split; [reflexivity|].
      destruct (WF_realloc h (Some (ulib_realloc undef_key (_keys h) N)) (_vals h) Hwf)
        as [Hwf' Hsame].
      * intros _. eexists. split; [reflexivity|]. rewrite realloc_length. lia.
      * apply (wf_vals h Hwf).
      * intros i Hi. split; [by apply Hkload|reflexivity].
      * split; [exact Hwf'|]. split; [exact Hsame|]. by repeat split.
  - split; [reflexivity|]. split; [reflexivity|]. split; [reflexivity|].
    split; [reflexivity|].
    split; [eexists; split; [reflexivity|]; rewrite realloc_length; lia|].
    assert (Hnone : _vals h = None).
    { unfold uhash_is_map in Hmap. apply orb_false_iff in Hmap. destruct Hmap as [Hm _].
      apply bool_decide_eq_false in Hm. destruct (_vals h); [|reflexivity].
      exfalso. apply Hm. eauto. }
    split; [intros vl Hvl; congruence|].
    split; [|split; [lia|]].
    + intros i Hi. split; [by apply Hkload|reflexivity].
    + simpl. rewrite Hnone. split; [intros [? [=]]|discriminate].
Qed.

Lemma uhash_resize_eq a h n :
  uhash_resize a h n =
  let N := resize_target n in
  if _count h >=? p_uhash_upper_bound N then Some (UHASH_OK, h)
  else if negb (flags_ok a) then Some (UHASH_ERR, h)
  else
    match resize_expand a h N with
    | inl h1 => Some (UHASH_ERR, h1)
    | inr h1 =>
      st ← rehash (Z.to_nat (_size h1)) 0 (_size h1) (wrap (N - 1))
             (mkRehash (default [] (_flags h1)) (flags_all_empty N) (_keys h1) (_vals h1));
      let shrink := _size h1 >? N in
      let ks := if shrink
                then (if keys_ok a
                      then Some (ulib_realloc undef_key (r_keys st) N) else None)
                else r_keys st in
      let vs := if shrink
                then match r_vals st with
                     | Some _ => if vals_ok a
                                 then Some (ulib_realloc undef_val (r_vals st) N) else None
                     | None => None
                     end
                else r_vals st in
      Some (UHASH_OK, mkUHash N (_count h1) (_count h1) (Some (r_new_flags st)) ks vs)
    end.
Proof. reflexivity. Qed.

(** A target that cannot hold the entries: nothing happens. *)
Lemma uhash_resize_small a h n :
  p_uhash_upper_bound (resize_target n) ≤ _count h →
  uhash_resize a h n = Some (UHASH_OK, h).
Proof.
  intros Hc. rewrite uhash_resize_eq. simpl.
  destruct (Z.geb_spec (_count h) (p_uhash_upper_bound (resize_target n))); [reflexivity|lia].
Qed.

(** A checked allocation fails: [UHASH_ERR], and the table is as before. *)
Lemma uhash_resize_err a h n :
  WF h → _count h < p_uhash_upper_bound (resize_target n) →
  alloc_fails a h n = true →
  ∃ h', uhash_resize a h n = Some (UHASH_ERR, h') ∧ WF h' ∧ same_content h h' ∧
        _size h' = _size h ∧ _count h' = _count h ∧ _occupied h' = _occupied h ∧
        _flags h' = _flags h ∧ _vals h' = _vals h.
Proof.
  intros Hwf Hc Hfail. rewrite uhash_resize_eq. simpl.
  destruct (Z.geb_spec (_count h) (p_uhash_upper_bound (resize_target n))); [lia|].
  unfold alloc_fails in Hfail. destruct (flags_ok a); simpl in *.
  2:{ exists h. split; [reflexivity|]. split; [assumption|].
      split; [apply same_content_refl|]. by repeat split. }
  pose proof (resize_expand_spec a h (resize_target n) Hwf (resize_target_pow2 n)) as Hex.
  destruct (resize_expand a h (resize_target n)) as [h1|h1].
  - exists h1. split; [reflexivity|]. by destruct Hex as (_ & ?).
  - destruct Hex as (Hno & _). congruence.
Qed.

(** Every allocation that is checked succeeds: the table is rehashed into
    the target capacity. *)
Lemma uhash_resize_ok a h n :
  WF h → _count h < p_uhash_upper_bound (resize_target n) →
  alloc_fails a h n = false →
  ∃ h', uhash_resize a h n = Some (UHASH_OK, h') ∧
        _size h' = resize_target n ∧ _count h' = _count h ∧ _occupied h' = _count h ∧
        counts_ok h' ∧
        (∀ i, 0 ≤ i < resize_target n → is_tomb (flags_of h') i = false) ∧
        (shrink_fails a h n = false →
         WF h' ∧ same_content h h' ∧ (is_Some (_vals h') ↔ uhash_is_map h = true)).
Proof.
  intros Hwf Hc Hfail. rewrite uhash_resize_eq. simpl.
  set (N := resize_target n) in *.
  pose proof (resize_target_pow2 n) as Hn. fold N in Hn.
  pose proof (pow2_size_bounds N Hn) as Hb.
  pose proof (upper_bound_bounds N ltac:(lia)) as Hub.
  pose proof (WF_count_bounds h Hwf) as Hcb.
  destruct (Z.geb_spec (_count h) (p_uhash_upper_bound N)); [lia|].
  unfold alloc_fails in Hfail. fold N in Hfail.
  apply orb_false_iff in Hfail. destruct Hfail as [Hfl Hexp].
  rewrite Hfl. simpl.
  pose proof (resize_expand_spec a h N Hwf Hn) as Hex.
  destruct (resize_expand a h N) as [h1|h1]; [destruct Hex; congruence|].
  destruct Hex as (_ & Hsz & Hcnt & Hflags & Hks & Hvs & Hload & Hsame & Hmap).
  rewrite Hsz, Hcnt, wrap_size_pred by assumption.
  change (default [] (_flags h1)) with (flags_of h1). rewrite Hflags.
  assert (HS : 0 ≤ _size h ≤ 2 ^ 31).
  { destruct (co_size h (wf_counts h Hwf)) as [->|HS%pow2_size_bounds]; lia. }
  pose proof (rehash_init h N (_keys h1) (_vals h1) Hwf Hn Hks Hvs Hload) as Hinit.
  destruct (rehash_spec (has h) (_count h) (_size h) N (Z.to_nat (_size h)) 0 _
              Hn ltac:(lia) HS Hinit) as (st & -> & Hinv & Hdead & Hhv);
    [lia|lia|intros; lia|]. simpl.
  eexists. split; [reflexivity|]. simpl.
  split; [reflexivity|]. split; [reflexivity|]. split; [reflexivity|].
  destruct (rehash_final_counts (has h) (_count h) (_size h) N st
              (if _size h >? N
               then if keys_ok a then Some (ulib_realloc undef_key (r_keys st) N) else None
               else r_keys st)
              (if _size h >? N
               then match r_vals st with
                    | Some _ => if vals_ok a
                                then Some (ulib_realloc undef_val (r_vals st) N) else None
                    | None => None
                    end
               else r_vals st) Hn Hinv) as (Hco & Htomb & _); [lia|assumption|].
  split; [exact Hco|]. split; [exact Htomb|].
  intros Hshrink. unfold shrink_fails in Hshrink. fold N in Hshrink.
  destruct (ri_keys _ _ _ _ _ _ Hinv) as (kl & Hkl & Hklen).
  pose proof (ri_vals _ _ _ _ _ _ Hinv) as Hvlen.
  assert (Hsome : is_Some (r_vals st) ↔ uhash_is_map h = true).
  { rewrite <- Hmap. specialize (Hhv zero_val). unfold hand_val in Hhv.
    cbn [r_vals] in Hhv. destruct (r_vals st), (_vals h1); try discriminate;
      split; intros [? ?]; eauto; discriminate. }
  match goal with
  | |- WF ?X ∧ same_content _ ?X ∧ ?P =>
    cut ((WF X ∧ same_content h X) ∧ P);
      [intros [[? ?] ?]; split; [|split]; assumption|]
  end.
  split.
  2:{ rewrite <- Hsome. destruct (Z.gtb_spec (_size h) N) as [Hgt|Hle]; [|done].
      simpl in Hshrink. apply orb_false_iff in Hshrink. destruct Hshrink as [_ Hv].
      destruct (r_vals st) as [vl0|] eqn:Hvl0; [|done].
      assert (Hs : is_Some (_vals h)).
      { rewrite <- (Hsame ltac:(lia)). apply Hmap, Hsome. eauto. }
      rewrite (bool_decide_eq_true_2 _ Hs) in Hv. simpl in Hv.
      apply negb_false_iff in Hv. rewrite Hv. split; eauto. }
  apply (rehash_final (has h) (_count h) (_size h) N st); try assumption; try lia.
  - destruct (Z.gtb_spec (_size h) N) as [Hgt|Hle].
    + simpl in Hshrink. apply orb_false_iff in Hshrink. destruct Hshrink as [Hk _].
      apply negb_false_iff in Hk. rewrite Hk.
      eexists. split; [reflexivity|]. rewrite realloc_length. lia.
    + exists kl. split; [assumption|lia].
  - destruct (Z.gtb_spec (_size h) N) as [Hgt|Hle].
    + destruct (r_vals st) as [vl0|]; [|done].
      destruct (vals_ok a); [|done]. intros vl [= <-]. rewrite realloc_length. lia.
    + intros vl Hvl. specialize (Hvlen vl Hvl). lia.
  - intros i Hi. destruct (Z.gtb_spec (_size h) N) as [Hgt|Hle]; [|done].
    simpl in Hshrink. apply orb_false_iff in Hshrink. destruct Hshrink as [Hk Hv].
    apply negb_false_iff in Hk. rewrite Hk. split.
    + apply realloc_load; [lia|]. rewrite Hkl. simpl. lia.
    + destruct (r_vals st) as [vl0|] eqn:Hvl0; [|reflexivity].
      assert (Hs : is_Some (_vals h)).
      { rewrite <- (Hsame ltac:(lia)). apply Hmap, Hsome. eauto. }
      rewrite (bool_decide_eq_true_2 _ Hs) in Hv. simpl in Hv.
      apply negb_false_iff in Hv. rewrite Hv.
      apply realloc_load; [lia|]. simpl. specialize (Hvlen vl0 eq_refl). lia.
Qed.

(** ** The resize requested by an insertion *)

Lemma pow2_size_mod4 n : pow2_size n → n mod 4 = 0.
Proof.
  intros (e & He & ->). replace e with (2 + (e - 2)) by lia.
  rewrite Z.pow_add_r by lia. change (2 ^ 2) with 4.
  rewrite Z.mul_comm. apply Z.mod_mul. lia.
Qed.

Lemma resize_target_pred s : pow2_size s → resize_target (s - 1) = s.
Proof.
  intros Hs. pose proof (pow2_size_bounds s Hs) as Hb.
  destruct (resize_target_least (s - 1) ltac:(lia)) as [Hge Hleast].
  specialize (Hleast s Hs ltac:(lia)).
  pose proof (pow2_size_mod4 _ (resize_target_pow2 (s - 1))).
  pose proof (pow2_size_mod4 _ Hs). Z.div_mod_to_equations. lia.
Qed.

Lemma resize_target_succ s : pow2_size s → s < 2 ^ 31 → resize_target (s + 1) = 2 * s.
Proof.
  intros Hs Hlt. pose proof (pow2_size_bounds s Hs) as Hb.
  destruct (resize_target_least (s + 1) ltac:(lia)) as [Hge Hleast].
  destruct Hs as (e & He & ->).
  assert (He30 : e ≤ 30).
  { destruct (Z.le_gt_cases e 30); [assumption|]. exfalso.
    assert (2 ^ 31 ≤ 2 ^ e) by (apply Z.pow_le_mono_r; lia). lia. }
  assert (H2 : 2 * 2 ^ e = 2 ^ (e + 1)) by (rewrite Z.pow_add_r by lia; lia).
  assert (Hle : resize_target (2 ^ e + 1) ≤ 2 * 2 ^ e).
  { apply Hleast; [|lia]. exists (e + 1). split; [lia|assumption]. }
  destruct (resize_target_pow2 (2 ^ e + 1)) as (e' & He' & Heq).
  rewrite Heq in *.
  assert (e < e').
  { apply (Z.pow_lt_mono_r_iff 2); lia. }
  assert (2 ^ (e + 1) ≤ 2 ^ e') by (apply Z.pow_le_mono_r; lia). lia.
Qed.

Lemma shiftl_1 x : Z.shiftl x 1 = 2 * x.
Proof. rewrite Z.shiftl_mul_pow2 by lia. change (2 ^ 1) with 2. lia. Qed.

Ltac split_conj :=
  repeat match goal with |- _ ∧ _ => split end;
  try assumption; try reflexivity; try lia.

Lemma bool_decide_is_Some {A} (o : option A) :
  bool_decide (is_Some o) = true ↔ is_Some o.
Proof. apply bool_decide_eq_true. Qed.

Lemma WF_map_vals h :
  WF h → _size h ≠ 0 → (is_Some (_vals h) ↔ uhash_is_map h = true).
Proof. intros Hwf Hne. rewrite WF_is_map by assumption. symmetry. apply bool_decide_eq_true. Qed.

(** The first part of [uhash_put]: after it, unless an allocation failed,
    the table has an empty bucket. *)
Lemma put_resize_spec a h :
  WF h → p_uhash_occupied h < 2 ^ 31 →
  ∃ r h1, uhash_put_resize a h = Some (r, h1) ∧ WF h1 ∧ same_content h h1 ∧
    _count h1 = _count h ∧
    ((r = UHASH_ERR ∧ all_ok a = false ∧ _size h1 = _size h ∧
      _occupied h1 = _occupied h ∧ _flags h1 = _flags h ∧ _vals h1 = _vals h) ∨
     (r = UHASH_OK ∧ p_uhash_occupied h1 < _size h1 ∧
      (is_Some (_vals h1) ↔ uhash_is_map h = true) ∧
      (p_uhash_occupied h < p_uhash_upper_bound (_size h) → h1 = h) ∧
      (_size h < 2 ^ 31 → p_uhash_occupied h1 < p_uhash_upper_bound (_size h1)) ∧
      p_uhash_occupied h1 ≤ p_uhash_occupied h)).
Proof.
  intros Hwf Hroom. pose proof (WF_count_bounds h Hwf) as Hcb.
  assert (HS : _size h = 0 ∨ pow2_size (_size h)) by apply (co_size h (wf_counts h Hwf)).
  unfold uhash_put_resize.
  destruct (Z.geb_spec (p_uhash_occupied h) (p_uhash_upper_bound (_size h))) as [Hfull|Hfree].
  2:{ assert (Hne : _size h ≠ 0).
      { intros H0. rewrite H0, upper_bound_0 in Hfree. lia. }
      destruct HS as [?|Hn]; [lia|]. pose proof (pow2_size_bounds _ Hn).
      pose proof (upper_bound_bounds (_size h) ltac:(lia)).
      exists UHASH_OK, h. split; [reflexivity|]. split; [assumption|].
      split; [apply same_content_refl|]. split; [reflexivity|]. right.
      split; [reflexivity|]. split; [lia|]. split; [by apply WF_map_vals|].
      split; [done|]. split; [done|lia]. }
  rewrite shiftl_1, (wrap_small (2 * _count h))
    by (unfold ULIB_UINT_MAX, ULIB_UINT_BITS; lia).
  assert (Hfin : ∀ n,
            _size h ≤ resize_target n →
            _count h < p_uhash_upper_bound (resize_target n) →
            ∃ r h1, uhash_resize a h n = Some (r, h1) ∧ WF h1 ∧ same_content h h1 ∧
              _count h1 = _count h ∧
              ((r = UHASH_ERR ∧ all_ok a = false ∧ _size h1 = _size h ∧
                _occupied h1 = _occupied h ∧ _flags h1 = _flags h ∧ _vals h1 = _vals h) ∨
               (r = UHASH_OK ∧ _size h1 = resize_target n ∧ _occupied h1 = _count h ∧
                (is_Some (_vals h1) ↔ uhash_is_map h = true)))).
  { intros n Hle Hc. destruct (alloc_fails a h n) eqn:Hfail.
    - destruct (uhash_resize_err a h n Hwf Hc Hfail)
        as (h1 & Hr & Hwf1 & Hsame & Hsz & Hcnt & Hocc & Hfl & Hvs).
      exists UHASH_ERR, h1. split; [assumption|]. split; [assumption|].
      split; [assumption|]. split; [assumption|]. left.
      split; [reflexivity|]. split; [|by split_conj].
      unfold alloc_fails in Hfail. unfold all_ok.
      destruct (flags_ok a), (keys_ok a), (vals_ok a); try reflexivity;
        simpl in Hfail; rewrite ?andb_false_r in Hfail; discriminate.
    - destruct (uhash_resize_ok a h n Hwf Hc Hfail)
        as (h1 & Hr & Hsz & Hcnt & Hocc & _ & _ & Hgood).
      destruct Hgood as (Hwf1 & Hsame & Hmap).
      { unfold shrink_fails. destruct (Z.gtb_spec (_size h) (resize_target n)); [lia|done]. }
      exists UHASH_OK, h1. split; [assumption|]. split; [assumption|].
      split; [assumption|]. split; [assumption|]. right. by split_conj. }
  assert (Hwrap : ∀ h1 : UHash, WF h1 → _size h1 ≠ 0 → _occupied h1 = _count h →
            p_uhash_occupied h1 = _count h).
  { intros h1 Hwf1 Hne1 Hocc1. by rewrite WF_occupied. }
  destruct (Z.gtb_spec (_size h) (2 * _count h)) as [Hsparse|Hdense].
  - destruct HS as [?|Hn]; [lia|]. pose proof (pow2_size_bounds _ Hn).
    pose proof (upper_bound_bounds (_size h) ltac:(lia)) as Hub.
    rewrite (wrap_small (_size h - 1)) by (unfold ULIB_UINT_MAX, ULIB_UINT_BITS; lia).
    destruct (Hfin (_size h - 1)) as (r & h1 & Hr & Hwf1 & Hsame & Hcnt & Hres);
      rewrite ?resize_target_pred by assumption; try lia; try reflexivity.
    { assert (_count h ≤ _size h / 2) by (Z.div_mod_to_equations; lia). lia. }
    exists r, h1. split; [assumption|]. split; [assumption|]. split; [assumption|].
    split; [assumption|]. destruct Hres as [Herr|(-> & Hsz & Hocc & Hmap)]; [by left|right].
    rewrite resize_target_pred in Hsz by assumption.
    rewrite (Hwrap h1) by (assumption || lia). rewrite Hsz.
    assert (_count h ≤ _size h / 2) by (Z.div_mod_to_equations; lia).
    split; [reflexivity|]. split; [lia|]. split; [assumption|]. split; [lia|].
    split; lia.
  - rewrite (wrap_small (_size h + 1))
      by (unfold ULIB_UINT_MAX, ULIB_UINT_BITS; destruct HS as [->|?%pow2_size_bounds]; lia).
    destruct HS as [H0|Hn].
    + replace (_size h + 1) with (0 + 1) by lia.
      assert (Ht : resize_target (0 + 1) = 4) by reflexivity.
      assert (Hu4 : p_uhash_upper_bound 4 = 3) by reflexivity.
      destruct (Hfin (0 + 1)) as (r & h1 & Hr & Hwf1 & Hsame & Hcnt & Hres);
        rewrite ?Ht, ?Hu4; try lia.
      exists r, h1. split; [assumption|]. split; [assumption|]. split; [assumption|].
      split; [assumption|]. destruct Hres as [Herr|(-> & Hsz & Hocc & Hmap)]; [by left|right].
      rewrite Ht in Hsz.
      rewrite (Hwrap h1) by (assumption || lia). rewrite Hsz.
      rewrite Hu4.
      split; [reflexivity|]. split; [lia|]. split; [assumption|].
      split; [rewrite H0, upper_bound_0; lia|]. split; lia.
    + pose proof (pow2_size_bounds _ Hn).
      destruct (decide (_size h = 2 ^ 31)) as [Hmax|Hnmax].
      * rewrite uhash_resize_small.
        2:{ rewrite Hmax. change (p_uhash_upper_bound (resize_target (2 ^ 31 + 1))) with 3.
            lia. }
        exists UHASH_OK, h. split; [reflexivity|]. split; [assumption|].
        split; [apply same_content_refl|]. split; [reflexivity|]. right.
        split; [reflexivity|]. split; [lia|].
        split; [apply WF_map_vals; [assumption|lia]|]. split; [done|]. split; lia.
      * pose proof (upper_bound_double (_size h) ltac:(lia)) as Hub.
        destruct (Hfin (_size h + 1)) as (r & h1 & Hr & Hwf1 & Hsame & Hcnt & Hres);
          rewrite ?resize_target_succ by (assumption || lia); try lia; try reflexivity.
        exists r, h1. split; [assumption|]. split; [assumption|]. split; [assumption|].
        split; [assumption|].
        destruct Hres as [Herr|(-> & Hsz & Hocc & Hmap)]; [by left|right].
        rewrite resize_target_succ in Hsz by (assumption || lia).
        rewrite (Hwrap h1) by (assumption || lia). rewrite Hsz.
        split; [reflexivity|]. split; [lia|]. split; [assumption|]. split; [lia|].
        split; lia.
Qed.

(** ** Insertion *)

Lemma member_has h key : member h key ↔ ∃ ov, has h key ov.
Proof.
  split.
  - intros (i & ov & Hc). exists ov, i. exact Hc.
  - intros (ov & i & Hc). exists i, ov. exact Hc.
Qed.

Lemma same_content_member h h' key : same_content h h' → (member h' key ↔ member h key).
Proof.
  intros Hs. rewrite !member_has. split; intros [ov Hov]; exists ov; by apply Hs.
Qed.

(** [uhash_put] on a table that is not full at the maximal capacity. *)
Lemma uhash_put_spec a h key :
  WF h → p_uhash_occupied h < 2 ^ 31 →
  ∃ r x h', uhash_put a h key = Some (r, x, h') ∧ WF h' ∧
    p_uhash_occupied h' ≤ p_uhash_occupied h + 1 ∧
    ((r = UHASH_ERR ∧ all_ok a = false ∧ x = UHASH_INDEX_MISSING ∧ same_content h h' ∧
      _size h' = _size h ∧ _count h' = _count h ∧ _occupied h' = _occupied h ∧
      _flags h' = _flags h ∧ _vals h' = _vals h) ∨
     (r = UHASH_PRESENT ∧ member h key ∧ cell h' x key (load (_vals h') x) ∧
      same_content h h' ∧ _count h' = _count h ∧
      (is_Some (_vals h') ↔ uhash_is_map h = true) ∧
      (p_uhash_occupied h < p_uhash_upper_bound (_size h) → h' = h)) ∨
     (r = UHASH_INSERTED ∧ ¬ member h key ∧ cell h' x key (load (_vals h') x) ∧
      _count h' = _count h + 1 ∧
      (∀ k ov, k ≠ key → has h' k ov ↔ has h k ov) ∧
      (is_Some (_vals h') ↔ uhash_is_map h = true))).
Proof.
  intros Hwf Hroom. unfold uhash_put.
  destruct (put_resize_spec a h Hwf Hroom)
    as (r1 & h1 & -> & Hwf1 & Hsame & Hcnt &
        [(-> & Hall & Hesz & Heocc & Hefl & Hevs)|(-> & Hroom1 & Hmap & Hid & _ & Hle)]).
  { simpl. exists UHASH_ERR, UHASH_INDEX_MISSING, h1. split; [reflexivity|].
    split; [assumption|]. split; [|left; by split_conj].
    unfold p_uhash_occupied. rewrite Hesz, Heocc. lia. }
  simpl.
  destruct (put_insert_spec h1 key Hwf1 Hroom1)
    as (r & x & h2 & -> & Hwf2 & Hsz & Hx & Hlive & Hkey & Hvals & Hoth & Hres).
  exists r, x, h2. split; [reflexivity|]. split; [assumption|].
  split; [destruct Hres as [(_ & -> & _)|(_ & _ & _ & _ & ?)]; lia|]. right.
  assert (Hcell : cell h2 x key (load (_vals h2) x)).
  { unfold cell. rewrite Hsz. by split_conj. }
  destruct Hres as [(-> & -> & Hl)|(-> & Hnm & Hdead & Hcnt2 & Hocc2)]; [left|right].
  - split; [reflexivity|]. split.
    { apply (same_content_member h h1 key Hsame). by exists x, (load (_vals h1) x). }
    split; [assumption|]. split; [assumption|]. split; [assumption|].
    split; [assumption|]. intros Hlt. by apply Hid.
  - split; [reflexivity|]. split.
    { intros Hm. apply Hnm. by apply (same_content_member h h1 key Hsame). }
    split; [assumption|]. split; [lia|]. split; [|by rewrite Hvals].
    intros k ov Hk. rewrite <- (Hsame k ov). split.
    + intros (i & Hi & Hli & Hki & Hvi). rewrite Hsz in Hi.
      assert (Hix : i ≠ x) by (intros ->; congruence).
      destruct (Hoth i Hi Hix) as [Hl1 Hl2]. exists i. unfold cell.
      rewrite <- Hl1, <- Hl2, <- Hvals. by split_conj.
    + intros (i & Hi & Hli & Hki & Hvi).
      assert (Hix : i ≠ x) by (intros ->; congruence).
      destruct (Hoth i Hi Hix) as [Hl1 Hl2]. exists i. unfold cell.
      rewrite Hl1, Hl2, Hvals, Hsz. by split_conj.
Qed.

(** ** Map operations *)

Lemma uhmap_get_has h key d v :
  WF h → has h key (Some v) → uhmap_get h key d = Some v.
Proof.
  intros Hwf (i & Hcell). unfold uhmap_get.
  rewrite (uhash_get_cell h key i _ Hwf Hcell). simpl.
  destruct Hcell as (Hi & _ & _ & Hv).
  destruct (Z.eqb_spec i UHASH_INDEX_MISSING) as [->|_]; [|assumption].
  exfalso. apply (MISSING_not_index (_size h)); [|assumption].
  apply WF_pow2; [assumption|lia].
Qed.

Lemma uhmap_get_missing h key d :
  WF h → ¬ member h key → uhmap_get h key d = Some d.
Proof.
  intros Hwf Hnm. unfold uhmap_get.
  destruct (uhash_get_spec h key Hwf) as (r & -> & [[-> _]|Hcell]); [reflexivity|].
  exfalso. apply Hnm. by exists r, (load (_vals h) r).
Qed.

(** Writing the value of a live bucket. *)
Lemma store_value_spec h x key value :
  WF h → cell h x key (load (_vals h) x) → is_Some (_vals h) →
  ∃ old vl, load (_vals h) x = Some old ∧ store (_vals h) x value = Some vl ∧
    WF (mkUHash (_size h) (_occupied h) (_count h) (_flags h) (_keys h) (Some vl)) ∧
    has (mkUHash (_size h) (_occupied h) (_count h) (_flags h) (_keys h) (Some vl))
      key (Some value) ∧
    ∀ k ov, k ≠ key →
      (has (mkUHash (_size h) (_occupied h) (_count h) (_flags h) (_keys h) (Some vl)) k ov
       ↔ has h k ov).
Proof.
  intros Hwf (Hx & Hlive & Hkey & _) [vl0 Hvl0].
  pose proof (wf_vals h Hwf vl0 Hvl0) as Hlen.
  destruct (load_is_Some (_vals h) x) as [old Hold]; [rewrite Hvl0; simpl; lia|].
  destruct (store_is_Some (_vals h) x value) as [vl Hvl]; [rewrite Hvl0; simpl; lia|].
  exists old, vl. split; [assumption|]. split; [assumption|].
  assert (Hvlen : length vl = length vl0).
  { rewrite (store_length _ _ _ _ Hvl), Hvl0. reflexivity. }
  split; [|split].
  - destruct Hwf as [[Hsz Hflen Hcnt Hocc Hraw] Hks Hvs Hch].
    split; [split| | |]; try assumption.
    intros ? [= <-]. simpl. lia.
  - exists x. unfold cell. simpl. split; [assumption|]. split; [assumption|].
    split; [assumption|]. by eapply load_store_eq.
  - intros k ov Hk. split.
    + intros (i & Hi & Hli & Hki & Hvi). simpl in *. exists i.
      assert (Hix : x ≠ i) by (intros ->; congruence).
      rewrite (load_store_ne (_vals h) x i value vl (proj1 Hx) (proj1 Hi) Hix Hvl) in Hvi.
      by split_conj.
    + intros (i & Hi & Hli & Hki & Hvi). exists i. unfold cell. simpl.
      assert (Hix : x ≠ i) by (intros ->; congruence).
      rewrite (load_store_ne (_vals h) x i value vl (proj1 Hx) (proj1 Hi) Hix Hvl).
      by split_conj.
Qed.


Lemma is_map_vals h : is_Some (_vals h) → uhash_is_map h = true.
Proof.
  intros Hs. unfold uhash_is_map. by rewrite (bool_decide_eq_true_2 _ Hs).
Qed.

(** [uhmap_set] on a map that is not full at the maximal capacity. *)
Lemma uhmap_set_spec a h key value :
  WF h → uhash_is_map h = true → p_uhash_occupied h < 2 ^ 31 →
  ∃ r e h', uhmap_set a h key value = Some (r, e, h') ∧ WF h' ∧
    uhash_is_map h' = true ∧ p_uhash_occupied h' ≤ p_uhash_occupied h + 1 ∧
    ((r = UHASH_ERR ∧ all_ok a = false ∧ e = None ∧ same_content h h' ∧
      _size h' = _size h ∧
      _count h' = _count h ∧ _occupied h' = _occupied h ∧ _flags h' = _flags h ∧
      _vals h' = _vals h) ∨
     (r = UHASH_PRESENT ∧ (∃ old, has h key (Some old) ∧ e = Some old) ∧
      has h' key (Some value) ∧ _count h' = _count h ∧
      (∀ k ov, k ≠ key → has h' k ov ↔ has h k ov)) ∨
     (r = UHASH_INSERTED ∧ ¬ member h key ∧ e = None ∧
      has h' key (Some value) ∧ _count h' = _count h + 1 ∧
      (∀ k ov, k ≠ key → has h' k ov ↔ has h k ov))).
Proof.
  intros Hwf Hmap Hroom. unfold uhmap_set.
  destruct (uhash_put_spec a h key Hwf Hroom) as (r & x & h1 & -> & Hwf1 & Hle & Hres).
  simpl.
  destruct Hres as [(-> & Hall & -> & Hsame & Hsz & Hcnt & Hocc & Hfl & Hvs)|
                    [(-> & Hmem & Hcell & Hsame & Hcnt & Hvals & _)|
                     (-> & Hnm & Hcell & Hcnt & Hoth & Hvals)]].
  - simpl. exists UHASH_ERR, None, h1. split; [reflexivity|]. split; [assumption|].
    split; [unfold uhash_is_map in *; by rewrite Hvs, Hocc, Hsz|].
    split; [assumption|]. left. by split_conj.
  - simpl.
    destruct (store_value_spec h1 x key value Hwf1 Hcell (proj2 Hvals Hmap))
      as (old & vl & Hold & -> & Hwf2 & Hhas & Hoth).
    rewrite Hold. simpl. eexists _, _, _. split; [reflexivity|].
    split; [assumption|]. split; [apply is_map_vals; simpl; eauto|].
    split; [exact Hle|]. right. left.
    split; [reflexivity|]. split.
    { exists old. split; [|reflexivity]. apply Hsame. exists x. by rewrite <- Hold. }
    split; [assumption|]. split; [assumption|].
    intros k ov Hk. rewrite (Hoth k ov Hk). apply Hsame.
  - simpl.
    destruct (store_value_spec h1 x key value Hwf1 Hcell (proj2 Hvals Hmap))
      as (old & vl & Hold & -> & Hwf2 & Hhas & Hoth2).
    simpl. eexists _, _, _. split; [reflexivity|].
    split; [assumption|]. split; [apply is_map_vals; simpl; eauto|].
    split; [exact Hle|]. right. right.
    split; [reflexivity|]. split; [assumption|]. split; [reflexivity|].
    split; [assumption|]. split; [assumption|].
    intros k ov Hk. rewrite (Hoth2 k ov Hk). by apply Hoth.
Qed.

(** ** The counters, whatever the arrays hold

    The lemmas of this part assume nothing about the key and value
    arrays: they follow the counters and the flags through every
    operation that has a result. *)

Lemma find_empty_sound fuel nfl n i step r :
  pow2_size n → 0 ≤ i < n → find_empty fuel nfl (n - 1) i step = Some r →
  0 ≤ r < n ∧ is_used nfl r = false.
Proof.
  intros Hn. pose proof (pow2_size_bounds _ Hn) as Hb.
  revert i step. induction fuel as [|fuel IH]; intros i step Hi Hf.
  - simpl in Hf. destruct (p_uhf_isempty nfl i) as [e|] eqn:He; [|discriminate].
    simpl in Hf. destruct (e =? 0) eqn:He0; [discriminate|].
    injection Hf as <-. split; [assumption|]. unfold is_used. rewrite He.
    apply Z.eqb_neq in He0. by destruct e.
  - rewrite find_empty_S in Hf.
    destruct (p_uhf_isempty nfl i) as [e|] eqn:He; [|discriminate].
    simpl in Hf. destruct (e =? 0) eqn:He0.
    + apply IH in Hf; [assumption|]. rewrite land_mask by assumption.
      apply Z.mod_pos_bound. lia.
    + injection Hf as <-. split; [assumption|]. unfold is_used. rewrite He.
      apply Z.eqb_neq in He0. by destruct e.
Qed.

Lemma put_loop_range fuel fl ks key n last i step site i' site' b :
  pow2_size n → 0 ≤ i < n → 0 ≤ site ≤ n →
  uhash_put_loop fuel fl ks key (n - 1) last i step site = Some (i', site', b) →
  0 ≤ i' < n ∧ 0 ≤ site' ≤ n.
Proof.
  intros Hn. pose proof (pow2_size_bounds _ Hn) as Hb.
  revert i step site. induction fuel as [|fuel IH]; intros i step site Hi Hs Hl.
  - simpl in Hl. destruct (probe_continue fl ks key i) as [[]|]; simplify_eq/=. done.
  - rewrite put_loop_S in Hl.
    destruct (probe_continue fl ks key i) as [[]|]; simplify_eq/=; [|done].
    destruct (p_uhf_isdel fl i) as [d|]; simplify_eq/=.
    assert (Hr : 0 ≤ Z.land (wrap (i + wrap (step + 1))) (n - 1) < n).
    { rewrite land_mask by assumption. apply Z.mod_pos_bound. lia. }
    destruct (_ =? last).
    + simplify_eq. split; [assumption|]. destruct (d =? 0); lia.
    + eapply IH; [exact Hr| |exact Hl]. destruct (d =? 0); lia.
Qed.

(** Claiming an unused bucket of the new layout. *)
Lemma claim_counts C S N st b i nfl :
  rehash_counts C S N st b → 0 ≤ i < N → is_used (r_new_flags st) i = false →
  p_uhf_set_isempty_false (r_new_flags st) i = Some nfl →
  length nfl = Z.to_nat (p_uhf_size N) ∧
  (∀ j, 0 ≤ j < N → p_uhf_iseither nfl j = Some 0 ∨ p_uhf_iseither nfl j = Some 2) ∧
  countZ (is_used nfl) (Z.to_nat N) =
    countZ (is_used (r_new_flags st)) (Z.to_nat N) + 1.
Proof.
  intros [Hfl Hnfl Hlen Hcnt] Hi Hu Hset.
  destruct (set_isempty_false_spec _ _ _ (proj1 Hi) Hset) as [Hlen' Hst].
  assert (Hi2 : p_uhf_iseither (r_new_flags st) i = Some 2).
  { destruct (Hnfl i Hi) as [H0|H2]; [|assumption].
    rewrite (proj2 (is_used_iff _ _ (proj1 Hi))) in Hu by (by left). discriminate. }
  assert (Hst' : ∀ j, 0 ≤ j → p_uhf_iseither nfl j =
                   if decide (i = j) then Some 0 else p_uhf_iseither (r_new_flags st) j).
  { intros j Hj. rewrite (Hst j Hj). destruct (decide (i = j)); [|reflexivity].
    by rewrite Hi2. }
  destruct (is_used_claim _ _ _ (proj1 Hi) Hst') as (Hu1 & Hu2 & _).
  split; [congruence|]. split.
  - intros j Hj. rewrite (Hst' j (proj1 Hj)). destruct (decide (i = j)); [by left|].
    by apply Hnfl.
  - rewrite (countZ_update (is_used (r_new_flags st)) (is_used nfl) _ i); [|lia|].
    + rewrite Hu, Hu1. lia.
    + intros j Hj Hji. apply Hu2; lia.
Qed.

(** Tombstoning a live bucket of the old layout. *)
Lemma take_counts S fl i fl' :
  0 ≤ i < S → is_live fl i = true → p_uhf_set_isdel_true fl i = Some fl' →
  (∀ j, 0 ≤ j < S → is_Some (p_uhf_iseither fl j)) →
  (∀ j, 0 ≤ j < S → is_Some (p_uhf_iseither fl' j)) ∧
  is_live fl' i = false ∧
  (∀ j, 0 ≤ j → is_live fl j = false → is_live fl' j = false) ∧
  countZ (is_live fl') (Z.to_nat S) = countZ (is_live fl) (Z.to_nat S) - 1.
Proof.
  intros Hi Hl Hset Hdef.
  destruct (set_isdel_true_spec _ _ _ (proj1 Hi) Hset) as [Hlen Hst].
  apply is_live_iff in Hl.
  assert (Hi1 : p_uhf_iseither fl' i = Some 1).
  { rewrite (Hst i (proj1 Hi)), decide_True by reflexivity. by rewrite Hl. }
  assert (Hoth : ∀ j, 0 ≤ j → j ≠ i → p_uhf_iseither fl' j = p_uhf_iseither fl j).
  { intros j Hj Hji. rewrite (Hst j Hj). by rewrite decide_False by congruence. }
  assert (Hd : is_live fl' i = false) by (unfold is_live; by rewrite Hi1).
  split; [|split; [assumption|split]].
  - intros j Hj. destruct (decide (j = i)) as [->|Hji]; [by rewrite Hi1|].
    rewrite Hoth by lia. by apply Hdef.
  - intros j Hj Hdj. destruct (decide (j = i)) as [->|Hji]; [assumption|].
    by rewrite (is_live_ext fl fl') by (by apply Hoth).
  - rewrite (countZ_update (is_live fl) (is_live fl') _ i); [|lia|].
    + rewrite Hd, (proj2 (is_live_iff fl i) Hl). lia.
    + intros j Hj Hji. apply is_live_ext. apply Hoth; lia.
Qed.

Lemma kick_out_counts C S N fuel st key val st' :
  pow2_size N → rehash_counts C S N st 1 →
  kick_out fuel S (N - 1) st key val = Some st' →
  rehash_counts C S N st' 0 ∧
  ∀ i, 0 ≤ i → is_live (r_flags st) i = false → is_live (r_flags st') i = false.
Proof.
  intros Hn. revert st key val.
  induction fuel as [|fuel IH]; intros st key val Hrc Hk; [discriminate|].
  rewrite kick_out_S in Hk.
  destruct (find_empty _ _ _ _ _) as [i|] eqn:Hfe; [|discriminate]. simpl in Hk.
  apply find_empty_sound in Hfe; [|assumption|by apply hash_index_range].
  destruct Hfe as [Hi Hu].
  destruct (p_uhf_set_isempty_false _ i) as [nfl|] eqn:Hset; [|discriminate].
  simpl in Hk.
  destruct (claim_counts C S N st 1 i nfl Hrc Hi Hu Hset) as (Hlen & Hst & Hcnt).
  rewrite (old_live_test S st i (proj1 Hi) (rc_flags _ _ _ _ _ Hrc)) in Hk. simpl in Hk.
  destruct (old_live S st i) eqn:Hlive.
  - unfold old_live in Hlive. apply andb_true_iff in Hlive as [HiS Hlive].
    apply Z.ltb_lt in HiS.
    destruct (load (r_keys st) i) as [tmpk|]; [|discriminate]. simpl in Hk.
    destruct (store (r_keys st) i key) as [kl|]; [|discriminate]. simpl in Hk.
    destruct (match r_vals st with Some _ => _ | None => _ end) as [[vs val']|];
      [|discriminate]. simpl in Hk.
    destruct (p_uhf_set_isdel_true _ i) as [fl|] eqn:Hdel; [|discriminate]. simpl in Hk.
    destruct (take_counts S (r_flags st) i fl ltac:(lia) Hlive Hdel
                (rc_flags _ _ _ _ _ Hrc)) as (Hdef & _ & Hmono & Hcl).
    apply IH in Hk.
    + destruct Hk as [Hrc' Hm']. split; [assumption|].
      intros j Hj Hdj. apply Hm'; [assumption|]. simpl. by apply Hmono.
    + split; simpl; try assumption. pose proof (rc_count _ _ _ _ _ Hrc). lia.
  - destruct (store (r_keys st) i key) as [kl|]; [|discriminate]. simpl in Hk.
    destruct (match r_vals st with Some _ => _ | None => _ end) as [vs|];
      [|discriminate]. simpl in Hk. injection Hk as <-.
    split; [|by intros].
    split; simpl; try assumption; [apply Hrc|].
    pose proof (rc_count _ _ _ _ _ Hrc). lia.
Qed.

Lemma rehash_counts_spec C S N n j st st' :
  pow2_size N → 0 ≤ S ≤ 2 ^ 31 → 0 ≤ j → j + Z.of_nat n = S →
  rehash_counts C S N st 0 →
  (∀ i, 0 ≤ i < j → is_live (r_flags st) i = false) →
  rehash n j S (N - 1) st = Some st' →
  rehash_counts C S N st' 0 ∧ ∀ i, 0 ≤ i < S → is_live (r_flags st') i = false.
Proof.
  intros Hn HS. revert j st.
  induction n as [|n IH]; intros j st Hj Hjn Hrc Hdead Hr.
  - simpl in Hr. injection Hr as <-. split; [assumption|].
    intros i Hi. apply Hdead. lia.
  - rewrite rehash_S in Hr.
    destruct (p_uhf_iseither (r_flags st) j) as [e|] eqn:He; [|discriminate].
    simpl in Hr. rewrite (wrap_small (j + 1)) in Hr
      by (unfold ULIB_UINT_MAX, ULIB_UINT_BITS; lia).
    destruct (e =? 0) eqn:He0.
    + apply Z.eqb_eq in He0. subst e.
      destruct (load (r_keys st) j) as [key|]; [|discriminate]. simpl in Hr.
      destruct (match r_vals st with Some _ => _ | None => _ end) as [val|];
        [|discriminate]. simpl in Hr.
      destruct (p_uhf_set_isdel_true _ j) as [fl|] eqn:Hdel; [|discriminate].
      simpl in Hr.
      destruct (kick_out _ _ _ _ _ _) as [st1|] eqn:Hk; [|discriminate]. simpl in Hr.
      destruct (take_counts S (r_flags st) j fl ltac:(lia) (proj2 (is_live_iff _ _) He)
                  Hdel (rc_flags _ _ _ _ _ Hrc)) as (Hdef & Hdj & Hmono & Hcl).
      apply (kick_out_counts C S N) in Hk; [|assumption|].
      * destruct Hk as [Hrc1 Hm1].
        apply (IH (j + 1) st1); try (assumption || lia).
        intros i Hi. apply Hm1; [lia|]. simpl.
        destruct (decide (i = j)) as [->|Hij]; [assumption|].
        apply Hmono; [lia|]. apply Hdead. lia.
      * split; simpl; try assumption; try apply Hrc.
        pose proof (rc_count _ _ _ _ _ Hrc). lia.
    + simpl in Hr. apply (IH (j + 1) st); try (assumption || lia).
      intros i Hi. destruct (decide (i = j)) as [->|Hij]; [|apply Hdead; lia].
      unfold is_live. rewrite He. apply Z.eqb_neq in He0. by destruct e.
Qed.

Lemma resize_expand_counters a h N h1 :
  (resize_expand a h N = inl h1 ∨ resize_expand a h N = inr h1) →
  _size h1 = _size h ∧ _count h1 = _count h ∧ _occupied h1 = _occupied h ∧
  _flags h1 = _flags h.
Proof.
  unfold resize_expand.
  destruct (_size h <? N), (keys_ok a); simpl;
    try destruct (uhash_is_map _); try destruct (vals_ok a);
    intros [[= <-]|[= <-]]; done.
Qed.

Lemma counts_ok_ext h h' :
  counts_ok h → _size h' = _size h → _count h' = _count h →
  _occupied h' = _occupied h → _flags h' = _flags h → counts_ok h'.
Proof.
  intros [Hsz Hfl Hcnt Hocc Hraw] H1 H2 H3 H4.
  split; unfold p_uhash_occupied, flags_of in *; rewrite ?H1, ?H2, ?H3, ?H4; assumption.
Qed.

Lemma counts_ok_bounds h :
  counts_ok h →
  0 ≤ _count h ≤ p_uhash_occupied h ∧ p_uhash_occupied h ≤ _size h ∧ _size h ≤ 2 ^ 31.
Proof.
  intros [Hsz Hflen Hcnt Hocc Hraw]. rewrite Hcnt, Hocc.
  pose proof (countZ_bounds (is_live (flags_of h)) (Z.to_nat (_size h))).
  pose proof (countZ_bounds (is_used (flags_of h)) (Z.to_nat (_size h))).
  assert (0 ≤ _size h ≤ 2 ^ 31) by (destruct Hsz as [->|?%pow2_size_bounds]; lia).
  split; [split; [lia|]|lia].
  apply countZ_le. intros i Hi. apply is_live_used. lia.
Qed.

(** [uhash_resize] keeps the counters in agreement with the flags. *)
Lemma uhash_resize_counts a h n r h' :
  counts_ok h → uhash_resize a h n = Some (r, h') →
  counts_ok h' ∧
  ((r = UHASH_ERR ∧ _size h' = _size h ∧ _count h' = _count h ∧
    _occupied h' = _occupied h ∧ _flags h' = _flags h) ∨
   (r = UHASH_OK ∧ h' = h ∧ p_uhash_upper_bound (resize_target n) ≤ _count h) ∨
   (r = UHASH_OK ∧ _count h < p_uhash_upper_bound (resize_target n) ∧
    _size h' = resize_target n ∧ _count h' = _count h ∧ _occupied h' = _count h ∧
    ∀ i, 0 ≤ i < resize_target n → is_tomb (flags_of h') i = false)).
Proof.
  intros Hco Hr. rewrite uhash_resize_eq in Hr. simpl in Hr.
  set (N := resize_target n) in *.
  pose proof (resize_target_pow2 n) as Hn. fold N in Hn.
  pose proof (pow2_size_bounds N Hn) as Hb.
  pose proof (counts_ok_bounds h Hco) as Hcb.
  destruct (Z.geb_spec (_count h) (p_uhash_upper_bound N)) as [Hge|Hlt].
  { injection Hr as <- <-. split; [assumption|]. right. left. by split_conj. }
  destruct (flags_ok a); simpl in Hr.
  2:{ injection Hr as <- <-. split; [assumption|]. left. by split_conj. }
  destruct (resize_expand a h N) as [h1|h1] eqn:Hex.
  - injection Hr as <- <-.
    destruct (resize_expand_counters a h N h1 (or_introl Hex)) as (H1 & H2 & H3 & H4).
    split; [by apply (counts_ok_ext h)|]. left. by split_conj.
  - destruct (resize_expand_counters a h N h1 (or_intror Hex)) as (H1 & H2 & H3 & H4).
    rewrite H1, H2, H4, wrap_size_pred in Hr by assumption.
    change (default [] (_flags h)) with (flags_of h) in Hr.
    destruct (rehash _ _ _ _ _) as [st|] eqn:Hre; [|discriminate]. simpl in Hr.
    apply (rehash_counts_spec (_count h) (_size h) N) in Hre;
      [|assumption|lia|lia|lia| |intros; lia].
    2:{ split; simpl.
        - intros i Hi. apply iseither_is_Some; [lia|].
          assert (Hne : _size h ≠ 0) by lia.
          rewrite (co_flags h Hco Hne).
          destruct (co_size h Hco) as [?|Hp]; [lia|].
          pose proof (uhf_size_cover _ Hp). lia.
        - intros i Hi. right. apply iseither_all_empty.
          pose proof (uhf_size_cover _ Hn). lia.
        - unfold flags_all_empty. rewrite length_replicate. reflexivity.
        - rewrite (proj2 (countZ_zero (is_used (flags_all_empty N)) _)).
          + rewrite <- (co_count h Hco). lia.
          + intros i Hi. apply is_used_all_empty.
            pose proof (uhf_size_cover _ Hn). lia. }
    destruct Hre as [[_ Hnfl Hlen Hcnt] Hdead]. injection Hr as <- <-.
    assert (HC : _count h = countZ (is_used (r_new_flags st)) (Z.to_nat N)).
    { rewrite <- Hcnt.
      rewrite (proj2 (countZ_zero (is_live (r_flags st)) _)); [lia|].
      intros i Hi. apply Hdead. lia. }
    assert (Hlu : ∀ i, 0 ≤ i < N →
              is_live (r_new_flags st) i = is_used (r_new_flags st) i).
    { intros i Hi. destruct (Hnfl i Hi) as [H0|H2'].
      - rewrite (proj2 (is_live_iff _ _) H0).
        symmetry. apply is_used_iff; [lia|by left].
      - unfold is_live, is_used. rewrite isempty_iseither, H2'. reflexivity. }
    pose proof (countZ_bounds (is_used (r_new_flags st)) (Z.to_nat N)) as Hub.
    split.
    + split; simpl.
      * by right.
      * intros _. exact Hlen.
      * unfold flags_of. simpl. rewrite HC. apply countZ_ext.
        intros i Hi. symmetry. apply Hlu. lia.
      * unfold p_uhash_occupied, flags_of. simpl.
        destruct (Z.gtb_spec (_count h) N); [lia|assumption].
      * intros _. lia.
    + right. right. split; [reflexivity|]. split; [assumption|].
      split; [reflexivity|]. split; [reflexivity|]. split; [reflexivity|].
      intros i Hi. unfold is_tomb, flags_of. simpl. rewrite (Hlu i Hi).
      by destruct (is_used (r_new_flags st) i).
Qed.

Lemma put_site_range h key x :
  pow2_size (_size h) → uhash_put_site h key = Some x → 0 ≤ x < _size h.
Proof.
  intros Hn Hs. pose proof (pow2_size_bounds _ Hn) as Hb.
  unfold uhash_put_site in Hs. rewrite wrap_size_pred in Hs by assumption.
  pose proof (hash_index_range key _ Hn) as Hi.
  destruct (_flags h) as [fl|]; [|discriminate]. simpl in Hs.
  destruct (p_uhf_isempty fl _) as [e|]; [|discriminate]. simpl in Hs.
  destruct (e =? 0); [|by injection Hs as <-].
  destruct (uhash_put_loop _ _ _ _ _ _ _ _ _) as [[[i' site'] broke]|] eqn:Hl;
    [|discriminate].
  apply put_loop_range in Hl; [|assumption|assumption|lia]. simpl in Hs.
  destruct ((if broke then site' else _size h) =? _size h) eqn:Hx.
  - destruct (p_uhf_isempty fl i') as [e'|]; [|discriminate]. simpl in Hs.
    injection Hs as <-.
    destruct (negb (e' =? 0) && negb (site' =? _size h)) eqn:Hc; [|apply Hl].
    apply andb_true_iff in Hc as [_ Hc]. apply negb_true_iff, Z.eqb_neq in Hc. lia.
  - injection Hs as <-. apply Z.eqb_neq in Hx. destruct broke; lia.
Qed.

(** Making a bucket that is not live live. *)
Lemma fill_counts h x fl fl' occ' ks vs :
  counts_ok h → 0 ≤ x < _size h → _flags h = Some fl →
  is_live fl x = false → p_uhf_set_isboth_false fl x = Some fl' →
  occ' = (if is_used fl x then _occupied h else _occupied h + 1) →
  counts_ok (mkUHash (_size h) occ' (_count h + 1) (Some fl') ks vs) ∧
  _count h + 1 ≤ _size h ∧ 0 ≤ occ' ≤ _size h ∧ p_uhash_occupied h = _occupied h.
Proof.
  intros Hco Hx Hfl Hdead Hset Hocc'.
  pose proof (counts_ok_bounds h Hco) as Hcb.
  destruct Hco as [Hsz Hflen Hcnt Hocc Hraw].
  assert (Hne : _size h ≠ 0) by lia.
  assert (Hfo : flags_of h = fl) by (unfold flags_of; by rewrite Hfl).
  rewrite Hfo in *.
  destruct (set_isboth_false_spec _ _ _ (proj1 Hx) Hset) as [Hlen Hst].
  assert (Hx' : p_uhf_iseither fl' x = Some 0).
  { rewrite Hst by lia. by rewrite decide_True. }
  assert (Hoth : ∀ i, 0 ≤ i → i ≠ x → p_uhf_iseither fl' i = p_uhf_iseither fl i).
  { intros i Hi Hix. rewrite Hst by lia. by rewrite decide_False by congruence. }
  assert (Hused : countZ (is_used fl') (Z.to_nat (_size h)) =
                  countZ (is_used fl) (Z.to_nat (_size h)) +
                  (if is_used fl x then 0 else 1)).
  { rewrite (countZ_update (is_used fl) (is_used fl') _ x); [|lia|].
    - rewrite (proj2 (is_used_iff fl' x (proj1 Hx))) by (by left).
      destruct (is_used fl x); lia.
    - intros i Hi Hix. apply is_used_ext. apply Hoth; lia. }
  assert (Hlive : countZ (is_live fl') (Z.to_nat (_size h)) =
                  countZ (is_live fl) (Z.to_nat (_size h)) + 1).
  { rewrite (countZ_update (is_live fl) (is_live fl') _ x); [|lia|].
    - rewrite Hdead, (proj2 (is_live_iff fl' x) Hx'). lia.
    - intros i Hi Hix. apply is_live_ext. apply Hoth; lia. }
  assert (Hpocc : p_uhash_occupied h = _occupied h).
  { unfold p_uhash_occupied. specialize (Hraw Hne).
    destruct (Z.gtb_spec (_occupied h) (_size h)); [lia|reflexivity]. }
  pose proof (countZ_bounds (is_used fl') (Z.to_nat (_size h))) as Hub.
  pose proof (countZ_bounds (is_live fl') (Z.to_nat (_size h))) as Hlb.
  assert (Hocc'' : occ' = countZ (is_used fl') (Z.to_nat (_size h))).
  { rewrite Hused, <- Hocc, Hpocc, Hocc'. destruct (is_used fl x); lia. }
  split; [split; simpl|].
  - assumption.
  - intros _. unfold flags_of. simpl. rewrite Hlen. by apply Hflen.
  - unfold flags_of. simpl. lia.
  - unfold p_uhash_occupied, flags_of. simpl.
    destruct (Z.gtb_spec occ' (_size h)); [lia|]. exact Hocc''.
  - intros _. lia.
  - split; [lia|]. split; [lia|assumption].
Qed.

Lemma put_insert_counts h key r x h' :
  counts_ok h → pow2_size (_size h) → uhash_put_insert h key = Some (r, x, h') →
  counts_ok h' ∧ _size h' = _size h ∧
  _count h ≤ _count h' ≤ _count h + 1 ∧
  p_uhash_occupied h ≤ p_uhash_occupied h' ≤ p_uhash_occupied h + 1.
Proof.
  intros Hco Hn Hp. pose proof (pow2_size_bounds _ Hn) as Hb.
  unfold uhash_put_insert in Hp.
  destruct (uhash_put_site h key) as [x0|] eqn:Hsite; [|discriminate]. simpl in Hp.
  apply put_site_range in Hsite; [|assumption].
  destruct (_flags h) as [fl|] eqn:Hfl; [|discriminate]. simpl in Hp.
  destruct (p_uhf_isempty fl x0) as [e|] eqn:He; [|discriminate]. simpl in Hp.
  destruct (p_uhf_isdel fl x0) as [d|] eqn:Hd; [|discriminate]. simpl in Hp.
  rewrite isempty_iseither in He. rewrite isdel_iseither in Hd.
  destruct (p_uhf_iseither fl x0) as [s|] eqn:Hs; [|discriminate].
  simpl in He, Hd. injection He as <-. injection Hd as <-.
  assert (Hfin : ∀ o2 fl' ks,
            (Z.land s 2 ≠ 0 ∨ Z.land s 1 ≠ 0) →
            p_uhf_set_isboth_false fl x0 = Some fl' →
            o2 = (if Z.land s 2 =? 0 then _occupied h else wrap (_occupied h + 1)) →
            let h2 := mkUHash (_size h) o2 (wrap (_count h + 1))
                        (Some fl') ks (_vals h) in
            counts_ok h2 ∧ _size h2 = _size h ∧
            _count h ≤ _count h2 ≤ _count h + 1 ∧
            p_uhash_occupied h ≤ p_uhash_occupied h2 ≤ p_uhash_occupied h + 1).
  { intros o2 fl' ks Hs0 Hset Ho2 h2.
    assert (Hu : is_used fl x0 = (Z.land s 2 =? 0)).
    { unfold is_used. rewrite isempty_iseither, Hs. simpl.
      destruct (Z.eqb_spec (Z.land s 2) 0) as [->|Hne]; [reflexivity|].
      by destruct (Z.land s 2). }
    assert (Hdead : is_live fl x0 = false).
    { unfold is_live. rewrite Hs. destruct (decide (s = 0)) as [->|Hs1].
      - rewrite !Z.land_0_l in Hs0. destruct Hs0; congruence.
      - by destruct s. }
    destruct (fill_counts h x0 fl fl'
                (if Z.land s 2 =? 0 then _occupied h else _occupied h + 1)
                ks (_vals h) Hco Hsite Hfl Hdead Hset)
      as (Hco' & Hc1 & Ho1 & Hpo); [by rewrite Hu|].
    pose proof (counts_ok_bounds h Hco) as Hcb.
    assert (Ho2' : o2 = if Z.land s 2 =? 0 then _occupied h else _occupied h + 1).
    { rewrite Ho2. destruct (Z.land s 2 =? 0); [reflexivity|].
      apply wrap_small. unfold ULIB_UINT_MAX, ULIB_UINT_BITS. lia. }
    subst h2. rewrite Ho2'.
    rewrite !wrap_small by (unfold ULIB_UINT_MAX, ULIB_UINT_BITS; lia).
    split; [assumption|]. split; [reflexivity|]. simpl. split; [lia|].
    rewrite Hpo. unfold p_uhash_occupied. simpl.
    destruct (Z.gtb_spec (if Z.land s 2 =? 0 then _occupied h else _occupied h + 1)
                (_size h)); [lia|].
    destruct (Z.land s 2 =? 0); lia. }
  destruct (Z.land s 2 =? 0) eqn:He0; simpl in Hp.
  - destruct (Z.land s 1 =? 0) eqn:Hd0; simpl in Hp.
    + injection Hp as <- <- <-. split; [assumption|]. split; [reflexivity|]. lia.
    + destruct (store (_keys h) x0 key) as [ks|]; [|discriminate]. simpl in Hp.
      destruct (p_uhf_set_isboth_false fl x0) as [fl'|] eqn:Hset; [|discriminate].
      simpl in Hp. injection Hp as <- <- <-.
      apply Hfin; [right; by apply Z.eqb_neq|reflexivity|reflexivity].
  - destruct (store (_keys h) x0 key) as [ks|]; [|discriminate]. simpl in Hp.
    destruct (p_uhf_set_isboth_false fl x0) as [fl'|] eqn:Hset; [|discriminate].
    simpl in Hp. injection Hp as <- <- <-.
    apply Hfin; [left; by apply Z.eqb_neq|reflexivity|reflexivity].
Qed.

Lemma occupied_ext h h' :
  _size h' = _size h → _occupied h' = _occupied h →
  p_uhash_occupied h' = p_uhash_occupied h.
Proof. intros H1 H2. unfold p_uhash_occupied. by rewrite H1, H2. Qed.

Lemma load_ok_ext h h' :
  load_ok h → _size h' = _size h → _count h' = _count h →
  _occupied h' = _occupied h → _flags h' = _flags h → load_ok h'.
Proof.
  intros [Hco Hb] H1 H2 H3 H4. split; [by apply (counts_ok_ext h)|].
  rewrite (occupied_ext h h' H1 H3), H1. exact Hb.
Qed.

(** The resize step of [uhash_put]: when it succeeds, the table has room
    for one more entry below the load bound. *)
Lemma put_resize_counts a h r h1 :
  counts_ok h → uhash_put_resize a h = Some (r, h1) →
  counts_ok h1 ∧
  ((r = UHASH_ERR ∧ _size h1 = _size h ∧ p_uhash_occupied h1 = p_uhash_occupied h) ∨
   (r = UHASH_OK ∧ pow2_size (_size h1) ∧
    (_size h1 < 2 ^ 31 → p_uhash_occupied h1 < p_uhash_upper_bound (_size h1)))).
Proof.
  intros Hco Hr. pose proof (counts_ok_bounds h Hco) as Hcb.
  pose proof (co_size h Hco) as HS.
  assert (Hmax : pow2_size (2 ^ 31)) by (exists 31; split; [lia|reflexivity]).
  unfold uhash_put_resize in Hr.
  destruct (Z.geb_spec (p_uhash_occupied h) (p_uhash_upper_bound (_size h))) as [Hfull|Hroom].
  2:{ injection Hr as <- <-. split; [assumption|]. right. split; [reflexivity|].
      destruct HS as [H0|Hn]; [|by split].
      rewrite H0, upper_bound_0 in Hroom. lia. }
  assert (Hgen : ∀ n,
            (p_uhash_upper_bound (resize_target n) ≤ _count h → _size h = 2 ^ 31) →
            uhash_resize a h n = Some (r, h1) →
            counts_ok h1 ∧
            ((r = UHASH_ERR ∧ _size h1 = _size h ∧
              p_uhash_occupied h1 = p_uhash_occupied h) ∨
             (r = UHASH_OK ∧ pow2_size (_size h1) ∧
              (_size h1 < 2 ^ 31 →
               p_uhash_occupied h1 < p_uhash_upper_bound (_size h1))))).
  { intros n Hnoop Hres.
    destruct (uhash_resize_counts a h n r h1 Hco Hres) as (Hco1 & Hcases).
    split; [assumption|].
    destruct Hcases as [(-> & H1 & _ & H3 & _)|[(-> & -> & Hsmall)|
                        (-> & Hlt & H1 & _ & H3 & _)]].
    - left. split; [reflexivity|]. split; [assumption|]. by apply occupied_ext.
    - right. split; [reflexivity|]. rewrite (Hnoop Hsmall). split; [assumption|lia].
    - right. split; [reflexivity|]. rewrite H1.
      split; [apply resize_target_pow2|]. intros _.
      unfold p_uhash_occupied. rewrite H1, H3.
      pose proof (pow2_size_bounds _ (resize_target_pow2 n)) as Hb.
      pose proof (upper_bound_bounds _ (proj1 Hb)) as Hub.
      assert (0 ≤ resize_target n / 2) by (Z.div_mod_to_equations; lia).
      destruct (Z.gtb_spec (_count h) (resize_target n)); lia. }
  rewrite shiftl_1 in Hr.
  destruct (decide (_count h = 2 ^ 31)) as [Hc|Hc].
  - assert (Hsz : _size h = 2 ^ 31) by lia. rewrite Hc, Hsz in Hr.
    change (2 ^ 31 >? wrap (2 * 2 ^ 31)) with true in Hr. cbv iota in Hr.
    rewrite <- Hsz in Hr. by apply Hgen in Hr.
  - rewrite (wrap_small (2 * _count h)) in Hr
      by (unfold ULIB_UINT_MAX, ULIB_UINT_BITS; lia).
    destruct (Z.gtb_spec (_size h) (2 * _count h)) as [Hsparse|Hdense].
    + destruct HS as [?|Hn]; [lia|]. pose proof (pow2_size_bounds _ Hn).
      pose proof (upper_bound_bounds (_size h) ltac:(lia)) as Hub.
      rewrite (wrap_size_pred _ Hn) in Hr. apply Hgen in Hr; [assumption|].
      rewrite resize_target_pred by assumption.
      assert (_count h ≤ _size h / 2) by (Z.div_mod_to_equations; lia). lia.
    + destruct HS as [H0|Hn].
      * rewrite H0 in Hr. change (wrap (0 + 1)) with 1 in Hr.
        apply Hgen in Hr; [assumption|].
        change (p_uhash_upper_bound (resize_target 1)) with 3. lia.
      * pose proof (pow2_size_bounds _ Hn).
        rewrite (wrap_small (_size h + 1)) in Hr
          by (unfold ULIB_UINT_MAX, ULIB_UINT_BITS; lia).
        apply Hgen in Hr; [assumption|]. intros Hsmall.
        destruct (decide (_size h = 2 ^ 31)) as [|Hnmax]; [assumption|].
        rewrite resize_target_succ in Hsmall by (assumption || lia).
        pose proof (upper_bound_double (_size h) ltac:(lia)). lia.
Qed.

Lemma uhash_put_counts a h key r x h' :
  load_ok h → uhash_put a h key = Some (r, x, h') → load_ok h'.
Proof.
  intros [Hco Hb] Hp. unfold uhash_put in Hp.
  destruct (uhash_put_resize a h) as [[r1 h1]|] eqn:Hr; [|discriminate]. simpl in Hp.
  destruct (put_resize_counts a h r1 h1 Hco Hr) as
    (Hco1 & [(-> & Hsz & Hocc)|(-> & Hn & Hroom)]); simpl in Hp.
  - injection Hp as <- <- <-. split; [assumption|]. by rewrite Hocc, Hsz.
  - destruct (put_insert_counts h1 key r x h' Hco1 Hn Hp) as (Hco' & Hsz & _ & Hocc).
    split; [assumption|]. rewrite Hsz. intros Hlt. specialize (Hroom Hlt). lia.
Qed.

Lemma uhmap_set_counts a h key (v : V) r e h' :
  load_ok h → uhmap_set a h key v = Some (r, e, h') → load_ok h'.
Proof.
  intros Hlo Hs. unfold uhmap_set in Hs.
  destruct (uhash_put a h key) as [[[r1 x] h1]|] eqn:Hp; [|discriminate]. simpl in Hs.
  apply uhash_put_counts in Hp; [|assumption].
  destruct (negb (r1 =? UHASH_ERR)); [|by injection Hs as <- <- <-].
  destruct (if r1 =? UHASH_PRESENT then _ else _) as [ex|]; [|discriminate].
  simpl in Hs. destruct (store (_vals h1) x v) as [vs|]; [|discriminate].
  simpl in Hs. injection Hs as <- <- <-. by apply (load_ok_ext h1).
Qed.

Lemma uhash_resize_load_ok a h n r h' :
  load_ok h → uhash_resize a h n = Some (r, h') → load_ok h'.
Proof.
  intros [Hco Hb] Hr.
  destruct (uhash_resize_counts a h n r h' Hco Hr) as (Hco' & Hcases).
  split; [assumption|].
  destruct Hcases as [(_ & H1 & _ & H3 & _)|[(_ & -> & _)|(_ & Hlt & H1 & _ & H3 & _)]].
  - by rewrite (occupied_ext h h' H1 H3), H1.
  - assumption.
  - intros _. unfold p_uhash_occupied. rewrite H1, H3.
    pose proof (counts_ok_bounds h Hco).
    destruct (Z.gtb_spec (_count h) (resize_target n)); lia.
Qed.

Lemma uhash_delete_counts h x h' :
  load_ok h → 0 ≤ x < _size h → uhash_delete h x = Some h' → load_ok h'.
Proof.
  intros [Hco Hb] Hx Hd. unfold uhash_delete in Hd.
  destruct (_flags h) as [fl|] eqn:Hfl; [|discriminate]. simpl in Hd.
  destruct (p_uhf_iseither fl x) as [e|] eqn:He; [|discriminate]. simpl in Hd.
  destruct (Z.eqb_spec e 0) as [->|Hne]; [|by injection Hd as <-].
  destruct (p_uhf_set_isdel_true fl x) as [fl'|] eqn:Hset; [|discriminate].
  simpl in Hd. injection Hd as <-.
  pose proof (counts_ok_bounds h Hco) as Hcb.
  assert (Hfo : flags_of h = fl) by (unfold flags_of; by rewrite Hfl).
  destruct Hco as [Hsz Hflen Hcnt Hocc Hraw]. rewrite Hfo in *.
  assert (Hne : _size h ≠ 0) by lia.
  destruct Hsz as [?|Hn]; [lia|].
  assert (Hdef : ∀ j, 0 ≤ j < _size h → is_Some (p_uhf_iseither fl j)).
  { intros j Hj. apply iseither_is_Some; [lia|]. rewrite (Hflen Hne).
    pose proof (uhf_size_cover _ Hn). lia. }
  destruct (take_counts (_size h) fl x fl' Hx (proj2 (is_live_iff _ _) He) Hset Hdef)
    as (_ & Hdx & _ & Hlive).
  destruct (set_isdel_true_spec _ _ _ (proj1 Hx) Hset) as [Hlen Hst].
  assert (Hused : countZ (is_used fl') (Z.to_nat (_size h)) =
                  countZ (is_used fl) (Z.to_nat (_size h))).
  { apply countZ_ext. intros i Hi. destruct (decide (i = x)) as [->|Hix].
    - rewrite !(proj2 (is_used_iff _ x (proj1 Hx))); [reflexivity|by left|right].
      rewrite (Hst x (proj1 Hx)), decide_True by reflexivity. by rewrite He.
    - apply is_used_ext. rewrite (Hst i) by lia. by rewrite decide_False by congruence. }
  assert (Hpos : 1 ≤ _count h).
  { rewrite Hcnt. apply (countZ_pos _ _ x); [lia|]. by apply is_live_iff. }
  rewrite wrap_small by (unfold ULIB_UINT_MAX, ULIB_UINT_BITS; lia).
  split; [split; simpl|exact Hb].
  - by right.
  - intros _. unfold flags_of. simpl. rewrite Hlen. by apply Hflen.
  - unfold flags_of. simpl. lia.
  - unfold flags_of. simpl. rewrite Hused, <- Hocc. reflexivity.
  - assumption.
Qed.

Lemma uhash_clear_spec h h' :
  counts_ok h → uhash_clear h = Some h' →
  counts_ok h' ∧ _size h' = _size h ∧ _keys h' = _keys h ∧ _vals h' = _vals h ∧
  (h' = h ∨
   (_size h ≠ 0 ∧ p_uhash_occupied h' = 0 ∧
    ∀ i, 0 ≤ i < _size h → is_live (flags_of h') i = false)).
Proof.
  intros Hco Hc. unfold uhash_clear in Hc.
  destruct (p_uhash_occupied h =? 0) eqn:Hz.
  { injection Hc as <-. split; [assumption|]. split_conj. by left. }
  apply Z.eqb_neq in Hz.
  destruct (_flags h) as [fl|] eqn:Hfl; [|discriminate]. simpl in Hc.
  destruct (decide _) as [Hlen|]; [|discriminate]. injection Hc as <-.
  assert (Hfo : flags_of h = fl) by (unfold flags_of; by rewrite Hfl).
  destruct Hco as [Hsz Hflen Hcnt Hocc Hraw]. rewrite Hfo in *.
  destruct Hsz as [H0|Hn].
  { rewrite H0 in Hocc. simpl in Hocc. lia. }
  pose proof (pow2_size_bounds _ Hn) as Hpb.
  pose proof (uhf_size_cover _ Hn) as Hcov.
  rewrite drop_ge by (rewrite Hflen; lia). rewrite app_nil_r.
  assert (Hdead : ∀ i, 0 ≤ i < _size h →
            is_live (flags_all_empty (_size h)) i = false).
  { intros i Hi. unfold is_live. rewrite iseither_all_empty by lia. reflexivity. }
  assert (Hp0 : p_uhash_occupied
                  (mkUHash (_size h) 0 0 (Some (flags_all_empty (_size h)))
                     (_keys h) (_vals h)) = 0).
  { unfold p_uhash_occupied. simpl. destruct (Z.gtb_spec 0 (_size h)); lia. }
  split; [split; simpl|].
  - by right.
  - intros _. unfold flags_of, flags_all_empty. simpl. by rewrite length_replicate.
  - unfold flags_of. simpl. symmetry. apply countZ_zero.
    intros i Hi. apply Hdead. lia.
  - rewrite Hp0. unfold flags_of. simpl. symmetry. apply countZ_zero.
    intros i Hi. apply is_used_all_empty. lia.
  - intros _. lia.
  - simpl. split_conj. right. split; [lia|]. split; [exact Hp0|exact Hdead].
Qed.

Lemma uhash_clear_counts h h' : load_ok h → uhash_clear h = Some h' → load_ok h'.
Proof.
  intros [Hco Hb] Hc.
  destruct (uhash_clear_spec h h' Hco Hc) as (Hco' & Hsz & _ & _ & [->|(Hne & Hp & _)]).
  - by split.
  - split; [assumption|]. intros _. rewrite Hp, Hsz.
    destruct (co_size h Hco) as [?|Hn]; [lia|].
    pose proof (pow2_size_bounds _ Hn) as Hpb.
    pose proof (upper_bound_bounds _ (proj1 Hpb)) as Hub.
    assert (0 ≤ _size h / 2) by (Z.div_mod_to_equations; lia). lia.
Qed.

Lemma load_ok_fresh : load_ok (uhset : UHash) ∧ load_ok (uhmap : UHash).
Proof.
  split; (split; [split|]); simpl; try (by left); try done.
Qed.

(** Every reachable table satisfies the counting invariant and the load
    bound. *)
Lemma reachable_load_ok h : reachable h → load_ok h.
Proof.
  induction 1 as [| |a h key r idx h' _ IH Hs|h x h' _ IH Hx Hs|a h n r h' _ IH Hn Hs|
                  h h' _ IH Hs|a h key v r e h' _ IH Hs].
  - apply load_ok_fresh.
  - apply load_ok_fresh.
  - by eapply uhash_put_counts.
  - by eapply uhash_delete_counts.
  - by eapply uhash_resize_load_ok.
  - by eapply uhash_clear_counts.
  - by eapply uhmap_set_counts.
Qed.

(** ** Sequences of [uhmap_set] *)

Lemma has_unique h key ov ov' : WF h → has h key ov → has h key ov' → ov = ov'.
Proof.
  intros Hwf [i Hc] [i' Hc'].
  assert (i = i') as <- by (by eapply WF_cell_inj).
  destruct Hc as (_ & _ & _ & <-). by destruct Hc' as (_ & _ & _ & <-).
Qed.

Lemma last_binding_cons a k0 (v0 : V) l k :
  last_binding ((a, k0, v0) :: l) k =
  match last_binding l k with
  | Some v' => Some v'
  | None => if equal_func k0 k then Some v0 else None
  end.
Proof. reflexivity. Qed.

Lemma set_all_spec l : ∀ h hf,
  WF h → uhash_is_map h = true →
  p_uhash_occupied h + Z.of_nat (length l) < 2 ^ 31 →
  set_all h l = Some hf →
  WF hf ∧ uhash_is_map hf = true ∧
  p_uhash_occupied hf ≤ p_uhash_occupied h + Z.of_nat (length l) ∧
  (∀ k, last_binding l k = None → ∀ ov, has hf k ov ↔ has h k ov) ∧
  (∀ k v, last_binding l k = Some v → has hf k (Some v)).
Proof.
  induction l as [|[[a k0] v0] l IH]; intros h hf Hwf Hmap Hroom Hs.
  - simpl in Hs. injection Hs as <-. split; [assumption|]. split; [assumption|].
    split; [simpl; lia|]. split; [done|]. intros k v Hk. discriminate.
  - simpl in Hs. rewrite length_cons in Hroom.
    destruct (uhmap_set_spec a h k0 v0 Hwf Hmap ltac:(lia))
      as (r & e & h1 & Hset & Hwf1 & Hmap1 & Hocc1 & Hres).
    rewrite Hset in Hs. simpl in Hs.
    assert (Hstep : r ≠ UHASH_ERR ∧ has h1 k0 (Some v0) ∧
                    ∀ k ov, k ≠ k0 → has h1 k ov ↔ has h k ov).
    { destruct Hres as [(-> & _)|[(-> & _ & Hh & _ & Ho)|(-> & _ & _ & Hh & _ & Ho)]];
        [discriminate|done|done]. }
    destruct Hstep as (Hr & Hh1 & Hoth).
    destruct (Z.eqb_spec r UHASH_ERR); [done|].
    destruct (IH h1 hf Hwf1 Hmap1 ltac:(lia) Hs) as (Hwff & Hmapf & Hoccf & Hnone & Hsome).
    split; [assumption|]. split; [assumption|]. split; [rewrite length_cons; lia|].
    split.
    + intros k Hk ov. rewrite last_binding_cons in Hk.
      destruct (last_binding l k) eqn:Hl; [discriminate|].
      destruct (equal_func k0 k) eqn:Heq; [discriminate|].
      rewrite (Hnone k Hl ov). apply Hoth.
      intros ->. assert (equal_func k0 k0 = true) by (by apply equal_spec). congruence.
    + intros k v Hk. rewrite last_binding_cons in Hk.
      destruct (last_binding l k) as [v'|] eqn:Hl.
      * injection Hk as <-. by apply Hsome.
      * destruct (equal_func k0 k) eqn:Heq; [|discriminate]. injection Hk as <-.
        apply equal_spec in Heq. subst k. by apply (Hnone k0 Hl).
Qed.

Lemma set_all_total l : ∀ h,
  WF h → uhash_is_map h = true →
  p_uhash_occupied h + Z.of_nat (length l) < 2 ^ 31 →
  Forall (λ b, all_ok b.1.1 = true) l → is_Some (set_all h l).
Proof.
  induction l as [|[[a k0] v0] l IH]; intros h Hwf Hmap Hroom Hok; [by eexists|].
  simpl. rewrite length_cons in Hroom.
  apply Forall_cons in Hok as [Ha Hok]. simpl in Ha.
  destruct (uhmap_set_spec a h k0 v0 Hwf Hmap ltac:(lia))
    as (r & e & h1 & -> & Hwf1 & Hmap1 & Hocc1 & Hres). simpl.
  assert (Hr : r ≠ UHASH_ERR).
  { destruct Hres as [(_ & Hall & _)|[(-> & _)|(-> & _)]]; [congruence|done|done]. }
  destruct (Z.eqb_spec r UHASH_ERR); [done|].
  apply IH; try assumption. lia.
Qed.

(** Claim C1.  Take a map below the maximal capacity and a sequence of
    [uhmap_set] calls.  If no allocation fails, no call returns
    [UHASH_ERR].  After a sequence none of whose calls returned
    [UHASH_ERR], [uhmap_get] finds every key of the sequence with the value
    last set for it; and setting a key that the map holds with value [old]
    returns [UHASH_PRESENT], reports [old] through [existing], and makes
    the new value the one found afterwards -- unless the allocator fails
    in the resize that the call may start with, in which case the result
    is [UHASH_ERR]. *)
Theorem uhmap_set_last_write_wins h l :
  WF h → uhash_is_map h = true →
  p_uhash_occupied h + Z.of_nat (length l) < 2 ^ 31 →
  (Forall (λ b, all_ok b.1.1 = true) l → is_Some (set_all h l)) ∧
  ∀ hf, set_all h l = Some hf →
    (∀ k v, last_binding l k = Some v → ∀ d, uhmap_get hf k d = Some v) ∧
    (∀ a k old new, has hf k (Some old) →
       ∃ r e h', uhmap_set a hf k new = Some (r, e, h') ∧
         ((r = UHASH_ERR ∧ all_ok a = false) ∨
          (r = UHASH_PRESENT ∧ e = Some old ∧ ∀ d, uhmap_get h' k d = Some new))).
Proof.
  intros Hwf Hmap Hroom. split; [by apply set_all_total|]. intros hf Hs.
  destruct (set_all_spec l h hf Hwf Hmap Hroom Hs) as (Hwff & Hmapf & Hoccf & _ & Hsome).
  split.
  - intros k v Hk d. apply uhmap_get_has; [assumption|]. by apply Hsome.
  - intros a k old new Hold.
    destruct (uhmap_set_spec a hf k new Hwff Hmapf ltac:(lia))
      as (r & e & h' & Hset & Hwf' & _ & _ & Hres).
    exists r, e, h'. split; [assumption|].
    destruct Hres as [(-> & Hall & _)|[(-> & (old' & Hold' & ->) & Hnew & _)|
                      (-> & Hnm & _)]].
    + by left.
    + right. split; [reflexivity|].
      split; [by apply (has_unique hf k (Some old') (Some old))|].
      intros d. by apply uhmap_get_has.
    + exfalso. apply Hnm. apply member_has. by exists (Some old).
Qed.

(** ** Membership as the interface sees it *)

Lemma cell_not_MISSING h i key ov : WF h → cell h i key ov → i ≠ UHASH_INDEX_MISSING.
Proof.
  intros Hwf (Hi & _) ->.
  apply (MISSING_not_index (_size h)); [|assumption].
  apply WF_pow2; [assumption|lia].
Qed.

Lemma contains_member h key : WF h → uhash_contains h key = Some true ↔ member h key.
Proof.
  intros Hwf. unfold uhash_contains.
  destruct (uhash_get_spec h key Hwf) as (r & -> & [(-> & Hnm)|Hc]); simpl.
  - split; [discriminate|done].
  - pose proof (cell_not_MISSING h r key _ Hwf Hc) as Hr.
    apply Z.eqb_neq in Hr. rewrite Hr. simpl. split; [|done].
    intros _. by exists r, (load (_vals h) r).
Qed.

Lemma uhmap_get_cell h i key ov d : WF h → cell h i key ov → uhmap_get h key d = ov.
Proof.
  intros Hwf Hc. unfold uhmap_get. rewrite (uhash_get_cell h key i ov Hwf Hc). simpl.
  pose proof (cell_not_MISSING h i key ov Hwf Hc) as Hr.
  apply Z.eqb_neq in Hr. rewrite Hr. by destruct Hc as (_ & _ & _ & ?).
Qed.

(** Claim C2.  [uhash_resize] rounds the request up to a power of two
    that is at least 4 (for a request of at most [2 ^ 31], the least such
    power of two that is not below the request) and always returns.  If
    the count has reached the upper bound of the rounded capacity, it
    returns [UHASH_OK] and the table is the same.  Otherwise, when it
    returns [UHASH_OK] -- and no reallocation of the shrink branch, whose
    result the code does not test, has failed -- the table has the rounded
    capacity, every key that was present is still present, and a lookup of
    its value gives what it gave before. *)
Theorem uhash_resize_preserves a h n :
  WF h →
  let N := resize_target n in
  pow2_size N ∧
  (0 ≤ n ≤ 2 ^ 31 → n ≤ N ∧ ∀ m, pow2_size m → n ≤ m → N ≤ m) ∧
  ∃ r h', uhash_resize a h n = Some (r, h') ∧
    (p_uhash_upper_bound N ≤ _count h → r = UHASH_OK ∧ h' = h) ∧
    (_count h < p_uhash_upper_bound N → r = UHASH_OK → shrink_fails a h n = false →
     _size h' = N ∧
     ∀ key, uhash_contains h key = Some true →
            uhash_contains h' key = Some true ∧
            ∀ d, uhmap_get h' key d = uhmap_get h key d).
Proof.
  intros Hwf N. split; [apply resize_target_pow2|].
  split; [apply resize_target_least|].
  destruct (Z.lt_ge_cases (_count h) (p_uhash_upper_bound N)) as [Hlt|Hge].
  - destruct (alloc_fails a h n) eqn:Hfail.
    + destruct (uhash_resize_err a h n Hwf Hlt Hfail) as (h' & Hr & _).
      exists UHASH_ERR, h'. split; [assumption|]. split; [lia|]. discriminate.
    + destruct (uhash_resize_ok a h n Hwf Hlt Hfail)
        as (h' & Hr & Hsz & _ & _ & _ & _ & Hgood).
      exists UHASH_OK, h'. split; [assumption|]. split; [lia|].
      intros _ _ Hshrink. destruct (Hgood Hshrink) as (Hwf' & Hsame & _).
      split; [assumption|]. intros key Hin.
      apply (contains_member h key Hwf) in Hin. destruct Hin as (i & ov & Hc).
      assert (Hhas : has h' key ov) by (apply Hsame; by exists i).
      destruct Hhas as [i' Hc'].
      split; [apply contains_member; [assumption|by exists i', ov]|].
      intros d. by rewrite (uhmap_get_cell h' i' key ov d Hwf' Hc'),
                           (uhmap_get_cell h i key ov d Hwf Hc).
  - exists UHASH_OK, h. split; [by apply uhash_resize_small|]. split; [done|lia].
Qed.

Lemma cell_has_eq h h' i x key ov :
  WF h' → same_content h h' → cell h i key ov → cell h' x key (load (_vals h') x) →
  cell h' x key ov.
Proof.
  intros Hwf' Hsame Hc Hc'.
  assert (Hhas : has h' key ov) by (apply Hsame; by exists i).
  destruct Hhas as [i' Hi'].
  by rewrite (WF_cell_inj h' x i' key _ _ Hwf' Hc' Hi').
Qed.

(** Claim C4, as amended.  In a table whose occupied buckets are below the
    upper bound of its capacity, [uhash_put] of a key that is live in
    bucket [i] returns [UHASH_PRESENT] with index [i] and the table is the
    same.  When the occupied buckets have reached the bound, the call
    first resizes the table: unless the allocator fails, it still returns
    [UHASH_PRESENT], with the bucket that now holds the key, and the count
    and the entries are the same. *)
Theorem uhash_put_present a h i key ov :
  WF h → cell h i key ov →
  (p_uhash_occupied h < p_uhash_upper_bound (_size h) →
   uhash_put a h key = Some (UHASH_PRESENT, i, h)) ∧
  (p_uhash_occupied h < 2 ^ 31 →
   ∃ r x h', uhash_put a h key = Some (r, x, h') ∧
     ((r = UHASH_ERR ∧ all_ok a = false) ∨
      (r = UHASH_PRESENT ∧ WF h' ∧ cell h' x key ov ∧ _count h' = _count h ∧
       same_content h h'))).
Proof.
  intros Hwf Hc.
  assert (Hmem : member h key) by (by exists i, ov).
  assert (Hgen : p_uhash_occupied h < 2 ^ 31 →
            ∃ r x h', uhash_put a h key = Some (r, x, h') ∧
              ((r = UHASH_ERR ∧ all_ok a = false) ∨
               (r = UHASH_PRESENT ∧ WF h' ∧ cell h' x key ov ∧ _count h' = _count h ∧
                same_content h h' ∧
                (p_uhash_occupied h < p_uhash_upper_bound (_size h) → h' = h)))).
  { intros Hroom.
    destruct (uhash_put_spec a h key Hwf Hroom) as (r & x & h' & Hp & Hwf' & _ & Hres).
    exists r, x, h'. split; [assumption|].
    destruct Hres as [(-> & Hall & _)|[(-> & _ & Hc' & Hsame & Hcnt & _ & Hid)|
                      (-> & Hnm & _)]]; [by left| |done].
    right. split; [reflexivity|]. split; [assumption|].
    split; [by apply (cell_has_eq h h' i)|]. by split_conj. }
  split.
  - intros Hlt. pose proof (WF_count_bounds h Hwf) as Hcb.
    assert (Hne : _size h ≠ 0).
    { intros H0. rewrite H0, upper_bound_0 in Hlt. lia. }
    pose proof (pow2_size_bounds _ (WF_pow2 h Hwf Hne)) as Hb.
    pose proof (upper_bound_bounds _ (proj1 Hb)) as Hub.
    assert (Hstay : uhash_put_resize a h = Some (UHASH_OK, h)).
    { unfold uhash_put_resize.
      destruct (Z.geb_spec (p_uhash_occupied h) (p_uhash_upper_bound (_size h)));
        [lia|reflexivity]. }
    destruct (Hgen ltac:(lia)) as (r & x & h' & Hp & Hres).
    rewrite Hp. unfold uhash_put in Hp. rewrite Hstay in Hp. simpl in Hp.
    destruct Hres as [(-> & _)|(-> & _ & Hc' & _ & _ & Hid)].
    + exfalso. unfold uhash_put_insert in Hp.
      destruct (uhash_put_site h key); [|discriminate]. simpl in Hp.
      destruct (_flags h); [|discriminate]. simpl in Hp.
      destruct (p_uhf_isempty _ _); [|discriminate]. simpl in Hp.
      destruct (p_uhf_isdel _ _); [|discriminate]. simpl in Hp.
      destruct (negb _); simpl in Hp.
      * destruct (store _ _ _); [|discriminate]. simpl in Hp.
        destruct (p_uhf_set_isboth_false _ _); discriminate.
      * destruct (negb _); simpl in Hp; [|discriminate].
        destruct (store _ _ _); [|discriminate]. simpl in Hp.
        destruct (p_uhf_set_isboth_false _ _); discriminate.
    + rewrite (Hid Hlt) in Hc' |- *.
      by rewrite (WF_cell_inj h x i key _ _ Hwf Hc' Hc).
  - intros Hroom. destruct (Hgen Hroom) as (r & x & h' & Hp & Hres).
    exists r, x, h'. split; [assumption|].
    destruct Hres as [?|(-> & ? & ? & ? & ? & _)]; [by left|right; by split_conj].
Qed.

Lemma is_tomb_status fl i : 0 ≤ i → p_uhf_iseither fl i = Some 1 → is_tomb fl i = true.
Proof.
  intros Hi H1. unfold is_tomb.
  rewrite (proj2 (is_used_iff fl i Hi)) by (by right).
  unfold is_live. by rewrite H1.
Qed.

(** Claim C5.  Deleting the bucket of a live key turns the bucket into a
    tombstone and decrements the count but not the occupied counter; a
    lookup of the key then returns [UHASH_INDEX_MISSING], and inserting the
    key again (in a table below the maximal capacity) returns
    [UHASH_INSERTED] and makes the key found again -- or [UHASH_ERR] if the
    allocator fails in the resize the insertion may start with.  Deleting
    a bucket that is not live leaves the table as it is. *)
Theorem uhash_delete_correct h :
  WF h →
  (∀ x key ov, cell h x key ov →
     ∃ h1, uhash_delete h x = Some h1 ∧
       is_tomb (flags_of h1) x = true ∧
       _count h1 = _count h - 1 ∧ _occupied h1 = _occupied h ∧
       uhash_get h1 key = Some UHASH_INDEX_MISSING ∧
       (p_uhash_occupied h < 2 ^ 31 → ∀ a,
          ∃ r i h2, uhash_put a h1 key = Some (r, i, h2) ∧
            ((r = UHASH_INSERTED ∧ uhash_get h2 key = Some i ∧
              i ≠ UHASH_INDEX_MISSING) ∨
             (r = UHASH_ERR ∧ all_ok a = false)))) ∧
  (∀ y, 0 ≤ y < _size h → is_live (flags_of h) y = false → uhash_delete h y = Some h).
Proof.
  intros Hwf. split.
  - intros x key ov Hc. pose proof Hc as (Hx & Hlive & Hkey & _).
    destruct (uhash_delete_live h x Hwf Hx Hlive)
      as (h1 & Hd & Hwf1 & Hsz & Hcnt & Hocc & Hks & Hvs & Hx1 & Hoth).
    exists h1. split; [assumption|].
    split; [apply is_tomb_status; [lia|assumption]|].
    split; [assumption|]. split; [assumption|].
    assert (Hnm : ¬ member h1 key).
    { intros (j & ov' & (Hj & Hlj & Hkj & _)).
      assert (Hjx : j ≠ x).
      { intros ->. unfold is_live in Hlj. by rewrite Hx1 in Hlj. }
      rewrite (is_live_ext (flags_of h)) in Hlj by (apply Hoth; lia).
      rewrite Hsz in Hj. rewrite Hks in Hkj.
      apply Hjx. apply (WF_cell_inj h j x key (load (_vals h) j) ov Hwf); [|assumption].
      by split_conj. }
    split.
    + destruct (uhash_get_spec h1 key Hwf1) as (r & Hr & [(-> & _)|Hc1]); [assumption|].
      exfalso. apply Hnm. by exists r, (load (_vals h1) r).
    + intros Hroom a.
      assert (Hroom1 : p_uhash_occupied h1 < 2 ^ 31)
        by (by rewrite (occupied_ext h h1 Hsz Hocc)).
      destruct (uhash_put_spec a h1 key Hwf1 Hroom1) as (r & i & h2 & Hp & Hwf2 & _ & Hres).
      exists r, i, h2. split; [assumption|].
      destruct Hres as [(-> & Hall & _)|[(-> & Hm & _)|(-> & _ & Hc2 & _)]];
        [by right|done|left].
      split; [reflexivity|].
      split; [by eapply uhash_get_cell|by eapply cell_not_MISSING].
  - intros y Hy Hdead. assert (Hne : _size h ≠ 0) by lia.
    apply uhash_delete_dead; try assumption; [by apply WF_flags|].
    destruct (WF_status h y Hwf Hy) as (e & -> & _). eauto.
Qed.

(** Claim C6.  [uhash_get] always returns.  On a table of capacity 0 the
    result is [UHASH_INDEX_MISSING].  On allocated storage the loop leaves
    after [m] iterations, with [m] at most twice the capacity minus one:
    every bucket of the triangular probe sequence before the [m]-th made it
    continue, and the [m]-th is an empty bucket (miss), a live bucket that
    holds an equal key (hit), or the start of the sequence met again
    (miss). *)
Theorem uhash_get_terminates h key :
  (_size h = 0 → uhash_get h key = Some UHASH_INDEX_MISSING) ∧
  (allocated h →
   ∃ m r, 0 ≤ m ≤ 2 * _size h - 1 ∧ uhash_get h key = Some r ∧
     (∀ j, 0 ≤ j < m →
        probe_continue (flags_of h) (_keys h) key
          (probe_pos (_size h) (hash_index key (_size h - 1)) j) = Some true) ∧
     let i := probe_pos (_size h) (hash_index key (_size h - 1)) m in
     ((is_used (flags_of h) i = false ∧ r = UHASH_INDEX_MISSING) ∨
      (is_live (flags_of h) i = true ∧ load (_keys h) i = Some key ∧ r = i) ∨
      (0 < m ∧ i = hash_index key (_size h - 1) ∧ r = UHASH_INDEX_MISSING))).
Proof.
  split; [apply uhash_get_size0|].
  intros Ha. pose proof Ha as (Hn & _). pose proof (pow2_size_bounds _ Hn).
  rewrite uhash_get_eq by assumption.
  pose proof (hash_index_range key _ Hn) as Hs.
  destruct (get_loop_trace (flags_of h) (_keys h) key (_size h)
              (hash_index key (_size h - 1)) (Z.to_nat (2 * _size h)) 0)
    as (m & r & Hm & Hr & Hpre & _ & Hstop); try assumption; try lia.
  { intros i Hi. by apply allocated_continue. }
  rewrite probe_pos_0 in Hr by assumption.
  exists m, r. split; [lia|]. split; [assumption|]. split; [assumption|]. simpl.
  destruct Hstop as [(_ & _ & [(? & ? & ?)|(? & ?)])|(? & ? & ?)].
  - right. left. by split_conj.
  - left. by split.
  - right. right. by split_conj.
Qed.

(** Claim C10.  A call of [uhash_resize] whose target can hold the entries
    returns [UHASH_ERR] if one of the allocations that the code checks
    fails, and [UHASH_OK] otherwise; in the second case the occupied
    counter of the table equals its count, which is the count before the
    call, and no bucket is a tombstone, so that the load test of
    [uhash_put] sees the live entries only. *)
Theorem uhash_resize_purges a h n :
  WF h → _count h < p_uhash_upper_bound (resize_target n) →
  ∃ r h', uhash_resize a h n = Some (r, h') ∧
    ((r = UHASH_ERR ∧ alloc_fails a h n = true) ∨
     (r = UHASH_OK ∧ _size h' = resize_target n ∧
      _count h' = _count h ∧ _occupied h' = _count h' ∧
      p_uhash_occupied h' = _count h' ∧
      ∀ i, 0 ≤ i < _size h' → is_tomb (flags_of h') i = false)).
Proof.
  intros Hwf Hlt. destruct (alloc_fails a h n) eqn:Hfail.
  - destruct (uhash_resize_err a h n Hwf Hlt Hfail) as (h' & Hr & _).
    exists UHASH_ERR, h'. split; [assumption|]. by left.
  - destruct (uhash_resize_ok a h n Hwf Hlt Hfail)
      as (h' & Hr & Hsz & Hcnt & Hocc & Hco & Htomb & _).
    exists UHASH_OK, h'. split; [assumption|]. right.
    pose proof (counts_ok_bounds h' Hco) as Hcb.
    pose proof (pow2_size_bounds _ (resize_target_pow2 n)) as Hb.
    assert (Hp : p_uhash_occupied h' = _occupied h').
    { pose proof (co_raw h' Hco ltac:(lia)). unfold p_uhash_occupied.
      destruct (Z.gtb_spec (_occupied h') (_size h')); [lia|reflexivity]. }
    split; [reflexivity|]. split; [assumption|]. split; [assumption|].
    split; [lia|]. split; [lia|]. by rewrite Hsz.
Qed.

Lemma upper_bound_077 n :
  0 ≤ n ≤ 2 ^ 31 → 77 * n - 50 < 100 * p_uhash_upper_bound n ≤ 77 * n + 50.
Proof.
  intros Hn. unfold p_uhash_upper_bound, MAX_LOAD_NUM, MAX_LOAD_DEN.
  change (2 ^ 53) with 9007199254740992. change (2 ^ 31) with 2147483648 in Hn.
  Z.div_mod_to_equations. lia.
Qed.

(** Claim C3, as amended.  In every reachable table whose capacity is
    below [2 ^ 31], the count is at most the number of occupied buckets,
    which is at most [p_uhash_upper_bound] of the capacity: 0.77 times the
    capacity rounded to the nearest integer.  Every call of [uhash_put]
    that has a result leaves such a table: when the occupied buckets have
    reached the bound the call resizes the table before it inserts. *)
Theorem load_factor_bound h :
  reachable h →
  0 ≤ _count h ≤ p_uhash_occupied h ∧
  (_size h < 2 ^ 31 →
   p_uhash_occupied h ≤ p_uhash_upper_bound (_size h) ∧
   77 * _size h - 50 < 100 * p_uhash_upper_bound (_size h) ≤ 77 * _size h + 50) ∧
  (∀ a key r x h', uhash_put a h key = Some (r, x, h') → _size h' < 2 ^ 31 →
     _count h' ≤ p_uhash_occupied h' ≤ p_uhash_upper_bound (_size h')).
Proof.
  intros Hreach. pose proof (reachable_load_ok h Hreach) as [Hco Hb].
  pose proof (counts_ok_bounds h Hco) as Hcb.
  split; [lia|]. split.
  - intros Hlt. split; [by apply Hb|]. apply upper_bound_077. lia.
  - intros a key r x h' Hp Hlt.
    pose proof (uhash_put_counts a h key r x h' (reachable_load_ok h Hreach) Hp)
      as [Hco' Hb'].
    pose proof (counts_ok_bounds h' Hco'). specialize (Hb' Hlt). lia.
Qed.

(** Claim C8.  In every table reachable from a freshly constructed set or
    map, the map without storage included, the count is at most the number
    of occupied buckets, which is at most the capacity.  The number of
    occupied buckets is what [p_uhash_occupied] reports; once the table has
    storage it is the [_occupied] field itself. *)
Theorem counter_ordering h :
  reachable h →
  0 ≤ _count h ≤ p_uhash_occupied h ∧ p_uhash_occupied h ≤ _size h ∧
  (_size h ≠ 0 → p_uhash_occupied h = _occupied h).
Proof.
  intros Hreach. pose proof (reachable_load_ok h Hreach) as [Hco _].
  pose proof (counts_ok_bounds h Hco) as Hcb.
  split; [lia|]. split; [lia|]. intros Hne.
  pose proof (co_raw h Hco Hne). unfold p_uhash_occupied.
  destruct (Z.gtb_spec (_occupied h) (_size h)); [lia|reflexivity].
Qed.

Lemma put_all_reachable l : ∀ h h', reachable h → put_all h l = Some h' → reachable h'.
Proof.
  induction l as [|k l IH]; intros h h' Hr Hp; simpl in Hp.
  - by injection Hp as <-.
  - destruct (uhash_put alloc_all_ok h k) as [[[r x] h1]|] eqn:Hput; [|discriminate].
    simpl in Hp. destruct (r =? UHASH_ERR); [discriminate|].
    apply (IH h1); [|assumption]. by eapply reach_put.
Qed.

(** ** Every table built through the interface satisfies the invariant *)

Lemma WF_fresh : WF (uhset : UHash) ∧ WF (uhmap : UHash).
Proof.
  pose proof load_ok_fresh as [[Hs _] [Hm _]].
  split; (split; [assumption|simpl; done|simpl; done|simpl; intros; lia]).
Qed.

Lemma uhash_clear_WF h h' : WF h → uhash_clear h = Some h' → WF h'.
Proof.
  intros Hwf Hc.
  destruct (uhash_clear_spec h h' (wf_counts h Hwf) Hc)
    as (Hco & Hsz & Hks & Hvs & [->|(_ & _ & Hdead)]); [assumption|].
  split; [assumption| | |].
  - rewrite Hsz, Hks. apply (wf_keys h Hwf).
  - rewrite Hsz, Hvs. apply (wf_vals h Hwf).
  - intros i Hi Hl. rewrite Hsz in Hi. rewrite (Hdead i Hi) in Hl. discriminate.
Qed.

Lemma uhash_delete_WF h x h' :
  WF h → 0 ≤ x < _size h → uhash_delete h x = Some h' → WF h'.
Proof.
  intros Hwf Hx Hd. destruct (is_live (flags_of h) x) eqn:Hl.
  - destruct (uhash_delete_live h x Hwf Hx Hl) as (h1 & Hd1 & Hwf1 & _). congruence.
  - rewrite uhash_delete_dead in Hd; try assumption; try lia.
    + by injection Hd as <-.
    + apply WF_flags; [assumption|lia].
    + destruct (WF_status h x Hwf Hx) as (e & -> & _). eauto.
Qed.

Lemma uhash_resize_WF a h n r h' :
  WF h → shrink_fails a h n = false → uhash_resize a h n = Some (r, h') → WF h'.
Proof.
  intros Hwf Hsh Hr.
  destruct (Z.lt_ge_cases (_count h) (p_uhash_upper_bound (resize_target n))) as [Hlt|Hge].
  - destruct (alloc_fails a h n) eqn:Hfail.
    + destruct (uhash_resize_err a h n Hwf Hlt Hfail) as (h1 & Hr1 & Hwf1 & _). congruence.
    + destruct (uhash_resize_ok a h n Hwf Hlt Hfail) as (h1 & Hr1 & _ & _ & _ & _ & _ & Hgood).
      destruct (Hgood Hsh) as (Hwf1 & _). congruence.
  - rewrite uhash_resize_small in Hr by assumption. by injection Hr as _ <-.
Qed.

Lemma built_WF h : built h → WF h.
Proof.
  induction 1 as [| |a h key r idx h' _ IH Hroom Hs|h x h' _ IH Hx Hs|
                  a h n r h' _ IH Hsh Hs|h h' _ IH Hs|
                  a h key v r e h' _ IH Hmap Hroom Hs].
  - apply WF_fresh.
  - apply WF_fresh.
  - destruct (uhash_put_spec a h key IH Hroom) as (r1 & x1 & h1 & Hp & Hwf1 & _).
    congruence.
  - by eapply uhash_delete_WF.
  - by eapply uhash_resize_WF.
  - by eapply uhash_clear_WF.
  - destruct (uhmap_set_spec a h key v IH Hmap Hroom) as (r1 & e1 & h1 & Hp & Hwf1 & _).
    congruence.
Qed.

Lemma cell_intro h i key ov :
  (0 <=? i) = true → (i <? _size h) = true → is_live (flags_of h) i = true →
  load (_keys h) i = Some key → load (_vals h) i = ov → cell h i key ov.
Proof.
  intros H0%Z.leb_le Hi%Z.ltb_lt Hl Hk Hv. unfold cell. by split_conj.
Qed.

(** * Further properties of the interface *)

(** ** Lookup, insertion and failure *)

Lemma contains_total h key :
  WF h → ∃ b, uhash_contains h key = Some b ∧ (b = true ↔ member h key).
Proof.
  intros Hwf. pose proof (contains_member h key Hwf) as Hcm.
  unfold uhash_contains in *.
  destruct (uhash_get_spec h key Hwf) as (r & Hr & _). rewrite Hr in *. simpl in *.
  eexists. split; [reflexivity|]. rewrite <- Hcm. split; congruence.
Qed.

Lemma contains_ext h h' key :
  WF h → WF h' → (member h' key ↔ member h key) →
  uhash_contains h' key = uhash_contains h key.
Proof.
  intros Hwf Hwf' Hm.
  destruct (contains_total h key Hwf) as (b & -> & Hb).
  destruct (contains_total h' key Hwf') as (b' & -> & Hb').
  f_equal. destruct b, b'; try reflexivity.
  - assert (false = true) by (apply Hb', Hm, Hb; reflexivity). done.
  - assert (false = true) by (apply Hb, Hm, Hb'; reflexivity). done.
Qed.

Lemma contains_false h key : WF h → uhash_contains h key = Some false ↔ ¬ member h key.
Proof.
  intros Hwf. destruct (contains_total h key Hwf) as (b & -> & Hb). split.
  - intros [= ->] Hm. apply Hb in Hm. discriminate.
  - intros Hnm. destruct b; [|reflexivity]. exfalso. by apply Hnm, Hb.
Qed.

Lemma uhmap_get_ext h h' key d :
  WF h → WF h' → same_content h h' → uhmap_get h' key d = uhmap_get h key d.
Proof.
  intros Hwf Hwf' Hsame.
  destruct (contains_total h key Hwf) as ([] & _ & Hb).
  - destruct (proj1 Hb eq_refl) as (i & ov & Hc).
    assert (Hhas : has h' key ov) by (apply Hsame; by exists i).
    destruct Hhas as [i' Hc'].
    by rewrite (uhmap_get_cell h' i' key ov d Hwf' Hc'),
               (uhmap_get_cell h i key ov d Hwf Hc).
  - assert (Hnm : ¬ member h key) by (intros Hm; apply Hb in Hm; discriminate).
    rewrite (uhmap_get_missing h key d Hwf Hnm).
    apply uhmap_get_missing; [assumption|].
    by rewrite (same_content_member h h' key Hsame).
Qed.

(** Property X1.  In a table that satisfies the invariant, [uhash_get]
    returns the one live bucket that holds the key, or
    [UHASH_INDEX_MISSING] when no live bucket holds it; [uhash_contains]
    answers accordingly. *)
Theorem uhash_get_decides_membership h key :
  WF h →
  ∃ r, uhash_get h key = Some r ∧
    ((r = UHASH_INDEX_MISSING ∧ uhash_contains h key = Some false ∧
      ∀ i, 0 ≤ i < _size h → is_live (flags_of h) i = true →
           load (_keys h) i ≠ Some key) ∨
     (0 ≤ r < _size h ∧ is_live (flags_of h) r = true ∧
      load (_keys h) r = Some key ∧ uhash_contains h key = Some true ∧
      ∀ i, 0 ≤ i < _size h → is_live (flags_of h) i = true →
           load (_keys h) i = Some key → i = r)).
Proof.
  intros Hwf. destruct (uhash_get_spec h key Hwf) as (r & Hr & [(-> & Hnm)|Hc]).
  - exists UHASH_INDEX_MISSING. split; [assumption|]. left.
    split; [reflexivity|]. split; [by apply contains_false|].
    intros i Hi Hl Hk. apply Hnm. exists i, (load (_vals h) i). by split_conj.
  - exists r. split; [assumption|]. right.
    pose proof Hc as (Hi & Hl & Hk & _). split_conj.
    + apply contains_member; [assumption|]. by exists r, (load (_vals h) r).
    + intros i Hi' Hl' Hk'.
      apply (WF_cell_inj h i r key (load (_vals h) i) (load (_vals h) r) Hwf);
        [by split_conj|assumption].
Qed.

(** Property X2.  [uhash_put] of a key that the table does not contain
    returns [UHASH_INSERTED] with the bucket in which a lookup then
    finds the key; the count grows by one and every other key is
    contained afterwards exactly if it was before.  The one other outcome
    is [UHASH_ERR], when the allocator fails, with the count and the keys
    as they were. *)
Theorem uhash_put_absent a h key :
  WF h → p_uhash_occupied h < 2 ^ 31 → uhash_contains h key = Some false →
  ∃ r x h', uhash_put a h key = Some (r, x, h') ∧ WF h' ∧
    ((r = UHASH_ERR ∧ all_ok a = false ∧ x = UHASH_INDEX_MISSING ∧
      _count h' = _count h ∧ _size h' = _size h ∧
      ∀ k, uhash_contains h' k = uhash_contains h k) ∨
     (r = UHASH_INSERTED ∧ uhash_get h' key = Some x ∧ x ≠ UHASH_INDEX_MISSING ∧
      _count h' = _count h + 1 ∧
      ∀ k, k ≠ key → uhash_contains h' k = uhash_contains h k)).
Proof.
  intros Hwf Hroom Hc. apply (contains_false h key Hwf) in Hc.
  destruct (uhash_put_spec a h key Hwf Hroom) as (r & x & h' & Hp & Hwf' & _ & Hres).
  exists r, x, h'. split; [assumption|]. split; [assumption|].
  destruct Hres as [(-> & Hall & -> & Hsame & Hsz & Hcnt & _)|
                    [(-> & Hm & _)|(-> & _ & Hcell & Hcnt & Hoth & _)]]; [left|done|right].
  - split_conj. intros k. apply contains_ext; try assumption.
    by apply same_content_member.
  - split; [reflexivity|]. split; [by eapply uhash_get_cell|].
    split; [by eapply cell_not_MISSING|]. split; [assumption|].
    intros k Hk. apply contains_ext; try assumption.
    rewrite !member_has. split; intros [ov Hov]; exists ov; by apply (Hoth k ov Hk).
Qed.

(** Property X3.  A failure of an allocation that the code tests leaves
    the table as it was: [uhash_resize] and [uhash_put] return
    [UHASH_ERR], the table still satisfies the invariant, its capacity
    and counters are unchanged, and every lookup gives the result it gave
    before. *)
Theorem checked_alloc_failure_atomic a h :
  WF h →
  (∀ n, _count h < p_uhash_upper_bound (resize_target n) →
        alloc_fails a h n = true →
        ∃ h', uhash_resize a h n = Some (UHASH_ERR, h') ∧ WF h' ∧
          _size h' = _size h ∧ _count h' = _count h ∧ _occupied h' = _occupied h ∧
          ∀ k d, uhash_contains h' k = uhash_contains h k ∧
                 uhmap_get h' k d = uhmap_get h k d) ∧
  (p_uhash_occupied h < 2 ^ 31 →
   ∀ key r x h', uhash_put a h key = Some (r, x, h') → r = UHASH_ERR →
     x = UHASH_INDEX_MISSING ∧ WF h' ∧
     _size h' = _size h ∧ _count h' = _count h ∧ _occupied h' = _occupied h ∧
     ∀ k d, uhash_contains h' k = uhash_contains h k ∧
            uhmap_get h' k d = uhmap_get h k d).
Proof.
  intros Hwf. split.
  - intros n Hlt Hfail.
    destruct (uhash_resize_err a h n Hwf Hlt Hfail)
      as (h' & Hr & Hwf' & Hsame & Hsz & Hcnt & Hocc & _).
    exists h'. split_conj. intros k d. split.
    + apply contains_ext; try assumption. by apply same_content_member.
    + by apply uhmap_get_ext.
  - intros Hroom key r x h' Hp ->.
    destruct (uhash_put_spec a h key Hwf Hroom) as (r1 & x1 & h1 & Hp1 & Hwf1 & _ & Hres).
    rewrite Hp in Hp1. injection Hp1 as <- <- <-.
    destruct Hres as [(_ & _ & -> & Hsame & Hsz & Hcnt & Hocc & _)|
                      [(Hf & _)|(Hf & _)]]; [|discriminate Hf|discriminate Hf].
    split_conj. intros k d. split.
    + apply contains_ext; try assumption. by apply same_content_member.
    + by apply uhmap_get_ext.
Qed.

(** ** The probe sequence and the flag words *)

(** Property X5.  In a table of [n] buckets, [n] a power of two, the
    probe step [i = (i + (++step)) & mask] started at bucket [s] is at
    bucket [probe_pos n s k] after [k] steps; the first [n] buckets of
    the sequence are pairwise distinct and cover the whole table, and the
    sequence is back at [s] after [2 * n - 1] steps. *)
Theorem probe_sequence_visits_all n s :
  pow2_size n → 0 ≤ s < n →
  probe_pos n s 0 = s ∧
  (∀ k, 0 ≤ k < ULIB_UINT_MAX →
        probe_next (n - 1) (probe_pos n s k) k = (probe_pos n s (k + 1), k + 1)) ∧
  (∀ a b, 0 ≤ a < n → 0 ≤ b < n → probe_pos n s a = probe_pos n s b → a = b) ∧
  (∀ x, 0 ≤ x < n → ∃ m, 0 ≤ m < n ∧ probe_pos n s m = x) ∧
  probe_pos n s (2 * n - 1) = s.
Proof.
  intros Hn Hs. split; [by apply probe_pos_0|].
  split; [intros k Hk; by apply probe_next_pos|].
  split; [intros a b Ha Hb; by apply probe_pos_inj|].
  split; [intros x Hx; by apply probe_pos_surj|by apply probe_pos_return].
Qed.

Lemma status_bits s :
  0 ≤ s ≤ 3 →
  Z.land (Z.land s 1) 2 = 0 ∧ Z.land (Z.land s 1) 1 = Z.land s 1 ∧
  Z.land (Z.lor s 1) 1 = 1 ∧ Z.land (Z.lor s 1) 2 = Z.land s 2.
Proof.
  intros Hs.
  assert (s = 0 ∨ s = 1 ∨ s = 2 ∨ s = 3) as [-> | [-> | [-> | ->]]] by lia; done.
Qed.

(** Property X6.  The flag words hold two bits for each of sixteen
    buckets.  On a bucket [i] that the flag array covers, each of the
    three update macros changes the status of [i] only:
    [p_uhf_set_isboth_false] makes it live, [p_uhf_set_isempty_false]
    clears its empty bit and keeps its deleted bit, and
    [p_uhf_set_isdel_true] sets its deleted bit and keeps its empty bit. *)
Theorem flag_update_frame fl i :
  0 ≤ i < 16 * Z.of_nat (length fl) →
  ∃ fb fe fd,
    p_uhf_set_isboth_false fl i = Some fb ∧
    p_uhf_set_isempty_false fl i = Some fe ∧
    p_uhf_set_isdel_true fl i = Some fd ∧
    length fb = length fl ∧ length fe = length fl ∧ length fd = length fl ∧
    p_uhf_iseither fb i = Some 0 ∧
    p_uhf_isempty fe i = Some 0 ∧ p_uhf_isdel fe i = p_uhf_isdel fl i ∧
    p_uhf_isdel fd i = Some 1 ∧ p_uhf_isempty fd i = p_uhf_isempty fl i ∧
    ∀ j, 0 ≤ j → j ≠ i →
      p_uhf_iseither fb j = p_uhf_iseither fl j ∧
      p_uhf_iseither fe j = p_uhf_iseither fl j ∧
      p_uhf_iseither fd j = p_uhf_iseither fl j.
Proof.
  intros Hi.
  destruct (proj2 (iseither_is_Some fl i (proj1 Hi)) (proj2 Hi)) as [s Hs].
  pose proof (iseither_range fl i s (proj1 Hi) Hs) as Hr.
  destruct (status_bits s Hr) as (B1 & B2 & B3 & B4).
  destruct (set_is_Some fl i s Hs) as ([fb Hfb] & [fe Hfe] & [fd Hfd]).
  destruct (set_isboth_false_spec _ _ _ (proj1 Hi) Hfb) as [Lb Sb].
  destruct (set_isempty_false_spec _ _ _ (proj1 Hi) Hfe) as [Le Se].
  destruct (set_isdel_true_spec _ _ _ (proj1 Hi) Hfd) as [Ld Sd].
  exists fb, fe, fd. split_conj.
  - rewrite Sb by lia. by rewrite decide_True.
  - rewrite isempty_iseither, Se by lia. rewrite decide_True by reflexivity.
    rewrite Hs. simpl. by rewrite B1.
  - rewrite !isdel_iseither, Se by lia. rewrite decide_True by reflexivity.
    rewrite Hs. simpl. by rewrite B2.
  - rewrite isdel_iseither, Sd by lia. rewrite decide_True by reflexivity.
    rewrite Hs. simpl. by rewrite B3.
  - rewrite !isempty_iseither, Sd by lia. rewrite decide_True by reflexivity.
    rewrite Hs. simpl. by rewrite B4.
  - intros j Hj Hji. rewrite Sb, Se, Sd by lia.
    rewrite !decide_False by congruence. done.
Qed.

(** ** Emptying and scanning *)

Lemma uhash_exists_live h i :
  WF h → 0 ≤ i < _size h → uhash_exists h i = Some (is_live (flags_of h) i).
Proof.
  intros Hwf Hi. unfold uhash_exists. rewrite (WF_flags h Hwf) by lia. simpl.
  destruct (WF_status h i Hwf Hi) as (e & He & _). unfold is_live. rewrite He. simpl.
  by destruct e.
Qed.

Lemma no_live_count h :
  WF h → (_count h = 0 ↔ ∀ i, 0 ≤ i < _size h → is_live (flags_of h) i = false).
Proof.
  intros Hwf. rewrite (co_count h (wf_counts h Hwf)), countZ_zero.
  pose proof (WF_count_bounds h Hwf) as Hcb.
  split; intros Hall i Hi; apply Hall; lia.
Qed.

Lemma no_live_member h key :
  (∀ i, 0 ≤ i < _size h → is_live (flags_of h) i = false) → ¬ member h key.
Proof. intros Hd (i & ov & (Hi & Hl & _)). rewrite (Hd i Hi) in Hl. discriminate. Qed.

(** Property X7.  [uhash_clear] keeps the capacity and the kind of the
    table (set or map) and removes every key: the count is 0 and every
    lookup returns [UHASH_INDEX_MISSING]. *)
Theorem uhash_clear_empties h :
  WF h →
  ∃ h', uhash_clear h = Some h' ∧ WF h' ∧
    _size h' = _size h ∧ _count h' = 0 ∧ p_uhash_occupied h' = 0 ∧
    uhash_is_map h' = uhash_is_map h ∧
    ∀ key, uhash_get h' key = Some UHASH_INDEX_MISSING.
Proof.
  intros Hwf. pose proof (WF_count_bounds h Hwf) as Hcb.
  assert (Hex : ∃ h', uhash_clear h = Some h').
  { unfold uhash_clear. destruct (p_uhash_occupied h =? 0) eqn:Hz; [eauto|].
    apply Z.eqb_neq in Hz. assert (Hne : _size h ≠ 0) by lia.
    rewrite (WF_flags h Hwf Hne). simpl.
    rewrite (co_flags h (wf_counts h Hwf) Hne).
    destruct (decide _) as [|Hn]; [eauto|lia]. }
  destruct Hex as [h' Hc]. exists h'. split; [assumption|].
  pose proof (uhash_clear_WF h h' Hwf Hc) as Hwf'. split; [assumption|].
  destruct (uhash_clear_spec h h' (wf_counts h Hwf) Hc)
    as (_ & Hsz & Hks & Hvs & Hcases).
  assert (Hz : p_uhash_occupied h' = 0 ∧ uhash_is_map h' = uhash_is_map h).
  { destruct Hcases as [->|(Hne & Hp & _)].
    - split; [|reflexivity]. unfold uhash_clear in Hc.
      destruct (Z.eqb_spec (p_uhash_occupied h) 0) as [|Hnz]; [assumption|].
      exfalso. rewrite (WF_flags h Hwf ltac:(lia)) in Hc. simpl in Hc.
      destruct (decide _); [|discriminate]. injection Hc as Hc.
      apply (f_equal _occupied) in Hc. simpl in Hc.
      rewrite (WF_occupied h Hwf ltac:(lia)) in Hnz. lia.
    - split; [assumption|]. unfold uhash_is_map. rewrite Hvs, Hsz. f_equal.
      pose proof (co_raw h (wf_counts h Hwf) Hne).
      pose proof (co_raw h' (wf_counts h' Hwf') ltac:(lia)).
      destruct (Z.gtb_spec (_occupied h') (_size h)),
               (Z.gtb_spec (_occupied h) (_size h)); (reflexivity || lia). }
  destruct Hz as [Hp Hmap].
  pose proof (WF_count_bounds h' Hwf') as Hcb'.
  assert (Hc0 : _count h' = 0) by lia.
  split_conj. intros key.
  destruct (uhash_get_spec h' key Hwf') as (r & Hr & [(-> & _)|Hcell]); [assumption|].
  exfalso. apply (no_live_member h' key); [by apply no_live_count|].
  by exists r, (load (_vals h') r).
Qed.

Lemma uhash_next_loop_spec h : WF h → ∀ fuel i,
  0 ≤ i ≤ _size h → _size h - i ≤ Z.of_nat fuel →
  ∃ r, uhash_next_loop fuel h i = Some r ∧ i ≤ r ≤ _size h ∧
    (∀ j, i ≤ j < r → is_live (flags_of h) j = false) ∧
    (r < _size h → is_live (flags_of h) r = true).
Proof.
  intros Hwf. pose proof (WF_count_bounds h Hwf) as Hcb.
  assert (Hmax : _size h ≤ 2 ^ 31).
  { destruct (co_size h (wf_counts h Hwf)) as [->|?%pow2_size_bounds]; lia. }
  assert (Hstop : ∀ fuel, ∃ r, uhash_next_loop fuel h (_size h) = Some r ∧
            _size h ≤ r ≤ _size h ∧
            (∀ j, _size h ≤ j < r → is_live (flags_of h) j = false) ∧
            (r < _size h → is_live (flags_of h) r = true)).
  { intros fuel. exists (_size h).
    split; [destruct fuel; simpl; by rewrite Z.ltb_irrefl|].
    split; [lia|]. split; intros; lia. }
  induction fuel as [|fuel IH]; intros i Hi Hf.
  - assert (i = _size h) as -> by lia. apply Hstop.
  - destruct (decide (i = _size h)) as [->|Hne]; [apply Hstop|].
    simpl. destruct (Z.ltb_spec i (_size h)); [|lia].
    rewrite (uhash_exists_live h i Hwf) by lia. simpl.
    destruct (is_live (flags_of h) i) eqn:Hl.
    + exists i. split; [reflexivity|]. split; [lia|]. split; [intros; lia|done].
    + rewrite wrap_small by (unfold ULIB_UINT_MAX, ULIB_UINT_BITS; lia).
      destruct (IH (i + 1)) as (r & Hr & Hrange & Hdead & Hlive); [lia|lia|].
      exists r. split; [assumption|]. split; [lia|]. split; [|assumption].
      intros j Hj. destruct (decide (j = i)) as [->|]; [assumption|]. apply Hdead. lia.
Qed.

(** Property X8.  [uhash_next(h, i)] returns the first live bucket at or
    after [i], and the capacity if there is none. *)
Theorem uhash_next_least_live h i :
  WF h → 0 ≤ i ≤ _size h →
  ∃ r, uhash_next h i = Some r ∧ i ≤ r ≤ _size h ∧
    (∀ j, i ≤ j < r → uhash_exists h j = Some false) ∧
    (r < _size h → uhash_exists h r = Some true).
Proof.
  intros Hwf Hi. unfold uhash_next.
  destruct (uhash_next_loop_spec h Hwf (Z.to_nat (_size h)) i Hi ltac:(lia))
    as (r & Hr & Hrange & Hdead & Hlive).
  exists r. split; [assumption|]. split; [assumption|]. split.
  - intros j Hj. rewrite (uhash_exists_live h j Hwf) by lia. f_equal. by apply Hdead.
  - intros Hlt. rewrite (uhash_exists_live h r Hwf) by lia. f_equal. by apply Hlive.
Qed.

(** Property X9.  [uhset_get_any] returns [if_empty] on a table whose
    count is 0, and otherwise a key that the table contains. *)
Theorem uhset_get_any_member h if_empty :
  WF h →
  (_count h = 0 ∧ uhset_get_any h if_empty = Some if_empty) ∨
  (0 < _count h ∧
   ∃ k, uhset_get_any h if_empty = Some k ∧ uhash_contains h k = Some true).
Proof.
  intros Hwf. pose proof (WF_count_bounds h Hwf) as Hcb. unfold uhset_get_any, uhash_next.
  destruct (uhash_next_loop_spec h Hwf (Z.to_nat (_size h)) 0 ltac:(lia) ltac:(lia))
    as (r & -> & Hrange & Hdead & Hlive). simpl.
  destruct (Z.eqb_spec r (_size h)) as [->|Hne].
  - left. split; [|reflexivity]. apply no_live_count; [assumption|].
    intros i Hi. by apply Hdead.
  - right. specialize (Hlive ltac:(lia)).
    destruct (wf_chain h Hwf r ltac:(lia) Hlive) as (k & Hk & _).
    split.
    + rewrite (co_count h (wf_counts h Hwf)).
      pose proof (countZ_pos (is_live (flags_of h)) (Z.to_nat (_size h)) r ltac:(lia) Hlive).
      lia.
    + exists k. split; [assumption|]. apply (proj2 (contains_member h k Hwf)).
      exists r, (load (_vals h) r). unfold cell. by split_conj.
Qed.

(** ** Adding, replacing and removing single entries *)

Lemma lookup_ext h h' key :
  WF h → WF h' → (∀ ov, has h' key ov ↔ has h key ov) →
  uhash_contains h' key = uhash_contains h key ∧
  ∀ d, uhmap_get h' key d = uhmap_get h key d.
Proof.
  intros Hwf Hwf' Hsame.
  assert (Hm : member h' key ↔ member h key).
  { rewrite !member_has. split; intros [ov Hov]; exists ov; by apply Hsame. }
  split; [by apply contains_ext|]. intros d.
  destruct (contains_total h key Hwf) as ([] & _ & Hb).
  - destruct (proj1 Hb eq_refl) as (i & ov & Hc).
    assert (Hhas : has h' key ov) by (apply Hsame; by exists i).
    destruct Hhas as [i' Hc'].
    by rewrite (uhmap_get_cell h' i' key ov d Hwf' Hc'),
               (uhmap_get_cell h i key ov d Hwf Hc).
  - assert (Hnm : ¬ member h key) by (intros Hx; apply Hb in Hx; discriminate).
    rewrite (uhmap_get_missing h key d Hwf Hnm).
    apply uhmap_get_missing; [assumption|]. by rewrite Hm.
Qed.

(** Deleting the bucket of a key removes that key and no other. *)
Lemma uhash_delete_has h x key ov :
  WF h → cell h x key ov →
  ∃ h1, uhash_delete h x = Some h1 ∧ WF h1 ∧ _size h1 = _size h ∧
    _count h1 = _count h - 1 ∧ _occupied h1 = _occupied h ∧ _vals h1 = _vals h ∧
    ¬ member h1 key ∧
    ∀ k ov', k ≠ key → has h1 k ov' ↔ has h k ov'.
Proof.
  intros Hwf Hc. pose proof Hc as (Hx & Hlive & Hkey & _).
  destruct (uhash_delete_live h x Hwf Hx Hlive)
    as (h1 & Hd & Hwf1 & Hsz & Hcnt & Hocc & Hks & Hvs & Hx1 & Hoth).
  exists h1. split_conj.
  - intros (j & ov' & (Hj & Hlj & Hkj & _)).
    assert (Hjx : j ≠ x).
    { intros ->. unfold is_live in Hlj. by rewrite Hx1 in Hlj. }
    rewrite (is_live_ext (flags_of h)) in Hlj by (apply Hoth; lia).
    rewrite Hsz in Hj. rewrite Hks in Hkj.
    apply Hjx. apply (WF_cell_inj h j x key (load (_vals h) j) ov Hwf); [|assumption].
    by split_conj.
  - intros k ov' Hk. split.
    + intros (j & (Hj & Hlj & Hkj & Hvj)). exists j.
      assert (Hjx : j ≠ x).
      { intros ->. unfold is_live in Hlj. by rewrite Hx1 in Hlj. }
      rewrite (is_live_ext (flags_of h)) in Hlj by (apply Hoth; lia).
      rewrite Hsz in Hj. rewrite Hks in Hkj. rewrite Hvs in Hvj. by split_conj.
    + intros (j & (Hj & Hlj & Hkj & Hvj)). exists j.
      assert (Hjx : j ≠ x) by (intros ->; congruence).
      unfold cell. rewrite Hsz, Hks, Hvs.
      rewrite (is_live_ext (flags_of h)) by (apply Hoth; lia). by split_conj.
Qed.

Lemma is_map_ext h h' :
  _size h' = _size h → _occupied h' = _occupied h → _vals h' = _vals h →
  uhash_is_map h' = uhash_is_map h.
Proof. intros H1 H2 H3. unfold uhash_is_map. by rewrite H1, H2, H3. Qed.

(** Property X10.  [uhmap_add] stores the value only for a key that the
    map does not contain: it then returns [UHASH_INSERTED] and the key is
    found with the value.  For a key that the map contains it returns
    [UHASH_PRESENT], reports the stored value through a non-null
    [existing], and every lookup gives what it gave before.  Every other
    key keeps its value; the result is [UHASH_ERR] only if the allocator
    fails. *)
Theorem uhmap_add_keeps_existing a h key value existing :
  WF h → uhash_is_map h = true → p_uhash_occupied h < 2 ^ 31 →
  ∃ r e h', uhmap_add a h key value existing = Some (r, e, h') ∧ WF h' ∧
    (∀ k, k ≠ key → uhash_contains h' k = uhash_contains h k ∧
                    ∀ d, uhmap_get h' k d = uhmap_get h k d) ∧
    ((r = UHASH_ERR ∧ all_ok a = false ∧ e = None ∧ _count h' = _count h ∧
      ∀ d, uhmap_get h' key d = uhmap_get h key d) ∨
     (r = UHASH_PRESENT ∧ _count h' = _count h ∧
      ∃ old, (∀ d, uhmap_get h key d = Some old) ∧
             (∀ d, uhmap_get h' key d = Some old) ∧
             e = (if existing then Some old else None)) ∨
     (r = UHASH_INSERTED ∧ uhash_contains h key = Some false ∧ e = None ∧
      _count h' = _count h + 1 ∧ ∀ d, uhmap_get h' key d = Some value)).
Proof.
  intros Hwf Hmap Hroom. unfold uhmap_add.
  destruct (uhash_put_spec a h key Hwf Hroom) as (r & x & h1 & -> & Hwf1 & Hle & Hres).
  simpl.
  destruct Hres as [(-> & Hall & -> & Hsame & Hsz & Hcnt & Hocc & Hfl & Hvs)|
                    [(-> & Hmem & Hcell & Hsame & Hcnt & Hvals & _)|
                     (-> & Hnm & Hcell & Hcnt & Hoth & Hvals)]].
  - simpl. exists UHASH_ERR, None, h1. split; [reflexivity|]. split; [assumption|].
    split; [intros k _; apply lookup_ext; try assumption; intros ov; apply Hsame|].
    left. split_conj. intros d. by apply uhmap_get_ext.
  - simpl.
    destruct (store_value_spec h1 x key value Hwf1 Hcell (proj2 Hvals Hmap))
      as (old & vl & Hold & _).
    assert (Hh1 : has h1 key (Some old)) by (exists x; by rewrite <- Hold).
    assert (Hres : ∃ e, (if existing then v ← load (_vals h1) x; Some (0, Some v, h1)
                         else Some (0, None, h1)) = Some (0, e, h1) ∧
                        e = if existing then Some old else None).
    { destruct existing; [rewrite Hold|]; simpl; eauto. }
    destruct Hres as (e & He & Hev).
    exists UHASH_PRESENT, e, h1. split; [exact He|]. split; [assumption|].
    split; [intros k _; apply lookup_ext; try assumption; intros ov; apply Hsame|].
    right. left. split; [reflexivity|]. split; [assumption|]. exists old.
    split; [|split; [|assumption]].
    + intros d. apply uhmap_get_has; [assumption|]. by apply Hsame.
    + intros d. by apply uhmap_get_has.
  - simpl.
    destruct (store_value_spec h1 x key value Hwf1 Hcell (proj2 Hvals Hmap))
      as (old & vl & Hold & -> & Hwf2 & Hhas & Hoth2).
    simpl. eexists _, _, _. split; [reflexivity|]. split; [assumption|]. split.
    + intros k Hk. apply lookup_ext; try assumption.
      intros ov. rewrite (Hoth2 k ov Hk). by apply Hoth.
    + right. right. split; [reflexivity|]. split; [by apply contains_false|].
      split; [reflexivity|]. split; [assumption|].
      intros d. by apply uhmap_get_has.
Qed.

(** Property X11.  [uhmap_replace] changes nothing and returns [false]
    for a key that the map does not contain.  For a key that it contains
    it returns [true], reports the old value through a non-null
    [replaced], and the key is found with the new value; the count and
    every other key are as before. *)
Theorem uhmap_replace_present_only h key value replaced :
  WF h → uhash_is_map h = true →
  ∃ b e h', uhmap_replace h key value replaced = Some (b, e, h') ∧ WF h' ∧
    ((b = false ∧ uhash_contains h key = Some false ∧ e = None ∧ h' = h) ∨
     (b = true ∧ _count h' = _count h ∧ _size h' = _size h ∧
      (∃ old, (∀ d, uhmap_get h key d = Some old) ∧
              e = (if replaced then Some old else None)) ∧
      (∀ d, uhmap_get h' key d = Some value) ∧
      ∀ k, k ≠ key → uhash_contains h' k = uhash_contains h k ∧
                     ∀ d, uhmap_get h' k d = uhmap_get h k d)).
Proof.
  intros Hwf Hmap. unfold uhmap_replace.
  destruct (uhash_get_spec h key Hwf) as (r & -> & [(-> & Hnm)|Hc]); simpl.
  - exists false, None, h. split; [reflexivity|]. split; [assumption|]. left.
    split_conj. by apply contains_false.
  - pose proof (cell_not_MISSING h r key _ Hwf Hc) as Hr.
    apply Z.eqb_neq in Hr. rewrite Hr.
    assert (Hne : _size h ≠ 0) by (destruct Hc; lia).
    destruct (store_value_spec h r key value Hwf Hc (proj2 (WF_map_vals h Hwf Hne) Hmap))
      as (old & vl & Hold & Hst & Hwf2 & Hhas & Hoth).
    assert (Hres : ∃ e, (if replaced then v ← load (_vals h) r; Some (Some v)
                         else Some None) = Some e ∧
                        e = if replaced then Some old else None).
    { destruct replaced; [rewrite Hold|]; simpl; eauto. }
    destruct Hres as (e & -> & Hev). simpl. rewrite Hst. simpl.
    eexists _, _, _. split; [reflexivity|]. split; [assumption|]. right.
    split_conj.
    + exists old. split; [|assumption]. intros d.
      apply uhmap_get_has; [assumption|]. exists r. by rewrite <- Hold.
    + intros d. by apply uhmap_get_has.
    + intros k Hk. apply lookup_ext; try assumption. intros ov. by apply Hoth.
Qed.

(** Property X12.  [uhmap_remove] changes nothing and returns [false] for
    a key that the table does not contain.  For a key that it contains it
    returns [true] and reports the key and, in a map, the value through
    the non-null out-parameters; afterwards the key is not contained, the
    count is one less, and every other key and value is as before. *)
Theorem uhmap_remove_present_only h key r_key r_val :
  WF h → (r_val = true → uhash_is_map h = true) →
  ∃ b rk rv h', uhmap_remove h key r_key r_val = Some (b, rk, rv, h') ∧ WF h' ∧
    ((b = false ∧ uhash_contains h key = Some false ∧ rk = None ∧ rv = None ∧ h' = h) ∨
     (b = true ∧ uhash_contains h key = Some true ∧
      rk = (if r_key then Some key else None) ∧
      (if r_val then ∃ v, rv = Some v ∧ ∀ d, uhmap_get h key d = Some v
       else rv = None) ∧
      uhash_contains h' key = Some false ∧
      _count h' = _count h - 1 ∧ _size h' = _size h ∧
      ∀ k, k ≠ key → uhash_contains h' k = uhash_contains h k ∧
                     ∀ d, uhmap_get h' k d = uhmap_get h k d)).
Proof.
  intros Hwf Hmap. unfold uhmap_remove.
  destruct (uhash_get_spec h key Hwf) as (r & -> & [(-> & Hnm)|Hc]); simpl.
  - exists false, None, None, h. split; [reflexivity|]. split; [assumption|]. left.
    split_conj. by apply contains_false.
  - pose proof (cell_not_MISSING h r key _ Hwf Hc) as Hr.
    apply Z.eqb_neq in Hr. rewrite Hr.
    assert (Hne : _size h ≠ 0) by (destruct Hc; lia).
    pose proof Hc as (Hi & Hl & Hk & _).
    assert (Hrk : (if r_key then x ← load (_keys h) r; Some (Some x) else Some None)
                  = Some (if r_key then Some key else None)).
    { destruct r_key; [rewrite Hk|]; reflexivity. }
    rewrite Hrk. simpl.
    assert (Hrv : ∃ rv, (if r_val then x ← load (_vals h) r; Some (Some x) else Some None)
                        = Some rv ∧
                  (if r_val then ∃ v, rv = Some v ∧ ∀ d, uhmap_get h key d = Some v
                   else rv = None)).
    { destruct r_val; [|eauto].
      destruct (store_value_spec h r key zero_val Hwf Hc
                  (proj2 (WF_map_vals h Hwf Hne) (Hmap eq_refl)))
        as (old & _ & Hold & _).
      rewrite Hold. simpl. eexists. split; [reflexivity|]. exists old.
      split; [reflexivity|]. intros d. apply uhmap_get_has; [assumption|].
      exists r. by rewrite <- Hold. }
    destruct Hrv as (rv & -> & Hrv). simpl.
    destruct (uhash_delete_has h r key _ Hwf Hc)
      as (h1 & -> & Hwf1 & Hsz & Hcnt & _ & _ & Hnm & Hoth). simpl.
    eexists _, _, _, _. split; [reflexivity|]. split; [assumption|]. right.
    split_conj.
    + apply (proj2 (contains_member h key Hwf)). by exists r, (load (_vals h) r).
    + by apply contains_false.
    + intros k Hk'. apply lookup_ext; try assumption. intros ov. by apply Hoth.
Qed.

(** Property X13.  [uhset_remove] changes nothing and returns [false] for
    a key that the set does not contain; for a key that it contains it
    returns [true] and reports the key through a non-null [removed], and
    afterwards the key is not contained, the count is one less, and every
    other key is contained exactly if it was before. *)
Theorem uhset_remove_present_only h key removed :
  WF h →
  ∃ b e h', uhset_remove h key removed = Some (b, e, h') ∧ WF h' ∧
    ((b = false ∧ uhash_contains h key = Some false ∧ e = None ∧ h' = h) ∨
     (b = true ∧ uhash_contains h key = Some true ∧
      e = (if removed then Some key else None) ∧
      uhash_contains h' key = Some false ∧
      _count h' = _count h - 1 ∧ _size h' = _size h ∧
      ∀ k, k ≠ key → uhash_contains h' k = uhash_contains h k)).
Proof.
  intros Hwf. unfold uhset_remove.
  destruct (uhash_get_spec h key Hwf) as (r & -> & [(-> & Hnm)|Hc]); simpl.
  - exists false, None, h. split; [reflexivity|]. split; [assumption|]. left.
    split_conj. by apply contains_false.
  - pose proof (cell_not_MISSING h r key _ Hwf Hc) as Hr.
    apply Z.eqb_neq in Hr. rewrite Hr.
    pose proof Hc as (Hi & Hl & Hk & _).
    assert (Hrk : (if removed then x ← load (_keys h) r; Some (Some x) else Some None)
                  = Some (if removed then Some key else None)).
    { destruct removed; [rewrite Hk|]; reflexivity. }
    rewrite Hrk. simpl.
    destruct (uhash_delete_has h r key _ Hwf Hc)
      as (h1 & -> & Hwf1 & Hsz & Hcnt & _ & _ & Hnm & Hoth). simpl.
    eexists _, _, _. split; [reflexivity|]. split; [assumption|]. right.
    split_conj.
    + apply (proj2 (contains_member h key Hwf)). by exists r, (load (_vals h) r).
    + by apply contains_false.
    + intros k Hk'. apply lookup_ext; try assumption. intros ov. by apply Hoth.
Qed.

(** Property X14.  [uhset_replace] returns [false] for a key that the
    set does not contain and [true] for a key that it contains, reporting
    the stored key through a non-null [replaced]; as the stored key is
    the given one, the table is the same in both cases. *)
Theorem uhset_replace_present_only h key replaced :
  WF h →
  ∃ b e, uhset_replace h key replaced = Some (b, e, h) ∧
    uhash_contains h key = Some b ∧
    e = (if b && replaced then Some key else None).
Proof.
  intros Hwf. unfold uhset_replace.
  destruct (uhash_get_spec h key Hwf) as (r & -> & [(-> & Hnm)|Hc]); simpl.
  - exists false, None. split; [reflexivity|]. split; [by apply contains_false|done].
  - pose proof (cell_not_MISSING h r key _ Hwf Hc) as Hr.
    apply Z.eqb_neq in Hr. rewrite Hr.
    pose proof Hc as (Hi & Hl & Hk & _).
    assert (Hrk : (if replaced then x ← load (_keys h) r; Some (Some x) else Some None)
                  = Some (if replaced then Some key else None)).
    { destruct replaced; [rewrite Hk|]; reflexivity. }
    rewrite Hrk. simpl.
    assert (Hst : store (_keys h) r key = _keys h).
    { unfold load, store in *. destruct (_keys h) as [kl|]; [|discriminate].
      simpl in *. pose proof (lookup_lt_Some _ _ _ Hk).
      destruct (decide _); [|lia]. by rewrite list_insert_id. }
    assert (Hks : ∃ kl, _keys h = Some kl).
    { unfold load in Hk. destruct (_keys h); [eauto|discriminate]. }
    destruct Hks as [kl Hkl]. rewrite Hst, Hkl. simpl.
    exists true, (if replaced then Some key else None).
    split; [|split; [|reflexivity]].
    + rewrite <- Hkl. by destruct h.
    + apply (proj2 (contains_member h key Hwf)). by exists r, (load (_vals h) r).
Qed.

(** ** The keys of a table as a list *)

Lemma elem_of_live_keys h k : k ∈ live_keys h ↔ member h k.
Proof.
  unfold live_keys. rewrite list_elem_of_omap. split.
  - intros (i & Hi%elem_of_seqZ & Hf).
    destruct (is_live (flags_of h) i) eqn:Hl; [|discriminate].
    exists i, (load (_vals h) i). unfold cell. split_conj.
  - intros (i & ov & (Hi & Hl & Hk & _)). exists i.
    split; [apply elem_of_seqZ; lia|]. by rewrite Hl.
Qed.

Lemma NoDup_omap_inj {A B} (f : A → option B) (l : list A) :
  NoDup l →
  (∀ x y z, x ∈ l → y ∈ l → f x = Some z → f y = Some z → x = y) →
  NoDup (omap f l).
Proof.
  induction 1 as [|x l Hx Hnd IH]; intros Hinj; [constructor|].
  simpl. assert (IH' : NoDup (omap f l)).
  { apply IH. intros a b z Ha Hb. apply Hinj; by apply list_elem_of_further. }
  destruct (f x) as [z|] eqn:Hfx; [|assumption].
  constructor; [|assumption].
  intros (y & Hy & Hfy)%list_elem_of_omap. apply Hx.
  rewrite (Hinj x y z); [assumption|apply list_elem_of_here|
                         by apply list_elem_of_further|assumption|assumption].
Qed.

Lemma NoDup_live_keys h : WF h → NoDup (live_keys h).
Proof.
  intros Hwf. apply NoDup_omap_inj; [apply NoDup_seqZ|].
  intros i j k Hi%elem_of_seqZ Hj%elem_of_seqZ Hfi Hfj.
  destruct (is_live (flags_of h) i) eqn:Hli; [|discriminate].
  destruct (is_live (flags_of h) j) eqn:Hlj; [|discriminate].
  apply (WF_cell_inj h i j k (load (_vals h) i) (load (_vals h) j) Hwf);
    unfold cell; split_conj.
Qed.

Lemma to_nat_succ i : 0 ≤ i → Z.to_nat (i + 1) = S (Z.to_nat i).
Proof. lia. Qed.

Lemma length_live_keys h : WF h → Z.of_nat (length (live_keys h)) = _count h.
Proof.
  intros Hwf. rewrite (co_count h (wf_counts h Hwf)). unfold live_keys.
  pose proof (WF_count_bounds h Hwf) as Hcb.
  assert (Hgen : ∀ n : nat, Z.of_nat n ≤ _size h →
            Z.of_nat (length (omap (λ i, if is_live (flags_of h) i
                                         then load (_keys h) i else None)
                                   (seqZ 0 (Z.of_nat n))))
            = countZ (is_live (flags_of h)) n).
  { induction n as [|n IH]; intros Hn; [reflexivity|].
    rewrite seqZ_S, omap_app, length_app, Nat2Z.inj_add, IH by lia. simpl.
    rewrite Z.add_0_l.
    destruct (is_live (flags_of h) (Z.of_nat n)) eqn:Hl; [|reflexivity].
    destruct (wf_chain h Hwf (Z.of_nat n) ltac:(lia) Hl) as (k & -> & _). reflexivity. }
  rewrite <- (Hgen (Z.to_nat (_size h))) by lia. by rewrite Z2Nat.id by lia.
Qed.

(** ** Comparing and hashing sets *)

Lemma live_key h i : WF h → 0 ≤ i < _size h → is_live (flags_of h) i = true →
  ∃ k, load (_keys h) i = Some k ∧ member h k.
Proof.
  intros Hwf Hi Hl. destruct (wf_chain h Hwf i Hi Hl) as (k & Hk & _).
  exists k. split; [assumption|]. exists i, (load (_vals h) i). by split_conj.
Qed.

Lemma WF_size_max h : WF h → 0 ≤ _size h ≤ 2 ^ 31.
Proof.
  intros Hwf. destruct (co_size h (wf_counts h Hwf)) as [->|?%pow2_size_bounds]; lia.
Qed.

Lemma is_superset_loop_spec h1 h2 : WF h1 → WF h2 → ∀ n i,
  0 ≤ i → i + Z.of_nat n = _size h2 →
  ∃ b, uhset_is_superset_loop n i h1 h2 = Some b ∧
    (b = true ↔ ∀ j k, i ≤ j < _size h2 → is_live (flags_of h2) j = true →
                       load (_keys h2) j = Some k → member h1 k).
Proof.
  intros Hwf1 Hwf2. pose proof (WF_size_max h2 Hwf2) as Hmax.
  induction n as [|n IH]; intros i Hi Hn.
  - exists true. split; [reflexivity|]. split; [|done]. intros _ j k Hj. lia.
  - simpl. rewrite (uhash_exists_live h2 i Hwf2) by lia. simpl.
    rewrite wrap_small by (unfold ULIB_UINT_MAX, ULIB_UINT_BITS; lia).
    destruct (IH (i + 1) ltac:(lia) ltac:(lia)) as (b & Hb & Hiff).
    destruct (is_live (flags_of h2) i) eqn:Hl; simpl.
    + destruct (live_key h2 i Hwf2 ltac:(lia) Hl) as (k & Hk & _). rewrite Hk. simpl.
      destruct (uhash_get_spec h1 k Hwf1) as (r & -> & [(-> & Hnm)|Hc]); simpl.
      * exists false. split; [reflexivity|]. split; [discriminate|].
        intros Hall. exfalso. apply Hnm. apply (Hall i k); [lia|assumption|assumption].
      * pose proof (cell_not_MISSING h1 r k _ Hwf1 Hc) as Hr.
        apply Z.eqb_neq in Hr. rewrite Hr.
        exists b. split; [assumption|]. rewrite Hiff. split.
        -- intros Hall j k' Hj Hlj Hkj. destruct (decide (j = i)) as [->|Hne].
           ++ assert (k' = k) as -> by congruence. by exists r, (load (_vals h1) r).
           ++ apply (Hall j k'); [lia|assumption|assumption].
        -- intros Hall j k' Hj. apply Hall. lia.
    + exists b. split; [assumption|]. rewrite Hiff. split.
      * intros Hall j k' Hj Hlj Hkj. destruct (decide (j = i)) as [->|Hne]; [congruence|].
        apply (Hall j k'); [lia|assumption|assumption].
      * intros Hall j k' Hj. apply Hall. lia.
Qed.

Lemma is_superset_spec h1 h2 :
  WF h1 → WF h2 →
  ∃ b, uhset_is_superset h1 h2 = Some b ∧
       (b = true ↔ ∀ k, member h2 k → member h1 k).
Proof.
  intros Hwf1 Hwf2. pose proof (WF_size_max h2 Hwf2) as Hmax. unfold uhset_is_superset.
  destruct (is_superset_loop_spec h1 h2 Hwf1 Hwf2 (Z.to_nat (_size h2)) 0)
    as (b & Hb & Hiff); [lia|lia|].
  exists b. split; [assumption|]. rewrite Hiff. split.
  - intros Hall k (j & ov & (Hj & Hl & Hk & _)). by apply (Hall j k).
  - intros Hall j k Hj Hl Hk. apply Hall. exists j, (load (_vals h2) j). by split_conj.
Qed.

(** Property X16.  [uhset_is_superset(h1, h2)] returns [true] exactly when
    every key that [h2] contains is contained in [h1]. *)
Theorem uhset_is_superset_correct h1 h2 :
  WF h1 → WF h2 →
  ∃ b, uhset_is_superset h1 h2 = Some b ∧
       (b = true ↔
        ∀ k, uhash_contains h2 k = Some true → uhash_contains h1 k = Some true).
Proof.
  intros Hwf1 Hwf2. destruct (is_superset_spec h1 h2 Hwf1 Hwf2) as (b & Hb & Hiff).
  exists b. split; [assumption|]. rewrite Hiff.
  split; intros Hall k Hk.
  - apply (proj2 (contains_member h1 k Hwf1)), Hall.
    by apply (proj1 (contains_member h2 k Hwf2)).
  - apply (proj1 (contains_member h1 k Hwf1)), Hall.
    by apply (proj2 (contains_member h2 k Hwf2)).
Qed.

(** Two tables with as many keys, one of which contains the keys of the
    other, contain the same keys. *)
Lemma same_count_subset h1 h2 :
  WF h1 → WF h2 → _count h1 = _count h2 →
  (∀ k, member h2 k → member h1 k) → ∀ k, member h1 k ↔ member h2 k.
Proof.
  intros Hwf1 Hwf2 Hcnt Hsub k.
  assert (Hperm : live_keys h2 ≡ₚ live_keys h1).
  { apply submseteq_length_Permutation.
    - apply NoDup_submseteq; [by apply NoDup_live_keys|].
      intros x. rewrite !elem_of_live_keys. apply Hsub.
    - pose proof (length_live_keys h1 Hwf1). pose proof (length_live_keys h2 Hwf2). lia. }
  rewrite <- !elem_of_live_keys. by rewrite Hperm.
Qed.

Lemma same_members_count h1 h2 :
  WF h1 → WF h2 → (∀ k, member h1 k ↔ member h2 k) → _count h1 = _count h2.
Proof.
  intros Hwf1 Hwf2 Hsame.
  rewrite <- (length_live_keys h1 Hwf1), <- (length_live_keys h2 Hwf2). f_equal.
  apply Permutation_length, NoDup_Permutation; try by apply NoDup_live_keys.
  intros x. rewrite !elem_of_live_keys. apply Hsame.
Qed.

Lemma contains_iff_member h1 h2 :
  WF h1 → WF h2 →
  (∀ k, uhash_contains h1 k = uhash_contains h2 k) ↔ (∀ k, member h1 k ↔ member h2 k).
Proof.
  intros Hwf1 Hwf2. split; intros Hall k.
  - rewrite <- (contains_member h1 k Hwf1), <- (contains_member h2 k Hwf2).
    by rewrite Hall.
  - apply contains_ext; [assumption|assumption|apply Hall].
Qed.

Lemma equals_members h1 h2 :
  WF h1 → WF h2 →
  ∃ b, uhset_equals h1 h2 = Some b ∧ (b = true ↔ ∀ k, member h1 k ↔ member h2 k).
Proof.
  intros Hwf1 Hwf2. unfold uhset_equals.
  destruct (Z.eqb_spec (_count h1) (_count h2)) as [Hcnt|Hcnt].
  - destruct (is_superset_spec h1 h2 Hwf1 Hwf2) as (b & Hb & Hiff).
    exists b. split; [assumption|]. rewrite Hiff. split.
    + by apply same_count_subset.
    + intros Hall k. apply Hall.
  - exists false. split; [reflexivity|]. split; [discriminate|].
    intros Hall. exfalso. apply Hcnt. by apply same_members_count.
Qed.

(** Property X17.  [uhset_equals(h1, h2)] returns [true] exactly when the
    two tables contain the same keys. *)
Theorem uhset_equals_correct h1 h2 :
  WF h1 → WF h2 →
  ∃ b, uhset_equals h1 h2 = Some b ∧
       (b = true ↔ ∀ k, uhash_contains h1 k = uhash_contains h2 k).
Proof.
  intros Hwf1 Hwf2. destruct (equals_members h1 h2 Hwf1 Hwf2) as (b & Hb & Hiff).
  exists b. split; [assumption|].
  by rewrite Hiff, (contains_iff_member h1 h2 Hwf1 Hwf2).
Qed.

Lemma hash_loop_spec h : WF h → ∀ n i acc,
  0 ≤ i → i + Z.of_nat n ≤ _size h →
  uhset_hash_loop n i h acc =
  Some (fold_left (λ x k, Z.lxor x (wrap (hash_func k)))
          (omap (λ i, if is_live (flags_of h) i then load (_keys h) i else None)
                (seqZ i (Z.of_nat n))) acc).
Proof.
  intros Hwf. pose proof (WF_size_max h Hwf) as Hmax.
  induction n as [|n IH]; intros i acc Hi Hn; [reflexivity|].
  rewrite seqZ_cons by lia. simpl.
  rewrite (uhash_exists_live h i Hwf) by lia. simpl.
  rewrite wrap_small by (unfold ULIB_UINT_MAX, ULIB_UINT_BITS; lia).
  replace (Z.pred (Z.of_nat (S n))) with (Z.of_nat n) by lia.
  replace (Z.succ i) with (i + 1) by lia.
  destruct (is_live (flags_of h) i) eqn:Hl; simpl.
  - destruct (live_key h i Hwf ltac:(lia) Hl) as (k & Hk & _). rewrite Hk. simpl.
    apply IH; lia.
  - apply IH; lia.
Qed.

Lemma xor_fold_perm (f : K → Z) (l1 l2 : list K) :
  l1 ≡ₚ l2 → ∀ acc,
  fold_left (λ x k, Z.lxor x (f k)) l1 acc = fold_left (λ x k, Z.lxor x (f k)) l2 acc.
Proof.
  induction 1 as [|x l1 l2 _ IH|x y l|l1 l2 l3 _ IH1 _ IH2]; intros acc; simpl.
  - reflexivity.
  - apply IH.
  - f_equal. rewrite !Z.lxor_assoc. f_equal. apply Z.lxor_comm.
  - by rewrite IH1.
Qed.

(** Property X20.  [uhset_hash] depends on the keys of the set only, not
    on where they are stored: two tables that contain the same keys have
    the same hash, whatever their capacities and the order in which the
    keys were inserted.  In particular sets that [uhset_equals] accepts
    have equal hashes. *)
Theorem uhset_hash_of_keys h1 h2 :
  WF h1 → WF h2 →
  (∀ k, uhash_contains h1 k = uhash_contains h2 k) →
  uhset_equals h1 h2 = Some true ∧
  ∃ x, uhset_hash h1 = Some x ∧ uhset_hash h2 = Some x ∧ 0 ≤ x.
Proof.
  intros Hwf1 Hwf2 Hsame.
  pose proof (proj1 (contains_iff_member h1 h2 Hwf1 Hwf2) Hsame) as Hm.
  split.
  { destruct (equals_members h1 h2 Hwf1 Hwf2) as ([] & Hb & Hiff); [assumption|].
    apply Hiff in Hm. discriminate. }
  pose proof (WF_size_max h1 Hwf1). pose proof (WF_size_max h2 Hwf2).
  unfold uhset_hash.
  rewrite (hash_loop_spec h1 Hwf1), (hash_loop_spec h2 Hwf2) by lia.
  rewrite !Z2Nat.id by lia. fold (live_keys h1) (live_keys h2).
  eexists. split; [reflexivity|]. split.
  - f_equal. symmetry. apply xor_fold_perm.
    apply NoDup_Permutation; try by apply NoDup_live_keys.
    intros x. rewrite !elem_of_live_keys. apply Hm.
  - generalize (live_keys h1). intros l.
    assert (Hgen : ∀ acc, 0 ≤ acc →
              0 ≤ fold_left (λ x k, Z.lxor x (wrap (hash_func k))) l acc).
    { induction l as [|k l IH]; intros acc Hacc; [assumption|]. simpl. apply IH.
      apply Z.lxor_nonneg. pose proof (wrap_range (hash_func k)). lia. }
    by apply Hgen.
Qed.

(** ** Union, intersection and bulk insertion *)

Lemma key_eq_dec (k k' : K) : k = k' ∨ k ≠ k'.
Proof.
  destruct (equal_func k k') eqn:Heq; [left; by apply equal_spec|right].
  intros Hk. apply equal_spec in Hk. congruence.
Qed.

(** [uhash_put] in terms of the keys of the table. *)
Lemma put_members a h key :
  WF h → p_uhash_occupied h < 2 ^ 31 →
  ∃ r x h', uhash_put a h key = Some (r, x, h') ∧ WF h' ∧
    p_uhash_occupied h' ≤ p_uhash_occupied h + 1 ∧
    ((r = UHASH_ERR ∧ all_ok a = false ∧ ∀ k, member h' k ↔ member h k) ∨
     (r = UHASH_PRESENT ∧ member h key ∧ _count h' = _count h ∧
      ∀ k, member h' k ↔ member h k) ∨
     (r = UHASH_INSERTED ∧ ¬ member h key ∧ _count h' = _count h + 1 ∧
      ∀ k, member h' k ↔ (k = key ∨ member h k))).
Proof.
  intros Hwf Hroom.
  destruct (uhash_put_spec a h key Hwf Hroom) as (r & x & h' & Hp & Hwf' & Hle & Hres).
  exists r, x, h'. split; [assumption|]. split; [assumption|]. split; [assumption|].
  destruct Hres as [(-> & Hall & _ & Hsame & _)|
                    [(-> & Hm & _ & Hsame & Hcnt & _)|
                     (-> & Hnm & Hcell & Hcnt & Hoth & _)]].
  - left. split_conj. intros k. by apply same_content_member.
  - right. left. split_conj. intros k. by apply same_content_member.
  - right. right. split_conj. intros k. destruct (key_eq_dec k key) as [->|Hne].
    + split; [by left|]. intros _. by exists x, (load (_vals h') x).
    + rewrite !member_has. split.
      * intros [ov Hov]. right. exists ov. by apply (Hoth k ov Hne).
      * intros [Heq|[ov Hov]]; [done|]. exists ov. by apply (Hoth k ov Hne).
Qed.

Lemma countZ_succ f i :
  0 ≤ i → countZ f (Z.to_nat (i + 1)) = countZ f (Z.to_nat i) + (if f i then 1 else 0).
Proof. intros Hi. rewrite to_nat_succ by lia. simpl. by rewrite Z2Nat.id by lia. Qed.

Lemma countZ_mono f (n m : nat) : (n ≤ m)%nat → countZ f n ≤ countZ f m.
Proof.
  induction 1 as [|m _ IH]; [lia|]. simpl. destruct (f (Z.of_nat m)); lia.
Qed.

Lemma union_loop_spec a h2 : WF h2 → ∀ n i h1,
  WF h1 → 0 ≤ i → i + Z.of_nat n = _size h2 →
  p_uhash_occupied h1 +
    (_count h2 - countZ (is_live (flags_of h2)) (Z.to_nat i)) < 2 ^ 31 →
  ∃ r h', uhset_union_loop a n i h1 h2 = Some (r, h') ∧ WF h' ∧
    (∀ k, member h1 k → member h' k) ∧
    (∀ k, member h' k → member h1 k ∨ member h2 k) ∧
    ((r = UHASH_ERR ∧ ∃ j, all_ok (a j) = false) ∨
     (r = UHASH_OK ∧
      ∀ j k, i ≤ j < _size h2 → is_live (flags_of h2) j = true →
             load (_keys h2) j = Some k → member h' k)).
Proof.
  intros Hwf2. pose proof (WF_size_max h2 Hwf2) as Hmax.
  induction n as [|n IH]; intros i h1 Hwf1 Hi Hn Hroom.
  - exists UHASH_OK, h1. split; [reflexivity|]. split; [assumption|].
    split; [done|]. split; [by left|]. right. split; [reflexivity|]. intros j k Hj. lia.
  - simpl. rewrite (uhash_exists_live h2 i Hwf2) by lia. simpl.
    rewrite wrap_small by (unfold ULIB_UINT_MAX, ULIB_UINT_BITS; lia).
    pose proof (countZ_succ (is_live (flags_of h2)) i Hi) as Hcs.
    assert (Hub : countZ (is_live (flags_of h2)) (Z.to_nat (i + 1)) ≤ _count h2).
    { rewrite (co_count h2 (wf_counts h2 Hwf2)). apply countZ_mono. lia. }
    destruct (is_live (flags_of h2) i) eqn:Hl.
    + destruct (live_key h2 i Hwf2 ltac:(lia) Hl) as (k & Hk & Hmk). rewrite Hk. simpl.
      destruct (put_members (a i) h1 k Hwf1 ltac:(lia))
        as (r & x & h1' & -> & Hwf1' & Hle & Hres). simpl.
      destruct Hres as [(-> & Hall & Hsame)|Hok].
      * simpl. exists UHASH_ERR, h1'. split; [reflexivity|]. split; [assumption|].
        split; [intros k' Hk'; by apply Hsame|].
        split; [intros k' Hk'; left; by apply Hsame|]. left. eauto.
      * assert (Hr : (r =? UHASH_ERR) = false ∧
                     (∀ k', member h1 k' → member h1' k') ∧
                     (∀ k', member h1' k' → member h1 k' ∨ k' = k) ∧ member h1' k).
        { destruct Hok as [(-> & Hm & _ & Hsame)|(-> & _ & _ & Hsame)].
          - split; [reflexivity|]. split; [intros k'; apply Hsame|].
            split; [intros k' Hk'; left; by apply Hsame|by apply Hsame].
          - split; [reflexivity|]. split; [intros k' Hk'; apply Hsame; by right|].
            split; [intros k' Hk'; apply Hsame in Hk'; tauto|apply Hsame; by left]. }
        destruct Hr as (-> & Hsub & Hsup & Hin).
        destruct (IH (i + 1) h1' Hwf1' ltac:(lia) ltac:(lia) ltac:(lia))
          as (r' & h' & Hloop & Hwf' & Hsub' & Hsup' & Hres').
        exists r', h'. split; [assumption|]. split; [assumption|].
        split; [intros k' Hk'; by apply Hsub', Hsub|]. split.
        { intros k' Hk'. destruct (Hsup' k' Hk') as [Hm|Hm]; [|by right].
          destruct (Hsup k' Hm) as [? | ->]; [by left|by right]. }
        destruct Hres' as [?|(-> & Hall)]; [by left|right]. split; [reflexivity|].
        intros j k' Hj Hlj Hkj. destruct (decide (j = i)) as [->|Hne].
        -- assert (k' = k) as -> by congruence. by apply Hsub'.
        -- apply (Hall j k'); [lia|assumption|assumption].
    + destruct (IH (i + 1) h1 Hwf1 ltac:(lia) ltac:(lia) ltac:(lia))
        as (r' & h' & Hloop & Hwf' & Hsub' & Hsup' & Hres').
      exists r', h'. split; [assumption|]. split; [assumption|].
      split; [assumption|]. split; [assumption|].
      destruct Hres' as [?|(-> & Hall)]; [by left|right]. split; [reflexivity|].
      intros j k' Hj Hlj Hkj. destruct (decide (j = i)) as [->|Hne]; [congruence|].
      apply (Hall j k'); [lia|assumption|assumption].
Qed.

(** Property X18.  [uhset_union(h1, h2)], for two distinct tables, adds
    keys of [h2] to [h1]: every key that [h1] contained is still
    contained and every key that it contains afterwards was in [h1] or is
    in [h2].  When the call returns [UHASH_OK], [h1] contains every key of
    [h2]; it returns [UHASH_ERR] only if the allocator failed during one
    of the insertions. *)
Theorem uhset_union_correct a h1 h2 :
  WF h1 → WF h2 → p_uhash_occupied h1 + _count h2 < 2 ^ 31 →
  ∃ r h', uhset_union a h1 h2 = Some (r, h') ∧ WF h' ∧
    (∀ k, uhash_contains h1 k = Some true → uhash_contains h' k = Some true) ∧
    (∀ k, uhash_contains h' k = Some true →
          uhash_contains h1 k = Some true ∨ uhash_contains h2 k = Some true) ∧
    ((r = UHASH_ERR ∧ ∃ j, all_ok (a j) = false) ∨
     (r = UHASH_OK ∧
      ∀ k, uhash_contains h2 k = Some true → uhash_contains h' k = Some true)).
Proof.
  intros Hwf1 Hwf2 Hroom. pose proof (WF_size_max h2 Hwf2) as Hmax.
  unfold uhset_union.
  destruct (union_loop_spec a h2 Hwf2 (Z.to_nat (_size h2)) 0 h1 Hwf1)
    as (r & h' & Hloop & Hwf' & Hsub & Hsup & Hres); [lia|lia|simpl; lia|].
  exists r, h'. split; [assumption|]. split; [assumption|].
  pose proof (contains_member h1) as C1. pose proof (contains_member h2) as C2.
  pose proof (contains_member h') as C'.
  split; [intros k Hk; apply C', Hsub, C1; assumption|]. split.
  - intros k Hk. apply C' in Hk; [|assumption].
    destruct (Hsup k Hk); [left; by apply C1|right; by apply C2].
  - destruct Hres as [?|(-> & Hall)]; [by left|right]. split; [reflexivity|].
    intros k Hk. apply C'; [assumption|]. apply C2 in Hk; [|assumption].
    destruct Hk as (j & ov & (Hj & Hl & Hkey & _)). by apply (Hall j k).
Qed.

Lemma uhash_delete_cells h x key ov :
  WF h → cell h x key ov →
  ∃ h1, uhash_delete h x = Some h1 ∧ WF h1 ∧ _size h1 = _size h ∧
    _count h1 = _count h - 1 ∧
    ∀ j k ov', cell h1 j k ov' ↔ (j ≠ x ∧ cell h j k ov').
Proof.
  intros Hwf Hc. pose proof Hc as (Hx & Hlive & Hkey & _).
  destruct (uhash_delete_live h x Hwf Hx Hlive)
    as (h1 & Hd & Hwf1 & Hsz & Hcnt & Hocc & Hks & Hvs & Hx1 & Hoth).
  exists h1. split_conj. intros j k ov'. unfold cell. rewrite Hsz, Hks, Hvs. split.
  - intros (Hj & Hlj & Hkj & Hvj).
    assert (Hjx : j ≠ x).
    { intros ->. unfold is_live in Hlj. by rewrite Hx1 in Hlj. }
    rewrite (is_live_ext (flags_of h)) in Hlj by (apply Hoth; lia). by split_conj.
  - intros (Hjx & Hj & Hlj & Hkj & Hvj).
    rewrite (is_live_ext (flags_of h)) by (apply Hoth; lia). by split_conj.
Qed.

Lemma intersect_loop_spec h0 h2 : WF h0 → WF h2 → ∀ n i h1,
  WF h1 → _size h1 = _size h0 → 0 ≤ i → i + Z.of_nat n = _size h0 →
  (∀ j k ov, cell h1 j k ov ↔ cell h0 j k ov ∧ (j < i → member h2 k)) →
  ∃ h', uhset_intersect_loop n i h1 h2 = Some h' ∧ WF h' ∧ _size h' = _size h0 ∧
    ∀ j k ov, cell h' j k ov ↔ cell h0 j k ov ∧ member h2 k.
Proof.
  intros Hwf0 Hwf2. pose proof (WF_size_max h0 Hwf0) as Hmax.
  induction n as [|n IH]; intros i h1 Hwf1 Hsz Hi Hn Hinv.
  - exists h1. split; [reflexivity|]. split; [assumption|]. split; [assumption|].
    intros j k ov. rewrite Hinv. split.
    + intros [Hc Hm]. split; [assumption|]. apply Hm. destruct Hc. lia.
    + intros [Hc Hm]. by split.
  - simpl. rewrite (uhash_exists_live h1 i Hwf1) by lia. simpl.
    rewrite wrap_small by (unfold ULIB_UINT_MAX, ULIB_UINT_BITS; lia).
    destruct (is_live (flags_of h1) i) eqn:Hl.
    + destruct (live_key h1 i Hwf1 ltac:(lia) Hl) as (k & Hk & _). rewrite Hk. simpl.
      assert (Hc1 : cell h1 i k (load (_vals h1) i)) by (unfold cell; split_conj).
      assert (Hkey : ∀ k' ov, cell h1 i k' ov → k' = k).
      { intros k' ov (_ & _ & Hk' & _). congruence. }
      destruct (uhash_get_spec h2 k Hwf2) as (r & -> & [(-> & Hnm)|Hc2]); simpl.
      * destruct (uhash_delete_cells h1 i k _ Hwf1 Hc1)
          as (h1' & -> & Hwf1' & Hsz' & _ & Hcells). simpl.
        apply (IH (i + 1) h1'); try assumption; try lia.
        intros j k' ov. rewrite Hcells, Hinv. split.
        -- intros (Hji & Hc & Hm). split; [assumption|]. intros Hj. apply Hm. lia.
        -- intros (Hc & Hm). destruct (decide (j = i)) as [->|Hji].
           ++ exfalso. apply Hnm.
              assert (Hc' : cell h1 i k' ov) by (apply Hinv; split; [assumption|lia]).
              rewrite <- (Hkey k' ov Hc'). apply Hm. lia.
           ++ split; [assumption|]. split; [assumption|]. intros Hj. apply Hm. lia.
      * pose proof (cell_not_MISSING h2 r k _ Hwf2 Hc2) as Hr.
        apply Z.eqb_neq in Hr. rewrite Hr. simpl.
        apply (IH (i + 1) h1); try assumption; try lia.
        intros j k' ov. rewrite Hinv. split.
        -- intros (Hc & Hm). split; [assumption|]. intros Hj.
           destruct (decide (j = i)) as [->|Hji]; [|apply Hm; lia].
           assert (Hc' : cell h1 i k' ov) by (apply Hinv; split; [assumption|lia]).
           rewrite (Hkey k' ov Hc'). by exists r, (load (_vals h2) r).
        -- intros (Hc & Hm). split; [assumption|]. intros Hj. apply Hm. lia.
    + simpl. apply (IH (i + 1) h1); try assumption; try lia.
      intros j k' ov. split.
      * intros Hc. pose proof Hc as (Hj & Hlj & _).
        apply Hinv in Hc as [Hc Hm]. split; [assumption|]. intros Hji.
        apply Hm. assert (j ≠ i) by (intros ->; congruence). lia.
      * intros (Hc & Hm). apply Hinv. split; [assumption|]. intros Hj. apply Hm. lia.
Qed.

(** Property X19.  [uhset_intersect(h1, h2)] keeps the capacity of [h1]
    and leaves in it exactly the keys that both tables contained. *)
Theorem uhset_intersect_correct h1 h2 :
  WF h1 → WF h2 →
  ∃ h', uhset_intersect h1 h2 = Some h' ∧ WF h' ∧ _size h' = _size h1 ∧
    _count h' ≤ _count h1 ∧
    ∀ k, uhash_contains h' k = Some true ↔
         (uhash_contains h1 k = Some true ∧ uhash_contains h2 k = Some true).
Proof.
  intros Hwf1 Hwf2. pose proof (WF_size_max h1 Hwf1) as Hmax. unfold uhset_intersect.
  destruct (intersect_loop_spec h1 h2 Hwf1 Hwf2 (Z.to_nat (_size h1)) 0 h1 Hwf1 eq_refl)
    as (h' & Hloop & Hwf' & Hsz & Hcells); [lia|lia| |].
  { intros j k ov. split; [|tauto]. intros Hc. split; [assumption|].
    destruct Hc. lia. }
  exists h'. split; [assumption|]. split; [assumption|]. split; [assumption|].
  assert (Hm : ∀ k, member h' k ↔ member h1 k ∧ member h2 k).
  { intros k. split.
    - intros (j & ov & Hc). apply Hcells in Hc as [Hc Hm]. split; [by exists j, ov|done].
    - intros [(j & ov & Hc) Hm]. exists j, ov. apply Hcells. by split. }
  split.
  - rewrite <- (length_live_keys h' Hwf'), <- (length_live_keys h1 Hwf1).
    apply inj_le, submseteq_length, NoDup_submseteq; [by apply NoDup_live_keys|].
    intros k. rewrite !elem_of_live_keys. intros Hk. by apply Hm.
  - intros k. rewrite (contains_member h' k Hwf'), (contains_member h1 k Hwf1),
      (contains_member h2 k Hwf2). apply Hm.
Qed.

Lemma alloc_fails_all_ok a h n : alloc_fails a h n = true → all_ok a = false.
Proof.
  unfold alloc_fails, all_ok. intros Hfail.
  destruct (flags_ok a), (keys_ok a), (vals_ok a); try reflexivity;
    simpl in Hfail; rewrite ?andb_false_r in Hfail; discriminate.
Qed.

(** [uhash_resize] in terms of the keys of the table. *)
Lemma resize_members a h n :
  WF h →
  ∃ r h', uhash_resize a h n = Some (r, h') ∧
    (r = UHASH_OK ∨ (r = UHASH_ERR ∧ all_ok a = false)) ∧
    (shrink_fails a h n = false →
     WF h' ∧ same_content h h' ∧ p_uhash_occupied h' ≤ p_uhash_occupied h).
Proof.
  intros Hwf. pose proof (WF_count_bounds h Hwf) as Hcb.
  destruct (Z.lt_ge_cases (_count h) (p_uhash_upper_bound (resize_target n))) as [Hlt|Hge].
  - destruct (alloc_fails a h n) eqn:Hfail.
    + destruct (uhash_resize_err a h n Hwf Hlt Hfail)
        as (h' & Hr & Hwf' & Hsame & Hsz & _ & Hocc & _).
      exists UHASH_ERR, h'. split; [assumption|].
      split; [right; split; [reflexivity|by eapply alloc_fails_all_ok]|].
      intros _. split_conj. by rewrite (occupied_ext h h' Hsz Hocc).
    + destruct (uhash_resize_ok a h n Hwf Hlt Hfail)
        as (h' & Hr & Hsz & _ & Hocc & Hco & _ & Hgood).
      exists UHASH_OK, h'. split; [assumption|]. split; [by left|].
      intros Hsh. destruct (Hgood Hsh) as (Hwf' & Hsame & _). split_conj.
      unfold p_uhash_occupied at 1. rewrite Hocc.
      destruct (_count h >? _size h'); lia.
  - exists UHASH_OK, h. split; [by apply uhash_resize_small|]. split; [by left|].
    intros _. split_conj. apply same_content_refl.
Qed.

Lemma insert_all_loop_spec a : ∀ items h i ret,
  WF h → p_uhash_occupied h + Z.of_nat (length items) < 2 ^ 31 →
  ∃ r h', uhset_insert_all_loop a h items i ret = Some (r, h') ∧ WF h' ∧
    (∀ k, member h k → member h' k) ∧
    (∀ k, member h' k → member h k ∨ k ∈ items) ∧
    ((r = UHASH_ERR ∧ ∃ j, all_ok (a j) = false) ∨
     ((∀ k, k ∈ items → member h' k) ∧
      ((r = ret ∧ ∀ k, k ∈ items → member h k) ∨
       (r = UHASH_INSERTED ∧ ∃ k, k ∈ items ∧ ¬ member h k)))).
Proof.
  induction items as [|key items IH]; intros h i ret Hwf Hroom.
  - exists ret, h. split; [reflexivity|]. split; [assumption|]. split; [done|].
    split; [by left|]. right. split; [intros k Hk; by apply elem_of_nil in Hk|].
    left. split; [reflexivity|]. intros k Hk. by apply elem_of_nil in Hk.
  - simpl. rewrite length_cons in Hroom.
    destruct (put_members (a i) h key Hwf ltac:(lia))
      as (r & x & h1 & -> & Hwf1 & Hle & Hres). simpl.
    destruct Hres as [(-> & Hall & Hsame)|[(-> & Hm & _ & Hsame)|(-> & Hnm & _ & Hsame)]].
    + simpl. exists UHASH_ERR, h1. split; [reflexivity|]. split; [assumption|].
      split; [intros k Hk; by apply Hsame|].
      split; [intros k Hk; left; by apply Hsame|]. left. eauto.
    + simpl.
      destruct (IH h1 (S i) ret Hwf1 ltac:(lia))
        as (r' & h' & -> & Hwf' & Hsub & Hsup & Hres).
      exists r', h'. split; [reflexivity|]. split; [assumption|].
      split; [intros k Hk; by apply Hsub, Hsame|]. split.
      { intros k Hk. destruct (Hsup k Hk) as [Hk1|Hk1]; [left; by apply Hsame|].
        right. by apply list_elem_of_further. }
      destruct Hres as [?|(Hin & Hret)]; [by left|right]. split.
      { intros k [->|Hk]%elem_of_cons; [by apply Hsub, Hsame|by apply Hin]. }
      destruct Hret as [(-> & Hall)|(-> & k & Hk & Hnk)]; [left|right].
      * split; [reflexivity|].
        intros k [->|Hk]%elem_of_cons; [assumption|]. by apply Hsame, Hall.
      * split; [reflexivity|]. exists k. split; [by apply list_elem_of_further|].
        intros Hk'. by apply Hnk, Hsame.
    + simpl.
      destruct (IH h1 (S i) UHASH_INSERTED Hwf1 ltac:(lia))
        as (r' & h' & -> & Hwf' & Hsub & Hsup & Hres).
      exists r', h'. split; [reflexivity|]. split; [assumption|].
      split; [intros k Hk; apply Hsub, Hsame; by right|]. split.
      { intros k Hk. destruct (Hsup k Hk) as [Hk1|Hk1].
        - apply Hsame in Hk1 as [->|Hk1]; [right; apply list_elem_of_here|by left].
        - right. by apply list_elem_of_further. }
      destruct Hres as [?|(Hin & Hret)]; [by left|right]. split.
      { intros k [->|Hk]%elem_of_cons; [apply Hsub, Hsame; by left|by apply Hin]. }
      right. split; [by destruct Hret as [[-> _]|[-> _]]|].
      exists key. split; [apply list_elem_of_here|assumption].
Qed.

(** Property X15.  [uhset_insert_all] never removes a key and adds keys
    of the array only.  Unless it returns [UHASH_ERR], which it does only
    if the allocator failed, the set contains every element of the array
    afterwards, and the result is [UHASH_PRESENT] when the set contained
    all of them before the call and [UHASH_INSERTED] when it lacked one.
    The call starts with [uhash_resize(h, n)], which can shrink the
    table; the reallocations of that branch are assumed not to fail. *)
Theorem uhset_insert_all_correct a0 a h items :
  WF h → p_uhash_occupied h + Z.of_nat (length items) < 2 ^ 31 →
  shrink_fails a0 h (Z.of_nat (length items)) = false →
  ∃ r h', uhset_insert_all a0 a h items = Some (r, h') ∧ WF h' ∧
    (∀ k, uhash_contains h k = Some true → uhash_contains h' k = Some true) ∧
    (∀ k, uhash_contains h' k = Some true →
          uhash_contains h k = Some true ∨ k ∈ items) ∧
    ((r = UHASH_ERR ∧ (all_ok a0 = false ∨ ∃ j, all_ok (a j) = false)) ∨
     ((∀ k, k ∈ items → uhash_contains h' k = Some true) ∧
      ((r = UHASH_PRESENT ∧ ∀ k, k ∈ items → uhash_contains h k = Some true) ∨
       (r = UHASH_INSERTED ∧ ∃ k, k ∈ items ∧ uhash_contains h k = Some false)))).
Proof.
  intros Hwf Hroom Hsh. unfold uhset_insert_all.
  destruct (resize_members a0 h (Z.of_nat (length items)) Hwf)
    as (r0 & h1 & -> & Hr0 & Hgood). simpl.
  destruct (Hgood Hsh) as (Hwf1 & Hsame & Hle).
  pose proof (contains_member h) as C. pose proof (contains_member h1) as C1.
  pose proof (same_content_member h h1) as Hm. specialize (Hm).
  destruct Hr0 as [->|(-> & Hall)].
  2:{ simpl. exists UHASH_ERR, h1. split; [reflexivity|]. split; [assumption|].
      split; [intros k Hk; apply C1; [assumption|]; apply Hm; [assumption|];
              by apply C|].
      split; [intros k Hk; left; apply C; [assumption|]; apply (Hm k Hsame);
              by apply C1|].
      left. split; [reflexivity|by left]. }
  simpl.
  destruct (insert_all_loop_spec a items h1 0%nat UHASH_PRESENT Hwf1 ltac:(lia))
    as (r & h' & -> & Hwf' & Hsub & Hsup & Hres).
  pose proof (contains_member h') as C'.
  exists r, h'. split; [reflexivity|]. split; [assumption|].
  split; [intros k Hk; apply C'; [assumption|]; apply Hsub, Hm; [assumption|];
          by apply C|].
  split.
  { intros k Hk. apply C' in Hk; [|assumption].
    destruct (Hsup k Hk) as [Hk1|Hk1]; [left|by right].
    apply C; [assumption|]. by apply (Hm k Hsame). }
  destruct Hres as [(-> & Hj)|(Hin & Hret)]; [left; split; [reflexivity|by right]|right].
  split; [intros k Hk; apply C'; [assumption|]; by apply Hin|].
  destruct Hret as [(-> & Hall)|(-> & k & Hk & Hnk)]; [left|right].
  - split; [reflexivity|]. intros k Hk. apply C; [assumption|].
    by apply (Hm k Hsame), Hall.
  - split; [reflexivity|]. exists k. split; [assumption|].
    apply contains_false; [assumption|]. intros Hk'. apply Hnk. by apply (Hm k Hsame).
Qed.

(** ** Copies *)

Lemma copy_cells_spec {A} (p : option (list A)) n (l0 : list A) :
  p = Some l0 → 0 ≤ n ≤ Z.of_nat (length l0) →
  ∃ l, copy_cells p n = Some l ∧ Z.of_nat (length l) = n ∧
       (Z.of_nat (length l0) = n → l = l0) ∧
       ∀ i, 0 ≤ i < n → load (Some l) i = load p i.
Proof.
  intros -> Hn. unfold copy_cells. simpl.
  destruct (decide _) as [Hle|]; [|lia].
  exists (take (Z.to_nat n) l0). split; [reflexivity|].
  split; [rewrite length_take; lia|]. split.
  - intros Hlen. apply take_ge. lia.
  - intros i Hi. unfold load. simpl. apply lookup_take_lt. lia.
Qed.

(** A table with the flags and the keys of [h]: whatever its values are,
    it satisfies the invariant and contains the keys of [h]. *)
Lemma WF_copy_keys h ks1 vs1 :
  WF h →
  (_size h ≠ 0 → ∃ kl, ks1 = Some kl ∧ _size h ≤ Z.of_nat (length kl)) →
  (∀ vl, vs1 = Some vl → _size h ≤ Z.of_nat (length vl)) →
  (∀ i, 0 ≤ i < _size h → load ks1 i = load (_keys h) i) →
  WF (mkUHash (_size h) (_occupied h) (_count h) (_flags h) ks1 vs1) ∧
  ∀ k, member (mkUHash (_size h) (_occupied h) (_count h) (_flags h) ks1 vs1) k
       ↔ member h k.
Proof.
  intros Hwf Hks Hvs Hload. split.
  - destruct Hwf as [[Hsz Hflen Hcnt Hocc Hraw] Hks0 Hvs0 Hch].
    split; [split| | |]; try assumption.
    intros i Hi Hlive. simpl in Hi. change (is_live (flags_of h) i = true) in Hlive.
    destruct (Hch i Hi Hlive) as (k & Hk & Hchain). exists k. simpl.
    split; [rewrite (Hload i Hi); assumption|].
    assert (Hn : pow2_size (_size h)) by (destruct Hsz; [lia|assumption]).
    apply (chain_ext h _ k i); try done.
    intros j Hj. simpl. split; [reflexivity|]. by apply Hload.
  - intros k. split.
    + intros (i & ov & (Hi & Hlive & Hk & _)). simpl in *.
      exists i, (load (_vals h) i). unfold cell. rewrite <- (Hload i Hi). by split_conj.
    + intros (i & ov & (Hi & Hlive & Hk & _)). exists i, (load vs1 i).
      unfold cell. simpl. rewrite (Hload i Hi). by split_conj.
Qed.

Lemma size0_no_member h key : _size h = 0 → ¬ member h key.
Proof. intros H0 (i & ov & (Hi & _)). lia. Qed.

(** The flags and the keys copied from a table that has storage. *)
Lemma copy_flags_keys src :
  WF src → _size src ≠ 0 →
  ∃ (kold kl : list K), _keys src = Some kold ∧
    copy_cells (_flags src) (p_uhf_size (_size src)) = Some (flags_of src) ∧
    copy_cells (_keys src) (_size src) = Some kl ∧
    _flags src = Some (flags_of src) ∧
    Z.of_nat (length kl) = _size src ∧
    ∀ i, 0 ≤ i < _size src → load (Some kl) i = load (_keys src) i.
Proof.
  intros Hwf Hne. pose proof (WF_size_max src Hwf) as Hmax.
  pose proof (WF_flags src Hwf Hne) as Hfl.
  pose proof (co_flags src (wf_counts src Hwf) Hne) as Hflen.
  pose proof (uhf_size_cover _ (WF_pow2 src Hwf Hne)) as Hcov.
  destruct (wf_keys src Hwf Hne) as (kold & Hks & Hklen).
  destruct (copy_cells_spec (_flags src) (p_uhf_size (_size src)) (flags_of src) Hfl)
    as (fl & Hcf & _ & Hfull & _); [lia|].
  rewrite (Hfull ltac:(lia)) in Hcf.
  destruct (copy_cells_spec (_keys src) (_size src) kold Hks ltac:(lia))
    as (kl & Hck & Hkl & _ & Hload).
  exists kold, kl. by split_conj.
Qed.

(** Property X21.  [uhash_copy_as_set] into a table without value array
    makes it, when no allocation fails, a set with the capacity, the count
    and the keys of the source, which may be a map: [uhset_equals]
    accepts the pair. *)
Theorem uhash_copy_as_set_correct a src dest :
  WF src → _vals dest = None → flags_ok a = true → keys_ok a = true →
  ∃ d, uhash_copy_as_set a src dest = Some (UHASH_OK, d) ∧ WF d ∧
    uhash_is_map d = false ∧ _size d = _size src ∧ _count d = _count src ∧
    (∀ k, uhash_contains d k = uhash_contains src k) ∧
    uhset_equals d src = Some true.
Proof.
  intros Hwf Hdv Hfa Hka. unfold uhash_copy_as_set.
  pose proof (WF_count_bounds src Hwf) as Hcb.
  assert (Hfin : ∀ d, WF d → (∀ k, member d k ↔ member src k) →
            (∀ k, uhash_contains d k = uhash_contains src k) ∧
            uhset_equals d src = Some true).
  { intros d Hwfd Hm. split; [intros k; by apply contains_ext|].
    destruct (equals_members d src Hwfd Hwf) as ([] & Hb & Hiff); [assumption|].
    apply Hiff in Hm. discriminate. }
  destruct (Z.eqb_spec (_size src) 0) as [H0|Hne].
  - exists uhset. split; [reflexivity|]. split; [apply WF_fresh|].
    split; [reflexivity|]. split; [done|]. split; [simpl; lia|].
    apply Hfin; [apply WF_fresh|]. intros k. split; intros Hk; exfalso.
    + by apply (size0_no_member uhset k).
    + by apply (size0_no_member src k).
  - rewrite Hfa, Hka. simpl.
    destruct (copy_flags_keys src Hwf Hne) as (kold & kl & Hks & -> & -> & Hfl & Hlen & Hload).
    simpl. rewrite Hdv, <- Hfl.
    destruct (WF_copy_keys src (Some kl) None Hwf) as [Hwfd Hm];
      [intros _; exists kl; split; [reflexivity|lia]|done|assumption|].
    eexists. split; [reflexivity|]. split; [assumption|]. split.
    { unfold uhash_is_map. simpl. pose proof (co_raw src (wf_counts src Hwf) Hne).
      destruct (Z.gtb_spec (_occupied src) (_size src)); [lia|reflexivity]. }
    split; [reflexivity|]. split; [reflexivity|]. by apply Hfin.
Qed.

(** Property X22.  [uhash_copy], when no allocation fails, makes [dest] a
    table of the kind of the source (set or map) with the same capacity
    and count, in which every lookup of a key or of a value gives what it
    gives in the source.  The destination must not hold a value array when
    the source is a set: the call would leave that array in place. *)
Theorem uhash_copy_correct a src dest :
  WF src → (uhash_is_map src = true ∨ _vals dest = None) → all_ok a = true →
  ∃ d, uhash_copy a src dest = Some (UHASH_OK, d) ∧ WF d ∧
    uhash_is_map d = uhash_is_map src ∧ _size d = _size src ∧ _count d = _count src ∧
    ∀ k v0, uhash_contains d k = uhash_contains src k ∧
            uhmap_get d k v0 = uhmap_get src k v0.
Proof.
  intros Hwf Hkind Hall. unfold all_ok in Hall.
  apply andb_true_iff in Hall as [Hall Hva]. apply andb_true_iff in Hall as [Hfa Hka].
  unfold uhash_copy, uhash_copy_as_set.
  pose proof (WF_count_bounds src Hwf) as Hcb.
  destruct (Z.eqb_spec (_size src) 0) as [H0|Hne].
  - simpl.
    assert (Hfin : ∀ d : UHash, WF d → _size d = 0 → _count d = 0 →
              _size d = _size src ∧ _count d = _count src ∧
              ∀ k v0, uhash_contains d k = uhash_contains src k ∧
                      uhmap_get d k v0 = uhmap_get src k v0).
    { intros d Hwfd Hd0 Hc0. split; [lia|]. split; [lia|]. intros k v0.
      destruct (lookup_ext src d k Hwf Hwfd) as [Hc Hg]; [|by split].
      intros ov. split; intros [i (Hi & _)]; lia. }
    destruct (uhash_is_map src) eqn:Hmap.
    + exists uhmap. split; [reflexivity|]. split; [apply WF_fresh|].
      split; [reflexivity|]. by apply Hfin; [apply WF_fresh| |].
    + exists uhset. split; [reflexivity|]. split; [apply WF_fresh|].
      split; [reflexivity|]. by apply Hfin; [apply WF_fresh| |].
  - rewrite Hfa, Hka. simpl.
    destruct (copy_flags_keys src Hwf Hne) as (kold & kl & Hks & -> & -> & Hfl & Hlen & Hload).
    simpl. rewrite <- Hfl.
    pose proof (WF_map_vals src Hwf Hne) as Hmv.
    assert (Hfin : ∀ vs1,
              (∀ vl, vs1 = Some vl → _size src ≤ Z.of_nat (length vl)) →
              (∀ i, 0 ≤ i < _size src → load vs1 i = load (_vals src) i) →
              (is_Some vs1 ↔ is_Some (_vals src)) →
              let d := mkUHash (_size src) (_occupied src) (_count src) (_flags src)
                         (Some kl) vs1 in
              WF d ∧ uhash_is_map d = uhash_is_map src ∧ _size d = _size src ∧
              _count d = _count src ∧
              ∀ k v0, uhash_contains d k = uhash_contains src k ∧
                      uhmap_get d k v0 = uhmap_get src k v0).
    { intros vs1 Hvlen Hvload Hvsome d.
      destruct (WF_realloc src (Some kl) vs1 Hwf) as [Hwfd Hsame];
        [intros _; exists kl; split; [reflexivity|lia]|assumption| |].
      { intros i Hi. split; [by apply Hload|by apply Hvload]. }
      split; [assumption|]. split.
      { rewrite (WF_is_map src Hwf Hne), (WF_is_map d Hwfd Hne). simpl.
        apply bool_decide_ext. exact Hvsome. }
      split; [reflexivity|]. split; [reflexivity|]. intros k v0.
      destruct (lookup_ext src d k Hwf Hwfd) as [Hc Hg]; [|by split].
      intros ov. apply Hsame. }
    destruct (uhash_is_map src) eqn:Hmap; simpl.
    + rewrite Hva. destruct (proj2 Hmv eq_refl) as [vs Hvs].
      pose proof (wf_vals src Hwf vs Hvs) as Hvlen.
      pose proof (WF_size_max src Hwf) as Hmax.
      destruct (copy_cells_spec (_vals src) (_size src) vs Hvs ltac:(lia))
        as (vl & -> & Hvl & _ & Hvload).
      simpl. eexists. split; [reflexivity|].
      apply (Hfin (Some vl)).
      * intros ? [= <-]. lia.
      * assumption.
      * rewrite Hvs. split; eauto.
    + destruct Hkind as [?|Hdv]; [discriminate|]. rewrite Hdv.
      assert (Hsv : _vals src = None).
      { destruct (_vals src) eqn:Hv; [|reflexivity].
        assert (false = true) by (apply Hmv; eauto). discriminate. }
      eexists. split; [reflexivity|]. apply (Hfin None).
      * intros ? [=].
      * intros i Hi. by rewrite Hsv.
      * rewrite Hsv. split; intros [? [=]].
Qed.

(** ** Iteration *)

Lemma filter_live_skip fl n : ∀ (d : nat) i r,
  r = i + Z.of_nat d → r ≤ n →
  (∀ j, i ≤ j < r → is_live fl j = false) →
  filter (λ i, is_live fl i = true) (seqZ i (n - i)) =
  filter (λ i, is_live fl i = true) (seqZ r (n - r)).
Proof.
  induction d as [|d IH]; intros i r Hr Hn Hdead.
  - by replace r with i by lia.
  - rewrite seqZ_cons by lia. rewrite filter_cons_False.
    + replace (Z.pred (n - i)) with (n - Z.succ i) by lia.
      apply IH; [lia|assumption|]. intros j Hj. apply Hdead. lia.
    + rewrite Hdead by lia. discriminate.
Qed.

Lemma foreach_loop_spec h : WF h → ∀ fuel i,
  0 ≤ i ≤ _size h → (i < _size h → is_live (flags_of h) i = true) →
  _size h - i ≤ Z.of_nat fuel →
  uhash_foreach_loop fuel h i =
  Some (filter (λ i, is_live (flags_of h) i = true) (seqZ i (_size h - i))).
Proof.
  intros Hwf. pose proof (WF_size_max h Hwf) as Hmax.
  assert (Hend : ∀ fuel, uhash_foreach_loop fuel h (_size h) =
            Some (filter (λ i, is_live (flags_of h) i = true)
                    (seqZ (_size h) (_size h - _size h)))).
  { intros fuel. rewrite Z.sub_diag. destruct fuel; simpl; by rewrite Z.eqb_refl. }
  induction fuel as [|fuel IH]; intros i Hi Hlive Hf.
  - assert (i = _size h) as -> by lia. apply Hend.
  - destruct (decide (i = _size h)) as [->|Hne]; [apply Hend|].
    assert (Hsz : _size h ≠ 0) by lia.
    simpl. destruct (Z.eqb_spec i (_size h)) as [|_]; [done|].
    destruct (wf_keys h Hwf Hsz) as (kl & Hkl & _). rewrite Hkl. simpl.
    assert (Hv : (if uhash_is_map h then ptr_at (_vals h) i else Some true) = Some true).
    { destruct (uhash_is_map h) eqn:Hmap; [|reflexivity].
      destruct (proj2 (WF_map_vals h Hwf Hsz) Hmap) as [vl ->]. reflexivity. }
    rewrite Hv. simpl.
    rewrite wrap_small by (unfold ULIB_UINT_MAX, ULIB_UINT_BITS; lia).
    unfold uhash_next.
    destruct (uhash_next_loop_spec h Hwf (Z.to_nat (_size h)) (i + 1) ltac:(lia)
                ltac:(lia)) as (r & -> & Hr & Hdead & Hlr). simpl.
    rewrite (IH r) by (assumption || lia). simpl.
    rewrite (seqZ_cons i) by lia. rewrite filter_cons_True by (apply Hlive; lia).
    do 2 f_equal. replace (Z.pred (_size h - i)) with (_size h - Z.succ i) by lia.
    symmetry. apply (filter_live_skip _ _ (Z.to_nat (r - Z.succ i))); [lia|lia|].
    intros j Hj. apply Hdead. lia.
Qed.

Lemma length_live_buckets h : WF h → Z.of_nat (length (live_buckets h)) = _count h.
Proof.
  intros Hwf. rewrite (co_count h (wf_counts h Hwf)). unfold live_buckets.
  pose proof (WF_size_max h Hwf) as Hmax.
  rewrite <- (Z2Nat.id (_size h)) at 1 by lia.
  generalize (Z.to_nat (_size h)). intros n.
  induction n as [|n IH]; [reflexivity|].
  rewrite seqZ_S, filter_app, length_app, Nat2Z.inj_add, IH. simpl. f_equal.
  rewrite Z.add_0_l. destruct (is_live (flags_of h) (Z.of_nat n)) eqn:Hl.
  - rewrite filter_cons_True by assumption. reflexivity.
  - rewrite filter_cons_False by (rewrite Hl; discriminate). reflexivity.
Qed.

(** Property X24.  The body of [uhash_foreach] runs at the live buckets,
    in increasing order and once each: as many times as the count of the
    table, and the keys it meets are the keys that the table contains. *)
Theorem uhash_foreach_visits_live h :
  WF h →
  uhash_foreach h = Some (live_buckets h) ∧
  NoDup (live_buckets h) ∧
  Z.of_nat (length (live_buckets h)) = _count h ∧
  (∀ i, i ∈ live_buckets h ↔ 0 ≤ i < _size h ∧ uhash_exists h i = Some true) ∧
  ∀ k, uhash_contains h k = Some true ↔
       ∃ i, i ∈ live_buckets h ∧ load (_keys h) i = Some k.
Proof.
  intros Hwf. pose proof (WF_size_max h Hwf) as Hmax.
  assert (Hin : ∀ i, i ∈ live_buckets h ↔
                     0 ≤ i < _size h ∧ is_live (flags_of h) i = true).
  { intros i. unfold live_buckets. rewrite list_elem_of_filter, elem_of_seqZ.
    split; intros [? ?]; split; (assumption || lia). }
  split; [|split; [|split; [|split]]].
  - unfold uhash_foreach, uhash_next.
    destruct (uhash_next_loop_spec h Hwf (Z.to_nat (_size h)) 0 ltac:(lia) ltac:(lia))
      as (r & -> & Hr & Hdead & Hlr). simpl.
    rewrite (foreach_loop_spec h Hwf) by (assumption || lia). f_equal.
    unfold live_buckets. symmetry.
    rewrite <- (Z.sub_0_r (_size h)) at 1.
    apply (filter_live_skip _ _ (Z.to_nat r)); [lia|lia|assumption].
  - apply NoDup_filter, NoDup_seqZ.
  - by apply length_live_buckets.
  - intros i. rewrite Hin. split.
    + intros [Hi Hl]. split; [assumption|]. by rewrite (uhash_exists_live h i Hwf Hi), Hl.
    + intros [Hi He]. split; [assumption|].
      rewrite (uhash_exists_live h i Hwf Hi) in He. congruence.
  - intros k. rewrite (contains_member h k Hwf). split.
    + intros (i & ov & (Hi & Hl & Hk & _)). exists i. split; [by apply Hin|assumption].
    + intros (i & [Hi Hl]%Hin & Hk). exists i, (load (_vals h) i). by split_conj.
Qed.


(** ** Tables built through the interface *)

(** Property X4.  Every table obtained from [uhset()] or [uhmap()] by
    insertions, deletions of buckets within the capacity, resizes whose
    unchecked reallocation does not fail, clears and [uhmap_set] on maps
    satisfies the table invariant.  On such a table every lookup has a
    result, the live keys are pairwise distinct, their number is [_count],
    and they are exactly the keys that [uhash_contains] reports. *)
Theorem built_invariant h :
  built h →
  WF h ∧
  (∀ key, ∃ b, uhash_contains h key = Some b) ∧
  NoDup (live_keys h) ∧
  Z.of_nat (length (live_keys h)) = _count h ∧
  (∀ key, key ∈ live_keys h ↔ uhash_contains h key = Some true) ∧
  0 ≤ _count h ≤ p_uhash_occupied h ∧ p_uhash_occupied h ≤ _size h.
Proof.
  intros Hwf%built_WF. split; [assumption|]. split_conj.
  - intros key. destruct (contains_total h key Hwf) as (b & Hb & _). eauto.
  - by apply NoDup_live_keys.
  - by apply length_live_keys.
  - intros key. rewrite elem_of_live_keys. symmetry. by apply contains_member.
  - apply (WF_count_bounds h Hwf).
  - apply (WF_count_bounds h Hwf).
  - apply (WF_count_bounds h Hwf).
Qed.

Lemma is_map_kept h h' :
  WF h' → _size h' ≠ 0 → (is_Some (_vals h') ↔ uhash_is_map h = true) →
  uhash_is_map h' = uhash_is_map h.
Proof.
  intros Hwf Hne Hv. pose proof (co_raw h' (wf_counts h' Hwf) Hne) as Hraw.
  unfold uhash_is_map at 1.
  destruct (Z.gtb_spec (_occupied h') (_size h')) as [|_]; [lia|].
  rewrite orb_false_r. destruct (uhash_is_map h).
  - apply bool_decide_eq_true. by apply Hv.
  - apply bool_decide_eq_false. intros Hs. apply Hv in Hs. discriminate.
Qed.

(** Property X25.  The kind of a table never changes: a table for which
    [uhash_is_map] holds keeps it, and one for which it does not hold
    never gains it, through [uhash_put], [uhash_resize] (whatever the
    allocator does in the calls that are checked), [uhash_delete] and
    [uhash_clear]; this covers the first allocation of a map created by
    [uhmap()], where the kind passes from the marker in [_occupied] to the
    value array. *)
Theorem uhash_is_map_stable a h :
  WF h →
  (∀ key r x h', p_uhash_occupied h < 2 ^ 31 →
     uhash_put a h key = Some (r, x, h') → uhash_is_map h' = uhash_is_map h) ∧
  (∀ n r h', shrink_fails a h n = false →
     uhash_resize a h n = Some (r, h') → uhash_is_map h' = uhash_is_map h) ∧
  (∀ x h', 0 ≤ x < _size h →
     uhash_delete h x = Some h' → uhash_is_map h' = uhash_is_map h) ∧
  (∀ h', uhash_clear h = Some h' → uhash_is_map h' = uhash_is_map h).
Proof.
  intros Hwf. split_conj.
  - intros key r x h' Hroom Hp.
    destruct (uhash_put_spec a h key Hwf Hroom)
      as (r1 & x1 & h1 & Hp1 & Hwf1 & _ & Hres).
    rewrite Hp in Hp1. injection Hp1 as -> -> ->.
    destruct Hres as [(_ & _ & _ & _ & Hsz & _ & Hocc & _ & Hvs)|
                      [(_ & _ & Hc & _ & _ & Hv & _)|(_ & _ & Hc & _ & _ & Hv)]].
    + by apply is_map_ext.
    + apply is_map_kept; [assumption| |assumption]. destruct Hc as (? & _). lia.
    + apply is_map_kept; [assumption| |assumption]. destruct Hc as (? & _). lia.
  - intros n r h' Hsh Hr.
    destruct (Z.lt_ge_cases (_count h) (p_uhash_upper_bound (resize_target n))) as [Hlt|Hge].
    + destruct (alloc_fails a h n) eqn:Hfail.
      * destruct (uhash_resize_err a h n Hwf Hlt Hfail)
          as (h1 & Hr1 & _ & _ & Hsz & _ & Hocc & _ & Hvs).
        rewrite Hr in Hr1. injection Hr1 as _ ->. by apply is_map_ext.
      * destruct (uhash_resize_ok a h n Hwf Hlt Hfail)
          as (h1 & Hr1 & Hsz & _ & _ & _ & _ & Hgood).
        rewrite Hr in Hr1. injection Hr1 as _ ->.
        destruct (Hgood Hsh) as (Hwf1 & _ & Hv).
        apply is_map_kept; [assumption| |assumption].
        rewrite Hsz. unfold resize_target.
        destruct (Z.ltb_spec (ulib_uint_next_power_2 n) 4); lia.
    + rewrite uhash_resize_small in Hr by assumption. by injection Hr as _ <-.
  - intros x h' Hx Hd. destruct (is_live (flags_of h) x) eqn:Hl.
    + destruct (uhash_delete_live h x Hwf Hx Hl)
        as (h1 & Hd1 & _ & Hsz & _ & Hocc & _ & Hvs & _).
      rewrite Hd in Hd1. injection Hd1 as ->. by apply is_map_ext.
    + unfold uhash_delete in Hd.
      destruct (_flags h) as [fl|]; [|discriminate]. simpl in Hd.
      destruct (p_uhf_iseither fl x) as [e|]; [|discriminate]. simpl in Hd.
      destruct (e =? 0).
      * destruct (p_uhf_set_isdel_true fl x); [|discriminate]. simpl in Hd.
        by injection Hd as <-.
      * by injection Hd as <-.
  - intros h' Hc.
    destruct (uhash_clear_spec h h' (wf_counts h Hwf) Hc)
      as (Hco & Hsz & _ & Hvs & [->|(Hne & Hocc & _)]); [reflexivity|].
    pose proof (co_raw h (wf_counts h Hwf) Hne) as Hraw.
    assert (Hne' : _size h' ≠ 0) by lia.
    pose proof (co_raw h' Hco Hne') as Hraw'.
    unfold uhash_is_map. rewrite Hvs.
    destruct (Z.gtb_spec (_occupied h') (_size h')); [lia|].
    destruct (Z.gtb_spec (_occupied h) (_size h)); [lia|]. reflexivity.
Qed.


(** ** Insertion followed by deletion *)

(** Property X26.  Inserting a key that the table does not contain and
    then deleting the bucket that [uhash_put] returned gives back a table
    with the same number of elements in which every lookup, of a key or of
    a value, answers as before the insertion.  The capacity may have
    grown and the bucket stays occupied by a tombstone. *)
Theorem put_delete_round_trip a h key :
  WF h → p_uhash_occupied h < 2 ^ 31 →
  uhash_contains h key = Some false → all_ok a = true →
  ∃ x h1 h2, uhash_put a h key = Some (UHASH_INSERTED, x, h1) ∧
    uhash_delete h1 x = Some h2 ∧ WF h2 ∧ _count h2 = _count h ∧
    p_uhash_occupied h2 ≤ p_uhash_occupied h + 1 ∧
    ∀ k, uhash_contains h2 k = uhash_contains h k ∧
         ∀ d, uhmap_get h2 k d = uhmap_get h k d.
Proof.
  intros Hwf Hroom Habs Hok.
  apply (contains_false h key Hwf) in Habs.
  destruct (uhash_put_spec a h key Hwf Hroom)
    as (r & x & h1 & Hp & Hwf1 & Hle & [(_ & Ha & _)|[(_ & Hm & _)|
        (-> & _ & Hc & Hcnt & Hoth & _)]]); [congruence|contradiction|].
  destruct (uhash_delete_has h1 x key _ Hwf1 Hc)
    as (h2 & Hd & Hwf2 & Hsz & Hcnt2 & Hocc & _ & Hnm & Hoth2).
  exists x, h1, h2.
  split; [assumption|]. split; [assumption|]. split; [assumption|].
  split; [lia|]. split.
  - unfold p_uhash_occupied in *. rewrite Hsz, Hocc. exact Hle.
  - intros k. apply lookup_ext; [assumption|assumption|]. intros ov.
    destruct (key_eq_dec k key) as [->|Hk].
    + split; intros [i Hi]; exfalso; [apply Hnm|apply Habs]; by exists i, ov.
    + by rewrite (Hoth2 k ov Hk), (Hoth k ov Hk).
Qed.

End Properties.

(** * The tables of the test suite *)

Lemma IntHash_equal_spec : ∀ a b : Z, equal_func a b = true ↔ a = b.
Proof. exact Z.eqb_eq. Qed.

Lemma WF_uhmap : WF (uhmap : UHash Z Z).
Proof. apply (wfb_sound IntHash_equal_spec). vm_compute. reflexivity. Qed.

Lemma WF_set_0_99 : WF set_0_99.
Proof. apply (wfb_sound IntHash_equal_spec). vm_compute. reflexivity. Qed.

Lemma WF_map_0_99 : WF map_0_99.
Proof. apply (wfb_sound IntHash_equal_spec). vm_compute. reflexivity. Qed.

Lemma WF_set_0 : WF set_0.
Proof. apply (wfb_sound IntHash_equal_spec). vm_compute. reflexivity. Qed.

Lemma WF_set_0_cap8 : WF set_0_cap8.
Proof. apply (wfb_sound IntHash_equal_spec). vm_compute. reflexivity. Qed.

Lemma reachable_table l : reachable (table (put_all uhset l)).
Proof.
  unfold table. destruct (put_all uhset l) as [h|] eqn:Hp; simpl.
  - eapply put_all_reachable; [apply reach_uhset|exact Hp].
  - apply reach_uhset.
Qed.

Lemma cell_set_0_99 : cell set_0_99 0 0 None.
Proof. apply cell_intro; vm_compute; reflexivity. Qed.

Lemma cell_map_0_99 : cell map_0_99 0 0 (Some 0).
Proof. apply cell_intro; vm_compute; reflexivity. Qed.

(** ** Claim C1 on the map [{0:0, ..., 99:99}] *)

Lemma uhmap_set_last_write_wins_witness :
  is_Some (set_all uhmap bindings_0_99) ∧
  (∀ k v, last_binding bindings_0_99 k = Some v →
          ∀ d, uhmap_get map_0_99 k d = Some v) ∧
  ∃ h', uhmap_set alloc_all_ok map_0_99 0 1 = Some (UHASH_PRESENT, Some 0, h') ∧
        ∀ d, uhmap_get h' 0 d = Some 1.
Proof.
  destruct (uhmap_set_last_write_wins IntHash_equal_spec uhmap bindings_0_99)
    as [Htot Hseq].
  - exact WF_uhmap.
  - reflexivity.
  - vm_compute. reflexivity.
  - split.
    + apply Htot. unfold bindings_0_99. apply Forall_fmap, Forall_true.
      intros i. reflexivity.
    + destruct (Hseq map_0_99) as [Hget Hset]; [vm_compute; reflexivity|].
      split; [exact Hget|].
      destruct (Hset alloc_all_ok 0 0 1) as (r & e & h' & Hs & Hres).
      * exists 0. exact cell_map_0_99.
      * destruct Hres as [[_ Hf]|(-> & -> & Hg)]; [discriminate Hf|].
        exists h'. split; [exact Hs|exact Hg].
Defined.

(** ** Claim C2 on the set [{0, ..., 99}] *)

Lemma uhash_resize_preserves_witness :
  ∃ r h', uhash_resize alloc_all_ok set_0_99 1000 = Some (r, h') ∧
    (r = UHASH_OK → _size h' = resize_target 1000 ∧
       ∀ key, uhash_contains set_0_99 key = Some true →
              uhash_contains h' key = Some true ∧
              ∀ d, uhmap_get h' key d = uhmap_get set_0_99 key d).
Proof.
  destruct (uhash_resize_preserves IntHash_equal_spec alloc_all_ok set_0_99 1000
              WF_set_0_99) as (_ & _ & r & h' & Hr & _ & Hgood).
  exists r, h'. split; [exact Hr|]. intros Hok. apply Hgood.
  - vm_compute. reflexivity.
  - exact Hok.
  - vm_compute. reflexivity.
Defined.

(** ** Claim C3: 25 keys fill 32 buckets *)

(** The claim as stated fails: the set of the keys [0 .. 24] has capacity
    32, and 25 is not below [0.77 * 32 = 24.64]. *)
Lemma load_factor_not_strict :
  reachable set_0_24 ∧ _size set_0_24 < 2 ^ 31 ∧
  ¬ (100 * _count set_0_24 < 77 * _size set_0_24).
Proof.
  split; [apply reachable_table|].
  split; vm_compute; [reflexivity|intros H; discriminate H].
Qed.

Lemma load_factor_bound_witness :
  0 ≤ _count set_0_24 ≤ p_uhash_occupied set_0_24 ∧
  p_uhash_occupied set_0_24 ≤ p_uhash_upper_bound (_size set_0_24) ∧
  p_uhash_upper_bound (_size set_0_24) = 25.
Proof.
  destruct (load_factor_bound set_0_24 (reachable_table (seqZ 0 25))) as (Hc & Hb & _).
  split; [exact Hc|]. split; [|vm_compute; reflexivity].
  apply Hb. vm_compute. reflexivity.
Defined.

(** ** Claim C4: the fourth insertion into four buckets *)

(** The claim as stated fails: the set of the keys [0, 1, 2] has three
    occupied buckets out of four, which is the upper bound of capacity 4;
    inserting 0 again returns [UHASH_PRESENT] and doubles the capacity. *)
Lemma put_present_resizes :
  cell set_0_2 0 0 None ∧
  ∃ h', uhash_put alloc_all_ok set_0_2 0 = Some (UHASH_PRESENT, 0, h') ∧
        _size set_0_2 = 4 ∧ _size h' = 8 ∧ _size h' ≠ _size set_0_2.
Proof.
  split; [apply cell_intro; vm_compute; reflexivity|].
  eexists. split; [vm_compute; reflexivity|].
  split; [reflexivity|]. split; [reflexivity|]. vm_compute. intros H; discriminate H.
Qed.

Lemma uhash_put_present_witness :
  uhash_put alloc_all_ok set_0_99 0 = Some (UHASH_PRESENT, 0, set_0_99) ∧
  _count set_0_99 = 100.
Proof.
  split; [|vm_compute; reflexivity].
  apply (proj1 (uhash_put_present IntHash_equal_spec alloc_all_ok set_0_99 0 0 None
                  WF_set_0_99 cell_set_0_99)).
  vm_compute. reflexivity.
Defined.

(** ** Claim C5 on the set [{0, ..., 99}] *)

Lemma uhash_delete_correct_witness :
  ∃ h1, uhash_delete set_0_99 0 = Some h1 ∧
    is_tomb (flags_of h1) 0 = true ∧ _count h1 = _count set_0_99 - 1 ∧
    _occupied h1 = _occupied set_0_99 ∧
    uhash_get h1 0 = Some UHASH_INDEX_MISSING ∧
    ∃ i h2, uhash_put alloc_all_ok h1 0 = Some (UHASH_INSERTED, i, h2) ∧
            uhash_get h2 0 = Some i.
Proof.
  destruct (uhash_delete_correct IntHash_equal_spec set_0_99 WF_set_0_99) as [Hlive _].
  destruct (Hlive 0 0 None cell_set_0_99)
    as (h1 & Hd & Ht & Hc & Ho & Hg & Hput).
  exists h1. split; [exact Hd|]. split; [exact Ht|]. split; [exact Hc|].
  split; [exact Ho|]. split; [exact Hg|].
  destruct (Hput ltac:(vm_compute; reflexivity) alloc_all_ok)
    as (r & i & h2 & Hp & [(-> & Hg2 & _)|(_ & Hf)]); [|discriminate Hf].
  exists i, h2. split; [exact Hp|exact Hg2].
Defined.

(** ** Claim C6 on the set [{0, ..., 99}] *)

Lemma allocated_set_0_99 : allocated set_0_99.
Proof.
  apply WF_allocated; [exact WF_set_0_99|].
  vm_compute. intros H; discriminate H.
Qed.

Lemma uhash_get_terminates_witness :
  ∃ m r, 0 ≤ m ≤ 2 * _size set_0_99 - 1 ∧ uhash_get set_0_99 356 = Some r.
Proof.
  destruct (proj2 (uhash_get_terminates IntHash_equal_spec set_0_99 356)
              allocated_set_0_99) as (m & r & Hm & Hr & _).
  exists m, r. split; [exact Hm|exact Hr].
Defined.

(** ** Claim C7: the shrink branch does not test [ulib_realloc] *)

(** Claim C7 fails on the code.  The set of the key 0 in eight buckets is
    resized to four buckets while the reallocation of the key array fails:
    the call returns [UHASH_OK], not [UHASH_ERR], and leaves a table of
    count 1 whose key array is [NULL], in which the lookup of 0, found
    before the call, has no defined result. *)
Theorem shrink_realloc_unchecked :
  uhash_contains set_0_cap8 0 = Some true ∧
  shrink_fails keys_alloc_fails set_0_cap8 4 = true ∧
  ∃ h', uhash_resize keys_alloc_fails set_0_cap8 4 = Some (UHASH_OK, h') ∧
        _size h' = 4 ∧ _count h' = 1 ∧ _keys h' = None ∧ uhash_get h' 0 = None.
Proof.
  split; [vm_compute; reflexivity|]. split; [vm_compute; reflexivity|].
  eexists. split; [vm_compute; reflexivity|]. repeat split.
Qed.

(** ** Claim C8: the counters, and the marker of a map without storage *)

(** In the map that [uhmap()] returns, the [_occupied] field holds the
    marker 1 that [uhash_is_map] reads, while the capacity is 0;
    [p_uhash_occupied] reports no occupied bucket. *)
Lemma fresh_map_marker :
  _occupied (uhmap : UHash Z Z) = 1 ∧ _size (uhmap : UHash Z Z) = 0 ∧
  p_uhash_occupied (uhmap : UHash Z Z) = 0 ∧
  uhash_is_map (uhmap : UHash Z Z) = true ∧
  uhash_is_map (uhset : UHash Z Z) = false.
Proof. repeat split. Qed.

Lemma counter_ordering_witness :
  (0 ≤ _count set_0_99 ≤ p_uhash_occupied set_0_99 ∧
   p_uhash_occupied set_0_99 ≤ _size set_0_99 ∧
   (_size set_0_99 ≠ 0 → p_uhash_occupied set_0_99 = _occupied set_0_99)) ∧
  (0 ≤ _count (uhmap : UHash Z Z) ≤ p_uhash_occupied (uhmap : UHash Z Z) ∧
   p_uhash_occupied (uhmap : UHash Z Z) ≤ _size (uhmap : UHash Z Z)).
Proof.
  split.
  - exact (counter_ordering set_0_99 (reachable_table (seqZ 0 100))).
  - destruct (counter_ordering (uhmap : UHash Z Z) reach_uhmap) as (Hc & Ho & _).
    split; [exact Hc|exact Ho].
Defined.

(** ** Claim C9: the capacities of the memory test *)

(** The claim as stated fails: after [uhash_resize(h, 200)] the capacity
    is 256, which is below [200 / 0.77]. *)
Lemma resize_200_capacity :
  ∃ h1, uhash_resize alloc_all_ok set_0 200 = Some (UHASH_OK, h1) ∧
        ¬ (100 * 200 ≤ 77 * _size h1).
Proof.
  eexists. split; [vm_compute; reflexivity|]. vm_compute. intros H. apply H. reflexivity.
Qed.

(** Claim C9, as amended.  The set holding the key 0 has capacity 4 and
    one entry.  Resizing it to 200 succeeds and leaves capacity 256, the
    least power of two that is not below 200; resizing the result to 100
    succeeds and leaves capacity 128, which is smaller. *)
Theorem resize_capacity_arithmetic :
  _size set_0 = 4 ∧ _count set_0 = 1 ∧
  ∃ h1 h2,
    uhash_resize alloc_all_ok set_0 200 = Some (UHASH_OK, h1) ∧
    _size h1 = 256 ∧ pow2_size 256 ∧ (∀ m, pow2_size m → 200 ≤ m → 256 ≤ m) ∧
    uhash_resize alloc_all_ok h1 100 = Some (UHASH_OK, h2) ∧
    _size h2 = 128 ∧ _size h2 < _size h1.
Proof.
  split; [reflexivity|]. split; [reflexivity|].
  eexists. eexists. split; [vm_compute; reflexivity|]. split; [reflexivity|].
  split; [exact (resize_target_pow2 200)|].
  split; [exact (proj2 (resize_target_least 200 ltac:(lia)))|].
  split; [vm_compute; reflexivity|]. split; reflexivity.
Qed.

(** ** Claim C10 on a set with a tombstone *)

Lemma WF_set_1_99 : WF set_1_99.
Proof. apply (wfb_sound IntHash_equal_spec). vm_compute. reflexivity. Qed.

Lemma uhash_resize_purges_witness :
  is_tomb (flags_of set_1_99) 0 = true ∧
  _occupied set_1_99 = 100 ∧ _count set_1_99 = 99 ∧
  ∃ h', uhash_resize alloc_all_ok set_1_99 256 = Some (UHASH_OK, h') ∧
    _size h' = 256 ∧ _count h' = 99 ∧ _occupied h' = 99 ∧
    ∀ i, 0 ≤ i < _size h' → is_tomb (flags_of h') i = false.
Proof.
  split; [vm_compute; reflexivity|]. split; [vm_compute; reflexivity|].
  split; [vm_compute; reflexivity|].
  destruct (uhash_resize_purges IntHash_equal_spec alloc_all_ok set_1_99 256 WF_set_1_99)
    as (r & h' & Hr & [(_ & Hf)|(-> & Hsz & Hc & Ho & _ & Ht)]).
  - vm_compute. reflexivity.
  - vm_compute in Hf. discriminate Hf.
  - exists h'. split; [exact Hr|]. split; [exact Hsz|].
    assert (Hc99 : _count h' = 99) by (rewrite Hc; vm_compute; reflexivity).
    split; [exact Hc99|]. split; [rewrite Ho; exact Hc99|exact Ht].
Defined.

(** ** The string hash *)

Lemma x31_step h c : wrap (wrap (wrap (Z.shiftl (wrap h) 5) - wrap h) + wrap c) = wrap (31 * h + c).
Proof.
  unfold wrap, ULIB_UINT_BITS. rewrite Z.shiftl_mul_pow2 by lia.
  change (2 ^ 5) with 32. change (2 ^ 32) with 4294967296.
  Z.div_mod_to_equations. lia.
Qed.

Lemma x31_loop_spec cs : ∀ h rest,
  Forall (λ c, c ≠ 0 ∧ -128 ≤ c ≤ 255) cs →
  x31_loop (cs ++ 0 :: rest) (wrap h) = Some (wrap (fold_left (λ h c, 31 * h + c) cs h)).
Proof.
  induction cs as [|c cs IH]; intros h rest Hcs; [reflexivity|].
  apply Forall_cons in Hcs as [[Hc _] Hcs]. simpl.
  apply Z.eqb_neq in Hc. rewrite Hc, x31_step. by apply IH.
Qed.

(** Property X23.  For a string of non-zero characters followed by the
    terminating zero, [p_uhash_x31_str_hash] returns the value of the
    string read as a number in base 31, reduced to a [ulib_uint]; what
    follows the terminator in memory has no influence. *)
Theorem x31_str_hash_base31 cs rest :
  Forall (λ c, c ≠ 0 ∧ -128 ≤ c ≤ 255) cs →
  p_uhash_x31_str_hash (cs ++ 0 :: rest) = Some (wrap (base31 cs)).
Proof.
  intros Hcs. destruct cs as [|c cs]; [reflexivity|].
  pose proof Hcs as [[Hc Hr] _]%Forall_cons. simpl.
  assert (Hw : wrap c ≠ 0).
  { unfold wrap, ULIB_UINT_BITS. change (2 ^ 32) with 4294967296.
    Z.div_mod_to_equations. lia. }
  apply Z.eqb_neq in Hw. rewrite Hw.
  apply Forall_cons in Hcs as [_ Hcs].
  rewrite (x31_loop_spec cs c rest Hcs). unfold base31. simpl.
  by rewrite Z.add_0_l.
Qed.

Lemma x31_str_hash_base31_witness :
  p_uhash_x31_str_hash [97; 98; 99; 0; 100] = Some (wrap (base31 [97; 98; 99])) ∧
  wrap (base31 [97; 98; 99]) = 96354.
Proof.
  split; [|vm_compute; reflexivity].
  apply (x31_str_hash_base31 [97; 98; 99] [100]).
  repeat constructor; lia.
Defined.

(** ** Instances of the further properties on the tables of the test suite *)

Lemma uhash_get_decides_membership_witness :
  ∃ r, uhash_get set_0_99 5 = Some r ∧ load (_keys set_0_99) r = Some 5 ∧
       uhash_contains set_0_99 5 = Some true.
Proof.
  destruct (uhash_get_decides_membership IntHash_equal_spec set_0_99 5 WF_set_0_99)
    as (r & Hr & [(-> & _)|(_ & _ & Hk & Hc & _)]).
  - vm_compute in Hr. discriminate Hr.
  - exists r. split; [exact Hr|]. split; [exact Hk|exact Hc].
Defined.

Lemma uhash_put_absent_witness :
  uhash_contains set_0_99 100 = Some false ∧
  ∃ x h', uhash_put alloc_all_ok set_0_99 100 = Some (UHASH_INSERTED, x, h') ∧
          uhash_get h' 100 = Some x ∧ _count h' = 101.
Proof.
  assert (Hocc : p_uhash_occupied set_0_99 < 2 ^ 31) by (vm_compute; reflexivity).
  assert (Habs : uhash_contains set_0_99 100 = Some false) by (vm_compute; reflexivity).
  split; [exact Habs|].
  destruct (uhash_put_absent IntHash_equal_spec alloc_all_ok set_0_99 100
              WF_set_0_99 Hocc Habs)
    as (r & x & h' & Hp & _ & [(_ & Ha & _)|(-> & Hg & _ & Hc & _)]).
  - vm_compute in Ha. discriminate Ha.
  - exists x, h'. split; [exact Hp|]. split; [exact Hg|]. rewrite Hc. reflexivity.
Defined.

Lemma checked_alloc_failure_atomic_witness :
  alloc_fails keys_alloc_fails set_0 200 = true ∧
  ∃ h', uhash_resize keys_alloc_fails set_0 200 = Some (UHASH_ERR, h') ∧
        _size h' = 4 ∧ _count h' = 1 ∧
        ∀ k, uhash_contains h' k = uhash_contains set_0 k.
Proof.
  assert (Hc : _count set_0 < p_uhash_upper_bound (resize_target 200))
    by (vm_compute; reflexivity).
  assert (Hf : alloc_fails keys_alloc_fails set_0 200 = true) by (vm_compute; reflexivity).
  split; [exact Hf|].
  destruct (proj1 (checked_alloc_failure_atomic IntHash_equal_spec keys_alloc_fails
                     set_0 WF_set_0) 200 Hc Hf)
    as (h' & Hr & _ & Hsz & Hcnt & _ & Hk).
  exists h'. split; [exact Hr|]. split; [rewrite Hsz; reflexivity|].
  split; [rewrite Hcnt; reflexivity|]. intros k. exact (proj1 (Hk k 0)).
Defined.

Lemma built_set_0 : built set_0.
Proof.
  eapply (built_put alloc_all_ok uhset 0); [apply built_uhset| |].
  - vm_compute. reflexivity.
  - vm_compute. reflexivity.
Qed.

Lemma built_invariant_witness :
  built set_0 ∧ NoDup (live_keys set_0) ∧
  Z.of_nat (length (live_keys set_0)) = _count set_0 ∧
  ∀ key, key ∈ live_keys set_0 ↔ uhash_contains set_0 key = Some true.
Proof.
  split; [exact built_set_0|].
  destruct (built_invariant IntHash_equal_spec set_0 built_set_0)
    as (_ & _ & Hnd & Hlen & Hin & _).
  split; [exact Hnd|]. split; [exact Hlen|exact Hin].
Defined.

Lemma probe_sequence_visits_all_witness :
  probe_pos 8 3 15 = 3 ∧
  ∀ x, 0 ≤ x < 8 → ∃ m, 0 ≤ m < 8 ∧ probe_pos 8 3 m = x.
Proof.
  assert (Hn : pow2_size 8) by (exists 3; split; [lia|reflexivity]).
  assert (Hs : 0 ≤ 3 < 8) by lia.
  destruct (probe_sequence_visits_all 8 3 Hn Hs) as (_ & _ & _ & Hall & Hlast).
  split; [exact Hlast|exact Hall].
Defined.

Lemma flag_update_frame_witness :
  ∃ fd, p_uhf_set_isdel_true [0; 0] 19 = Some fd ∧
        p_uhf_isdel fd 19 = Some 1 ∧
        ∀ j, 0 ≤ j → j ≠ 19 → p_uhf_iseither fd j = p_uhf_iseither [0; 0] j.
Proof.
  assert (Hi : 0 ≤ 19 < 16 * Z.of_nat (length [0; 0])) by (simpl; lia).
  destruct (flag_update_frame [0; 0] 19 Hi)
    as (fb & fe & fd & _ & _ & Hd & _ & _ & _ & _ & _ & _ & Hd1 & _ & Hoth).
  exists fd. split; [exact Hd|]. split; [exact Hd1|].
  intros j Hj Hne. exact (proj2 (proj2 (Hoth j Hj Hne))).
Defined.

Lemma uhash_clear_empties_witness :
  ∃ h', uhash_clear set_0_99 = Some h' ∧ _size h' = 256 ∧ _count h' = 0 ∧
        ∀ key, uhash_get h' key = Some UHASH_INDEX_MISSING.
Proof.
  destruct (uhash_clear_empties IntHash_equal_spec set_0_99 WF_set_0_99)
    as (h' & Hc & _ & Hsz & Hcnt & _ & _ & Hg).
  exists h'. split; [exact Hc|]. split; [rewrite Hsz; reflexivity|].
  split; [exact Hcnt|exact Hg].
Defined.

Lemma uhash_next_least_live_witness :
  ∃ r, uhash_next set_1_99 0 = Some r ∧ 0 ≤ r ≤ _size set_1_99 ∧
       (∀ j, 0 ≤ j < r → uhash_exists set_1_99 j = Some false) ∧
       (r < _size set_1_99 → uhash_exists set_1_99 r = Some true).
Proof.
  assert (Hi : 0 ≤ 0 ≤ _size set_1_99) by (vm_compute; split; discriminate).
  exact (uhash_next_least_live set_1_99 0 WF_set_1_99 Hi).
Defined.

Lemma uhset_get_any_member_witness :
  ∃ k, uhset_get_any set_0_99 1000 = Some k ∧ uhash_contains set_0_99 k = Some true.
Proof.
  destruct (uhset_get_any_member IntHash_equal_spec set_0_99 1000 WF_set_0_99)
    as [(Hc & _)|(_ & Hk)].
  - vm_compute in Hc. discriminate Hc.
  - exact Hk.
Defined.

Lemma uhmap_add_keeps_existing_witness :
  ∃ r e h', uhmap_add alloc_all_ok map_0_99 5 7 true = Some (r, e, h') ∧
    ∀ k, k ≠ 5 → uhash_contains h' k = uhash_contains map_0_99 k ∧
                 ∀ d, uhmap_get h' k d = uhmap_get map_0_99 k d.
Proof.
  assert (Hm : uhash_is_map map_0_99 = true) by (vm_compute; reflexivity).
  assert (Hocc : p_uhash_occupied map_0_99 < 2 ^ 31) by (vm_compute; reflexivity).
  destruct (uhmap_add_keeps_existing IntHash_equal_spec alloc_all_ok map_0_99 5 7 true
              WF_map_0_99 Hm Hocc) as (r & e & h' & Ha & _ & Hoth & _).
  exists r, e, h'. split; [exact Ha|exact Hoth].
Defined.

Lemma uhmap_replace_present_only_witness :
  ∃ e h', uhmap_replace map_0_99 5 7 true = Some (true, e, h') ∧
          ∀ d, uhmap_get h' 5 d = Some 7.
Proof.
  assert (Hm : uhash_is_map map_0_99 = true) by (vm_compute; reflexivity).
  destruct (uhmap_replace_present_only IntHash_equal_spec map_0_99 5 7 true
              WF_map_0_99 Hm)
    as (b & e & h' & Hr & _ & [(_ & Hc & _)|(-> & _ & _ & _ & Hg & _)]).
  - vm_compute in Hc. discriminate Hc.
  - exists e, h'. split; [exact Hr|exact Hg].
Defined.

Lemma uhmap_remove_present_only_witness :
  ∃ rv h', uhmap_remove map_0_99 5 true true = Some (true, Some 5, rv, h') ∧
           uhash_contains h' 5 = Some false ∧ _count h' = 99.
Proof.
  assert (Hm : true = true → uhash_is_map map_0_99 = true)
    by (intros _; vm_compute; reflexivity).
  destruct (uhmap_remove_present_only IntHash_equal_spec map_0_99 5 true true
              WF_map_0_99 Hm)
    as (b & rk & rv & h' & Hr & _ & [(_ & Hc & _)|(-> & _ & -> & _ & Hg & Hcnt & _)]).
  - vm_compute in Hc. discriminate Hc.
  - exists rv, h'. split; [exact Hr|]. split; [exact Hg|]. rewrite Hcnt. reflexivity.
Defined.

Lemma uhset_remove_present_only_witness :
  ∃ h', uhset_remove set_0_99 5 true = Some (true, Some 5, h') ∧
        uhash_contains h' 5 = Some false ∧ _count h' = 99.
Proof.
  destruct (uhset_remove_present_only IntHash_equal_spec set_0_99 5 true WF_set_0_99)
    as (b & e & h' & Hr & _ & [(_ & Hc & _)|(-> & _ & -> & Hg & Hcnt & _)]).
  - vm_compute in Hc. discriminate Hc.
  - exists h'. split; [exact Hr|]. split; [exact Hg|]. rewrite Hcnt. reflexivity.
Defined.

Lemma uhset_replace_present_only_witness :
  ∃ b e, uhset_replace set_0_99 5 true = Some (b, e, set_0_99) ∧
         uhash_contains set_0_99 5 = Some b ∧
         e = (if b && true then Some 5 else None).
Proof.
  exact (uhset_replace_present_only IntHash_equal_spec set_0_99 5 true WF_set_0_99).
Defined.

Lemma WF_set_0_24 : WF set_0_24.
Proof. apply (wfb_sound IntHash_equal_spec). vm_compute. reflexivity. Qed.

Lemma WF_set_0_2 : WF set_0_2.
Proof. apply (wfb_sound IntHash_equal_spec). vm_compute. reflexivity. Qed.

Lemma uhset_insert_all_correct_witness :
  ∃ r h', uhset_insert_all alloc_all_ok (λ _, alloc_all_ok) set_0_2 [2; 3; 4]
            = Some (r, h') ∧
    (∀ k, k ∈ [2; 3; 4] → uhash_contains h' k = Some true) ∧
    (∀ k, uhash_contains set_0_2 k = Some true → uhash_contains h' k = Some true).
Proof.
  assert (Hocc : p_uhash_occupied set_0_2 + Z.of_nat (length [2; 3; 4]) < 2 ^ 31)
    by (vm_compute; reflexivity).
  assert (Hsh : shrink_fails alloc_all_ok set_0_2 (Z.of_nat (length [2; 3; 4])) = false)
    by (vm_compute; reflexivity).
  destruct (uhset_insert_all_correct IntHash_equal_spec alloc_all_ok (λ _, alloc_all_ok)
              set_0_2 [2; 3; 4] WF_set_0_2 Hocc Hsh)
    as (r & h' & Hi & _ & Hold & _ & [(_ & [Ha|[j Ha]])|(Hnew & _)]).
  - vm_compute in Ha. discriminate Ha.
  - vm_compute in Ha. discriminate Ha.
  - exists r, h'. split; [exact Hi|]. split; [exact Hnew|exact Hold].
Defined.

Lemma uhset_is_superset_correct_witness :
  ∃ b, uhset_is_superset set_0_99 set_0_24 = Some b ∧
       (b = true ↔
        ∀ k, uhash_contains set_0_24 k = Some true → uhash_contains set_0_99 k = Some true).
Proof.
  exact (uhset_is_superset_correct IntHash_equal_spec set_0_99 set_0_24
           WF_set_0_99 WF_set_0_24).
Defined.

Lemma uhset_equals_correct_witness :
  ∃ b, uhset_equals set_0_99 set_0_24 = Some b ∧
       (b = true ↔ ∀ k, uhash_contains set_0_99 k = uhash_contains set_0_24 k).
Proof.
  exact (uhset_equals_correct IntHash_equal_spec set_0_99 set_0_24
           WF_set_0_99 WF_set_0_24).
Defined.

Lemma uhset_union_correct_witness :
  ∃ h', uhset_union (λ _, alloc_all_ok) set_0_2 set_0_24 = Some (UHASH_OK, h') ∧
    (∀ k, uhash_contains set_0_2 k = Some true → uhash_contains h' k = Some true) ∧
    (∀ k, uhash_contains set_0_24 k = Some true → uhash_contains h' k = Some true).
Proof.
  assert (Hocc : p_uhash_occupied set_0_2 + _count set_0_24 < 2 ^ 31)
    by (vm_compute; reflexivity).
  destruct (uhset_union_correct IntHash_equal_spec (λ _, alloc_all_ok) set_0_2 set_0_24
              WF_set_0_2 WF_set_0_24 Hocc)
    as (r & h' & Hu & _ & H1 & _ & [(_ & j & Ha)|(-> & H2)]).
  - vm_compute in Ha. discriminate Ha.
  - exists h'. split; [exact Hu|]. split; [exact H1|exact H2].
Defined.

Lemma uhset_intersect_correct_witness :
  ∃ h', uhset_intersect set_0_99 set_0_24 = Some h' ∧ _size h' = 256 ∧
    ∀ k, uhash_contains h' k = Some true ↔
         (uhash_contains set_0_99 k = Some true ∧ uhash_contains set_0_24 k = Some true).
Proof.
  destruct (uhset_intersect_correct IntHash_equal_spec set_0_99 set_0_24
              WF_set_0_99 WF_set_0_24) as (h' & Hi & _ & Hsz & _ & Hk).
  exists h'. split; [exact Hi|]. split; [rewrite Hsz; reflexivity|exact Hk].
Defined.

(** The set [{0}] has the same keys in four buckets and in eight. *)
Lemma same_keys_set_0 k : uhash_contains set_0_cap8 k = uhash_contains set_0 k.
Proof.
  destruct (resize_members IntHash_equal_spec alloc_all_ok set_0 8 WF_set_0)
    as (r & h' & Hr & _ & Hgood).
  destruct (Hgood ltac:(vm_compute; reflexivity)) as (Hwf' & Hsame & _).
  unfold set_0_cap8. rewrite Hr. simpl.
  apply (contains_ext IntHash_equal_spec); [exact WF_set_0|exact Hwf'|].
  unfold member. split.
  - intros (i & ov & Hc). assert (Hh : has set_0 k ov) by (apply Hsame; by exists i).
    destruct Hh as (j & Hj). by exists j, ov.
  - intros (i & ov & Hc). assert (Hh : has h' k ov) by (apply Hsame; by exists i).
    destruct Hh as (j & Hj). by exists j, ov.
Qed.

Lemma uhset_hash_of_keys_witness :
  _size set_0_cap8 = 8 ∧ _size set_0 = 4 ∧
  uhset_equals set_0_cap8 set_0 = Some true ∧
  ∃ x, uhset_hash set_0_cap8 = Some x ∧ uhset_hash set_0 = Some x.
Proof.
  split; [vm_compute; reflexivity|]. split; [vm_compute; reflexivity|].
  destruct (uhset_hash_of_keys IntHash_equal_spec set_0_cap8 set_0
              WF_set_0_cap8 WF_set_0 same_keys_set_0) as (He & x & H1 & H2 & _).
  split; [exact He|]. exists x. split; [exact H1|exact H2].
Defined.

Lemma uhash_copy_as_set_correct_witness :
  ∃ d, uhash_copy_as_set alloc_all_ok map_0_99 uhset = Some (UHASH_OK, d) ∧
       uhash_is_map d = false ∧ _count d = 100 ∧
       (∀ k, uhash_contains d k = uhash_contains map_0_99 k) ∧
       uhset_equals d map_0_99 = Some true.
Proof.
  destruct (uhash_copy_as_set_correct IntHash_equal_spec alloc_all_ok map_0_99 uhset
              WF_map_0_99 eq_refl eq_refl eq_refl)
    as (d & Hc & _ & Hm & _ & Hcnt & Hk & He).
  exists d. split; [exact Hc|]. split; [exact Hm|].
  split; [rewrite Hcnt; reflexivity|]. split; [exact Hk|exact He].
Defined.

Lemma uhash_copy_correct_witness :
  ∃ d, uhash_copy alloc_all_ok map_0_99 uhmap = Some (UHASH_OK, d) ∧
       uhash_is_map d = true ∧ _count d = 100 ∧
       ∀ k v0, uhash_contains d k = uhash_contains map_0_99 k ∧
               uhmap_get d k v0 = uhmap_get map_0_99 k v0.
Proof.
  assert (Hm : uhash_is_map map_0_99 = true) by (vm_compute; reflexivity).
  destruct (uhash_copy_correct IntHash_equal_spec alloc_all_ok map_0_99 uhmap
              WF_map_0_99 (or_introl Hm) eq_refl)
    as (d & Hc & _ & Hmd & _ & Hcnt & Hk).
  exists d. split; [exact Hc|]. split; [rewrite Hmd; exact Hm|].
  split; [rewrite Hcnt; reflexivity|exact Hk].
Defined.

Lemma uhash_foreach_visits_live_witness :
  uhash_foreach set_1_99 = Some (live_buckets set_1_99) ∧
  Z.of_nat (length (live_buckets set_1_99)) = 99 ∧
  ∀ k, uhash_contains set_1_99 k = Some true ↔
       ∃ i, i ∈ live_buckets set_1_99 ∧ load (_keys set_1_99) i = Some k.
Proof.
  destruct (uhash_foreach_visits_live IntHash_equal_spec set_1_99 WF_set_1_99)
    as (Hf & _ & Hlen & _ & Hk).
  split; [exact Hf|]. split; [rewrite Hlen; reflexivity|exact Hk].
Defined.

Lemma uhash_is_map_stable_witness :
  uhash_is_map (uhmap : UHash Z Z) = true ∧
  ∀ key r x h', uhash_put alloc_all_ok uhmap key = Some (r, x, h') →
                uhash_is_map h' = true.
Proof.
  split; [reflexivity|]. intros key r x h' Hp.
  assert (Hocc : p_uhash_occupied (uhmap : UHash Z Z) < 2 ^ 31) by reflexivity.
  rewrite (proj1 (uhash_is_map_stable IntHash_equal_spec alloc_all_ok uhmap WF_uhmap)
             key r x h' Hocc Hp).
  reflexivity.
Defined.

Lemma put_delete_round_trip_witness :
  ∃ x h1 h2, uhash_put alloc_all_ok set_0_99 100 = Some (UHASH_INSERTED, x, h1) ∧
    uhash_delete h1 x = Some h2 ∧ _count h2 = 100 ∧
    ∀ k, uhash_contains h2 k = uhash_contains set_0_99 k.
Proof.
  assert (Hocc : p_uhash_occupied set_0_99 < 2 ^ 31) by (vm_compute; reflexivity).
  assert (Habs : uhash_contains set_0_99 100 = Some false) by (vm_compute; reflexivity).
  destruct (put_delete_round_trip IntHash_equal_spec alloc_all_ok set_0_99 100
              WF_set_0_99 Hocc Habs eq_refl)
    as (x & h1 & h2 & Hp & Hd & _ & Hcnt & _ & Hk).
  exists x, h1, h2. split; [exact Hp|]. split; [exact Hd|].
  split; [rewrite Hcnt; reflexivity|]. intros k. exact (proj1 (Hk k)).
Defined.
